(** * BusTub storage core: buffer pool, LRU-K replacer, extendible hash
      directory and B+ tree index.

    A shallow embedding of the C++ sources, one module per translation
    unit (part I), followed by the properties established about them
    (part II). *)

From Stdlib Require Import ZArith List Bool Lia Arith Sorted.
Import ListNotations.
Local Open Scope Z_scope.

(* ################################################################## *)
(** * Part I: the embedding                                            *)
(* ################################################################## *)

(* ================================================================== *)
(** ** Outcomes of a call                                              *)
(* ================================================================== *)

(** A C++ call either returns, throws [std::invalid_argument], runs into
    behaviour the language leaves undefined (an index outside a vector or
    a page, [back()] of an empty list, a null page pointer), or is still
    running when the recursion budget of the model is used up. *)
Inductive outcome (A : Type) : Type :=
| Done (a : A)
| InvalidArgument
| Undefined
| Diverge.

Arguments Done {A} a.
Arguments InvalidArgument {A}.
Arguments Undefined {A}.
Arguments Diverge {A}.

Definition bind {A B : Type} (m : outcome A) (f : A -> outcome B) : outcome B :=
  match m with
  | Done a => f a
  | InvalidArgument => InvalidArgument
  | Undefined => Undefined
  | Diverge => Diverge
  end.

Notation "x <- m ;; k" := (bind m (fun x => k))
  (at level 61, m at next level, right associativity).
Notation "' p <- m ;; k" := (bind m (fun p => k))
  (at level 61, p pattern, m at next level, right associativity).

Definition returned {A : Type} (m : outcome A) : bool :=
  match m with Done _ => true | _ => false end.

(* ================================================================== *)
(** ** Machine integers and vectors                                    *)
(* ================================================================== *)

(** [size_t] is 64 bits wide and wraps; [page_id_t] and [frame_id_t] are
    [int32_t].  The page-id allocator is a [std::atomic<page_id_t>], whose
    increment wraps in two's complement. *)
Definition size_t_modulus : Z := 2 ^ 64.
Definition wrap_size_t (z : Z) : Z := z mod size_t_modulus.

Definition int_modulus : Z := 2 ^ 32.
Definition INT_MAX : Z := 2 ^ 31 - 1.
Definition wrap_int (z : Z) : Z := (z + 2 ^ 31) mod int_modulus - 2 ^ 31.

Definition INVALID_PAGE_ID : Z := -1.
Definition HEADER_PAGE_ID : Z := 0.

(** [v[i]] on a [std::vector] with [i] negative or past the end is outside
    the vector. *)
Definition vec_get {A : Type} (v : list A) (i : Z) : outcome A :=
  if i <? 0 then Undefined
  else match nth_error v (Z.to_nat i) with
       | Some a => Done a
       | None => Undefined
       end.

Fixpoint list_set {A : Type} (v : list A) (n : nat) (a : A) : list A :=
  match v, n with
  | [], _ => []
  | _ :: t, O => a :: t
  | h :: t, S m => h :: list_set t m a
  end.

Definition vec_set {A : Type} (v : list A) (i : Z) (a : A) : outcome (list A) :=
  if i <? 0 then Undefined
  else if (Z.to_nat i <? length v)%nat then Done (list_set v (Z.to_nat i) a)
       else Undefined.

(** [std::list::back()]; the list must not be empty. *)
Definition back {A : Type} (l : list A) : outcome A :=
  match l with
  | [] => Undefined
  | x :: t => Done (last t x)
  end.

(* ================================================================== *)
(** ** B+ tree pages                                                   *)
(* ================================================================== *)

Inductive IndexPageType : Type :=
| INVALID_INDEX_PAGE
| LEAF_PAGE
| INTERNAL_PAGE.

(** [MappingType] is [std::pair<KeyType, ValueType>].  Keys are the integers
    a [GenericKey] is set from, compared by [GenericComparator]; a leaf value
    is a record id and an internal value a child page id, both integers. *)
Definition KeyType : Type := Z.
Definition ValueType : Type := Z.
Definition MappingType : Type := (KeyType * ValueType)%type.

Definition comparator (a b : KeyType) : Z :=
  match a ?= b with
  | Lt => -1
  | Eq => 0
  | Gt => 1
  end.

(** The bytes of an index page, read through the common header
    ([page_type_], [size_], [max_size_], [parent_page_id_], [page_id_]), the
    leaf's [next_page_id_] and the entry array.  A zero-filled page has type
    [INVALID_INDEX_PAGE] and every field zero.  [array_] holds the slots that
    were written so far; a slot never written reads as zero, and slots at or
    past [size_] keep whatever was stored there last. *)
Record BPlusTreePage : Type := mkBPlusTreePage {
  page_type_ : IndexPageType;
  size_ : Z;
  max_size_ : Z;
  parent_page_id_ : Z;
  page_id_ : Z;
  next_page_id_ : Z;
  array_ : list MappingType
}.

Definition zero_page : BPlusTreePage :=
  mkBPlusTreePage INVALID_INDEX_PAGE 0 0 0 0 0 [].

Definition IsLeafPage (p : BPlusTreePage) : bool :=
  match page_type_ p with LEAF_PAGE => true | _ => false end.

Definition GetSize (p : BPlusTreePage) : Z := size_ p.
Definition GetMaxSize (p : BPlusTreePage) : Z := max_size_ p.
Definition GetPageId (p : BPlusTreePage) : Z := page_id_ p.
Definition GetParentPageId (p : BPlusTreePage) : Z := parent_page_id_ p.
Definition GetNextPageId (p : BPlusTreePage) : Z := next_page_id_ p.

(** Modelled from the spec: [BPlusTreePage::GetMinSize] lives in
    b_plus_tree_page.cpp, which is not among the sources; the specification
    fixes [min_size] as the ceiling of [max_size / 2] for both node kinds. *)
Definition GetMinSize (p : BPlusTreePage) : Z := (max_size_ p + 1) / 2.

Definition SetPageType (p : BPlusTreePage) (t : IndexPageType) : BPlusTreePage :=
  mkBPlusTreePage t (size_ p) (max_size_ p) (parent_page_id_ p) (page_id_ p)
    (next_page_id_ p) (array_ p).
Definition SetSize (p : BPlusTreePage) (s : Z) : BPlusTreePage :=
  mkBPlusTreePage (page_type_ p) s (max_size_ p) (parent_page_id_ p) (page_id_ p)
    (next_page_id_ p) (array_ p).
Definition IncreaseSize (p : BPlusTreePage) (d : Z) : BPlusTreePage :=
  SetSize p (size_ p + d).
Definition SetMaxSize (p : BPlusTreePage) (s : Z) : BPlusTreePage :=
  mkBPlusTreePage (page_type_ p) (size_ p) s (parent_page_id_ p) (page_id_ p)
    (next_page_id_ p) (array_ p).
Definition SetParentPageId (p : BPlusTreePage) (i : Z) : BPlusTreePage :=
  mkBPlusTreePage (page_type_ p) (size_ p) (max_size_ p) i (page_id_ p)
    (next_page_id_ p) (array_ p).
Definition SetPageId (p : BPlusTreePage) (i : Z) : BPlusTreePage :=
  mkBPlusTreePage (page_type_ p) (size_ p) (max_size_ p) (parent_page_id_ p) i
    (next_page_id_ p) (array_ p).
Definition SetNextPageId (p : BPlusTreePage) (i : Z) : BPlusTreePage :=
  mkBPlusTreePage (page_type_ p) (size_ p) (max_size_ p) (parent_page_id_ p)
    (page_id_ p) i (array_ p).
Definition SetArray (p : BPlusTreePage) (a : list MappingType) : BPlusTreePage :=
  mkBPlusTreePage (page_type_ p) (size_ p) (max_size_ p) (parent_page_id_ p)
    (page_id_ p) (next_page_id_ p) a.

(** Slot [i] of the entry array, for [0 <= i]. *)
Definition slot (a : list MappingType) (i : Z) : MappingType :=
  nth (Z.to_nat i) a (0, 0).

Definition store (a : list MappingType) (i : Z) (x : MappingType) : list MappingType :=
  let n := Z.to_nat i in
  firstn n (a ++ repeat (0, 0) (n - length a)) ++ x :: skipn (S n) a.

(** The first [size_] slots: the entries the page holds. *)
Definition entries (p : BPlusTreePage) : list MappingType :=
  map (fun i => slot (array_ p) (Z.of_nat i)) (seq 0 (Z.to_nat (size_ p))).

Definition keys (p : BPlusTreePage) : list KeyType := map fst (entries p).

(** [array_ + index]: a slot before the start of the array is outside the
    page. *)
Definition NodeAt (p : BPlusTreePage) (index : Z) : outcome MappingType :=
  if index <? 0 then Undefined else Done (slot (array_ p) index).

Definition SetNodeAt (p : BPlusTreePage) (index : Z) (x : MappingType)
  : outcome BPlusTreePage :=
  if index <? 0 then Undefined else Done (SetArray p (store (array_ p) index x)).

(** [for (i = from; i < GetSize() - 1; i++) array_[i] = array_[i + 1];]
    with [n] iterations left. *)
Fixpoint shift_left (a : list MappingType) (i : Z) (n : nat) : list MappingType :=
  match n with
  | O => a
  | S m => shift_left (store a i (slot a (i + 1))) (i + 1) m
  end.

(** [for (i = GetSize(); i > to; i--) array_[i] = array_[i - 1];] with [n]
    iterations left, [i] the current index. *)
Fixpoint shift_right (a : list MappingType) (i : Z) (n : nat) : list MappingType :=
  match n with
  | O => a
  | S m => shift_right (store a i (slot a (i - 1))) (i - 1) m
  end.

(** *** b_plus_tree_leaf_page.cpp *)
Module LeafPage.

Definition Init (page_id parent_id max_size : Z) (p : BPlusTreePage) : BPlusTreePage :=
  let p := SetPageType p LEAF_PAGE in
  let p := SetSize p 0 in
  let p := SetPageId p page_id in
  let p := SetParentPageId p parent_id in
  let p := SetMaxSize p max_size in
  SetNextPageId p INVALID_PAGE_ID.

Definition KeyAt (p : BPlusTreePage) (index : Z) : KeyType :=
  fst (slot (array_ p) index).

(** The scan of [Insert]: [index] counts up from 0 over [n] remaining
    slots; [None] is the early [return false] on an equal key. *)
Fixpoint Insert_scan (p : BPlusTreePage) (key : KeyType) (index : Z) (n : nat)
  : option Z :=
  match n with
  | O => Some index
  | S m =>
      if comparator key (KeyAt p index) =? 0 then None
      else if comparator key (KeyAt p index) <? 0 then Some index
      else Insert_scan p key (index + 1) m
  end.

Definition Insert (p : BPlusTreePage) (key : KeyType) (value : ValueType)
  : bool * BPlusTreePage :=
  match Insert_scan p key 0 (Z.to_nat (GetSize p)) with
  | None => (false, p)
  | Some index =>
      let a := shift_right (array_ p) (GetSize p) (Z.to_nat (GetSize p - index)) in
      let a := store a index (key, value) in
      (true, IncreaseSize (SetArray p a) 1)
  end.

(** [for (i = GetSize() - 1; i >= 0; i--)], [n] being [i + 1]. *)
Fixpoint LowerBound_scan (p : BPlusTreePage) (key : KeyType) (n : nat) : Z :=
  match n with
  | O => -1
  | S i =>
      if comparator key (fst (slot (array_ p) (Z.of_nat i))) >=? 0 then Z.of_nat i
      else LowerBound_scan p key i
  end.

Definition LowerBound (p : BPlusTreePage) (key : KeyType) : Z :=
  LowerBound_scan p key (Z.to_nat (GetSize p)).

Definition Remove (p : BPlusTreePage) (key : KeyType) : bool * BPlusTreePage :=
  let index := LowerBound p key in
  if index =? -1 then (false, p)
  else
    let a := shift_left (array_ p) index (Z.to_nat (GetSize p - 1 - index)) in
    (true, IncreaseSize (SetArray p a) (-1)).

End LeafPage.

(** *** b_plus_tree_internal_page.cpp *)
Module InternalPage.

Definition Init (page_id parent_id max_size : Z) (p : BPlusTreePage) : BPlusTreePage :=
  let p := SetPageType p INTERNAL_PAGE in
  let p := SetSize p 1 in
  let p := SetPageId p page_id in
  let p := SetParentPageId p parent_id in
  SetMaxSize p max_size.

Definition KeyAt (p : BPlusTreePage) (index : Z) : KeyType :=
  fst (slot (array_ p) index).

Definition ValueAt (p : BPlusTreePage) (index : Z) : ValueType :=
  snd (slot (array_ p) index).

(** [for (index = GetSize() - 1; index >= 1; index--)] stopping at the first
    slot whose key is at most [key]; [n] is the number of slots left to
    look at, so the loop exits with [index] when [n] is 0. *)
Fixpoint LowerBound_scan (p : BPlusTreePage) (key : KeyType) (index : Z) (n : nat) : Z :=
  match n with
  | O => index
  | S m =>
      if comparator key (fst (slot (array_ p) index)) >=? 0 then index
      else LowerBound_scan p key (index - 1) m
  end.

Definition LowerBound (p : BPlusTreePage) (key : KeyType) : Z :=
  LowerBound_scan p key (GetSize p - 1) (Z.to_nat (GetSize p - 1)).

Definition Insert (p : BPlusTreePage) (key : KeyType) (value : ValueType)
  : BPlusTreePage :=
  let index := LowerBound p key in
  let a := shift_right (array_ p) (GetSize p) (Z.to_nat (GetSize p - (index + 1))) in
  let a := store a (index + 1) (key, value) in
  IncreaseSize (SetArray p a) 1.

Definition Remove (p : BPlusTreePage) (index : Z) : BPlusTreePage :=
  let a := shift_left (array_ p) index (Z.to_nat (GetSize p - 1 - index)) in
  IncreaseSize (SetArray p a) (-1).

End InternalPage.

(* ================================================================== *)
(** ** lru_k_replacer.cpp                                              *)
(* ================================================================== *)

(** The replacer that finds its victim by scanning the frames. *)
Module LRUKReplacer.

(** [history_[f]] is a [std::list<size_t>] with the most recent access at
    the front. *)
Record t : Type := mk {
  replacer_size_ : Z;
  k_ : Z;
  current_timestamp_ : Z;
  curr_size_ : Z;
  history_ : list (list Z);
  allocated_ : list bool;
  evictable_ : list bool
}.

(** The constructor: the three vectors are resized to [num_frames]; the
    timestamp and [curr_size_] start at zero. *)
Definition init (num_frames k : Z) : t :=
  let n := Z.to_nat num_frames in
  mk num_frames k 0 0 (repeat [] n) (repeat false n) (repeat false n).

Definition set_history (r : t) (h : list (list Z)) : t :=
  mk (replacer_size_ r) (k_ r) (current_timestamp_ r) (curr_size_ r) h
    (allocated_ r) (evictable_ r).
Definition set_allocated (r : t) (a : list bool) : t :=
  mk (replacer_size_ r) (k_ r) (current_timestamp_ r) (curr_size_ r) (history_ r)
    a (evictable_ r).
Definition set_evictable (r : t) (e : list bool) : t :=
  mk (replacer_size_ r) (k_ r) (current_timestamp_ r) (curr_size_ r) (history_ r)
    (allocated_ r) e.
Definition set_curr_size (r : t) (s : Z) : t :=
  mk (replacer_size_ r) (k_ r) (current_timestamp_ r) s (history_ r)
    (allocated_ r) (evictable_ r).
Definition set_current_timestamp (r : t) (s : Z) : t :=
  mk (replacer_size_ r) (k_ r) s (curr_size_ r) (history_ r)
    (allocated_ r) (evictable_ r).

Definition IsValidFrameId (r : t) (frame_id : Z) : bool :=
  frame_id <? wrap_int (replacer_size_ r).

Definition Size (r : t) : Z := curr_size_ r.

Definition RemoveInternal (r : t) (frame_id : Z) : outcome t :=
  h <- vec_set (history_ r) frame_id [] ;;
  e <- vec_set (evictable_ r) frame_id false ;;
  a <- vec_set (allocated_ r) frame_id false ;;
  Done (mk (replacer_size_ r) (k_ r) (current_timestamp_ r)
          (wrap_size_t (curr_size_ r - 1)) h a e).

Definition sentinel : Z := 1000000000.

(** The first loop of [Evict] over the frames still to visit; the result
    is the pair [(id, highest_diff)] at loop exit. *)
Fixpoint Evict_complete (r : t) (frames : list nat) (id highest_diff : Z)
  : outcome (Z * Z) :=
  match frames with
  | [] => Done (id, highest_diff)
  | i :: rest =>
      a <- vec_get (allocated_ r) (Z.of_nat i) ;;
      e <- vec_get (evictable_ r) (Z.of_nat i) ;;
      if negb a || negb e then Evict_complete r rest id highest_diff
      else
        h <- vec_get (history_ r) (Z.of_nat i) ;;
        if Z.of_nat (length h) =? k_ r then
          b <- back h ;;
          let diff := wrap_size_t (current_timestamp_ r - b) in
          if diff >? highest_diff then Evict_complete r rest (Z.of_nat i) diff
          else Evict_complete r rest id highest_diff
        else Done (id, sentinel)
  end.

(** The second loop: the pair is [(id, earliest_time)]. *)
Fixpoint Evict_incomplete (r : t) (frames : list nat) (id earliest_time : Z)
  : outcome (Z * Z) :=
  match frames with
  | [] => Done (id, earliest_time)
  | i :: rest =>
      a <- vec_get (allocated_ r) (Z.of_nat i) ;;
      e <- vec_get (evictable_ r) (Z.of_nat i) ;;
      h <- vec_get (history_ r) (Z.of_nat i) ;;
      if negb a || negb e || (Z.of_nat (length h) =? k_ r)
      then Evict_incomplete r rest id earliest_time
      else
        b <- back h ;;
        if b <? earliest_time then Evict_incomplete r rest (Z.of_nat i) b
        else Evict_incomplete r rest id earliest_time
  end.

(** [Evict]: [None] is the [false] return, which leaves [*frame_id]
    alone; [Some id] is the victim written to [*frame_id]. *)
Definition Evict (r : t) : outcome (option Z * t) :=
  if curr_size_ r =? 0 then Done (None, r)
  else
    let frames := seq 0 (Z.to_nat (replacer_size_ r)) in
    '(id, highest_diff) <- Evict_complete r frames sentinel 0 ;;
    '(id, _) <- (if highest_diff =? sentinel
                 then Evict_incomplete r frames id (current_timestamp_ r)
                 else Done (id, 0)) ;;
    r' <- RemoveInternal r id ;;
    Done (Some id, r').

Definition RecordAccess (r : t) (frame_id : Z) : outcome t :=
  if negb (IsValidFrameId r frame_id) then InvalidArgument
  else
    a <- vec_get (allocated_ r) frame_id ;;
    r <- (if negb a
          then al <- vec_set (allocated_ r) frame_id true ;;
               ev <- vec_set (evictable_ r) frame_id false ;;
               Done (set_evictable (set_allocated r al) ev)
          else Done r) ;;
    h <- vec_get (history_ r) frame_id ;;
    let h := current_timestamp_ r :: h in
    let r := set_current_timestamp r (wrap_size_t (current_timestamp_ r + 1)) in
    let h := if Z.of_nat (length h) >? k_ r then removelast h else h in
    hs <- vec_set (history_ r) frame_id h ;;
    Done (set_history r hs).

Definition SetEvictable (r : t) (frame_id : Z) (set_evictable_ : bool) : outcome t :=
  if negb (IsValidFrameId r frame_id) then InvalidArgument
  else
    a <- vec_get (allocated_ r) frame_id ;;
    if negb a then Done r
    else
      e <- vec_get (evictable_ r) frame_id ;;
      let r := if negb e && set_evictable_
               then set_curr_size r (wrap_size_t (curr_size_ r + 1)) else r in
      let r := if e && negb set_evictable_
               then set_curr_size r (wrap_size_t (curr_size_ r - 1)) else r in
      ev <- vec_set (evictable_ r) frame_id set_evictable_ ;;
      Done (set_evictable r ev).

(** [!IsValidFrameId(frame_id) || !allocated_[frame_id]]: the vector is
    read only when the first test lets the frame through. *)
Definition Remove (r : t) (frame_id : Z) : outcome t :=
  if negb (IsValidFrameId r frame_id) then Done r
  else
    a <- vec_get (allocated_ r) frame_id ;;
    if negb a then Done r
    else
      e <- vec_get (evictable_ r) frame_id ;;
      if negb e then InvalidArgument
      else RemoveInternal r frame_id.

End LRUKReplacer.

(** The replacer that keeps the evictable frames in two maps ordered by
    timestamp. *)
Module LRUKReplacerOrdered.

(** Modelled from the spec: the two maps are declared in lru_k_replacer.h,
    which is not among the sources; they are taken to be
    [std::map<size_t, frame_id_t>], ordered by timestamp, so that [begin()]
    is the entry with the smallest timestamp, as the eviction policy of the
    specification asks.  A map is the list of its entries in key order. *)
Definition map_t : Type := list (Z * Z).

Fixpoint find (m : map_t) (key : Z) : option Z :=
  match m with
  | [] => None
  | (k, v) :: rest =>
      if k =? key then Some v
      else if key <? k then None
      else find rest key
  end.

Fixpoint erase (m : map_t) (key : Z) : map_t :=
  match m with
  | [] => []
  | (k, v) :: rest =>
      if k =? key then rest
      else if key <? k then m
      else (k, v) :: erase rest key
  end.

(** [m[key] = value] *)
Fixpoint assign (m : map_t) (key value : Z) : map_t :=
  match m with
  | [] => [(key, value)]
  | (k, v) :: rest =>
      if k =? key then (k, value) :: rest
      else if key <? k then (key, value) :: m
      else (k, v) :: assign rest key value
  end.

(** [m.begin()->second] *)
Definition begin_second (m : map_t) : outcome Z :=
  match m with
  | [] => Undefined
  | (_, v) :: _ => Done v
  end.

Record t : Type := mk {
  replacer_size_ : Z;
  k_ : Z;
  current_timestamp_ : Z;
  curr_size_ : Z;
  history_ : list (list Z);
  allocated_ : list bool;
  evictable_ : list bool;
  complete_histories_ : map_t;
  incomplete_histories_ : map_t
}.

Definition init (num_frames k : Z) : t :=
  let n := Z.to_nat num_frames in
  mk num_frames k 0 0 (repeat [] n) (repeat false n) (repeat false n) [] [].

Definition IsValidFrameId (r : t) (frame_id : Z) : bool :=
  frame_id <? wrap_int (replacer_size_ r).

Definition Size (r : t) : Z := curr_size_ r.

(** [if (m.find(key) != m.end()) m.erase(key);] *)
Definition erase_if_found (m : map_t) (key : Z) : map_t :=
  match find m key with
  | Some _ => erase m key
  | None => m
  end.

Definition RemoveInternal (r : t) (frame_id : Z) : outcome t :=
  h <- vec_get (history_ r) frame_id ;;
  b <- back h ;;
  let complete := erase_if_found (complete_histories_ r) b in
  let incomplete := erase_if_found (incomplete_histories_ r) b in
  hs <- vec_set (history_ r) frame_id [] ;;
  e <- vec_set (evictable_ r) frame_id false ;;
  a <- vec_set (allocated_ r) frame_id false ;;
  Done (mk (replacer_size_ r) (k_ r) (current_timestamp_ r)
          (wrap_size_t (curr_size_ r - 1)) hs a e complete incomplete).

Definition Evict (r : t) : outcome (option Z * t) :=
  if curr_size_ r =? 0 then Done (None, r)
  else
    id <- (match incomplete_histories_ r with
           | _ :: _ => begin_second (incomplete_histories_ r)
           | [] => begin_second (complete_histories_ r)
           end) ;;
    r' <- RemoveInternal r id ;;
    Done (Some id, r').

Definition RecordAccess (r : t) (frame_id : Z) : outcome t :=
  if negb (IsValidFrameId r frame_id) then InvalidArgument
  else
    a <- vec_get (allocated_ r) frame_id ;;
    '(al, ev) <- (if negb a
                  then al <- vec_set (allocated_ r) frame_id true ;;
                       ev <- vec_set (evictable_ r) frame_id false ;;
                       Done (al, ev)
                  else Done (allocated_ r, evictable_ r)) ;;
    h <- vec_get (history_ r) frame_id ;;
    let h := current_timestamp_ r :: h in
    let ts := wrap_size_t (current_timestamp_ r + 1) in
    e <- vec_get ev frame_id ;;
    '(h, complete, incomplete) <-
      (if e then
         if Z.of_nat (length h) >? k_ r then
           b <- back h ;;
           let complete := erase (complete_histories_ r) b in
           let h := removelast h in
           b <- back h ;;
           Done (h, assign complete b frame_id, incomplete_histories_ r)
         else if Z.of_nat (length h) =? k_ r then
           b <- back h ;;
           let incomplete :=
             if Z.of_nat (length h) >? 1
             then erase (incomplete_histories_ r) b
             else incomplete_histories_ r in
           Done (h, assign (complete_histories_ r) b frame_id, incomplete)
         else
           b <- back h ;;
           Done (h, complete_histories_ r,
                 assign (incomplete_histories_ r) b frame_id)
       else
         Done (if Z.of_nat (length h) >? k_ r then removelast h else h,
               complete_histories_ r, incomplete_histories_ r)) ;;
    hs <- vec_set (history_ r) frame_id h ;;
    Done (mk (replacer_size_ r) (k_ r) ts (curr_size_ r) hs al ev
            complete incomplete).

Definition SetEvictable (r : t) (frame_id : Z) (set_evictable_ : bool) : outcome t :=
  if negb (IsValidFrameId r frame_id) then InvalidArgument
  else
    a <- vec_get (allocated_ r) frame_id ;;
    if negb a then Done r
    else
      e <- vec_get (evictable_ r) frame_id ;;
      h <- vec_get (history_ r) frame_id ;;
      '(size1, complete, incomplete) <-
        (if negb e && set_evictable_ then
           b <- back h ;;
           if Z.of_nat (length h) =? k_ r
           then Done (wrap_size_t (curr_size_ r + 1),
                      assign (complete_histories_ r) b frame_id,
                      incomplete_histories_ r)
           else Done (wrap_size_t (curr_size_ r + 1),
                      complete_histories_ r,
                      assign (incomplete_histories_ r) b frame_id)
         else Done (curr_size_ r, complete_histories_ r, incomplete_histories_ r)) ;;
      '(size2, complete, incomplete) <-
        (if e && negb set_evictable_ then
           b <- back h ;;
           Done (wrap_size_t (size1 - 1), erase_if_found complete b,
                 erase_if_found incomplete b)
         else Done (size1, complete, incomplete)) ;;
      ev <- vec_set (evictable_ r) frame_id set_evictable_ ;;
      Done (mk (replacer_size_ r) (k_ r) (current_timestamp_ r) size2
              (history_ r) (allocated_ r) ev complete incomplete).

Definition Remove (r : t) (frame_id : Z) : outcome t :=
  if negb (IsValidFrameId r frame_id) then Done r
  else
    a <- vec_get (allocated_ r) frame_id ;;
    if negb a then Done r
    else
      e <- vec_get (evictable_ r) frame_id ;;
      if negb e then InvalidArgument
      else RemoveInternal r frame_id.

End LRUKReplacerOrdered.

(* ================================================================== *)
(** ** extendible_hash_table.cpp                                       *)
(* ================================================================== *)

Module ExtendibleHashTable.
Section Table.

Variables K V : Type.
(** [operator==] on keys and [std::hash<K>()(key)], a [size_t]. *)
Variable K_eqb : K -> K -> bool.
Variable hash : K -> Z.

(** *** Bucket *)
Record Bucket : Type := mkBucket {
size_ : Z;
depth_ : Z;
list_ : list (K * V)
}.

(** Modelled from the spec: [Bucket::IsFull], [GetDepth], [IncrementDepth]
  and [GetItems] are inline members of extendible_hash_table.h, which is
  not among the sources; a bucket is a bounded list of entries, full when
  it holds [size_] of them. *)
Definition IsFull (b : Bucket) : bool := Z.of_nat (length (list_ b)) =? size_ b.
Definition GetDepth (b : Bucket) : Z := depth_ b.
Definition IncrementDepth (b : Bucket) : Bucket :=
mkBucket (size_ b) (depth_ b + 1) (list_ b).
Definition GetItems (b : Bucket) : list (K * V) := list_ b.

Fixpoint Bucket_Find_list (l : list (K * V)) (key : K) : option V :=
match l with
| [] => None
| (k, v) :: rest => if K_eqb k key then Some v else Bucket_Find_list rest key
end.

Definition Bucket_Find (b : Bucket) (key : K) : option V :=
Bucket_Find_list (list_ b) key.

Fixpoint Bucket_Remove_list (l : list (K * V)) (key : K) : option (list (K * V)) :=
match l with
| [] => None
| (k, v) :: rest =>
    if K_eqb k key then Some rest
    else match Bucket_Remove_list rest key with
         | Some rest' => Some ((k, v) :: rest')
         | None => None
         end
end.

Definition Bucket_Remove (b : Bucket) (key : K) : bool * Bucket :=
match Bucket_Remove_list (list_ b) key with
| Some l => (true, mkBucket (size_ b) (depth_ b) l)
| None => (false, b)
end.

(** The update loop of [Bucket::Insert]: [Some l] when an entry with the
  key was found and overwritten. *)
Fixpoint Bucket_update_list (l : list (K * V)) (key : K) (value : V)
: option (list (K * V)) :=
match l with
| [] => None
| (k, v) :: rest =>
    if K_eqb k key then Some ((k, value) :: rest)
    else match Bucket_update_list rest key value with
         | Some rest' => Some ((k, v) :: rest')
         | None => None
         end
end.

Definition Bucket_Insert (b : Bucket) (key : K) (value : V) : bool * Bucket :=
if IsFull b then (false, b)
else match Bucket_update_list (list_ b) key value with
     | Some l => (true, mkBucket (size_ b) (depth_ b) l)
     | None => (true, mkBucket (size_ b) (depth_ b) (list_ b ++ [(key, value)]))
     end.

(** *** The table

  [dir_] is a vector of [std::shared_ptr<Bucket>]: several slots may
  point to one bucket.  A pointer is the position of the bucket in
  [heap_]; [std::make_shared] adds a cell at its end. *)
Record t : Type := mk {
global_depth_ : Z;
bucket_size_ : Z;
num_buckets_ : Z;
dir_ : list nat;
heap_ : list Bucket
}.

Definition init (bucket_size : Z) : t :=
mk 0 bucket_size 1 [0%nat] [mkBucket bucket_size 0 []].

Definition set_dir (h : t) (d : list nat) : t :=
mk (global_depth_ h) (bucket_size_ h) (num_buckets_ h) d (heap_ h).
Definition set_heap (h : t) (m : list Bucket) : t :=
mk (global_depth_ h) (bucket_size_ h) (num_buckets_ h) (dir_ h) m.

Definition deref (h : t) (p : nat) : outcome Bucket :=
match nth_error (heap_ h) p with
| Some b => Done b
| None => Undefined
end.

Definition assign (h : t) (p : nat) (b : Bucket) : t :=
set_heap h (list_set (heap_ h) p b).

(** [1 << d] on an [int]: defined for [0 <= d < 31]. *)
Definition shl1 (d : Z) : outcome Z :=
if (0 <=? d) && (d <? 31) then Done (Z.shiftl 1 d) else Undefined.

Definition IndexOf (h : t) (key : K) : outcome Z :=
m <- shl1 (global_depth_ h) ;;
Done (Z.land (hash key) (m - 1)).

Definition GetGlobalDepth (h : t) : Z := global_depth_ h.
Definition GetNumBuckets (h : t) : Z := num_buckets_ h.
Definition GetLocalDepth (h : t) (dir_index : Z) : outcome Z :=
p <- vec_get (dir_ h) dir_index ;;
b <- deref h p ;;
Done (GetDepth b).

Definition Find (h : t) (key : K) : outcome (option V) :=
index <- IndexOf h key ;;
p <- vec_get (dir_ h) index ;;
b <- deref h p ;;
Done (Bucket_Find b key).

Definition Remove (h : t) (key : K) : outcome (bool * t) :=
index <- IndexOf h key ;;
p <- vec_get (dir_ h) index ;;
b <- deref h p ;;
let '(r, b') := Bucket_Remove b key in
Done (r, assign h p b').

(** [for (i = index; i < (1 << global_depth); i += step, turn = !turn)]. *)
Fixpoint assign_up (d : list nat) (i lim step : Z) (turn : bool)
  (old_bucket new_bucket : nat) (n : nat) : outcome (list nat) :=
if i <? lim then
  match n with
  | O => Diverge
  | S m =>
      d <- vec_set d i (if turn then new_bucket else old_bucket) ;;
      assign_up d (i + step) lim step (negb turn) old_bucket new_bucket m
  end
else Done d.

(** [for (i = index; i >= 0; i -= step, turn = !turn)]. *)
Fixpoint assign_down (d : list nat) (i step : Z) (turn : bool)
  (old_bucket new_bucket : nat) (n : nat) : outcome (list nat) :=
if i >=? 0 then
  match n with
  | O => Diverge
  | S m =>
      d <- vec_set d i (if turn then new_bucket else old_bucket) ;;
      assign_down d (i - step) step (negb turn) old_bucket new_bucket m
  end
else Done d.

(** [for (auto &p : items) { old_bucket->Remove(p.first);
  dir_[IndexOf(p.first)]->Insert(p.first, p.second); }] *)
Fixpoint redistribute (h : t) (old_bucket : nat) (items : list (K * V)) : outcome t :=
match items with
| [] => Done h
| (k, v) :: rest =>
    ob <- deref h old_bucket ;;
    let h := assign h old_bucket (snd (Bucket_Remove ob k)) in
    index <- IndexOf h k ;;
    p <- vec_get (dir_ h) index ;;
    b <- deref h p ;;
    let h := assign h p (snd (Bucket_Insert b k v)) in
    redistribute h old_bucket rest
end.

(** One split of the bucket that [index] points to. *)
Definition split (h : t) (index : Z) : outcome t :=
p <- vec_get (dir_ h) index ;;
b <- deref h p ;;
let h :=
  if GetDepth b =? global_depth_ h
  then mk (global_depth_ h + 1) (bucket_size_ h) (num_buckets_ h)
         (dir_ h ++ dir_ h) (heap_ h)
  else h in
old_bucket <- vec_get (dir_ h) index ;;
ob <- deref h old_bucket ;;
let old_depth := GetDepth ob in
let new_bucket := length (heap_ h) in
let h := set_heap h (heap_ h ++ [mkBucket (bucket_size_ h) old_depth []]) in
step <- shl1 old_depth ;;
lim <- shl1 (global_depth_ h) ;;
d <- assign_up (dir_ h) index lim step false old_bucket new_bucket
       (S (Z.to_nat lim)) ;;
d <- assign_down d index step false old_bucket new_bucket (S (Z.to_nat lim)) ;;
let h := set_dir h d in
p <- vec_get (dir_ h) index ;;
b <- deref h p ;;
h <- redistribute h old_bucket (GetItems b) ;;
ob <- deref h old_bucket ;;
let h := assign h old_bucket (IncrementDepth ob) in
nb <- deref h new_bucket ;;
let h := assign h new_bucket (IncrementDepth nb) in
Done (mk (global_depth_ h) (bucket_size_ h) (num_buckets_ h + 1)
        (dir_ h) (heap_ h)).

(** [InsertInternal] calls itself after every split; [fuel] bounds the
  number of calls. *)
Fixpoint InsertInternal (fuel : nat) (h : t) (key : K) (value : V)
  (resizable : bool) : outcome (bool * t) :=
match fuel with
| O => Diverge
| S fuel =>
    index <- IndexOf h key ;;
    p <- vec_get (dir_ h) index ;;
    b <- deref h p ;;
    let '(ok, b') := Bucket_Insert b key value in
    if ok then Done (true, assign h p b')
    else if negb resizable then Done (false, h)
    else
      h <- split h index ;;
      InsertInternal fuel h key value resizable
end.

Definition Insert (fuel : nat) (h : t) (key : K) (value : V) : outcome t :=
'(is_inserted, h) <- InsertInternal fuel h key value false ;;
if negb is_inserted then
  '(_, h) <- InsertInternal fuel h key value true ;;
  Done h
else Done h.

End Table.
End ExtendibleHashTable.

(* ================================================================== *)
(** ** Pages, header page and disk                                     *)
(* ================================================================== *)

(** What the bytes of a page are read as.  A zero-filled page reads as the
    zero index page and as a header page without records; an index page is
    never read as a header page, nor the reverse. *)
Inductive PageData : Type :=
| ZeroData
| IndexData (p : BPlusTreePage)
| HeaderData (records : list (Z * Z)).

Definition as_index (d : PageData) : outcome BPlusTreePage :=
  match d with
  | ZeroData => Done zero_page
  | IndexData p => Done p
  | HeaderData _ => Undefined
  end.

Definition as_header (d : PageData) : outcome (list (Z * Z)) :=
  match d with
  | ZeroData => Done []
  | HeaderData r => Done r
  | IndexData _ => Undefined
  end.

(** Modelled from the spec: header_page.cpp is not among the sources; the
    header page is a record list of [(index_name, root_page_id)] pairs,
    searched linearly, with insert and update of records.  An index name is
    represented by a number. *)
Module HeaderPage.

Fixpoint FindRecord (records : list (Z * Z)) (name : Z) : option Z :=
  match records with
  | [] => None
  | (n, r) :: rest => if n =? name then Some r else FindRecord rest name
  end.

Definition InsertRecord (records : list (Z * Z)) (name root_id : Z)
  : list (Z * Z) :=
  match FindRecord records name with
  | Some _ => records
  | None => records ++ [(name, root_id)]
  end.

Fixpoint UpdateRecord (records : list (Z * Z)) (name root_id : Z)
  : list (Z * Z) :=
  match records with
  | [] => []
  | (n, r) :: rest =>
      if n =? name then (n, root_id) :: rest
      else (n, r) :: UpdateRecord rest name root_id
  end.

End HeaderPage.

(** Modelled from the spec: the disk manager is an external collaborator;
    [WritePage] persists the bytes of a page, [ReadPage] returns the bytes
    written last, and a page never written reads as zeroes. *)
Module DiskManager.

Definition t : Type := list (Z * PageData).

Fixpoint ReadPage (d : t) (page_id : Z) : PageData :=
  match d with
  | [] => ZeroData
  | (i, x) :: rest => if i =? page_id then x else ReadPage rest page_id
  end.

Definition WritePage (d : t) (page_id : Z) (x : PageData) : t :=
  (page_id, x) :: d.

End DiskManager.

(* ================================================================== *)
(** ** buffer_pool_manager_instance.cpp                                *)
(* ================================================================== *)

Module BufferPoolManagerInstance.

Module Table := ExtendibleHashTable.

Record Page : Type := mkPage {
  data_ : PageData;
  page_id_ : Z;
  pin_count_ : Z;
  is_dirty_ : bool
}.

Definition fresh_page : Page := mkPage ZeroData INVALID_PAGE_ID 0 false.

Definition GetPinCount (p : Page) : Z := pin_count_ p.
Definition IsDirty (p : Page) : bool := is_dirty_ p.
Definition GetData (p : Page) : PageData := data_ p.

Definition page_table : Type := Table.t Z Z.

(** [std::hash<int>] is the conversion to [size_t]. *)
Definition hash_int (k : Z) : Z := wrap_size_t k.

Record t : Type := mk {
  pool_size_ : Z;
  next_page_id_ : Z;
  pages_ : list Page;
  page_table_ : page_table;
  replacer_ : LRUKReplacer.t;
  free_list_ : list Z;
  disk_manager_ : DiskManager.t
}.

(** The constructor; [bucket_size] is the constant [bucket_size_] of the
    class declaration. *)
Definition init (pool_size replacer_k bucket_size : Z) (disk : DiskManager.t) : t :=
  let n := Z.to_nat pool_size in
  mk pool_size 0 (repeat fresh_page n) (Table.init Z Z bucket_size)
    (LRUKReplacer.init pool_size replacer_k)
    (map Z.of_nat (seq 0 n)) disk.

Definition set_next_page_id (b : t) (x : Z) : t :=
  mk (pool_size_ b) x (pages_ b) (page_table_ b) (replacer_ b) (free_list_ b)
    (disk_manager_ b).
Definition set_pages (b : t) (x : list Page) : t :=
  mk (pool_size_ b) (next_page_id_ b) x (page_table_ b) (replacer_ b)
    (free_list_ b) (disk_manager_ b).
Definition set_page_table (b : t) (x : page_table) : t :=
  mk (pool_size_ b) (next_page_id_ b) (pages_ b) x (replacer_ b) (free_list_ b)
    (disk_manager_ b).
Definition set_replacer (b : t) (x : LRUKReplacer.t) : t :=
  mk (pool_size_ b) (next_page_id_ b) (pages_ b) (page_table_ b) x (free_list_ b)
    (disk_manager_ b).
Definition set_free_list (b : t) (x : list Z) : t :=
  mk (pool_size_ b) (next_page_id_ b) (pages_ b) (page_table_ b) (replacer_ b) x
    (disk_manager_ b).
Definition set_disk_manager (b : t) (x : DiskManager.t) : t :=
  mk (pool_size_ b) (next_page_id_ b) (pages_ b) (page_table_ b) (replacer_ b)
    (free_list_ b) x.

Definition Find (b : t) (page_id : Z) : outcome (option Z) :=
  Table.Find Z Z Z.eqb hash_int (page_table_ b) page_id.

(** [return next_page_id_++;] *)
Definition AllocatePage (b : t) : Z * t :=
  (next_page_id_ b, set_next_page_id b (wrap_int (next_page_id_ b + 1))).

(** Modelled from the spec: [DeallocatePage] is declared in the class
    header, which is not among the sources; nothing of the pool depends on
    it. *)
Definition DeallocatePage (b : t) (page_id : Z) : t := b.

(** The frame a request is served from: the front of the free list, or a
    victim of the replacer whose page leaves the page table.  [None] is
    the [return nullptr] branch. *)
Definition acquire_frame (b : t) : outcome (option Z * t) :=
  match free_list_ b with
  | frame_id :: rest => Done (Some frame_id, set_free_list b rest)
  | [] =>
      if LRUKReplacer.Size (replacer_ b) >? 0 then
        '(victim, r) <- LRUKReplacer.Evict (replacer_ b) ;;
        match victim with
        | None => Undefined
        | Some frame_id =>
            let b := set_replacer b r in
            pg <- vec_get (pages_ b) frame_id ;;
            '(_, pt) <- Table.Remove Z Z Z.eqb hash_int (page_table_ b) (page_id_ pg) ;;
            Done (Some frame_id, set_page_table b pt)
        end
      else Done (None, b)
  end.

(** What [NewPgImp] and [FetchPgImp] do once they hold a frame: the
    replacer and page-table updates under the global latch, then the
    write-back of a dirty victim and the new contents of the frame. *)
Definition install (fuel : nat) (b : t) (frame_id page_id : Z)
    (load : DiskManager.t -> PageData) : outcome t :=
  r <- LRUKReplacer.RecordAccess (replacer_ b) frame_id ;;
  r <- LRUKReplacer.SetEvictable r frame_id false ;;
  let b := set_replacer b r in
  pt <- Table.Insert Z Z Z.eqb hash_int fuel (page_table_ b) page_id frame_id ;;
  let b := set_page_table b pt in
  pg <- vec_get (pages_ b) frame_id ;;
  let b := if IsDirty pg
           then set_disk_manager b
                  (DiskManager.WritePage (disk_manager_ b) (page_id_ pg) (GetData pg))
           else b in
  ps <- vec_set (pages_ b) frame_id
          (mkPage (load (disk_manager_ b)) page_id 1 false) ;;
  Done (set_pages b ps).

(** [NewPgImp]: the first component of the result is the value left in
    [*page_id], the second the frame of the returned page, [None] for
    [nullptr]. *)
Definition NewPgImp (fuel : nat) (b : t) : outcome (Z * option Z * t) :=
  let '(page_id, b) := AllocatePage b in
  '(frame, b) <- acquire_frame b ;;
  match frame with
  | None => Done (page_id, None, b)
  | Some frame_id =>
      b <- install fuel b frame_id page_id (fun _ => ZeroData) ;;
      Done (page_id, Some frame_id, b)
  end.

Definition FetchPgImp (fuel : nat) (b : t) (page_id : Z) : outcome (option Z * t) :=
  found <- Find b page_id ;;
  match found with
  | Some frame_id =>
      r <- LRUKReplacer.RecordAccess (replacer_ b) frame_id ;;
      pg <- vec_get (pages_ b) frame_id ;;
      r <- (if pin_count_ pg =? 0
            then LRUKReplacer.SetEvictable r frame_id false else Done r) ;;
      ps <- vec_set (pages_ b) frame_id
              (mkPage (data_ pg) (page_id_ pg) (pin_count_ pg + 1) (is_dirty_ pg)) ;;
      Done (Some frame_id, set_pages (set_replacer b r) ps)
  | None =>
      '(frame, b) <- acquire_frame b ;;
      match frame with
      | None => Done (None, b)
      | Some frame_id =>
          b <- install fuel b frame_id page_id
                 (fun d => DiskManager.ReadPage d page_id) ;;
          Done (Some frame_id, b)
      end
  end.

Definition UnpinPgImp (b : t) (page_id : Z) (is_dirty : bool) : outcome (bool * t) :=
  found <- Find b page_id ;;
  match found with
  | None => Done (false, b)
  | Some frame_id =>
      pg <- vec_get (pages_ b) frame_id ;;
      if GetPinCount pg =? 0 then Done (false, b)
      else
        let pg := mkPage (data_ pg) (page_id_ pg) (pin_count_ pg - 1) (is_dirty_ pg) in
        r <- (if GetPinCount pg =? 0
              then LRUKReplacer.SetEvictable (replacer_ b) frame_id true
              else Done (replacer_ b)) ;;
        let pg := if negb (is_dirty_ pg)
                  then mkPage (data_ pg) (page_id_ pg) (pin_count_ pg) is_dirty
                  else pg in
        ps <- vec_set (pages_ b) frame_id pg ;;
        Done (true, set_pages (set_replacer b r) ps)
  end.

Definition FlushPgImp (b : t) (page_id : Z) : outcome (bool * t) :=
  found <- Find b page_id ;;
  match found with
  | None => Done (false, b)
  | Some frame_id =>
      pg <- vec_get (pages_ b) frame_id ;;
      let b := set_disk_manager b
                 (DiskManager.WritePage (disk_manager_ b) page_id (GetData pg)) in
      ps <- vec_set (pages_ b) frame_id
              (mkPage (data_ pg) (page_id_ pg) (pin_count_ pg) false) ;;
      Done (true, set_pages b ps)
  end.

Definition DeletePgImp (b : t) (page_id : Z) : outcome (bool * t) :=
  found <- Find b page_id ;;
  match found with
  | None => Done (true, b)
  | Some frame_id =>
      pg <- vec_get (pages_ b) frame_id ;;
      if negb (GetPinCount pg =? 0) then Done (false, b)
      else
        '(_, pt) <- Table.Remove Z Z Z.eqb hash_int (page_table_ b) page_id ;;
        r <- LRUKReplacer.Remove (replacer_ b) frame_id ;;
        let b := set_free_list (set_replacer (set_page_table b pt) r)
                   (free_list_ b ++ [frame_id]) in
        let b := DeallocatePage b page_id in
        ps <- vec_set (pages_ b) frame_id fresh_page ;;
        Done (true, set_pages b ps)
  end.

(** [for (size_t i = 0; i < pool_size_; i++)] of [FlushAllPgsImp] over the
    frames still to visit: a frame whose page id is not [INVALID_PAGE_ID]
    is written to disk and marked clean. *)
Fixpoint FlushAllPgs_loop (b : t) (frames : list nat) : outcome t :=
  match frames with
  | [] => Done b
  | i :: rest =>
      pg <- vec_get (pages_ b) (Z.of_nat i) ;;
      if negb (page_id_ pg =? INVALID_PAGE_ID) then
        let b := set_disk_manager b
                   (DiskManager.WritePage (disk_manager_ b) (page_id_ pg) (GetData pg)) in
        ps <- vec_set (pages_ b) (Z.of_nat i)
                (mkPage (data_ pg) (page_id_ pg) (pin_count_ pg) false) ;;
        FlushAllPgs_loop (set_pages b ps) rest
      else FlushAllPgs_loop b rest
  end.

Definition FlushAllPgsImp (b : t) : outcome t :=
  FlushAllPgs_loop b (seq 0 (Z.to_nat (pool_size_ b))).

End BufferPoolManagerInstance.

(* ================================================================== *)
(** ** b_plus_tree.cpp                                                 *)
(* ================================================================== *)

Module BPlusTree.

Module BPM := BufferPoolManagerInstance.

Record t : Type := mk {
  index_name_ : Z;
  root_page_id_ : Z;
  buffer_pool_manager_ : BPM.t;
  leaf_max_size_ : Z;
  internal_max_size_ : Z
}.

(** The constructor. *)
Definition init (name : Z) (bpm : BPM.t) (leaf_max_size internal_max_size : Z) : t :=
  mk name INVALID_PAGE_ID bpm leaf_max_size internal_max_size.

Definition set_root_page_id (s : t) (r : Z) : t :=
  mk (index_name_ s) r (buffer_pool_manager_ s) (leaf_max_size_ s)
    (internal_max_size_ s).
Definition set_buffer_pool_manager (s : t) (b : BPM.t) : t :=
  mk (index_name_ s) (root_page_id_ s) b (leaf_max_size_ s) (internal_max_size_ s).

(** *** Code that runs over the tree and its buffer pool

    A member function reads and writes the tree object and, through
    page pointers, the frames of the pool.  A page pointer is the frame
    it points into: two pointers to one page see each other's writes. *)
Definition M (A : Type) : Type := t -> outcome (A * t).

Definition ret {A : Type} (a : A) : M A := fun s => Done (a, s).
Definition mbind {A B : Type} (m : M A) (f : A -> M B) : M B :=
  fun s => bind (m s) (fun r => f (fst r) (snd r)).
Definition stop {A : Type} (o : outcome (A * t)) : M A := fun _ => o.

Notation "x <-- m ;; k" := (mbind m (fun x => k))
  (at level 61, m at next level, right associativity).
Notation "' p <-- m ;; k" := (mbind m (fun p => k))
  (at level 61, p pattern, m at next level, right associativity).
Notation "m ;;; k" := (mbind m (fun _ => k))
  (at level 61, right associativity).

Definition get_root_page_id : M Z := fun s => Done (root_page_id_ s, s).
Definition put_root_page_id (r : Z) : M unit :=
  fun s => Done (tt, set_root_page_id s r).

Definition with_pool {A : Type} (f : BPM.t -> outcome (A * BPM.t)) : M A :=
  fun s =>
    r <- f (buffer_pool_manager_ s) ;;
    Done (fst r, set_buffer_pool_manager s (snd r)).

Definition FetchPage (fuel : nat) (page_id : Z) : M (option Z) :=
  with_pool (fun b => BPM.FetchPgImp fuel b page_id).
Definition NewPage (fuel : nat) : M (Z * option Z) :=
  with_pool (fun b => '(page_id, frame, b) <- BPM.NewPgImp fuel b ;;
                      Done ((page_id, frame), b)).
Definition UnpinPage (page_id : Z) (is_dirty : bool) : M bool :=
  with_pool (fun b => BPM.UnpinPgImp b page_id is_dirty).
Definition DeletePage (page_id : Z) : M bool :=
  with_pool (fun b => BPM.DeletePgImp b page_id).

(** [->GetData()] on the result of [FetchPage] or [NewPage]; [nullptr]
    cannot be dereferenced. *)
Definition GetData (page : option Z) : M Z :=
  match page with
  | Some frame => ret frame
  | None => stop Undefined
  end.

(** Reading and writing the index page a pointer refers to. *)
Definition rd (frame : Z) : M BPlusTreePage :=
  fun s =>
    pg <- vec_get (BPM.pages_ (buffer_pool_manager_ s)) frame ;;
    p <- as_index (BPM.data_ pg) ;;
    Done (p, s).

Definition wr (frame : Z) (p : BPlusTreePage) : M unit :=
  fun s =>
    let b := buffer_pool_manager_ s in
    pg <- vec_get (BPM.pages_ b) frame ;;
    ps <- vec_set (BPM.pages_ b) frame
            (BPM.mkPage (IndexData p) (BPM.page_id_ pg) (BPM.pin_count_ pg)
               (BPM.is_dirty_ pg)) ;;
    Done (tt, set_buffer_pool_manager s (BPM.set_pages b ps)).

Definition modify (frame : Z) (f : BPlusTreePage -> BPlusTreePage) : M unit :=
  p <-- rd frame ;; wr frame (f p).

Definition lift {A : Type} (o : outcome A) : M A :=
  fun s => bind o (fun a => Done (a, s)).

(** [page->NodeAt(i)->first], [->second] and the assignments to them. *)
Definition first_at (frame : Z) (i : Z) : M KeyType :=
  p <-- rd frame ;; x <-- lift (NodeAt p i) ;; ret (fst x).
Definition second_at (frame : Z) (i : Z) : M ValueType :=
  p <-- rd frame ;; x <-- lift (NodeAt p i) ;; ret (snd x).
Definition set_first_at (frame : Z) (i : Z) (k : KeyType) : M unit :=
  p <-- rd frame ;; x <-- lift (NodeAt p i) ;;
  p <-- lift (SetNodeAt p i (k, snd x)) ;; wr frame p.
Definition set_second_at (frame : Z) (i : Z) (v : ValueType) : M unit :=
  p <-- rd frame ;; x <-- lift (NodeAt p i) ;;
  p <-- lift (SetNodeAt p i (fst x, v)) ;; wr frame p.

(** [for (i = from; cond(i); i++) body(i);] with the condition and the
    body reading the pages afresh at every turn. *)
Fixpoint for_loop (n : nat) (i : Z) (cond : Z -> M bool) (body : Z -> M unit)
  : M unit :=
  c <-- cond i ;;
  if c then
    match n with
    | O => stop Diverge
    | S m => body i ;;; for_loop m (i + 1) cond body
    end
  else ret tt.

(** *** Helpers on one page *)

Fixpoint InsertIntoLeaf_scan (p : BPlusTreePage) (key : KeyType) (index : Z) (n : nat)
  : option Z :=
  match n with
  | O => Some index
  | S m =>
      if comparator key (LeafPage.KeyAt p index) =? 0 then None
      else if comparator key (LeafPage.KeyAt p index) <? 0 then Some index
      else InsertIntoLeaf_scan p key (index + 1) m
  end.

Definition InsertIntoLeaf (p : BPlusTreePage) (key : KeyType) (value : ValueType)
  : bool * BPlusTreePage :=
  match InsertIntoLeaf_scan p key 0 (Z.to_nat (GetSize p)) with
  | None => (false, p)
  | Some index =>
      let a := shift_right (array_ p) (GetSize p) (Z.to_nat (GetSize p - index)) in
      let a := store a index (key, value) in
      (true, IncreaseSize (SetArray p a) 1)
  end.

(** The slot [LowerBoundLeaf] returns a pointer to; [None] is [nullptr]. *)
Fixpoint LowerBoundLeaf_scan (p : BPlusTreePage) (key : KeyType) (n : nat) : option Z :=
  match n with
  | O => None
  | S i =>
      if comparator key (fst (slot (array_ p) (Z.of_nat i))) >=? 0
      then Some (Z.of_nat i)
      else LowerBoundLeaf_scan p key i
  end.

Definition LowerBoundLeaf (p : BPlusTreePage) (key : KeyType) : option Z :=
  LowerBoundLeaf_scan p key (Z.to_nat (GetSize p)).

(** The slot [LowerBoundInternal] returns a pointer to: [GetSize() - 1]
    when the loop does not run, which is [-1] on a page of size 0. *)
Fixpoint LowerBoundInternal_scan (p : BPlusTreePage) (key : KeyType) (index : Z) (n : nat)
  : Z :=
  match n with
  | O => index
  | S m =>
      if comparator key (fst (slot (array_ p) index)) >=? 0 then index
      else LowerBoundInternal_scan p key (index - 1) m
  end.

Definition LowerBoundInternal (p : BPlusTreePage) (key : KeyType) : Z :=
  LowerBoundInternal_scan p key (GetSize p - 1) (Z.to_nat (GetSize p - 1)).

Definition InsertIntoInternal (p : BPlusTreePage) (key : KeyType) (child_page_id : Z)
  : BPlusTreePage :=
  let index := LowerBoundInternal p key in
  let a := shift_right (array_ p) (GetSize p) (Z.to_nat (GetSize p - (index + 1))) in
  let a := store a (index + 1) (key, child_page_id) in
  IncreaseSize (SetArray p a) 1.

Definition IsOverFlowed (p : BPlusTreePage) : bool :=
  (IsLeafPage p && (GetSize p =? GetMaxSize p))
  || (negb (IsLeafPage p) && (GetSize p =? GetMaxSize p + 1)).

Definition IsUnderFlowed (p : BPlusTreePage) : bool :=
  GetSize p <? GetMinSize p.

(** The index at which the scan of [RemoveFromLeaf] stops. *)
Fixpoint RemoveFromLeaf_scan (p : BPlusTreePage) (key : KeyType) (index : Z) (n : nat)
  : Z :=
  match n with
  | O => index
  | S m =>
      if comparator key (fst (slot (array_ p) index)) =? 0 then index
      else RemoveFromLeaf_scan p key (index + 1) m
  end.

Definition RemoveFromLeaf (p : BPlusTreePage) (key : KeyType) : bool * BPlusTreePage :=
  let index := RemoveFromLeaf_scan p key 0 (Z.to_nat (GetSize p)) in
  if index =? GetSize p then (false, p)
  else
    let a := shift_left (array_ p) index (Z.to_nat (GetSize p - 1 - index)) in
    (true, SetSize (SetArray p a) (GetSize p - 1)).

(** On a page pointer. *)
Definition InsertIntoLeaf_at (frame : Z) (key : KeyType) (value : ValueType) : M bool :=
  p <-- rd frame ;;
  let '(ok, p') := InsertIntoLeaf p key value in
  wr frame p' ;;; ret ok.

Definition InsertIntoInternal_at (frame : Z) (key : KeyType) (child : Z) : M unit :=
  modify frame (fun p => InsertIntoInternal p key child).

Definition RemoveFromLeaf_at (frame : Z) (key : KeyType) : M bool :=
  p <-- rd frame ;;
  let '(ok, p') := RemoveFromLeaf p key in
  wr frame p' ;;; ret ok.

(** [LowerBoundInternal(page, key)->second] *)
Definition route (frame : Z) (key : KeyType) : M Z :=
  p <-- rd frame ;;
  second_at frame (LowerBoundInternal p key).

(** *** Header page *)
Definition UpdateRootPageId (fuel : nat) (insert_record : Z) : M unit :=
  page <-- FetchPage fuel HEADER_PAGE_ID ;;
  frame <-- GetData page ;;
  fun s =>
    let b := buffer_pool_manager_ s in
    pg <- vec_get (BPM.pages_ b) frame ;;
    records <- as_header (BPM.data_ pg) ;;
    let records :=
      if negb (insert_record =? 0)
      then HeaderPage.InsertRecord records (index_name_ s) (root_page_id_ s)
      else HeaderPage.UpdateRecord records (index_name_ s) (root_page_id_ s) in
    ps <- vec_set (BPM.pages_ b) frame
            (BPM.mkPage (HeaderData records) (BPM.page_id_ pg) (BPM.pin_count_ pg)
               (BPM.is_dirty_ pg)) ;;
    (UnpinPage HEADER_PAGE_ID true ;;; ret tt)
      (set_buffer_pool_manager s (BPM.set_pages b ps)).

(** *** Search *)
Definition IsEmpty (s : t) : bool := root_page_id_ s =? INVALID_PAGE_ID.

Fixpoint GetValueInternal (fuel : nat) (page_id : Z) (key : KeyType)
  : M (option ValueType) :=
  match fuel with
  | O => stop Diverge
  | S fuel' =>
      page <-- FetchPage fuel page_id ;;
      cur <-- GetData page ;;
      p <-- rd cur ;;
      if IsLeafPage p then
        let ret_ :=
          match LowerBoundLeaf p key with
          | Some i =>
              if comparator key (fst (slot (array_ p) i)) =? 0
              then Some (snd (slot (array_ p) i)) else None
          | None => None
          end in
        UnpinPage page_id false ;;; ret ret_
      else
        let index := LowerBoundInternal p key in
        UnpinPage page_id false ;;;
        child <-- second_at cur index ;;
        GetValueInternal fuel' child key
  end.

(** [GetValue]: [Some v] is the [true] return with [v] pushed to
    [result]. *)
Definition GetValue (fuel : nat) (key : KeyType) : M (option ValueType) :=
  fun s =>
    if IsEmpty s then Done (None, s)
    else GetValueInternal fuel (root_page_id_ s) key s.

(** *** Insertion

    A key or value passed by reference is read when the call is made; the
    source agrees whenever the page the reference points into is not the
    page the callee changes. *)

(** [dst->NodeAt(j)->first = src->NodeAt(i)->first;] and the same for
    [second]. *)
Definition copy_node (dst j src i : Z) : M unit :=
  k <-- first_at src i ;; set_first_at dst j k ;;;
  v <-- second_at src i ;; set_second_at dst j v.

(** The part of [InsertInternal] that splits the overflowed page [cur]. *)
Definition InsertInternal_split (fuel : nat) (page_id cur : Z) : M bool :=
  p <-- rd cur ;;
  (if GetParentPageId p =? INVALID_PAGE_ID then
     '(new_root_page_id, page) <-- NewPage fuel ;;
     new_root_page <-- GetData page ;;
     (fun s => modify new_root_page
                 (InternalPage.Init new_root_page_id INVALID_PAGE_ID
                    (internal_max_size_ s)) s) ;;;
     p <-- rd cur ;;
     set_second_at new_root_page 0 (GetPageId p) ;;;
     modify cur (fun p => SetParentPageId p new_root_page_id) ;;;
     put_root_page_id new_root_page_id ;;;
     r <-- get_root_page_id ;;
     UnpinPage r true ;;;
     UpdateRootPageId fuel 0
   else ret tt) ;;;
  p <-- rd cur ;;
  let parent_page_id := GetParentPageId p in
  page <-- FetchPage fuel parent_page_id ;;
  parent_page <-- GetData page ;;
  '(sibling_page_id, page) <-- NewPage fuel ;;
  sibling <-- GetData page ;;
  p <-- rd cur ;;
  (if IsLeafPage p then
     (fun s => modify sibling
                 (LeafPage.Init sibling_page_id parent_page_id (leaf_max_size_ s)) s) ;;;
     p <-- rd cur ;;
     let from := GetMinSize p in
     for_loop fuel from
       (fun i => c <-- rd cur ;; ret (i <? GetSize c))
       (fun i => copy_node sibling (i - from) cur i) ;;;
     c <-- rd cur ;;
     modify sibling (fun sp => SetSize sp (GetSize c - GetMinSize c)) ;;;
     modify cur (fun c => SetSize c (GetMinSize c)) ;;;
     k <-- first_at sibling 0 ;;
     sp <-- rd sibling ;;
     InsertIntoInternal_at parent_page k (GetPageId sp) ;;;
     sp <-- rd sibling ;;
     modify cur (fun c => SetNextPageId c (GetPageId sp))
   else
     (fun s => modify sibling
                 (InternalPage.Init sibling_page_id parent_page_id
                    (internal_max_size_ s)) s) ;;;
     p <-- rd cur ;;
     let from := Z.quot (GetSize p) 2 in
     for_loop fuel from
       (fun i => c <-- rd cur ;; ret (i <? GetSize c))
       (fun i => copy_node sibling (i - from) cur i) ;;;
     c <-- rd cur ;;
     modify sibling (fun sp => SetSize sp (GetSize c - Z.quot (GetSize c) 2)) ;;;
     modify cur (fun c => SetSize c (Z.quot (GetSize c) 2)) ;;;
     for_loop fuel 0
       (fun i => sp <-- rd sibling ;; ret (i <? GetSize sp))
       (fun i =>
          child_page_id <-- second_at sibling i ;;
          page <-- FetchPage fuel child_page_id ;;
          child <-- GetData page ;;
          sp <-- rd sibling ;;
          modify child (fun ch => SetParentPageId ch (GetPageId sp)) ;;;
          ch <-- rd child ;;
          UnpinPage (GetPageId ch) true ;;; ret tt) ;;;
     k <-- first_at sibling 0 ;;
     sp <-- rd sibling ;;
     InsertIntoInternal_at parent_page k (GetPageId sp)) ;;;
  UnpinPage page_id true ;;;
  UnpinPage parent_page_id true ;;;
  UnpinPage sibling_page_id true ;;;
  ret true.

Fixpoint InsertInternal (fuel : nat) (page_id : Z) (key : KeyType) (value : ValueType)
  : M bool :=
  match fuel with
  | O => stop Diverge
  | S fuel' =>
      page <-- FetchPage fuel page_id ;;
      cur <-- GetData page ;;
      p <-- rd cur ;;
      is_inserted <-- (if IsLeafPage p then InsertIntoLeaf_at cur key value
                       else child <-- route cur key ;;
                            InsertInternal fuel' child key value) ;;
      if negb is_inserted then UnpinPage page_id false ;;; ret false
      else
        p <-- rd cur ;;
        if negb (IsOverFlowed p) then UnpinPage page_id true ;;; ret true
        else InsertInternal_split fuel page_id cur
  end.

Definition Insert (fuel : nat) (key : KeyType) (value : ValueType) : M bool :=
  r <-- get_root_page_id ;;
  (if r =? INVALID_PAGE_ID then
     '(new_page_id, page) <-- NewPage fuel ;;
     put_root_page_id new_page_id ;;;
     root_page <-- GetData page ;;
     (fun s => modify root_page
                 (LeafPage.Init (root_page_id_ s) INVALID_PAGE_ID (leaf_max_size_ s)) s) ;;;
     UpdateRootPageId fuel 1 ;;;
     r <-- get_root_page_id ;;
     UnpinPage r true ;;; ret tt
   else ret tt) ;;;
  r <-- get_root_page_id ;;
  InsertInternal fuel r key value.

(** *** Removal *)

(** [index = 0; for (i = 0; i < size; i++) if (NodeAt(i)->second == page_id)
    { index = i; break; }] *)
Fixpoint child_index_scan (p : BPlusTreePage) (page_id : Z) (i : Z) (n : nat) : Z :=
  match n with
  | O => 0
  | S m =>
      if snd (slot (array_ p) i) =? page_id then i
      else child_index_scan p page_id (i + 1) m
  end.

Definition child_index (p : BPlusTreePage) (page_id : Z) : Z :=
  child_index_scan p page_id 0 (Z.to_nat (GetSize p)).

(** [for (index = 1; index < size; index++) if (NodeAt(index)->second ==
    page_id) break;] and the value of [index] after it. *)
Fixpoint entry_index_scan (p : BPlusTreePage) (page_id : Z) (index : Z) (n : nat) : Z :=
  match n with
  | O => index
  | S m =>
      if snd (slot (array_ p) index) =? page_id then index
      else entry_index_scan p page_id (index + 1) m
  end.

Definition entry_index (p : BPlusTreePage) (page_id : Z) : Z :=
  entry_index_scan p page_id 1 (Z.to_nat (GetSize p - 1)).

(** Borrowing from the left sibling; the result says whether
    [RemoveInternal] returns here. *)
Definition borrow_left (fuel : nat) (page_id cur parent_page_id parent_page index : Z)
  : M bool :=
  pp <-- rd parent_page ;;
  left_sibling_page_id <-- (if index >? 0 then second_at parent_page (index - 1)
                            else ret INVALID_PAGE_ID) ;;
  if negb (left_sibling_page_id =? INVALID_PAGE_ID) then
    page <-- FetchPage fuel left_sibling_page_id ;;
    left_generic_page <-- GetData page ;;
    lp <-- rd left_generic_page ;;
    let left_sibling_size := GetSize lp in
    if GetSize lp >? GetMinSize lp then
      c <-- rd cur ;;
      (if IsLeafPage c then
         k <-- first_at left_generic_page (left_sibling_size - 1) ;;
         v <-- second_at left_generic_page (left_sibling_size - 1) ;;
         InsertIntoLeaf_at cur k v ;;;
         k0 <-- first_at cur 0 ;;
         set_first_at parent_page index k0
       else
         k <-- first_at left_generic_page (left_sibling_size - 1) ;;
         v <-- second_at left_generic_page (left_sibling_size - 1) ;;
         InsertIntoInternal_at cur k v ;;;
         k0 <-- first_at cur 0 ;;
         set_first_at parent_page index k0 ;;;
         child_page_id <-- second_at cur 0 ;;
         page <-- FetchPage fuel child_page_id ;;
         child <-- GetData page ;;
         c <-- rd cur ;;
         modify child (fun ch => SetPageId ch (GetPageId c)) ;;;
         UnpinPage child_page_id true ;;; ret tt) ;;;
      modify left_generic_page (fun l => SetSize l (left_sibling_size - 1)) ;;;
      UnpinPage page_id true ;;;
      UnpinPage parent_page_id true ;;;
      UnpinPage left_sibling_page_id true ;;;
      ret true
    else ret false
  else ret false.

Definition borrow_right (fuel : nat) (page_id cur parent_page_id parent_page index : Z)
  : M bool :=
  pp <-- rd parent_page ;;
  right_sibling_page_id <-- (if index <? GetSize pp - 1
                             then second_at parent_page (index + 1)
                             else ret INVALID_PAGE_ID) ;;
  if negb (right_sibling_page_id =? INVALID_PAGE_ID) then
    page <-- FetchPage fuel right_sibling_page_id ;;
    right_generic_page <-- GetData page ;;
    rp <-- rd right_generic_page ;;
    let right_sibling_size := GetSize rp in
    if GetSize rp >? GetMinSize rp then
      c <-- rd cur ;;
      (if IsLeafPage c then
         k <-- first_at right_generic_page 0 ;;
         v <-- second_at right_generic_page 0 ;;
         InsertIntoLeaf_at cur k v ;;;
         k <-- first_at right_generic_page 0 ;;
         RemoveFromLeaf_at right_generic_page k ;;;
         k0 <-- first_at right_generic_page 0 ;;
         set_first_at parent_page (index + 1) k0
       else
         k <-- first_at right_generic_page 0 ;;
         v <-- second_at right_generic_page 0 ;;
         InsertIntoInternal_at cur k v ;;;
         for_loop fuel 0
           (fun i => ret (i <? right_sibling_size - 1))
           (fun i => copy_node right_generic_page i right_generic_page (i + 1)) ;;;
         modify right_generic_page (fun r => SetSize r (right_sibling_size - 1)) ;;;
         k0 <-- first_at right_generic_page 0 ;;
         set_first_at parent_page (index + 1) k0 ;;;
         c <-- rd cur ;;
         child_page_id <-- second_at cur (GetSize c - 1) ;;
         page <-- FetchPage fuel child_page_id ;;
         child <-- GetData page ;;
         c <-- rd cur ;;
         modify child (fun ch => SetPageId ch (GetPageId c)) ;;;
         UnpinPage child_page_id true ;;; ret tt) ;;;
      UnpinPage page_id true ;;;
      UnpinPage parent_page_id true ;;;
      UnpinPage right_sibling_page_id true ;;;
      ret true
    else ret false
  else ret false.

(** Merging with a sibling. *)
Definition merge (fuel : nat) (page_id cur parent_page_id parent_page index : Z)
  : M unit :=
  pp <-- rd parent_page ;;
  '(left_sibling_page_id, left_generic_page, right_sibling_page_id, right_generic_page) <--
    (if index <? GetSize pp - 1 then
       right_sibling_page_id <-- second_at parent_page (index + 1) ;;
       page <-- FetchPage fuel right_sibling_page_id ;;
       right_generic_page <-- GetData page ;;
       ret (page_id, cur, right_sibling_page_id, right_generic_page)
     else
       left_sibling_page_id <-- second_at parent_page (index - 1) ;;
       page <-- FetchPage fuel left_sibling_page_id ;;
       left_generic_page <-- GetData page ;;
       ret (left_sibling_page_id, left_generic_page, page_id, cur)) ;;
  lp <-- rd left_generic_page ;;
  (if IsLeafPage lp then
     for_loop fuel 0
       (fun i => rp <-- rd right_generic_page ;; ret (i <? GetSize rp))
       (fun i =>
          k <-- first_at right_generic_page i ;;
          v <-- second_at right_generic_page i ;;
          InsertIntoLeaf_at left_generic_page k v ;;; ret tt) ;;;
     rp <-- rd right_generic_page ;;
     modify left_generic_page (fun l => SetNextPageId l (GetNextPageId rp))
   else
     for_loop fuel 0
       (fun i => rp <-- rd right_generic_page ;; ret (i <? GetSize rp))
       (fun i =>
          k <-- first_at right_generic_page i ;;
          v <-- second_at right_generic_page i ;;
          InsertIntoInternal_at left_generic_page k v)) ;;;
  pp <-- rd parent_page ;;
  rp <-- rd right_generic_page ;;
  let index := entry_index pp (GetPageId rp) in
  for_loop fuel index
    (fun i => pp <-- rd parent_page ;; ret (i <? GetSize pp - 1))
    (fun i => copy_node parent_page i parent_page (i + 1)) ;;;
  UnpinPage left_sibling_page_id true ;;;
  UnpinPage right_sibling_page_id true ;;;
  UnpinPage parent_page_id true ;;;
  DeletePage right_sibling_page_id ;;; ret tt.

(** The part of [RemoveInternal] that runs on a page that is not the root
    and has fewer than [min_size] entries. *)
Definition RemoveInternal_underflow (fuel : nat) (page_id cur : Z) : M unit :=
  p <-- rd cur ;;
  let parent_page_id := GetParentPageId p in
  page <-- FetchPage fuel parent_page_id ;;
  parent_page <-- GetData page ;;
  pp <-- rd parent_page ;;
  let index := child_index pp page_id in
  done <-- borrow_left fuel page_id cur parent_page_id parent_page index ;;
  if done then ret tt
  else
    done <-- borrow_right fuel page_id cur parent_page_id parent_page index ;;
    if done then ret tt
    else
      pp <-- rd parent_page ;;
      if GetSize pp =? 1 then
        UnpinPage page_id true ;;;
        UnpinPage parent_page_id true ;;; ret tt
      else merge fuel page_id cur parent_page_id parent_page index.

Fixpoint RemoveInternal (fuel : nat) (page_id : Z) (key : KeyType) : M unit :=
  match fuel with
  | O => stop Diverge
  | S fuel' =>
      page <-- FetchPage fuel page_id ;;
      cur <-- GetData page ;;
      p <-- rd cur ;;
      go_on <-- (if IsLeafPage p then RemoveFromLeaf_at cur key
                 else child <-- route cur key ;;
                      RemoveInternal fuel' child key ;;; ret true) ;;
      if negb go_on then UnpinPage page_id false ;;; ret tt
      else
        p <-- rd cur ;;
        r <-- get_root_page_id ;;
        if (r =? page_id) || negb (IsUnderFlowed p)
        then UnpinPage page_id true ;;; ret tt
        else RemoveInternal_underflow fuel page_id cur
  end.

Definition Remove (fuel : nat) (key : KeyType) : M unit :=
  fun s =>
    if IsEmpty s then Done (tt, s)
    else RemoveInternal fuel (root_page_id_ s) key s.

Definition GetRootPageId (s : t) : Z := root_page_id_ s.

End BPlusTree.

(* ================================================================== *)
(** ** Call sequences and observers                                    *)
(* ================================================================== *)

Module Driver.

Module BPM := BufferPoolManagerInstance.

(** The pool as the index tests set it up: the first [NewPage] reserves
    page 0, the header page, which stays pinned. *)
Definition fresh_pool (fuel : nat) (pool_size replacer_k bucket_size : Z)
  : outcome BPM.t :=
  '(_, _, b) <- BPM.NewPgImp fuel (BPM.init pool_size replacer_k bucket_size []) ;;
  Done b.

Definition fresh_tree (fuel : nat) (pool_size replacer_k bucket_size : Z)
    (leaf_max_size internal_max_size : Z) : outcome BPlusTree.t :=
  b <- fresh_pool fuel pool_size replacer_k bucket_size ;;
  Done (BPlusTree.init 1 b leaf_max_size internal_max_size).

Inductive call : Type :=
| CallInsert (key : KeyType) (value : ValueType)
| CallRemove (key : KeyType).

(** Runs the calls in order; the list holds what each [Insert] returned
    ([Remove] returns nothing and is recorded as [true]). *)
Fixpoint run_calls (fuel : nat) (calls : list call) (s : BPlusTree.t)
  : outcome (list bool * BPlusTree.t) :=
  match calls with
  | [] => Done ([], s)
  | CallInsert key value :: rest =>
      '(r, s) <- BPlusTree.Insert fuel key value s ;;
      '(rs, s) <- run_calls fuel rest s ;;
      Done (r :: rs, s)
  | CallRemove key :: rest =>
      '(_, s) <- BPlusTree.Remove fuel key s ;;
      '(rs, s) <- run_calls fuel rest s ;;
      Done (true :: rs, s)
  end.

(** The frame that holds a page, if the page is resident. *)
Definition resident (b : BPM.t) (page_id : Z) : outcome (option BPM.Page) :=
  found <- BPM.Find b page_id ;;
  match found with
  | None => Done None
  | Some frame_id => pg <- vec_get (BPM.pages_ b) frame_id ;; Done (Some pg)
  end.

(** The index page with a given id, as the tree would fetch it: from its
    frame if resident, else from disk. *)
Definition index_page (s : BPlusTree.t) (page_id : Z) : outcome BPlusTreePage :=
  let b := BPlusTree.buffer_pool_manager_ s in
  r <- resident b page_id ;;
  match r with
  | Some pg => as_index (BPM.data_ pg)
  | None => as_index (DiskManager.ReadPage (BPM.disk_manager_ b) page_id)
  end.

Definition search (fuel : nat) (key : KeyType) (s : BPlusTree.t)
  : outcome (option ValueType) :=
  r <- BPlusTree.GetValue fuel key s ;; Done (fst r).

(** The child page ids of an internal page. *)
Definition children (p : BPlusTreePage) : list Z := map snd (entries p).

Fixpoint unpin_all (b : BPM.t) (calls : list (Z * bool)) : outcome BPM.t :=
  match calls with
  | [] => Done b
  | (page_id, is_dirty) :: rest =>
      '(_, b) <- BPM.UnpinPgImp b page_id is_dirty ;;
      unpin_all b rest
  end.

End Driver.

(* ================================================================== *)
(** ** Vocabulary of the replacer properties                           *)
(* ================================================================== *)

Module LRUKSpec.

Import LRUKReplacer.

Definition frame_allocated (r : t) (f : nat) : bool := nth f (allocated_ r) false.
Definition frame_evictable (r : t) (f : nat) : bool := nth f (evictable_ r) false.
Definition frame_history (r : t) (f : nat) : list Z := nth f (history_ r) [].

Definition num_frames (r : t) : nat := Z.to_nat (replacer_size_ r).

(** The number of evictable frames. *)
Definition count_evictable (r : t) : Z :=
  Z.of_nat (count_occ bool_dec (evictable_ r) true).

(** A frame the replacer may evict. *)
Definition candidate (r : t) (f : nat) : Prop :=
  (f < num_frames r)%nat /\ frame_evictable r f = true.

(** The number of recorded accesses of a frame, and the oldest of them:
    with K accesses recorded this is the Kth most recent access. *)
Definition accesses (r : t) (f : nat) : Z := Z.of_nat (length (frame_history r f)).
Definition earliest (r : t) (f : nat) : Z := last (frame_history r f) 0.

(** The invariant of the replacer. *)
Set Implicit Arguments.
Record wf (r : t) : Prop := {
  wf_k : 1 <= k_ r;
  wf_size : 0 <= replacer_size_ r <= INT_MAX;
  wf_history : length (history_ r) = num_frames r;
  wf_allocated : length (allocated_ r) = num_frames r;
  wf_evictable : length (evictable_ r) = num_frames r;
  wf_timestamp : 0 <= current_timestamp_ r < size_t_modulus;
  wf_curr_size : curr_size_ r = count_evictable r;
  wf_evictable_allocated :
    forall f, frame_evictable r f = true -> frame_allocated r f = true;
  wf_free : forall f, frame_allocated r f = false -> frame_history r f = [];
  wf_used :
    forall f, frame_allocated r f = true ->
              frame_history r f <> [] /\
              accesses r f <= k_ r /\
              (forall ts, In ts (frame_history r f) ->
                          0 <= ts < current_timestamp_ r)
}.
Unset Implicit Arguments.

(** The states the replacer goes through: from the constructor by calls
    that return, the timestamp counter not running over. *)
Inductive reachable : t -> Prop :=
| reach_init num k :
    0 <= num <= INT_MAX -> 1 <= k -> reachable (init num k)
| reach_RecordAccess r f r' :
    reachable r -> current_timestamp_ r + 1 < size_t_modulus ->
    RecordAccess r f = Done r' -> reachable r'
| reach_SetEvictable r f b r' :
    reachable r -> SetEvictable r f b = Done r' -> reachable r'
| reach_Remove r f r' :
    reachable r -> Remove r f = Done r' -> reachable r'
| reach_Evict r v r' :
    reachable r -> Evict r = Done (v, r') -> reachable r'.

(** What the eviction policy asks of a victim [v]. *)
Definition policy_victim (r : t) (v : nat) : Prop :=
  candidate r v /\
  ((exists f, candidate r f /\ accesses r f < k_ r) ->
   accesses r v < k_ r /\
   forall f, candidate r f -> accesses r f < k_ r -> earliest r v <= earliest r f) /\
  ((forall f, candidate r f -> accesses r f = k_ r) ->
   forall f, candidate r f -> earliest r v <= earliest r f).

(** Whether some evictable frame among [frames] has a history that is
    not complete. *)
Definition some_incomplete (r : t) (frames : list nat) : bool :=
  existsb (fun i => frame_evictable r i && negb (accesses r i =? k_ r)) frames.

(** States for examples: seven frames, K = 2; frame 1 is accessed at
    times 0 and 2, frame 2 at time 1, and both are made evictable. *)
Definition example_start : t := init 7 2.
Definition example_state : t :=
  mk 7 2 3 2 [[]; [2; 0]; [1]; []; []; []; []]
    [false; true; true; false; false; false; false]
    [false; true; true; false; false; false; false].

End LRUKSpec.

(** States used to exercise the buffer pool. *)
Module PoolStates.

Module BPM := BufferPoolManagerInstance.

(** The page a pinned frame holds after an unpin. *)
Definition unpinned (pg : BPM.Page) (is_dirty : bool) : BPM.Page :=
  BPM.mkPage (BPM.data_ pg) (BPM.page_id_ pg) (BPM.pin_count_ pg - 1)
    (BPM.is_dirty_ pg || is_dirty).

Definition state_of {A : Type} (o : outcome (A * BPM.t)) (otherwise : BPM.t) : BPM.t :=
  match o with
  | Done (_, b) => b
  | _ => otherwise
  end.

(** A pool of one frame, LRU-2, directory buckets of 4 entries. *)
Definition pool1 : BPM.t := BPM.init 1 2 4 [].
(** ... after a first [NewPage] (page 0, pinned), *)
Definition pool1_new : BPM.t := state_of (BPM.NewPgImp 10 pool1) pool1.
(** ... after a second [NewPage], which finds no frame, *)
Definition pool1_full : BPM.t := state_of (BPM.NewPgImp 10 pool1_new) pool1.
(** ... after page 0 is unpinned with the dirty flag, *)
Definition pool1_unpinned : BPM.t :=
  state_of (BPM.UnpinPgImp pool1_full 0 true) pool1.
(** ... and after a third [NewPage]. *)
Definition pool1_again : BPM.t := state_of (BPM.NewPgImp 10 pool1_unpinned) pool1.

End PoolStates.

(** The table at integer keys and values
    ([template class ExtendibleHashTable<int, int>]). *)
Module IntTable.

Definition t : Type := ExtendibleHashTable.t Z Z.
Definition hash : Z -> Z := BufferPoolManagerInstance.hash_int.
Definition init : Z -> t := ExtendibleHashTable.init Z Z.
Definition IndexOf : t -> Z -> outcome Z := ExtendibleHashTable.IndexOf Z Z hash.
Definition Find : t -> Z -> outcome (option Z) :=
  ExtendibleHashTable.Find Z Z Z.eqb hash.
Definition split : t -> Z -> outcome t := ExtendibleHashTable.split Z Z Z.eqb hash.
Definition InsertInternal : nat -> t -> Z -> Z -> bool -> outcome (bool * t) :=
  ExtendibleHashTable.InsertInternal Z Z Z.eqb hash.
Definition Insert : nat -> t -> Z -> Z -> outcome t :=
  ExtendibleHashTable.Insert Z Z Z.eqb hash.

(** A table with buckets of one entry that holds the key 0. *)
Definition holding_zero : t :=
  ExtendibleHashTable.mk Z Z 0 1 1 [0%nat]
    [ExtendibleHashTable.mkBucket Z Z 1 0 [(0, 10)]].

(** The slot of key 0 points to a bucket of capacity 1 that holds key 0. *)
Definition zero_in_full_bucket (h : t) : Prop :=
  exists p b v,
    nth_error (ExtendibleHashTable.dir_ Z Z h) 0 = Some p /\
    nth_error (ExtendibleHashTable.heap_ Z Z h) p = Some b /\
    ExtendibleHashTable.size_ Z Z b = 1 /\
    ExtendibleHashTable.list_ Z Z b = [(0, v)].

End IntTable.

(** Runs of the index on concrete trees. *)
Module Runs.

Import Driver.

(** Trees of the end-to-end scenarios: leaf and internal pages of at most
    4 entries, a pool of 10 frames with LRU-2 and directory buckets of 4. *)
Definition tree4 : outcome BPlusTree.t := fresh_tree 40 10 2 4 4 4.

Definition after (calls : list call) : outcome (list bool * BPlusTree.t) :=
  s <- tree4 ;; run_calls 40 calls s.

Definition insert_1_to_4 : list call :=
  [CallInsert 1 10; CallInsert 2 20; CallInsert 3 30; CallInsert 4 40].

Definition insert_1_remove_1 : list call := [CallInsert 1 10; CallRemove 1].

(** The state a run ends in. *)
Definition state_after (calls : list call) : BPlusTree.t :=
  match after calls with
  | Done (_, s) => s
  | _ => BPlusTree.init 1 (BufferPoolManagerInstance.init 10 2 4 []) 4 4
  end.

End Runs.

(** Vocabulary of the B+ tree properties. *)
Module BPlusTreeSpec.

(** Code that leaves [root_page_id_] as it found it. *)
Definition keeps_root {A : Type} (m : BPlusTree.M A) : Prop :=
  forall s a s',
    m s = Done (a, s') -> BPlusTree.root_page_id_ s' = BPlusTree.root_page_id_ s.

End BPlusTreeSpec.

(** Vocabulary for the replacer with ordered maps: it is compared with
    the scanning replacer through the fields the two share. *)
Module LRUKOrderedSpec.

Import LRUKReplacerOrdered.

(** The state without the two maps. *)
Definition forget (r : t) : LRUKReplacer.t :=
LRUKReplacer.mk (replacer_size_ r) (k_ r) (current_timestamp_ r) (curr_size_ r)
  (history_ r) (allocated_ r) (evictable_ r).

(** The keys of a map increase strictly and lie above [lo]. *)
Fixpoint sorted_from (lo : Z) (m : map_t) : Prop :=
match m with
| [] => True
| (k, _) :: rest => lo < k /\ sorted_from k rest
end.

(** Frame [f] belongs into the map of complete (or of incomplete)
  histories under the timestamp [ts]. *)
Definition entry (r : LRUKReplacer.t) (complete : bool) (f : nat) (ts : Z) : Prop :=
LRUKSpec.candidate r f /\
(if complete then LRUKSpec.accesses r f = LRUKReplacer.k_ r
 else LRUKSpec.accesses r f <> LRUKReplacer.k_ r) /\
LRUKSpec.earliest r f = ts.

(** A map holds exactly the entries that belong into it. *)
Definition holds (m : map_t) (E : nat -> Z -> Prop) : Prop :=
forall ts z, find m ts = Some z <-> exists f, z = Z.of_nat f /\ E f ts.

(** The invariant of the replacer with ordered maps. *)
Set Implicit Arguments.
Record wf (r : t) : Prop := {
wf_scan : LRUKSpec.wf (forget r);
wf_complete_sorted : sorted_from (-1) (complete_histories_ r);
wf_incomplete_sorted : sorted_from (-1) (incomplete_histories_ r);
wf_complete : holds (complete_histories_ r) (entry (forget r) true);
wf_incomplete : holds (incomplete_histories_ r) (entry (forget r) false);
wf_distinct :
  forall f g ts,
    In ts (LRUKSpec.frame_history (forget r) f) ->
    In ts (LRUKSpec.frame_history (forget r) g) -> f = g
}.
Unset Implicit Arguments.

Inductive reachable : t -> Prop :=
| reach_init num k :
  0 <= num <= INT_MAX -> 1 <= k -> reachable (init num k)
| reach_RecordAccess r f r' :
  reachable r -> current_timestamp_ r + 1 < size_t_modulus ->
  RecordAccess r f = Done r' -> reachable r'
| reach_SetEvictable r f b r' :
  reachable r -> SetEvictable r f b = Done r' -> reachable r'
| reach_Remove r f r' :
  reachable r -> Remove r f = Done r' -> reachable r'
| reach_Evict r v r' :
  reachable r -> Evict r = Done (v, r') -> reachable r'.

(** The example state of [LRUKSpec] with its maps. *)
Definition example_start : t := init 7 2.
Definition example_state : t :=
mk 7 2 3 2 [[]; [2; 0]; [1]; []; []; []; []]
  [false; true; true; false; false; false; false]
  [false; true; true; false; false; false; false]
  [(0, 1)] [(1, 2)].

End LRUKOrderedSpec.

(* ================================================================== *)
(** ** Vocabulary of the page properties                               *)
(* ================================================================== *)

Module PageSpec.

(** The keys of a page increase strictly. *)
Definition increasing (p : BPlusTreePage) : Prop :=
  StronglySorted Z.lt (keys p).

(** An entry put before the first entry with a greater key. *)
Fixpoint insert_entry (key : KeyType) (value : ValueType) (l : list MappingType)
  : list MappingType :=
  match l with
  | [] => [(key, value)]
  | (k, v) :: rest =>
      if key <? k then (key, value) :: l
      else (k, v) :: insert_entry key value rest
  end.

(** The list without its first entry for [key]. *)
Fixpoint remove_key (key : KeyType) (l : list MappingType) : list MappingType :=
  match l with
  | [] => []
  | (k, v) :: rest => if k =? key then rest else (k, v) :: remove_key key rest
  end.

(** The list without the entry at position [n]. *)
Definition remove_nth (n : nat) (l : list MappingType) : list MappingType :=
  firstn n l ++ skipn (S n) l.

(** The list with [x] put in at position [n]. *)
Definition insert_nth (n : nat) (x : MappingType) (l : list MappingType)
  : list MappingType :=
  firstn n l ++ x :: skipn n l.

(** Two pages with the same header fields, size apart. *)
Definition same_header (p q : BPlusTreePage) : Prop :=
  page_type_ p = page_type_ q /\ max_size_ p = max_size_ q /\
  parent_page_id_ p = parent_page_id_ q /\ page_id_ p = page_id_ q /\
  next_page_id_ p = next_page_id_ q.

(** Pages for examples: a leaf with keys 1 and 3, and an internal page
    with children 5, 6 and 7 separated by keys 4 and 8. *)
Definition example_leaf : BPlusTreePage :=
  mkBPlusTreePage LEAF_PAGE 2 4 INVALID_PAGE_ID 1 INVALID_PAGE_ID [(1, 10); (3, 30)].
Definition example_internal : BPlusTreePage :=
  mkBPlusTreePage INTERNAL_PAGE 3 4 INVALID_PAGE_ID 2 0 [(0, 5); (4, 6); (8, 7)].

End PageSpec.

(* ================================================================== *)
(** ** Vocabulary of the hash table properties                         *)
(* ================================================================== *)

Module TableSpec.
Section Spec.

Variables K V : Type.
Variable K_eqb : K -> K -> bool.
Variable hash : K -> Z.

Let table : Type := ExtendibleHashTable.t K V.
Let Bucket : Type := ExtendibleHashTable.Bucket K V.

(** What slot [i] of the directory, pointing to the bucket [b] at [p],
    has to satisfy: the local depth is at most the global depth; the
    bucket has the capacity of the table and is not over it; no key is
    held twice; the slots that point to [p] are those that agree with [i]
    on the low [depth] bits; and the hash of every key held agrees with
    [i] on these bits. *)
Record bucket_ok (h : table) (i p : nat) (b : Bucket) : Prop := {
  depth_range :
    0 <= ExtendibleHashTable.depth_ K V b <= ExtendibleHashTable.global_depth_ K V h;
  capacity :
    ExtendibleHashTable.size_ K V b = ExtendibleHashTable.bucket_size_ K V h;
  fits :
    Z.of_nat (length (ExtendibleHashTable.list_ K V b))
    <= ExtendibleHashTable.size_ K V b;
  distinct_keys : NoDup (map fst (ExtendibleHashTable.list_ K V b));
  shared :
    forall j, (j < length (ExtendibleHashTable.dir_ K V h))%nat ->
      (nth j (ExtendibleHashTable.dir_ K V h) 0%nat = p <->
       Z.of_nat j mod 2 ^ ExtendibleHashTable.depth_ K V b
       = Z.of_nat i mod 2 ^ ExtendibleHashTable.depth_ K V b);
  placed :
    forall k v, In (k, v) (ExtendibleHashTable.list_ K V b) ->
      hash k mod 2 ^ ExtendibleHashTable.depth_ K V b
      = Z.of_nat i mod 2 ^ ExtendibleHashTable.depth_ K V b
}.

(** The invariant of the table: the directory has [2 ^ global_depth]
    slots, each pointing to a bucket as above; [num_buckets_] counts the
    buckets. *)
Record wf (h : table) : Prop := {
  wf_depth : 0 <= ExtendibleHashTable.global_depth_ K V h < 31;
  wf_dir :
    Z.of_nat (length (ExtendibleHashTable.dir_ K V h))
    = 2 ^ ExtendibleHashTable.global_depth_ K V h;
  wf_num :
    ExtendibleHashTable.num_buckets_ K V h
    = Z.of_nat (length (ExtendibleHashTable.heap_ K V h));
  wf_buckets :
    forall i, (i < length (ExtendibleHashTable.dir_ K V h))%nat ->
      exists b,
        nth_error (ExtendibleHashTable.heap_ K V h)
          (nth i (ExtendibleHashTable.dir_ K V h) 0%nat) = Some b /\
        bucket_ok h i (nth i (ExtendibleHashTable.dir_ K V h) 0%nat) b
}.

(** The slot of the directory a key belongs to. *)
Definition slot_of (h : table) (k : K) : nat :=
  Z.to_nat (hash k mod 2 ^ ExtendibleHashTable.global_depth_ K V h).

(** The tables that come from the constructor by calls that return. *)
Inductive reachable : table -> Prop :=
| reach_init bucket_size :
    0 <= bucket_size -> reachable (ExtendibleHashTable.init K V bucket_size)
| reach_Insert fuel h key value h' :
    reachable h ->
    ExtendibleHashTable.Insert K V K_eqb hash fuel h key value = Done h' ->
    reachable h'
| reach_Remove h key r h' :
    reachable h ->
    ExtendibleHashTable.Remove K V K_eqb hash h key = Done (r, h') ->
    reachable h'.

End Spec.
End TableSpec.

(** Tables with buckets of one entry: [holding_zero] after the key 1 went
    in, and after the key 2 went in as well.  In the second the slots 1
    and 3 share a bucket of local depth 1. *)
Module TableExamples.

Definition two_keys : IntTable.t :=
  ExtendibleHashTable.mk Z Z 1 1 2 [0%nat; 1%nat]
    [ExtendibleHashTable.mkBucket Z Z 1 1 [(0, 10)];
     ExtendibleHashTable.mkBucket Z Z 1 1 [(1, 11)]].

Definition three_keys : IntTable.t :=
  ExtendibleHashTable.mk Z Z 2 1 3 [0%nat; 1%nat; 2%nat; 1%nat]
    [ExtendibleHashTable.mkBucket Z Z 1 2 [(0, 10)];
     ExtendibleHashTable.mkBucket Z Z 1 1 [(1, 11)];
     ExtendibleHashTable.mkBucket Z Z 1 2 [(2, 12)]].

End TableExamples.

(* ================================================================== *)
(** ** Vocabulary of the buffer pool properties                        *)
(* ================================================================== *)

Module PoolSpec.

Import BufferPoolManagerInstance.

(** The timestamp counter of the replacer has room for one more access. *)
Definition clock_ok (b : t) : Prop :=
  LRUKReplacer.current_timestamp_ (replacer_ b) + 1 < size_t_modulus.

(** The invariant of the pool: the page table and the replacer keep
    theirs; there are [pool_size_] frames; a page id that the page table
    knows is the id of the page in the frame it is mapped to, and that
    frame is not on the free list; no frame is on the free list twice; the
    frames on the free list and the frames the replacer may evict are not
    pinned; no pin count is negative. *)
Record wf (b : t) : Prop := {
  wf_page_table : TableSpec.wf Z Z hash_int (page_table_ b);
  wf_replacer : LRUKSpec.wf (replacer_ b);
  wf_pool_size : Z.of_nat (length (pages_ b)) = pool_size_ b;
  wf_resident :
    forall page_id f, Find b page_id = Done (Some f) ->
      exists pg, vec_get (pages_ b) f = Done pg /\ page_id_ pg = page_id /\
                 ~ In f (free_list_ b);
  wf_free_list : NoDup (free_list_ b);
  wf_free_frames :
    forall f pg, In f (free_list_ b) -> vec_get (pages_ b) f = Done pg ->
                 pin_count_ pg = 0;
  wf_pin_count :
    forall f pg, vec_get (pages_ b) f = Done pg -> 0 <= pin_count_ pg;
  wf_evictable_frames :
    forall f pg, vec_get (pages_ b) f = Done pg ->
                 LRUKSpec.frame_evictable (replacer_ b) (Z.to_nat f) = true ->
                 pin_count_ pg = 0
}.

(** The states the pool goes through: from the constructor by calls that
    return, the timestamp counter of the replacer not running over. *)
Inductive reachable : t -> Prop :=
| reach_init pool_size replacer_k bucket_size disk :
    0 <= pool_size <= INT_MAX -> 1 <= replacer_k -> 0 <= bucket_size ->
    reachable (init pool_size replacer_k bucket_size disk)
| reach_NewPgImp fuel b page_id frame b' :
    reachable b -> clock_ok b ->
    NewPgImp fuel b = Done (page_id, frame, b') -> reachable b'
| reach_FetchPgImp fuel b page_id frame b' :
    reachable b -> clock_ok b ->
    FetchPgImp fuel b page_id = Done (frame, b') -> reachable b'
| reach_UnpinPgImp b page_id is_dirty ok b' :
    reachable b -> UnpinPgImp b page_id is_dirty = Done (ok, b') -> reachable b'
| reach_FlushPgImp b page_id ok b' :
    reachable b -> FlushPgImp b page_id = Done (ok, b') -> reachable b'
| reach_FlushAllPgsImp b b' :
    reachable b -> FlushAllPgsImp b = Done b' -> reachable b'
| reach_DeletePgImp b page_id ok b' :
    reachable b -> DeletePgImp b page_id = Done (ok, b') -> reachable b'.

(** The frame with the greatest number among those that hold the page;
    [FlushAllPgsImp] writes it last. *)
Definition last_holder (b : t) (page_id : Z) (f : nat) (pg : Page) : Prop :=
  nth_error (pages_ b) f = Some pg /\ page_id_ pg = page_id /\
  forall g pg', (f < g)%nat -> nth_error (pages_ b) g = Some pg' ->
                page_id_ pg' <> page_id.

End PoolSpec.

(* ================================================================== *)
(** ** What [Evict] leaves of its victim                               *)
(* ================================================================== *)

Module EvictSpec.

Import LRUKReplacer.

(** The state [r'] is [r] with the frame [v] forgotten: [v] has no
    recorded access, is not evictable and not tracked; [Size] is one
    less; the number of frames, K and the timestamp counter are as they
    were, and so are the history and the flags of every other frame. *)
Definition cleared (r : t) (v : nat) (r' : t) : Prop :=
  LRUKSpec.frame_history r' v = [] /\
  LRUKSpec.frame_evictable r' v = false /\
  LRUKSpec.frame_allocated r' v = false /\
  Size r' = Size r - 1 /\
  replacer_size_ r' = replacer_size_ r /\
  k_ r' = k_ r /\
  current_timestamp_ r' = current_timestamp_ r /\
  forall g, g <> v ->
    LRUKSpec.frame_history r' g = LRUKSpec.frame_history r g /\
    LRUKSpec.frame_evictable r' g = LRUKSpec.frame_evictable r g /\
    LRUKSpec.frame_allocated r' g = LRUKSpec.frame_allocated r g.

(** The map [m'] is [m] without the entries of the frame [v]. *)
Definition without (m : LRUKReplacerOrdered.map_t) (v : nat)
    (m' : LRUKReplacerOrdered.map_t) : Prop :=
  forall ts z,
    LRUKReplacerOrdered.find m' ts = Some z <->
    LRUKReplacerOrdered.find m ts = Some z /\ z <> Z.of_nat v.

End EvictSpec.

(* ################################################################## *)
(** * Part II: properties                                              *)
(* ################################################################## *)

(* ================================================================== *)
(** ** Outcomes, vectors and machine integers                          *)
(* ================================================================== *)

Lemma bind_Done_inv {A B : Type} (m : outcome A) (f : A -> outcome B) (b : B) :
  bind m f = Done b -> exists a, m = Done a /\ f a = Done b.
Proof. destruct m; simpl; intros H; try discriminate; eauto. Qed.

Lemma wrap_size_t_small z : 0 <= z < size_t_modulus -> wrap_size_t z = z.
Proof. intros H. unfold wrap_size_t. now apply Z.mod_small. Qed.

Lemma wrap_int_small z : - 2 ^ 31 <= z <= INT_MAX -> wrap_int z = z.
Proof.
  unfold wrap_int, INT_MAX, int_modulus. intros H.
  rewrite Z.mod_small; lia.
Qed.

Lemma length_list_set {A : Type} (v : list A) n a :
  length (list_set v n a) = length v.
Proof.
  revert n; induction v as [|h t IH]; intros [|n]; simpl; auto.
Qed.

Lemma nth_error_list_set_eq {A : Type} (v : list A) n a :
  (n < length v)%nat -> nth_error (list_set v n a) n = Some a.
Proof.
  revert n; induction v as [|h t IH]; intros [|n]; simpl; intros H;
    try lia; auto.
  apply IH. lia.
Qed.

Lemma nth_error_list_set_neq {A : Type} (v : list A) n m a :
  n <> m -> nth_error (list_set v n a) m = nth_error v m.
Proof.
  revert n m; induction v as [|h t IH]; intros [|n] [|m]; simpl; intros H;
    try congruence; auto.
Qed.

Lemma vec_get_Done {A : Type} (v : list A) i a :
  vec_get v i = Done a <-> 0 <= i /\ nth_error v (Z.to_nat i) = Some a.
Proof.
  unfold vec_get. destruct (Z.ltb_spec i 0).
  - split; [discriminate | lia].
  - destruct (nth_error v (Z.to_nat i)) eqn:E; split; intros H1;
      try discriminate; try (destruct H1; congruence).
    inversion H1; subst; auto.
Qed.

Lemma vec_set_Done {A : Type} (v : list A) i a w :
  vec_set v i a = Done w <->
  0 <= i /\ (Z.to_nat i < length v)%nat /\ w = list_set v (Z.to_nat i) a.
Proof.
  unfold vec_set. destruct (Z.ltb_spec i 0).
  - split; [discriminate | lia].
  - destruct (Nat.ltb_spec (Z.to_nat i) (length v)); split; intros H1;
      try discriminate; try lia.
    + inversion H1; auto.
    + destruct H1 as (_ & _ & ->); auto.
Qed.

(* ================================================================== *)
(** ** Leaf page: [Remove]                                             *)
(* ================================================================== *)

Module LeafPageFacts.

(** [LowerBound] answers [-1] exactly when the key is below every key of
    the page; it never asks for equality. *)
Lemma LowerBound_scan_range p key n :
  -1 <= LeafPage.LowerBound_scan p key n < Z.of_nat n.
Proof.
  induction n as [|n IH]; simpl; [lia|].
  destruct (comparator key (fst (slot (array_ p) (Z.of_nat n))) >=? 0); lia.
Qed.

Lemma comparator_ge key k : (comparator key k >=? 0) = (k <=? key).
Proof.
  unfold comparator. destruct (Z.compare_spec key k), (Z.leb_spec k key);
    simpl; auto; lia.
Qed.

Lemma LowerBound_scan_found p key n i :
  (i < n)%nat -> fst (slot (array_ p) (Z.of_nat i)) <= key ->
  0 <= LeafPage.LowerBound_scan p key n.
Proof.
  induction n as [|n IH]; intros Hi Hk; [lia|]. simpl.
  rewrite comparator_ge.
  destruct (Z.leb_spec (fst (slot (array_ p) (Z.of_nat n))) key); [lia|].
  apply IH; auto.
  assert (i <> n) by (intros ->; lia). lia.
Qed.

(** Whenever the page holds some key that is at most [key], [Remove]
    deletes an entry and returns [true], whether or not [key] itself is
    on the page. *)
Lemma Remove_floor p key i :
  0 <= i < GetSize p -> fst (slot (array_ p) i) <= key ->
  fst (LeafPage.Remove p key) = true /\
  GetSize (snd (LeafPage.Remove p key)) = GetSize p - 1.
Proof.
  intros Hi Hk. unfold LeafPage.Remove, LeafPage.LowerBound.
  assert (H : 0 <= LeafPage.LowerBound_scan p key (Z.to_nat (GetSize p))).
  { apply LowerBound_scan_found with (i := Z.to_nat i); [lia|].
    rewrite Z2Nat.id by lia. exact Hk. }
  destruct (Z.eqb_spec (LeafPage.LowerBound_scan p key (Z.to_nat (GetSize p))) (-1));
    [lia|].
  simpl. split; reflexivity.
Qed.

End LeafPageFacts.

(** C5 (code_bug).  The claim: the leaf-page [Remove(k)] removes an entry
    only on an exact match and leaves the page alone, returning false, when
    [k] is not on it.  The code looks the slot up with [LowerBound], the
    last slot whose key is at most [k], and never compares for equality: on
    the leaf with keys 1 and 3, [Remove(2)] returns true and deletes the
    entry of key 1. *)
Theorem C5_leaf_Remove_deletes_on_absent_key :
  let leaf := mkBPlusTreePage LEAF_PAGE 2 4 INVALID_PAGE_ID 1 INVALID_PAGE_ID
                [(1, 10); (3, 30)] in
  keys leaf = [1; 3] /\
  ~ In 2 (keys leaf) /\
  fst (LeafPage.Remove leaf 2) = true /\
  entries (snd (LeafPage.Remove leaf 2)) = [(3, 30)] /\
  GetSize (snd (LeafPage.Remove leaf 2)) = 1.
Proof.
  cbv zeta. repeat split; try reflexivity.
  simpl. intros [H|[H|[]]]; discriminate.
Qed.

(* ================================================================== *)
(** ** B+ tree: runs of the index on concrete trees                    *)
(* ================================================================== *)


(** C1 (code_bug).  The claim: after [Remove(k)] completes, [GetValue(k)]
    reports not-found.  On the tree built by inserting 1, 2, 3, 4 (leaves
    [1,2] and [3,4]), [Remove(1)] merges the right leaf into the left one
    but leaves the right leaf and its parent entry in place; [Remove(3)]
    then deletes 3 from that stale leaf only, and [GetValue(3)] still finds
    3 in the left leaf. *)
Theorem C1_GetValue_finds_key_after_Remove :
  ('(rs, s) <- Runs.after (Runs.insert_1_to_4 ++
                           [Driver.CallRemove 1; Driver.CallRemove 3]) ;;
   v <- Driver.search 40 3 s ;;
   Done (rs, v))
  = Done ([true; true; true; true; true; true], Some 30).
Proof. vm_compute. reflexivity. Qed.

(** C3 (code_bug).  The claim: a merge removes the right node's entry from
    the parent, so that the parent is one entry shorter and no longer names
    the right page, and the right page goes back to the free pool.  After
    inserting 1, 2, 3, 4 the root (page 2) has the children 1 and 3;
    [Remove(1)] merges leaf 3 into leaf 1, yet the root keeps its size 2 and
    its entry for page 3, and page 3 stays in its frame with pin count 1. *)
Theorem C3_merge_keeps_parent_entry_and_right_page :
  ('(_, s) <- Runs.after Runs.insert_1_to_4 ;;
   root <- Driver.index_page s (BPlusTree.root_page_id_ s) ;;
   Done (BPlusTree.root_page_id_ s, GetSize root, Driver.children root))
  = Done (2, 2, [1; 3]) /\
  ('(_, s) <- Runs.after (Runs.insert_1_to_4 ++ [Driver.CallRemove 1]) ;;
   root <- Driver.index_page s (BPlusTree.root_page_id_ s) ;;
   left <- Driver.index_page s 1 ;;
   right <- Driver.resident (BPlusTree.buffer_pool_manager_ s) 3 ;;
   Done (BPlusTree.root_page_id_ s, GetSize root, Driver.children root,
         keys left,
         option_map BufferPoolManagerInstance.pin_count_ right,
         BufferPoolManagerInstance.free_list_ (BPlusTree.buffer_pool_manager_ s)))
  = Done (2, 2, [1; 3], [2; 3; 4], Some 1, [4; 5; 6; 7; 8; 9]).
Proof. split; vm_compute; reflexivity. Qed.

(** C4 (code_bug).  The claim: after every mutation each child page's
    [parent_page_id] is the id of the internal page that holds its entry.
    Insert 1..6, remove 1, insert 7..10: the last insert splits the root
    (page 2); page 2 keeps an entry for leaf 4, whose [parent_page_id] was
    set to the new sibling, page 8. *)
Theorem C4_child_parent_pointer_differs_from_holder :
  ('(_, s) <- Runs.after
     ([Driver.CallInsert 1 10; Driver.CallInsert 2 20; Driver.CallInsert 3 30;
       Driver.CallInsert 4 40; Driver.CallInsert 5 50; Driver.CallInsert 6 60;
       Driver.CallRemove 1;
       Driver.CallInsert 7 70; Driver.CallInsert 8 80; Driver.CallInsert 9 90;
       Driver.CallInsert 10 100]) ;;
   holder <- Driver.index_page s 2 ;;
   child <- Driver.index_page s 4 ;;
   Done (IsLeafPage holder, Driver.children holder, GetParentPageId child))
  = Done (false, [1; 4], 8).
Proof. vm_compute. reflexivity. Qed.

(* ================================================================== *)
(** ** LRU-K replacer (scanning): invariant and eviction policy        *)
(* ================================================================== *)

Module LRUKFacts.

Import LRUKReplacer LRUKSpec.

Local Arguments Z.of_nat : simpl never.
Local Arguments removelast : simpl never.

Ltac unfold_spec :=
  unfold candidate, accesses, earliest, num_frames, frame_allocated,
    frame_evictable, frame_history, count_evictable in *.

Lemma nth_error_nth_default {A : Type} (v : list A) i d :
  (i < length v)%nat -> nth_error v i = Some (nth i v d).
Proof. intros H. apply nth_error_nth'. exact H. Qed.

Lemma vec_get_nat {A : Type} (v : list A) (i : nat) d :
  (i < length v)%nat -> vec_get v (Z.of_nat i) = Done (nth i v d).
Proof.
  intros H. unfold vec_get.
  destruct (Z.ltb_spec (Z.of_nat i) 0); [lia|].
  rewrite Nat2Z.id, (nth_error_nth_default v i d H). reflexivity.
Qed.

Lemma vec_set_nat {A : Type} (v : list A) (i : nat) a :
  (i < length v)%nat -> vec_set v (Z.of_nat i) a = Done (list_set v i a).
Proof.
  intros H. unfold vec_set.
  destruct (Z.ltb_spec (Z.of_nat i) 0); [lia|].
  rewrite Nat2Z.id. destruct (Nat.ltb_spec i (length v)); [reflexivity|lia].
Qed.

Lemma nth_list_set_eq {A : Type} (v : list A) n a d :
  (n < length v)%nat -> nth n (list_set v n a) d = a.
Proof.
  intros H. apply nth_error_nth. now apply nth_error_list_set_eq.
Qed.

Lemma nth_list_set_neq {A : Type} (v : list A) n m a d :
  n <> m -> nth m (list_set v n a) d = nth m v d.
Proof.
  revert n m; induction v as [|h t IH]; intros [|n] [|m] H; simpl;
    try congruence; auto.
Qed.

Lemma nth_list_set {A : Type} (v : list A) n m a d :
  (n < length v)%nat ->
  nth m (list_set v n a) d = if Nat.eqb n m then a else nth m v d.
Proof.
  intros H. destruct (Nat.eqb_spec n m) as [->|E].
  - now apply nth_list_set_eq.
  - now apply nth_list_set_neq.
Qed.

Lemma count_occ_list_set_nat (v : list bool) n a :
  (n < length v)%nat ->
  (count_occ bool_dec (list_set v n a) true + (if nth n v false then 1 else 0)
   = count_occ bool_dec v true + (if a then 1 else 0))%nat.
Proof.
  revert n; induction v as [|h t IH]; intros [|n] H; simpl in *; try lia.
  - destruct h, a; simpl; lia.
  - specialize (IH n ltac:(lia)).
    destruct h; simpl; lia.
Qed.

Lemma count_occ_list_set (v : list bool) n a :
  (n < length v)%nat ->
  Z.of_nat (count_occ bool_dec (list_set v n a) true) =
  Z.of_nat (count_occ bool_dec v true)
  - (if nth n v false then 1 else 0) + (if a then 1 else 0).
Proof.
  intros H. pose proof (count_occ_list_set_nat v n a H) as E.
  destruct (nth n v false), a; lia.
Qed.

Lemma count_occ_true_pos (v : list bool) n :
  nth n v false = true -> (0 < count_occ bool_dec v true)%nat.
Proof.
  revert n; induction v as [|h t IH]; intros [|n] H; simpl in *;
    try discriminate.
  - subst. simpl. lia.
  - destruct h; simpl; [lia|]. eapply IH; eauto.
Qed.

Lemma count_occ_zero_none (v : list bool) n :
  count_occ bool_dec v true = 0%nat -> nth n v false = false.
Proof.
  intros H. destruct (nth n v false) eqn:E; auto.
  apply count_occ_true_pos in E. lia.
Qed.

Lemma count_occ_pos_some (v : list bool) :
  (0 < count_occ bool_dec v true)%nat ->
  exists n, (n < length v)%nat /\ nth n v false = true.
Proof.
  induction v as [|h t IH]; simpl; [lia|].
  destruct h; simpl.
  - intros _. exists 0%nat. split; [lia|reflexivity].
  - intros H. destruct (IH H) as (n & Hn & E). exists (S n). split; [lia|exact E].
Qed.

Lemma count_occ_le_length (v : list bool) :
  (count_occ bool_dec v true <= length v)%nat.
Proof.
  induction v as [|h t IH]; simpl; [lia|]. destruct h; simpl; lia.
Qed.

Lemma count_occ_repeat_false n :
  count_occ bool_dec (repeat false n) true = 0%nat.
Proof. induction n; simpl; auto. Qed.

Lemma nth_repeat_default {A : Type} (a : A) n m : nth m (repeat a n) a = a.
Proof.
  revert m; induction n as [|n IH]; intros [|m]; simpl; auto.
Qed.

(** *** The invariant holds in every reachable state *)

Lemma wf_init num k : 0 <= num <= INT_MAX -> 1 <= k -> wf (init num k).
Proof.
  intros Hn Hk. unfold init.
  constructor; unfold_spec; simpl.
  - exact Hk.
  - exact Hn.
  - apply repeat_length.
  - apply repeat_length.
  - apply repeat_length.
  - unfold size_t_modulus. lia.
  - rewrite count_occ_repeat_false. reflexivity.
  - intros f. rewrite !nth_repeat_default. auto.
  - intros f _. apply nth_repeat_default.
  - intros f. rewrite nth_repeat_default. discriminate.
Qed.

Lemma valid_frame_id r f :
  wf r -> IsValidFrameId r f = true -> 0 <= f ->
  (Z.to_nat f < num_frames r)%nat /\ f = Z.of_nat (Z.to_nat f).
Proof.
  intros W H H0. unfold IsValidFrameId in H.
  rewrite wrap_int_small in H by (pose proof (wf_size W); unfold INT_MAX in *; lia).
  apply Z.ltb_lt in H. unfold num_frames. split; lia.
Qed.

Lemma vec_get_nonneg {A : Type} (v : list A) f a : vec_get v f = Done a -> 0 <= f.
Proof. intros H. apply vec_get_Done in H. tauto. Qed.

Lemma wf_RemoveInternal r (f : nat) :
  wf r -> (f < num_frames r)%nat -> frame_evictable r f = true ->
  exists r', RemoveInternal r (Z.of_nat f) = Done r' /\ wf r' /\
    history_ r' = list_set (history_ r) f [] /\
    allocated_ r' = list_set (allocated_ r) f false /\
    evictable_ r' = list_set (evictable_ r) f false /\
    curr_size_ r' = curr_size_ r - 1.
Proof.
  intros W Hf He. unfold RemoveInternal.
  rewrite !vec_set_nat by (rewrite ?(wf_history W), ?(wf_allocated W),
                            ?(wf_evictable W); exact Hf).
  simpl.
  assert (Hc : 1 <= curr_size_ r).
  { rewrite (wf_curr_size W). unfold count_evictable.
    apply count_occ_true_pos in He. lia. }
  assert (Hle : curr_size_ r <= replacer_size_ r).
  { rewrite (wf_curr_size W). unfold count_evictable.
    pose proof (count_occ_le_length (evictable_ r)) as L.
    rewrite (wf_evictable W) in L. unfold num_frames in L.
    pose proof (wf_size W). lia. }
  assert (Hw : wrap_size_t (curr_size_ r - 1) = curr_size_ r - 1).
  { apply wrap_size_t_small. pose proof (wf_size W).
    unfold INT_MAX, size_t_modulus in *. lia. }
  rewrite Hw.
  eexists. split; [reflexivity|]. split; [|simpl; auto].
  pose proof (wf_history W) as LH. pose proof (wf_allocated W) as LA.
  pose proof (wf_evictable W) as LE.
  pose proof (wf_evictable_allocated W) as WEA.
  pose proof (wf_free W) as WF. pose proof (wf_used W) as WU.
  pose proof (wf_curr_size W) as WC.
  constructor; unfold_spec; simpl;
    rewrite ?length_list_set; auto; try apply W.
  - rewrite count_occ_list_set by lia. rewrite He. lia.
  - intros g. rewrite !nth_list_set by lia.
    destruct (Nat.eqb_spec f g); [discriminate|]. apply WEA.
  - intros g. rewrite !nth_list_set by lia.
    destruct (Nat.eqb_spec f g); [reflexivity|]. apply WF.
  - intros g. rewrite !nth_list_set by lia.
    destruct (Nat.eqb_spec f g); [discriminate|]. apply WU.
Qed.


Lemma In_removelast {A : Type} (l : list A) x : In x (removelast l) -> In x l.
Proof.
  induction l as [|a l IH]; simpl; auto.
  destruct l as [|b l]; simpl in *; [tauto|].
  intros [H|H]; auto.
Qed.

Lemma length_removelast_cons {A : Type} (a : A) l :
  length (removelast (a :: l)) = length l.
Proof.
  revert a; induction l as [|b l IH]; intros a; simpl in *; auto.
Qed.

Lemma last_cons_default {A : Type} (l : list A) a d : last (a :: l) d = last l a.
Proof.
  revert a d; induction l as [|b l IH]; intros a d; [reflexivity|].
  change (last (a :: b :: l) d) with (last (b :: l) d).
  rewrite (IH b d). symmetry. apply IH.
Qed.

Lemma back_last {A : Type} (l : list A) d : l <> [] -> back l = Done (last l d).
Proof.
  destruct l as [|a l]; [congruence|]. intros _. unfold back.
  now rewrite last_cons_default.
Qed.

Lemma last_In {A : Type} (l : list A) d : l <> [] -> In (last l d) l.
Proof.
  induction l as [|a l IH]; [congruence|]. intros _.
  destruct l as [|b l]; simpl; auto.
  right. apply IH. discriminate.
Qed.

Lemma RecordAccess_Done_inv r f r' :
  wf r -> RecordAccess r f = Done r' ->
  (Z.to_nat f < num_frames r)%nat /\ f = Z.of_nat (Z.to_nat f).
Proof.
  intros W H. unfold RecordAccess in H.
  destruct (IsValidFrameId r f) eqn:V; simpl in H; [|discriminate].
  apply bind_Done_inv in H. destruct H as (a & Ha & _).
  apply vec_get_nonneg in Ha. now apply valid_frame_id.
Qed.

(** The history of a frame after an access at time [ts]. *)
Lemma trimmed_history (k ts : Z) (h : list Z) :
  1 <= k -> Z.of_nat (length h) <= k ->
  let h' := if Z.of_nat (length (ts :: h)) >? k then removelast (ts :: h)
            else ts :: h in
  h' <> [] /\ Z.of_nat (length h') <= k /\
  (forall x, In x h' -> x = ts \/ In x h).
Proof.
  intros Hk Hlen. cbv zeta.
  destruct (Z.gtb_spec (Z.of_nat (length (ts :: h))) k) as [G|G].
  - simpl in G. repeat split.
    + destruct h as [|a h]; simpl in *; [lia|].
      unfold removelast; fold (removelast (a :: h)). discriminate.
    + rewrite length_removelast_cons. lia.
    + intros x Hx. apply In_removelast in Hx. destruct Hx; auto.
  - repeat split; [discriminate|exact G|].
    intros x [Hx|Hx]; auto.
Qed.

Lemma wf_RecordAccess r f r' :
  wf r -> current_timestamp_ r + 1 < size_t_modulus ->
  RecordAccess r f = Done r' -> wf r'.
Proof.
  intros W Hts H.
  destruct (RecordAccess_Done_inv r f r' W H) as (Hi & Ef).
  set (i := Z.to_nat f) in *. rewrite Ef in H. clearbody i. clear Ef f.
  pose proof (wf_history W) as LH. pose proof (wf_allocated W) as LA.
  pose proof (wf_evictable W) as LE.
  pose proof (wf_evictable_allocated W) as WEA.
  pose proof (wf_free W) as WF. pose proof (wf_used W) as WU.
  pose proof (wf_curr_size W) as WC. pose proof (wf_timestamp W) as WT.
  pose proof (wf_k W) as WK. pose proof (wf_size W) as WS.
  unfold RecordAccess in H.
  destruct (IsValidFrameId r (Z.of_nat i)); simpl in H; [|discriminate].
  rewrite (vec_get_nat (allocated_ r) i false) in H by lia. simpl in H.
  assert (Hw : wrap_size_t (current_timestamp_ r + 1) = current_timestamp_ r + 1)
    by (apply wrap_size_t_small; lia).
  unfold_spec.
  assert (Hlen : Z.of_nat (length (nth i (history_ r) [])) <= k_ r).
  { destruct (nth i (allocated_ r) false) eqn:Ea.
    - apply (WU i Ea).
    - rewrite (WF i Ea). simpl. lia. }
  assert (Hin : forall x, In x (nth i (history_ r) []) ->
                          0 <= x < current_timestamp_ r).
  { destruct (nth i (allocated_ r) false) eqn:Ea.
    - apply (WU i Ea).
    - rewrite (WF i Ea). intros x []. }
  pose proof (trimmed_history (k_ r) (current_timestamp_ r)
                (nth i (history_ r) []) WK Hlen) as T.
  cbv zeta in T. destruct T as (T1 & T2 & T3).
  destruct (nth i (allocated_ r) false) eqn:Ea; simpl in H.
  - (* the frame is in use *)
    rewrite (vec_get_nat (history_ r) i []) in H by lia. simpl in H.
    rewrite vec_set_nat in H by lia. simpl in H.
    inversion H; subst r'; clear H. rewrite Hw.
    constructor; unfold_spec; simpl; rewrite ?length_list_set; auto; try lia.
    + intros g Hg. rewrite nth_list_set by lia.
      destruct (Nat.eqb_spec i g) as [->|]; [congruence|auto].
    + intros g Hg. rewrite nth_list_set by lia.
      destruct (Nat.eqb_spec i g) as [<-|].
      * split; [exact T1|]. split; [exact T2|].
        intros x Hx. destruct (T3 x Hx) as [->|Hx']; [lia|].
        specialize (Hin _ Hx'). lia.
      * destruct (WU g Hg) as (Hne' & Hlen' & Hin').
        split; [exact Hne'|]. split; [exact Hlen'|].
        intros x Hx. specialize (Hin' _ Hx). lia.
  - (* the frame is allocated by this access *)
    rewrite !vec_set_nat in H by lia. simpl in H.
    rewrite (vec_get_nat (history_ r) i []) in H by lia. simpl in H.
    rewrite vec_set_nat in H by lia. simpl in H.
    inversion H; subst r'; clear H. rewrite Hw.
    assert (Ee : nth i (evictable_ r) false = false).
    { destruct (nth i (evictable_ r) false) eqn:E; auto.
      apply WEA in E. congruence. }
    constructor; unfold_spec; simpl; rewrite ?length_list_set; auto; try lia.
    + rewrite count_occ_list_set by lia. rewrite Ee. lia.
    + intros g. rewrite !nth_list_set by lia.
      destruct (Nat.eqb_spec i g); [discriminate|apply WEA].
    + intros g. rewrite !nth_list_set by lia.
      destruct (Nat.eqb_spec i g); [discriminate|apply WF].
    + intros g. rewrite !nth_list_set by lia.
      destruct (Nat.eqb_spec i g) as [<-|].
      * intros _. split; [exact T1|]. split; [exact T2|].
        intros x Hx. destruct (T3 x Hx) as [->|Hx']; [lia|].
        specialize (Hin _ Hx'). lia.
      * intros Hg. destruct (WU g Hg) as (Hne' & Hlen' & Hin').
        split; [exact Hne'|]. split; [exact Hlen'|].
        intros x Hx. specialize (Hin' _ Hx). lia.
Qed.

Lemma wf_SetEvictable r f b r' :
  wf r -> SetEvictable r f b = Done r' -> wf r'.
Proof.
  intros W H.
  pose proof (wf_history W) as LH. pose proof (wf_allocated W) as LA.
  pose proof (wf_evictable W) as LE.
  pose proof (wf_evictable_allocated W) as WEA.
  pose proof (wf_free W) as WF. pose proof (wf_used W) as WU.
  pose proof (wf_curr_size W) as WC. pose proof (wf_size W) as WS.
  unfold SetEvictable in H.
  destruct (IsValidFrameId r f) eqn:V; simpl in H; [|discriminate].
  destruct (vec_get (allocated_ r) f) as [a| | |] eqn:Ga; simpl in H;
    try discriminate.
  pose proof (vec_get_nonneg _ _ _ Ga) as H0.
  destruct (valid_frame_id r f W V H0) as (Hi & Ef).
  set (i := Z.to_nat f) in *. rewrite Ef in *. clearbody i. clear Ef H0 f.
  rewrite (vec_get_nat (allocated_ r) i false) in Ga by lia.
  inversion Ga; subst a; clear Ga.
  destruct (nth i (allocated_ r) false) eqn:Ea; simpl in H;
    [|inversion H; subst; exact W].
  rewrite (vec_get_nat (evictable_ r) i false) in H by lia. simpl in H.
  pose proof (count_occ_le_length (evictable_ r)) as CL.
  assert (Hsz : Z.of_nat (length (evictable_ r)) <= INT_MAX)
    by (rewrite LE; unfold num_frames; lia).
  unfold_spec.
  destruct (nth i (evictable_ r) false) eqn:Ee, b; simpl in H;
    rewrite vec_set_nat in H by (simpl; lia); simpl in H;
    inversion H; subst r'; clear H;
    constructor; unfold_spec; simpl; rewrite ?length_list_set; auto;
    try apply W;
    try (rewrite count_occ_list_set by lia; rewrite Ee;
         try rewrite wrap_size_t_small; unfold INT_MAX, size_t_modulus in *;
         try lia;
         apply count_occ_true_pos in Ee; lia);
    try (intros g; rewrite nth_list_set by lia;
         destruct (Nat.eqb_spec i g) as [<-|]; auto; discriminate).
Qed.

Lemma wf_Remove r f r' : wf r -> Remove r f = Done r' -> wf r'.
Proof.
  intros W H. unfold Remove in H.
  destruct (IsValidFrameId r f) eqn:V; simpl in H;
    [|inversion H; subst; exact W].
  destruct (vec_get (allocated_ r) f) as [a| | |] eqn:Ga; simpl in H;
    try discriminate.
  pose proof (vec_get_nonneg _ _ _ Ga) as H0.
  destruct (valid_frame_id r f W V H0) as (Hi & Ef).
  destruct a; simpl in H; [|inversion H; subst; exact W].
  destruct (vec_get (evictable_ r) f) as [e| | |] eqn:Ge; simpl in H;
    try discriminate.
  destruct e; simpl in H; [|discriminate].
  rewrite Ef in Ge, H.
  rewrite (vec_get_nat (evictable_ r) (Z.to_nat f) false) in Ge
    by (rewrite (wf_evictable W); exact Hi).
  inversion Ge as [Ge'].
  destruct (wf_RemoveInternal r (Z.to_nat f) W Hi Ge') as (r1 & E1 & W1 & _).
  rewrite E1 in H. inversion H; subst; exact W1.
Qed.

(** *** The two scans of [Evict] *)

Section Scan.

Variable r : t.
Hypothesis W : wf r.

Let ts := current_timestamp_ r.

Lemma candidate_history f :
  (f < num_frames r)%nat -> frame_evictable r f = true ->
  frame_allocated r f = true /\
  back (frame_history r f) = Done (earliest r f) /\
  0 <= earliest r f < ts /\ accesses r f <= k_ r.
Proof.
  intros Hf He. pose proof (wf_evictable_allocated W f He) as Ha.
  destruct (wf_used W f Ha) as (Hne & Hlen & Hin).
  split; [exact Ha|]. split; [apply back_last; exact Hne|].
  split; [|exact Hlen].
  apply Hin. unfold earliest. apply last_In. exact Hne.
Qed.

Lemma Evict_complete_step i rest id hd :
  (i < num_frames r)%nat ->
  Evict_complete r (i :: rest) id hd =
  if frame_evictable r i then
    if accesses r i =? k_ r then
      if ts - earliest r i >? hd
      then Evict_complete r rest (Z.of_nat i) (ts - earliest r i)
      else Evict_complete r rest id hd
    else Done (id, sentinel)
  else Evict_complete r rest id hd.
Proof.
  intros Hi. cbn [Evict_complete].
  rewrite (vec_get_nat (allocated_ r) i false) by (rewrite (wf_allocated W); exact Hi).
  rewrite (vec_get_nat (evictable_ r) i false) by (rewrite (wf_evictable W); exact Hi).
  cbn [bind].
  fold (frame_allocated r i). fold (frame_evictable r i).
  destruct (frame_evictable r i) eqn:He.
  - destruct (candidate_history i Hi He) as (Ha & Hb & Hr & _).
    rewrite Ha. cbn [negb orb].
    rewrite (vec_get_nat (history_ r) i []) by (rewrite (wf_history W); exact Hi).
    cbn [bind]. fold (frame_history r i). fold (accesses r i).
    destruct (accesses r i =? k_ r); [|reflexivity].
    rewrite Hb. cbn [bind].
    rewrite wrap_size_t_small; [reflexivity|].
    pose proof (wf_timestamp W). fold ts in H. lia.
  - rewrite orb_true_r. reflexivity.
Qed.

Lemma Evict_incomplete_step i rest id et :
  (i < num_frames r)%nat ->
  Evict_incomplete r (i :: rest) id et =
  if frame_evictable r i && negb (accesses r i =? k_ r) then
    if earliest r i <? et
    then Evict_incomplete r rest (Z.of_nat i) (earliest r i)
    else Evict_incomplete r rest id et
  else Evict_incomplete r rest id et.
Proof.
  intros Hi. cbn [Evict_incomplete].
  rewrite (vec_get_nat (allocated_ r) i false) by (rewrite (wf_allocated W); exact Hi).
  rewrite (vec_get_nat (evictable_ r) i false) by (rewrite (wf_evictable W); exact Hi).
  rewrite (vec_get_nat (history_ r) i []) by (rewrite (wf_history W); exact Hi).
  cbn [bind].
  fold (frame_allocated r i). fold (frame_evictable r i).
  fold (frame_history r i). fold (accesses r i).
  destruct (frame_evictable r i) eqn:He.
  - destruct (candidate_history i Hi He) as (Ha & Hb & _).
    rewrite Ha. cbn [negb orb andb].
    destruct (accesses r i =? k_ r); cbn [negb]; [reflexivity|].
    rewrite Hb. reflexivity.
  - rewrite orb_true_r. reflexivity.
Qed.

(** With complete histories only, the first scan keeps the frame of the
    greatest difference. *)
Lemma Evict_complete_all_complete frames :
  (forall i, In i frames -> (i < num_frames r)%nat) ->
  (forall i, In i frames -> frame_evictable r i = true -> accesses r i = k_ r) ->
  forall id hd,
  exists id' hd',
    Evict_complete r frames id hd = Done (id', hd') /\ hd <= hd' /\
    (forall i, In i frames -> frame_evictable r i = true ->
               ts - earliest r i <= hd') /\
    ((id' = id /\ hd' = hd) \/
     (exists i, In i frames /\ frame_evictable r i = true /\
                id' = Z.of_nat i /\ hd' = ts - earliest r i)).
Proof.
  induction frames as [|i rest IH]; intros Hn Hc id hd.
  - exists id, hd. repeat split; [lia| |auto]. intros i [].
  - assert (Hn' : forall j, In j rest -> (j < num_frames r)%nat)
      by (intros; apply Hn; simpl; auto).
    assert (Hc' : forall j, In j rest -> frame_evictable r j = true ->
                            accesses r j = k_ r)
      by (intros; apply Hc; simpl; auto).
    rewrite Evict_complete_step by (apply Hn; simpl; auto).
    destruct (frame_evictable r i) eqn:He.
    + rewrite (Hc i (or_introl eq_refl) He), Z.eqb_refl.
      destruct (Z.gtb_spec (ts - earliest r i) hd) as [G|G].
      * destruct (IH Hn' Hc' (Z.of_nat i) (ts - earliest r i))
          as (id' & hd' & E & Hle & Hmax & Hwho).
        exists id', hd'. split; [exact E|]. split; [lia|]. split.
        -- intros j [<-|Hj] Hej; [lia|auto].
        -- right. destruct Hwho as [[-> ->]|(j & Hj & Hej & -> & ->)].
           ++ exists i. simpl. auto.
           ++ exists j. simpl. auto.
      * destruct (IH Hn' Hc' id hd) as (id' & hd' & E & Hle & Hmax & Hwho).
        exists id', hd'. split; [exact E|]. split; [lia|]. split.
        -- intros j [<-|Hj] Hej; [lia|auto].
        -- destruct Hwho as [?|(j & Hj & Hej & -> & ->)]; [auto|].
           right. exists j. simpl. auto.
    + destruct (IH Hn' Hc' id hd) as (id' & hd' & E & Hle & Hmax & Hwho).
      exists id', hd'. split; [exact E|]. split; [lia|]. split.
      * intros j [<-|Hj] Hej; [congruence|auto].
      * destruct Hwho as [?|(j & Hj & Hej & -> & ->)]; [auto|].
        right. exists j. simpl. auto.
Qed.

(** As soon as a frame with an incomplete history is met, the first
    scan stops with the sentinel. *)
Lemma Evict_complete_some_incomplete frames :
  (forall i, In i frames -> (i < num_frames r)%nat) ->
  (exists i, In i frames /\ frame_evictable r i = true /\ accesses r i <> k_ r) ->
  forall id hd, exists id', Evict_complete r frames id hd = Done (id', sentinel).
Proof.
  induction frames as [|i rest IH]; intros Hn (j & Hj & Hej & Hkj) id hd.
  - destruct Hj.
  - assert (Hn' : forall j, In j rest -> (j < num_frames r)%nat)
      by (intros; apply Hn; simpl; auto).
    rewrite Evict_complete_step by (apply Hn; simpl; auto).
    destruct (frame_evictable r i) eqn:He.
    + destruct (Z.eqb_spec (accesses r i) (k_ r)) as [Ek|Ek].
      * assert (Hrest : exists i0, In i0 rest /\ frame_evictable r i0 = true /\
                                  accesses r i0 <> k_ r).
        { destruct Hj as [<-|Hj]; [congruence|]. exists j. auto. }
        destruct (ts - earliest r i >? hd); apply IH; auto.
      * eexists. reflexivity.
    + apply IH; auto.
      destruct Hj as [<-|Hj]; [congruence|]. exists j. auto.
Qed.

(** The second scan keeps the incomplete frame of the least earliest
    access below the starting bound. *)
Lemma Evict_incomplete_min frames :
  (forall i, In i frames -> (i < num_frames r)%nat) ->
  forall id et,
  exists id' et',
    Evict_incomplete r frames id et = Done (id', et') /\ et' <= et /\
    (forall i, In i frames -> frame_evictable r i = true ->
               accesses r i <> k_ r -> et' <= earliest r i) /\
    ((id' = id /\ et' = et) \/
     (exists i, In i frames /\ frame_evictable r i = true /\
                accesses r i <> k_ r /\
                id' = Z.of_nat i /\ et' = earliest r i)).
Proof.
  induction frames as [|i rest IH]; intros Hn id et.
  - exists id, et. repeat split; [lia| |auto]. intros i [].
  - assert (Hn' : forall j, In j rest -> (j < num_frames r)%nat)
      by (intros; apply Hn; simpl; auto).
    rewrite Evict_incomplete_step by (apply Hn; simpl; auto).
    destruct (frame_evictable r i) eqn:He; cbn [andb].
    + destruct (Z.eqb_spec (accesses r i) (k_ r)) as [Ek|Ek]; cbn [negb].
      * destruct (IH Hn' id et) as (id' & et' & E & Hle & Hmin & Hwho).
        exists id', et'. split; [exact E|]. split; [lia|]. split.
        -- intros j [<-|Hj] Hej Hkj; [congruence|auto].
        -- destruct Hwho as [?|(j & Hj & Hej & Hkj & -> & ->)]; [auto|].
           right. exists j. simpl. auto.
      * destruct (Z.ltb_spec (earliest r i) et) as [L|L].
        -- destruct (IH Hn' (Z.of_nat i) (earliest r i))
             as (id' & et' & E & Hle & Hmin & Hwho).
           exists id', et'. split; [exact E|]. split; [lia|]. split.
           ++ intros j [<-|Hj] Hej Hkj; [lia|auto].
           ++ right. destruct Hwho as [[-> ->]|(j & Hj & Hej & Hkj & -> & ->)].
              ** exists i. simpl. auto.
              ** exists j. simpl. auto.
        -- destruct (IH Hn' id et) as (id' & et' & E & Hle & Hmin & Hwho).
           exists id', et'. split; [exact E|]. split; [lia|]. split.
           ++ intros j [<-|Hj] Hej Hkj; [lia|auto].
           ++ destruct Hwho as [?|(j & Hj & Hej & Hkj & -> & ->)]; [auto|].
              right. exists j. simpl. auto.
    + destruct (IH Hn' id et) as (id' & et' & E & Hle & Hmin & Hwho).
      exists id', et'. split; [exact E|]. split; [lia|]. split.
      * intros j [<-|Hj] Hej Hkj; [congruence|auto].
      * destruct Hwho as [?|(j & Hj & Hej & Hkj & -> & ->)]; [auto|].
        right. exists j. simpl. auto.
Qed.

End Scan.

Lemma candidate_exists r :
  wf r -> count_evictable r <> 0 -> exists f, candidate r f.
Proof.
  intros W H. unfold count_evictable in H.
  destruct (count_occ_pos_some (evictable_ r)) as (n & Hn & E); [lia|].
  exists n. split; [|exact E]. rewrite <- (wf_evictable W). exact Hn.
Qed.

Lemma no_candidate r f : count_evictable r = 0 -> ~ candidate r f.
Proof.
  intros H [_ E]. unfold count_evictable in H.
  unfold frame_evictable in E.
  rewrite (count_occ_zero_none (evictable_ r) f) in E by lia. discriminate.
Qed.

Lemma some_incomplete_true r frames :
  some_incomplete r frames = true <->
  exists i, In i frames /\ frame_evictable r i = true /\ accesses r i <> k_ r.
Proof.
  unfold some_incomplete. rewrite existsb_exists. split.
  - intros (i & Hi & E). apply andb_true_iff in E. destruct E as [E1 E2].
    exists i. repeat split; auto. apply negb_true_iff in E2.
    now apply Z.eqb_neq.
  - intros (i & Hi & E1 & E2). exists i. split; [exact Hi|].
    rewrite E1. apply Z.eqb_neq in E2. now rewrite E2.
Qed.

(** [Evict] on a state with an evictable frame: it returns a victim
    chosen by the policy and removes it. *)
Lemma Evict_victim r :
  wf r -> count_evictable r <> 0 ->
  exists v r',
    Evict r = Done (Some (Z.of_nat v), r') /\
    policy_victim r v /\
    RemoveInternal r (Z.of_nat v) = Done r' /\
    wf r'.
Proof.
  intros W Hc.
  destruct (candidate_exists r W Hc) as (c & Hcn & Hce).
  unfold Evict. rewrite (wf_curr_size W).
  destruct (Z.eqb_spec (count_evictable r) 0) as [|_]; [contradiction|].
  set (frames := seq 0 (Z.to_nat (replacer_size_ r))).
  assert (Hfr : forall i, In i frames <-> (i < num_frames r)%nat).
  { intros i. unfold frames, num_frames. rewrite in_seq. lia. }
  assert (Hn : forall i, In i frames -> (i < num_frames r)%nat)
    by (intros i; apply Hfr).
  pose proof (wf_timestamp W) as WT.
  destruct (some_incomplete r frames) eqn:SI.
  - (* some evictable frame has an incomplete history *)
    apply some_incomplete_true in SI.
    destruct (Evict_complete_some_incomplete r W frames Hn SI sentinel 0)
      as (id1 & E1).
    rewrite E1. cbn [bind]. rewrite Z.eqb_refl.
    destruct (Evict_incomplete_min r W frames Hn id1 (current_timestamp_ r))
      as (id2 & et & E2 & Hle & Hmin & Hwho).
    rewrite E2. cbn [bind].
    destruct SI as (j & Hj & Hej & Hkj).
    destruct (candidate_history r W j (Hn j Hj) Hej) as (_ & _ & Hrj & _).
    pose proof (Hmin j Hj Hej Hkj) as Hmj.
    destruct Hwho as [[_ ->]|(v & Hv & Hev & Hkv & -> & ->)]; [lia|].
    destruct (wf_RemoveInternal r v W (Hn v Hv) Hev) as (r' & ER & W' & _).
    exists v, r'. rewrite ER. cbn [bind].
    split; [reflexivity|]. split; [|split; [reflexivity|exact W']].
    destruct (candidate_history r W v (Hn v Hv) Hev) as (_ & _ & _ & Hlv).
    split; [split; [apply Hn; exact Hv|exact Hev]|]. split.
    + intros _. split; [lia|].
      intros f [Hf Hef] Hkf. apply Hmin; [apply Hfr; exact Hf|exact Hef|lia].
    + intros Hall. exfalso. apply Hkv. apply Hall.
      split; [apply Hn; exact Hv|exact Hev].
  - (* every evictable frame has a complete history *)
    assert (Hall : forall i, In i frames -> frame_evictable r i = true ->
                             accesses r i = k_ r).
    { intros i Hi Hei.
      destruct (Z.eq_dec (accesses r i) (k_ r)) as [|Ne]; [assumption|].
      assert (some_incomplete r frames = true)
        by (apply some_incomplete_true; exists i; auto).
      congruence. }
    destruct (Evict_complete_all_complete r W frames Hn Hall sentinel 0)
      as (id1 & hd & E1 & Hle & Hmax & Hwho).
    rewrite E1. cbn [bind].
    destruct (candidate_history r W c Hcn Hce) as (_ & _ & Hrc & _).
    pose proof (Hmax c (proj2 (Hfr c) Hcn) Hce) as Hmc.
    destruct Hwho as [[_ ->]|(v & Hv & Hev & -> & ->)]; [lia|].
    assert (E2 : (if current_timestamp_ r - earliest r v =? sentinel
                  then Evict_incomplete r frames (Z.of_nat v) (current_timestamp_ r)
                  else Done (Z.of_nat v, 0))
                 = Done (Z.of_nat v,
                         if current_timestamp_ r - earliest r v =? sentinel
                         then current_timestamp_ r else 0)).
    { destruct (current_timestamp_ r - earliest r v =? sentinel); [|reflexivity].
      destruct (Evict_incomplete_min r W frames Hn (Z.of_nat v)
                  (current_timestamp_ r))
        as (id2 & et & E2 & _ & _ & Hwho).
      rewrite E2.
      destruct Hwho as [[-> ->]|(j & Hj & Hej & Hkj & _)]; [reflexivity|].
      exfalso. apply Hkj. apply Hall; assumption. }
    rewrite E2. cbn [bind].
    destruct (wf_RemoveInternal r v W (Hn v Hv) Hev) as (r' & ER & W' & _).
    exists v, r'. rewrite ER. cbn [bind].
    split; [reflexivity|]. split; [|split; [reflexivity|exact W']].
    split; [split; [apply Hn; exact Hv|exact Hev]|]. split.
    + intros (f & [Hf Hef] & Hkf). exfalso.
      pose proof (Hall f (proj2 (Hfr f) Hf) Hef). lia.
    + intros _ f [Hf Hef].
      pose proof (Hmax f (proj2 (Hfr f) Hf) Hef). lia.
Qed.

Lemma Evict_none r : wf r -> count_evictable r = 0 -> Evict r = Done (None, r).
Proof.
  intros W H. unfold Evict. rewrite (wf_curr_size W), H. reflexivity.
Qed.

Lemma wf_Evict r v r' : wf r -> Evict r = Done (v, r') -> wf r'.
Proof.
  intros W H. destruct (Z.eq_dec (count_evictable r) 0) as [E|E].
  - rewrite (Evict_none r W E) in H. inversion H; subst; exact W.
  - destruct (Evict_victim r W E) as (v1 & r1 & E1 & _ & _ & W1).
    rewrite E1 in H. inversion H; subst; exact W1.
Qed.

Lemma reachable_wf r : reachable r -> wf r.
Proof.
  induction 1.
  - now apply wf_init.
  - eapply wf_RecordAccess; eauto.
  - eapply wf_SetEvictable; eauto.
  - eapply wf_Remove; eauto.
  - eapply wf_Evict; eauto.
Qed.

(** Removing the victim through the public [Remove] gives the state
    [Evict] leaves behind. *)
Lemma Remove_candidate r v :
  wf r -> candidate r v -> Remove r (Z.of_nat v) = RemoveInternal r (Z.of_nat v).
Proof.
  intros W [Hv He]. unfold Remove.
  assert (V : IsValidFrameId r (Z.of_nat v) = true).
  { unfold IsValidFrameId. pose proof (wf_size W).
    rewrite wrap_int_small by (unfold INT_MAX in *; lia).
    apply Z.ltb_lt. unfold num_frames in Hv. lia. }
  rewrite V. cbn [negb].
  rewrite (vec_get_nat (allocated_ r) v false) by (rewrite (wf_allocated W); exact Hv).
  cbn [bind]. fold (frame_allocated r v).
  rewrite (wf_evictable_allocated W v He). cbn [negb].
  rewrite (vec_get_nat (evictable_ r) v false) by (rewrite (wf_evictable W); exact Hv).
  cbn [bind]. fold (frame_evictable r v). rewrite He. reflexivity.
Qed.

End LRUKFacts.

(* ================================================================== *)
(** ** Replacer: invalid frame ids                                     *)
(* ================================================================== *)

Module FrameIdFacts.

Lemma scan_invalid r f :
  0 <= LRUKReplacer.replacer_size_ r <= INT_MAX ->
  LRUKReplacer.replacer_size_ r <= f ->
  LRUKReplacer.IsValidFrameId r f = false.
Proof.
  intros H1 H2. unfold LRUKReplacer.IsValidFrameId.
  rewrite wrap_int_small by (unfold INT_MAX in *; lia).
  apply Z.ltb_ge. exact H2.
Qed.

Lemma ordered_invalid r f :
  0 <= LRUKReplacerOrdered.replacer_size_ r <= INT_MAX ->
  LRUKReplacerOrdered.replacer_size_ r <= f ->
  LRUKReplacerOrdered.IsValidFrameId r f = false.
Proof.
  intros H1 H2. unfold LRUKReplacerOrdered.IsValidFrameId.
  rewrite wrap_int_small by (unfold INT_MAX in *; lia).
  apply Z.ltb_ge. exact H2.
Qed.

End FrameIdFacts.

(** C9 (corrected), the claim as stated fails: [Remove] on a frame id
    outside [0, num_frames) does not throw.  With 7 frames, [Remove(7)]
    returns and leaves the replacer as it was, in both replacers. *)
Lemma C9_Remove_out_of_range_returns :
  ~ (0 <= 7 < 7) /\
  LRUKReplacer.Remove (LRUKReplacer.init 7 2) 7 = Done (LRUKReplacer.init 7 2) /\
  LRUKReplacer.Remove (LRUKReplacer.init 7 2) 7 <> InvalidArgument /\
  LRUKReplacerOrdered.Remove (LRUKReplacerOrdered.init 7 2) 7
  = Done (LRUKReplacerOrdered.init 7 2) /\
  LRUKReplacerOrdered.Remove (LRUKReplacerOrdered.init 7 2) 7 <> InvalidArgument.
Proof.
  repeat split; try reflexivity; try discriminate; lia.
Qed.

(** C9 (corrected), amended: for every frame id at or above [num_frames],
    [RecordAccess] and [SetEvictable] throw [std::invalid_argument], while
    [Remove] returns without changing the replacer; and [Remove] on a valid,
    allocated frame that is not evictable throws [std::invalid_argument].
    This holds for the scanning replacer and for the one with ordered maps.
    (Frame ids below zero pass [IsValidFrameId], which has no lower bound;
    nothing is claimed about them.) *)
Theorem C9_invalid_frame_id :
  (forall r f b,
      0 <= LRUKReplacer.replacer_size_ r <= INT_MAX ->
      LRUKReplacer.replacer_size_ r <= f ->
      LRUKReplacer.RecordAccess r f = InvalidArgument /\
      LRUKReplacer.SetEvictable r f b = InvalidArgument /\
      LRUKReplacer.Remove r f = Done r) /\
  (forall r f,
      LRUKReplacer.IsValidFrameId r f = true ->
      vec_get (LRUKReplacer.allocated_ r) f = Done true ->
      vec_get (LRUKReplacer.evictable_ r) f = Done false ->
      LRUKReplacer.Remove r f = InvalidArgument) /\
  (forall r f b,
      0 <= LRUKReplacerOrdered.replacer_size_ r <= INT_MAX ->
      LRUKReplacerOrdered.replacer_size_ r <= f ->
      LRUKReplacerOrdered.RecordAccess r f = InvalidArgument /\
      LRUKReplacerOrdered.SetEvictable r f b = InvalidArgument /\
      LRUKReplacerOrdered.Remove r f = Done r) /\
  (forall r f,
      LRUKReplacerOrdered.IsValidFrameId r f = true ->
      vec_get (LRUKReplacerOrdered.allocated_ r) f = Done true ->
      vec_get (LRUKReplacerOrdered.evictable_ r) f = Done false ->
      LRUKReplacerOrdered.Remove r f = InvalidArgument).
Proof.
  repeat split.
  - unfold LRUKReplacer.RecordAccess.
    now rewrite FrameIdFacts.scan_invalid.
  - unfold LRUKReplacer.SetEvictable.
    now rewrite FrameIdFacts.scan_invalid.
  - unfold LRUKReplacer.Remove.
    now rewrite FrameIdFacts.scan_invalid.
  - intros r f V A E. unfold LRUKReplacer.Remove.
    rewrite V, A. simpl. rewrite E. reflexivity.
  - unfold LRUKReplacerOrdered.RecordAccess.
    now rewrite FrameIdFacts.ordered_invalid.
  - unfold LRUKReplacerOrdered.SetEvictable.
    now rewrite FrameIdFacts.ordered_invalid.
  - unfold LRUKReplacerOrdered.Remove.
    now rewrite FrameIdFacts.ordered_invalid.
  - intros r f V A E. unfold LRUKReplacerOrdered.Remove.
    rewrite V, A. simpl. rewrite E. reflexivity.
Qed.

(** The amended C9 at work: 7 frames, frame 3 accessed once and never made
    evictable; frame id 9 is out of range. *)
Lemma C9_invalid_frame_id_witness :
  (LRUKReplacer.RecordAccess (LRUKReplacer.init 7 2) 9 = InvalidArgument /\
   LRUKReplacer.SetEvictable (LRUKReplacer.init 7 2) 9 true = InvalidArgument /\
   LRUKReplacer.Remove (LRUKReplacer.init 7 2) 9 = Done (LRUKReplacer.init 7 2)) /\
  (forall r, LRUKReplacer.RecordAccess (LRUKReplacer.init 7 2) 3 = Done r ->
             LRUKReplacer.Remove r 3 = InvalidArgument) /\
  (LRUKReplacerOrdered.RecordAccess (LRUKReplacerOrdered.init 7 2) 9 = InvalidArgument /\
   LRUKReplacerOrdered.SetEvictable (LRUKReplacerOrdered.init 7 2) 9 true
   = InvalidArgument /\
   LRUKReplacerOrdered.Remove (LRUKReplacerOrdered.init 7 2) 9
   = Done (LRUKReplacerOrdered.init 7 2)) /\
  (forall r, LRUKReplacerOrdered.RecordAccess (LRUKReplacerOrdered.init 7 2) 3 = Done r ->
             LRUKReplacerOrdered.Remove r 3 = InvalidArgument).
Proof.
  destruct C9_invalid_frame_id as (H1 & H2 & H3 & H4).
  split; [|split; [|split]].
  - apply (H1 (LRUKReplacer.init 7 2) 9 true); simpl; unfold INT_MAX; lia.
  - intros r E. vm_compute in E. inversion E; subst r.
    apply (H2 _ 3); reflexivity.
  - apply (H3 (LRUKReplacerOrdered.init 7 2) 9 true); simpl; unfold INT_MAX; lia.
  - intros r E. vm_compute in E. inversion E; subst r.
    apply (H4 _ 3); reflexivity.
Defined.

(* ================================================================== *)
(** ** Buffer pool manager                                             *)
(* ================================================================== *)

Module BufferPoolFacts.

Import BufferPoolManagerInstance.

Ltac bind_inv H :=
  let a := fresh "a" in
  let E := fresh "E" in
  apply bind_Done_inv in H; destruct H as (a & E & H).

Lemma wrap_int_range z : - 2 ^ 31 <= wrap_int z <= INT_MAX.
Proof.
  unfold wrap_int, INT_MAX, int_modulus.
  pose proof (Z.mod_pos_bound (z + 2 ^ 31) (2 ^ 32) ltac:(lia)). lia.
Qed.

Lemma wrap_int_succ_neq z : - 2 ^ 31 <= z <= INT_MAX -> wrap_int (z + 1) <> z.
Proof.
  intros H. destruct (Z.eq_dec z INT_MAX) as [->|N].
  - vm_compute. discriminate.
  - rewrite wrap_int_small by (unfold INT_MAX in *; lia). lia.
Qed.

(** *** The page-id allocator *)

Lemma acquire_frame_next_page_id b frame b' :
  acquire_frame b = Done (frame, b') -> next_page_id_ b' = next_page_id_ b.
Proof.
  unfold acquire_frame. intros H.
  destruct (free_list_ b) as [|frame_id rest].
  - destruct (LRUKReplacer.Size (replacer_ b) >? 0).
    + bind_inv H. destruct a as [victim r].
      destruct victim as [frame_id|]; [|discriminate].
      bind_inv H. bind_inv H. destruct a0 as [ok pt].
      inversion H; subst. reflexivity.
    + inversion H; subst. reflexivity.
  - inversion H; subst. reflexivity.
Qed.

Lemma install_next_page_id fuel b frame_id page_id load b' :
  install fuel b frame_id page_id load = Done b' ->
  next_page_id_ b' = next_page_id_ b.
Proof.
  unfold install. intros H.
  bind_inv H. bind_inv H. bind_inv H. bind_inv H. bind_inv H.
  inversion H; subst. simpl.
  destruct (IsDirty a2); reflexivity.
Qed.

(** Every call of [NewPgImp] that returns hands out the current counter
    value and leaves the counter advanced by one, whether or not a frame
    was found. *)
Lemma NewPgImp_advances fuel b page_id frame b' :
  NewPgImp fuel b = Done (page_id, frame, b') ->
  page_id = next_page_id_ b /\
  next_page_id_ b' = wrap_int (next_page_id_ b + 1).
Proof.
  unfold NewPgImp, AllocatePage. intros H.
  bind_inv H. destruct a as [fr b1].
  apply acquire_frame_next_page_id in E. simpl in E.
  destruct fr as [frame_id|].
  - bind_inv H. apply install_next_page_id in E0.
    inversion H; subst. split; [reflexivity|]. congruence.
  - inversion H; subst. split; [reflexivity|]. exact E.
Qed.

(** Without a free frame and without an evictable one the call returns
    null, and still the counter has moved. *)
Lemma NewPgImp_no_frame fuel b :
  free_list_ b = [] ->
  LRUKReplacer.Size (replacer_ b) <= 0 ->
  NewPgImp fuel b
  = Done (next_page_id_ b, None,
          set_next_page_id b (wrap_int (next_page_id_ b + 1))).
Proof.
  intros Hf Hs. unfold NewPgImp, AllocatePage, acquire_frame. simpl.
  rewrite Hf.
  destruct (Z.gtb_spec (LRUKReplacer.Size (replacer_ b)) 0); [lia|].
  reflexivity.
Qed.

Lemma UnpinPgImp_next_page_id b page_id is_dirty ok b' :
  UnpinPgImp b page_id is_dirty = Done (ok, b') ->
  next_page_id_ b' = next_page_id_ b.
Proof.
  unfold UnpinPgImp. intros H. bind_inv H.
  destruct a as [frame_id|]; [|inversion H; subst; reflexivity].
  bind_inv H.
  destruct (GetPinCount a =? 0); [inversion H; subst; reflexivity|].
  bind_inv H. bind_inv H. inversion H; subst. reflexivity.
Qed.

Lemma unpin_all_next_page_id calls :
  forall b b', Driver.unpin_all b calls = Done b' ->
               next_page_id_ b' = next_page_id_ b.
Proof.
  induction calls as [|[page_id d] rest IH]; intros b b' H; simpl in H.
  - inversion H; subst. reflexivity.
  - bind_inv H. destruct a as [ok b1].
    apply UnpinPgImp_next_page_id in E. apply IH in H. congruence.
Qed.


(** *** [UnpinPgImp] *)

Lemma UnpinPgImp_not_resident b page_id is_dirty :
  Find b page_id = Done None ->
  UnpinPgImp b page_id is_dirty = Done (false, b).
Proof. intros H. unfold UnpinPgImp. rewrite H. reflexivity. Qed.

Lemma UnpinPgImp_not_pinned b page_id is_dirty frame_id pg :
  Find b page_id = Done (Some frame_id) ->
  vec_get (pages_ b) frame_id = Done pg ->
  pin_count_ pg = 0 ->
  UnpinPgImp b page_id is_dirty = Done (false, b).
Proof.
  intros H1 H2 H3. unfold UnpinPgImp. rewrite H1. simpl. rewrite H2. simpl.
  unfold GetPinCount. rewrite H3. reflexivity.
Qed.

Lemma UnpinPgImp_pinned b page_id is_dirty frame_id pg :
  Find b page_id = Done (Some frame_id) ->
  vec_get (pages_ b) frame_id = Done pg ->
  pin_count_ pg <> 0 ->
  UnpinPgImp b page_id is_dirty =
  (r <- (if pin_count_ pg - 1 =? 0
         then LRUKReplacer.SetEvictable (replacer_ b) frame_id true
         else Done (replacer_ b)) ;;
   Done (true,
         set_pages (set_replacer b r)
           (list_set (pages_ b) (Z.to_nat frame_id) (PoolStates.unpinned pg is_dirty)))).
Proof.
  intros H1 H2 H3. unfold UnpinPgImp. rewrite H1. simpl. rewrite H2. simpl.
  unfold GetPinCount.
  destruct (Z.eqb_spec (pin_count_ pg) 0); [contradiction|].
  simpl.
  assert (S : forall x, vec_set (pages_ b) frame_id x
                        = Done (list_set (pages_ b) (Z.to_nat frame_id) x)).
  { intros x. apply vec_get_Done in H2. destruct H2 as [H0 Hn].
    apply vec_set_Done. split; [exact H0|]. split; [|reflexivity].
    apply nth_error_Some. congruence. }
  unfold PoolStates.unpinned.
  destruct (pin_count_ pg - 1 =? 0);
    [destruct (LRUKReplacer.SetEvictable (replacer_ b) frame_id true); simpl; auto|];
    simpl; destruct (is_dirty_ pg); simpl; rewrite S; reflexivity.
Qed.

(** [SetEvictable(frame, true)] marks a frame the replacer tracks. *)
Lemma SetEvictable_true_marks r frame_id r' :
  LRUKReplacer.SetEvictable r frame_id true = Done r' ->
  vec_get (LRUKReplacer.allocated_ r) frame_id = Done true ->
  vec_get (LRUKReplacer.evictable_ r') frame_id = Done true.
Proof.
  unfold LRUKReplacer.SetEvictable. intros H A.
  destruct (LRUKReplacer.IsValidFrameId r frame_id); simpl in H; [|discriminate].
  rewrite A in H. simpl in H.
  bind_inv H. bind_inv H. inversion H; subst r'. simpl.
  apply vec_set_Done in E0. destruct E0 as (H0 & Hn & ->).
  apply vec_get_Done. split; [exact H0|].
  apply nth_error_list_set_eq. exact Hn.
Qed.

(** A dirty frame is still dirty after any unpin. *)
Lemma UnpinPgImp_keeps_dirty b page_id is_dirty ok b' frame pg :
  UnpinPgImp b page_id is_dirty = Done (ok, b') ->
  nth_error (pages_ b) frame = Some pg -> is_dirty_ pg = true ->
  exists pg', nth_error (pages_ b') frame = Some pg' /\ is_dirty_ pg' = true.
Proof.
  unfold UnpinPgImp. intros H Hn Hd. bind_inv H.
  destruct a as [frame_id|]; [|inversion H; subst; eauto].
  bind_inv H.
  destruct (GetPinCount a =? 0); [inversion H; subst; eauto|].
  bind_inv H. bind_inv H. inversion H; subst b'. simpl.
  apply vec_set_Done in E2. destruct E2 as (H0 & Hl & ->).
  apply vec_get_Done in E0. destruct E0 as [_ E0].
  destruct (Nat.eq_dec (Z.to_nat frame_id) frame) as [<-|N].
  - rewrite nth_error_list_set_eq by exact Hl.
    eexists. split; [reflexivity|].
    assert (a = pg) by congruence. subst a. simpl. rewrite Hd. reflexivity.
  - rewrite nth_error_list_set_neq by exact N. eauto.
Qed.

Lemma unpin_all_keeps_dirty calls :
  forall b b' frame pg,
    Driver.unpin_all b calls = Done b' ->
    nth_error (pages_ b) frame = Some pg -> is_dirty_ pg = true ->
    exists pg', nth_error (pages_ b') frame = Some pg' /\ is_dirty_ pg' = true.
Proof.
  induction calls as [|[page_id d] rest IH]; intros b b' frame pg H Hn Hd;
    simpl in H.
  - inversion H; subst. eauto.
  - bind_inv H. destruct a as [ok b1].
    destruct (UnpinPgImp_keeps_dirty _ _ _ _ _ _ _ E Hn Hd) as (pg1 & Hn1 & Hd1).
    eapply IH; eauto.
Qed.

Lemma FlushPgImp_clears_dirty b page_id frame_id ok b' :
  FlushPgImp b page_id = Done (ok, b') ->
  Find b page_id = Done (Some frame_id) ->
  ok = true /\
  exists pg', vec_get (pages_ b') frame_id = Done pg' /\ is_dirty_ pg' = false.
Proof.
  unfold FlushPgImp. intros H F. rewrite F in H. simpl in H.
  bind_inv H. bind_inv H. inversion H; subst. split; [reflexivity|]. simpl.
  apply vec_set_Done in E0. destruct E0 as (H0 & Hl & ->).
  eexists. split.
  - apply vec_get_Done. split; [exact H0|]. apply nth_error_list_set_eq. exact Hl.
  - reflexivity.
Qed.

End BufferPoolFacts.

(** C10 (confirmed).  Every call of [NewPgImp] takes the next page id from
    the allocator before it looks for a frame: a call that returns leaves
    the counter advanced by exactly one (in [int32] arithmetic); with an
    empty free list and nothing evictable it returns null and the id is
    spent all the same; so a successful call, a failed call, any number of
    unpins and another successful call hand out two ids that are two
    apart, not consecutive. *)
Theorem C10_NewPage_spends_a_page_id_even_on_failure :
  (forall fuel b page_id frame b',
      BufferPoolManagerInstance.NewPgImp fuel b = Done (page_id, frame, b') ->
      page_id = BufferPoolManagerInstance.next_page_id_ b /\
      BufferPoolManagerInstance.next_page_id_ b'
      = wrap_int (BufferPoolManagerInstance.next_page_id_ b + 1)) /\
  (forall fuel b,
      BufferPoolManagerInstance.free_list_ b = [] ->
      LRUKReplacer.Size (BufferPoolManagerInstance.replacer_ b) <= 0 ->
      BufferPoolManagerInstance.NewPgImp fuel b
      = Done (BufferPoolManagerInstance.next_page_id_ b, None,
              BufferPoolManagerInstance.set_next_page_id b
                (wrap_int (BufferPoolManagerInstance.next_page_id_ b + 1)))) /\
  (forall fuel b0 p1 f1 b1 p2 b2 unpins b3 p3 f3 b4,
      BufferPoolManagerInstance.NewPgImp fuel b0 = Done (p1, Some f1, b1) ->
      BufferPoolManagerInstance.NewPgImp fuel b1 = Done (p2, None, b2) ->
      Driver.unpin_all b2 unpins = Done b3 ->
      BufferPoolManagerInstance.NewPgImp fuel b3 = Done (p3, Some f3, b4) ->
      p3 = wrap_int (wrap_int (p1 + 1) + 1) /\ p3 <> wrap_int (p1 + 1)).
Proof.
  split; [|split].
  - apply BufferPoolFacts.NewPgImp_advances.
  - apply BufferPoolFacts.NewPgImp_no_frame.
  - intros fuel b0 p1 f1 b1 p2 b2 unpins b3 p3 f3 b4 H1 H2 H3 H4.
    apply BufferPoolFacts.NewPgImp_advances in H1, H2, H4.
    apply BufferPoolFacts.unpin_all_next_page_id in H3.
    destruct H1 as [-> N1], H2 as [-> N2], H4 as [-> _].
    rewrite H3, N2, N1. split; [reflexivity|].
    apply BufferPoolFacts.wrap_int_succ_neq. apply BufferPoolFacts.wrap_int_range.
Qed.

(** The scenario of C10 on a pool of one frame: page 0 is created, the
    second [NewPage] fails and spends id 1, page 0 is unpinned, and the
    third [NewPage] returns page 2. *)
Lemma C10_NewPage_spends_a_page_id_witness :
  BufferPoolManagerInstance.NewPgImp 10 PoolStates.pool1
  = Done (0, Some 0, PoolStates.pool1_new) /\
  BufferPoolManagerInstance.NewPgImp 10 PoolStates.pool1_new
  = Done (1, None, PoolStates.pool1_full) /\
  Driver.unpin_all PoolStates.pool1_full [(0, true)] = Done PoolStates.pool1_unpinned /\
  BufferPoolManagerInstance.NewPgImp 10 PoolStates.pool1_unpinned
  = Done (2, Some 0, PoolStates.pool1_again) /\
  2 = wrap_int (wrap_int (0 + 1) + 1) /\ 2 <> wrap_int (0 + 1).
Proof.
  assert (E1 : BufferPoolManagerInstance.NewPgImp 10 PoolStates.pool1
               = Done (0, Some 0, PoolStates.pool1_new))
    by (vm_compute; reflexivity).
  assert (E2 : BufferPoolManagerInstance.NewPgImp 10 PoolStates.pool1_new
               = Done (1, None, PoolStates.pool1_full))
    by (vm_compute; reflexivity).
  assert (E3 : Driver.unpin_all PoolStates.pool1_full [(0, true)]
               = Done PoolStates.pool1_unpinned)
    by (vm_compute; reflexivity).
  assert (E4 : BufferPoolManagerInstance.NewPgImp 10 PoolStates.pool1_unpinned
               = Done (2, Some 0, PoolStates.pool1_again))
    by (vm_compute; reflexivity).
  split; [exact E1|]. split; [exact E2|]. split; [exact E3|]. split; [exact E4|].
  exact (proj2 (proj2 C10_NewPage_spends_a_page_id_even_on_failure)
           _ _ _ _ _ _ _ _ _ _ _ _ E1 E2 E3 E4).
Defined.

(** C8 (confirmed).  [UnpinPgImp(id, dirty)] returns false and changes
    nothing when the page is not resident or its pin count is zero;
    otherwise it returns true, lowers the pin count by one, calls
    [SetEvictable(frame, true)] exactly when the count has reached zero
    (which marks a frame the replacer tracks), and leaves [is_dirty] as
    [is_dirty || dirty]; a dirty frame therefore stays dirty through any
    sequence of unpins, and [FlushPgImp] clears the flag. *)
Theorem C8_UnpinPage :
  (forall b page_id is_dirty,
      BufferPoolManagerInstance.Find b page_id = Done None ->
      BufferPoolManagerInstance.UnpinPgImp b page_id is_dirty = Done (false, b)) /\
  (forall b page_id is_dirty frame_id pg,
      BufferPoolManagerInstance.Find b page_id = Done (Some frame_id) ->
      vec_get (BufferPoolManagerInstance.pages_ b) frame_id = Done pg ->
      BufferPoolManagerInstance.pin_count_ pg = 0 ->
      BufferPoolManagerInstance.UnpinPgImp b page_id is_dirty = Done (false, b)) /\
  (forall b page_id is_dirty frame_id pg,
      BufferPoolManagerInstance.Find b page_id = Done (Some frame_id) ->
      vec_get (BufferPoolManagerInstance.pages_ b) frame_id = Done pg ->
      BufferPoolManagerInstance.pin_count_ pg <> 0 ->
      BufferPoolManagerInstance.UnpinPgImp b page_id is_dirty =
      (r <- (if BufferPoolManagerInstance.pin_count_ pg - 1 =? 0
             then LRUKReplacer.SetEvictable
                    (BufferPoolManagerInstance.replacer_ b) frame_id true
             else Done (BufferPoolManagerInstance.replacer_ b)) ;;
       Done (true,
             BufferPoolManagerInstance.set_pages
               (BufferPoolManagerInstance.set_replacer b r)
               (list_set (BufferPoolManagerInstance.pages_ b) (Z.to_nat frame_id)
                  (PoolStates.unpinned pg is_dirty))))) /\
  (forall r frame_id r',
      LRUKReplacer.SetEvictable r frame_id true = Done r' ->
      vec_get (LRUKReplacer.allocated_ r) frame_id = Done true ->
      vec_get (LRUKReplacer.evictable_ r') frame_id = Done true) /\
  (forall unpins b b' frame pg,
      Driver.unpin_all b unpins = Done b' ->
      nth_error (BufferPoolManagerInstance.pages_ b) frame = Some pg ->
      BufferPoolManagerInstance.is_dirty_ pg = true ->
      exists pg',
        nth_error (BufferPoolManagerInstance.pages_ b') frame = Some pg' /\
        BufferPoolManagerInstance.is_dirty_ pg' = true) /\
  (forall b page_id frame_id ok b',
      BufferPoolManagerInstance.FlushPgImp b page_id = Done (ok, b') ->
      BufferPoolManagerInstance.Find b page_id = Done (Some frame_id) ->
      ok = true /\
      exists pg',
        vec_get (BufferPoolManagerInstance.pages_ b') frame_id = Done pg' /\
        BufferPoolManagerInstance.is_dirty_ pg' = false).
Proof.
  split; [exact BufferPoolFacts.UnpinPgImp_not_resident|].
  split; [exact BufferPoolFacts.UnpinPgImp_not_pinned|].
  split; [exact BufferPoolFacts.UnpinPgImp_pinned|].
  split; [exact BufferPoolFacts.SetEvictable_true_marks|].
  split; [exact BufferPoolFacts.unpin_all_keeps_dirty|].
  exact BufferPoolFacts.FlushPgImp_clears_dirty.
Qed.

(** C8 on the pool of one frame: page 7 is not resident; page 0 is pinned
    once, so the unpin with the dirty flag returns true, makes the frame
    evictable and dirty; a second unpin returns false; the frame is still
    dirty after further unpins without the flag, until a flush. *)
Lemma C8_UnpinPage_witness :
  BufferPoolManagerInstance.UnpinPgImp PoolStates.pool1_new 7 true
  = Done (false, PoolStates.pool1_new) /\
  BufferPoolManagerInstance.UnpinPgImp PoolStates.pool1_unpinned 0 false
  = Done (false, PoolStates.pool1_unpinned) /\
  BufferPoolManagerInstance.UnpinPgImp PoolStates.pool1_full 0 true
  = Done (true, PoolStates.pool1_unpinned) /\
  vec_get (LRUKReplacer.evictable_
             (BufferPoolManagerInstance.replacer_ PoolStates.pool1_unpinned)) 0
  = Done true /\
  (exists pg',
      nth_error (BufferPoolManagerInstance.pages_ PoolStates.pool1_unpinned) 0
      = Some pg' /\
      BufferPoolManagerInstance.is_dirty_ pg' = true) /\
  (exists pg',
      vec_get (BufferPoolManagerInstance.pages_
                 (PoolStates.state_of
                    (BufferPoolManagerInstance.FlushPgImp PoolStates.pool1_unpinned 0)
                    PoolStates.pool1)) 0 = Done pg' /\
      BufferPoolManagerInstance.is_dirty_ pg' = false).
Proof.
  destruct C8_UnpinPage as (H1 & H2 & H3 & H4 & H5 & H6).
  split; [apply H1; vm_compute; reflexivity|].
  split; [eapply H2; vm_compute; reflexivity|].
  split.
  { rewrite (H3 PoolStates.pool1_full 0 true 0
               (BufferPoolManagerInstance.mkPage ZeroData 0 1 false));
      [vm_compute; reflexivity|vm_compute; reflexivity|vm_compute; reflexivity|
       vm_compute; discriminate]. }
  split.
  { apply (H4 (BufferPoolManagerInstance.replacer_ PoolStates.pool1_full) 0);
      vm_compute; reflexivity. }
  split.
  { apply (H5 [(0, false); (0, false)] PoolStates.pool1_unpinned
              PoolStates.pool1_unpinned 0%nat
              (BufferPoolManagerInstance.mkPage ZeroData 0 0 true));
      vm_compute; reflexivity. }
  { destruct (H6 PoolStates.pool1_unpinned 0 0 true
                (PoolStates.state_of
                   (BufferPoolManagerInstance.FlushPgImp PoolStates.pool1_unpinned 0)
                   PoolStates.pool1)) as [_ H];
      [vm_compute; reflexivity|vm_compute; reflexivity|exact H]. }
Defined.

(* ================================================================== *)
(** ** B+ tree: [Remove] and the root page id                          *)
(* ================================================================== *)

Module BPlusTreeFacts.

Import BPlusTree BPlusTreeSpec.

Lemma keeps_ret {A : Type} (a : A) : keeps_root (ret a).
Proof. intros s a' s' H. inversion H; subst. reflexivity. Qed.

Lemma keeps_stop_Undefined {A : Type} : keeps_root (@stop A Undefined).
Proof. intros s a s' H. discriminate. Qed.

Lemma keeps_stop_Diverge {A : Type} : keeps_root (@stop A Diverge).
Proof. intros s a s' H. discriminate. Qed.

Lemma keeps_mbind {A B : Type} (m : M A) (f : A -> M B) :
  keeps_root m -> (forall a, keeps_root (f a)) -> keeps_root (mbind m f).
Proof.
  intros Hm Hf s b s' H. unfold mbind in H.
  apply bind_Done_inv in H. destruct H as ([a s1] & E & H). simpl in H.
  apply Hm in E. apply Hf in H. congruence.
Qed.

Lemma keeps_lift {A : Type} (o : outcome A) : keeps_root (lift o).
Proof.
  intros s a s' H. unfold lift in H.
  apply bind_Done_inv in H. destruct H as (x & _ & H).
  inversion H; subst. reflexivity.
Qed.

Lemma keeps_with_pool {A : Type} (f : BPM.t -> outcome (A * BPM.t)) :
  keeps_root (with_pool f).
Proof.
  intros s a s' H. unfold with_pool in H.
  apply bind_Done_inv in H. destruct H as (x & _ & H).
  inversion H; subst. reflexivity.
Qed.

Lemma keeps_get_root_page_id : keeps_root get_root_page_id.
Proof. intros s a s' H. inversion H; subst. reflexivity. Qed.

Lemma keeps_rd frame : keeps_root (rd frame).
Proof.
  intros s a s' H. unfold rd in H.
  apply bind_Done_inv in H. destruct H as (x & _ & H).
  apply bind_Done_inv in H. destruct H as (y & _ & H).
  inversion H; subst. reflexivity.
Qed.

Lemma keeps_wr frame p : keeps_root (wr frame p).
Proof.
  intros s a s' H. unfold wr in H.
  apply bind_Done_inv in H. destruct H as (x & _ & H).
  apply bind_Done_inv in H. destruct H as (y & _ & H).
  inversion H; subst. reflexivity.
Qed.

Lemma keeps_GetData page : keeps_root (GetData page).
Proof.
  destruct page; simpl; [apply keeps_ret|apply keeps_stop_Undefined].
Qed.

Create HintDb keeps.

#[local] Hint Resolve keeps_ret keeps_stop_Undefined keeps_stop_Diverge
  keeps_lift keeps_with_pool keeps_get_root_page_id keeps_rd keeps_wr
  keeps_GetData : keeps.

(** Goes through a composite computation: binds, pattern bindings and
    conditionals, closing the leaves from the hint database. *)
Ltac keeps :=
  repeat first
    [ apply keeps_mbind; [|intros]
    | match goal with
      | |- keeps_root (if ?c then _ else _) => destruct c
      | |- keeps_root (let '(_, _) := ?x in _) => destruct x
      | |- keeps_root (match ?x with _ => _ end) => destruct x
      end
    | progress cbv zeta
    | solve [auto with keeps] ].

Lemma keeps_modify frame f : keeps_root (modify frame f).
Proof. unfold modify. keeps. Qed.
#[local] Hint Resolve keeps_modify : keeps.

Lemma keeps_FetchPage fuel page_id : keeps_root (FetchPage fuel page_id).
Proof. unfold FetchPage. keeps. Qed.
Lemma keeps_UnpinPage page_id d : keeps_root (UnpinPage page_id d).
Proof. unfold UnpinPage. keeps. Qed.
Lemma keeps_DeletePage page_id : keeps_root (DeletePage page_id).
Proof. unfold DeletePage. keeps. Qed.
#[local] Hint Resolve keeps_FetchPage keeps_UnpinPage keeps_DeletePage : keeps.

Lemma keeps_first_at frame i : keeps_root (first_at frame i).
Proof. unfold first_at. keeps. Qed.
Lemma keeps_second_at frame i : keeps_root (second_at frame i).
Proof. unfold second_at. keeps. Qed.
Lemma keeps_set_first_at frame i k : keeps_root (set_first_at frame i k).
Proof. unfold set_first_at. keeps. Qed.
Lemma keeps_set_second_at frame i v : keeps_root (set_second_at frame i v).
Proof. unfold set_second_at. keeps. Qed.
#[local] Hint Resolve keeps_first_at keeps_second_at keeps_set_first_at
  keeps_set_second_at : keeps.

Lemma keeps_copy_node dst j src i : keeps_root (copy_node dst j src i).
Proof. unfold copy_node. keeps. Qed.
Lemma keeps_InsertIntoLeaf_at frame k v : keeps_root (InsertIntoLeaf_at frame k v).
Proof. unfold InsertIntoLeaf_at. keeps. Qed.
Lemma keeps_InsertIntoInternal_at frame k v :
  keeps_root (InsertIntoInternal_at frame k v).
Proof. unfold InsertIntoInternal_at. keeps. Qed.
Lemma keeps_RemoveFromLeaf_at frame k : keeps_root (RemoveFromLeaf_at frame k).
Proof. unfold RemoveFromLeaf_at. keeps. Qed.
Lemma keeps_route frame k : keeps_root (route frame k).
Proof. unfold route. keeps. Qed.
#[local] Hint Resolve keeps_copy_node keeps_InsertIntoLeaf_at
  keeps_InsertIntoInternal_at keeps_RemoveFromLeaf_at keeps_route : keeps.

Lemma keeps_for_loop n :
  forall i cond body,
    (forall j, keeps_root (cond j)) -> (forall j, keeps_root (body j)) ->
    keeps_root (for_loop n i cond body).
Proof.
  induction n as [|n IH]; intros i cond body Hc Hb; simpl.
  - apply keeps_mbind; [apply Hc|]. intros c. destruct c; auto with keeps.
  - apply keeps_mbind; [apply Hc|]. intros c. destruct c; auto with keeps.
    apply keeps_mbind; [apply Hb|]. intros _. apply IH; assumption.
Qed.

Lemma keeps_borrow_left fuel page_id cur parent_page_id parent_page index :
  keeps_root (borrow_left fuel page_id cur parent_page_id parent_page index).
Proof. unfold borrow_left. keeps. Qed.

Lemma keeps_borrow_right fuel page_id cur parent_page_id parent_page index :
  keeps_root (borrow_right fuel page_id cur parent_page_id parent_page index).
Proof.
  unfold borrow_right. keeps.
  apply keeps_for_loop; intros; keeps.
Qed.

Lemma keeps_merge fuel page_id cur parent_page_id parent_page index :
  keeps_root (merge fuel page_id cur parent_page_id parent_page index).
Proof.
  unfold merge. keeps; try (apply keeps_for_loop; intros; keeps).
Qed.

Lemma keeps_RemoveInternal_underflow fuel page_id cur :
  keeps_root (RemoveInternal_underflow fuel page_id cur).
Proof.
  unfold RemoveInternal_underflow. keeps;
    auto using keeps_borrow_left, keeps_borrow_right, keeps_merge;
    apply keeps_for_loop; intros; keeps.
Qed.

Lemma keeps_RemoveInternal fuel :
  forall page_id key, keeps_root (RemoveInternal fuel page_id key).
Proof.
  induction fuel as [|fuel IH]; intros page_id key;
    [apply keeps_stop_Diverge|].
  cbn [RemoveInternal]. keeps; auto using keeps_RemoveInternal_underflow;
    try (apply keeps_for_loop; intros; keeps).
Qed.

Lemma keeps_Remove fuel key : keeps_root (Remove fuel key).
Proof.
  intros s a s' H. unfold Remove in H.
  destruct (IsEmpty s).
  - inversion H; subst. reflexivity.
  - now apply keeps_RemoveInternal in H.
Qed.

End BPlusTreeFacts.

(* ================================================================== *)
(** ** Extendible hash table: upsert into a full bucket                *)
(* ================================================================== *)

Module HashFacts.

Module T := ExtendibleHashTable.
Import IntTable.

Ltac bind_inv H :=
  let a := fresh "a" in
  let E := fresh "E" in
  apply bind_Done_inv in H; destruct H as (a & E & H).

Lemma shl1_Done d m : T.shl1 d = Done m -> 0 <= d < 31 /\ m = 2 ^ d /\ 1 <= m.
Proof.
  unfold T.shl1. intros H.
  destruct (Z.leb_spec 0 d); simpl in H; [|discriminate].
  destruct (Z.ltb_spec d 31); simpl in H; [|discriminate].
  inversion H; subst. rewrite Z.shiftl_1_l.
  split; [lia|]. split; [reflexivity|].
  pose proof (Z.pow_pos_nonneg 2 d). lia.
Qed.

Lemma IndexOf_zero h x : IndexOf h 0 = Done x -> x = 0.
Proof.
  unfold IndexOf, T.IndexOf. intros H. bind_inv H.
  inversion H; subst. reflexivity.
Qed.

Lemma assign_up_head n :
  forall d i lim step turn old_bucket new_bucket d',
    0 < i -> 0 <= step ->
    T.assign_up d i lim step turn old_bucket new_bucket n = Done d' ->
    nth_error d' 0 = nth_error d 0.
Proof.
  induction n as [|n IH]; intros d i lim step turn ob nb d' Hi Hs H; simpl in H.
  - destruct (i <? lim); [discriminate|]. inversion H; subst. reflexivity.
  - destruct (i <? lim); [|inversion H; subst; reflexivity].
    bind_inv H. apply vec_set_Done in E. destruct E as (_ & _ & ->).
    apply IH in H; [|lia|lia]. rewrite H.
    apply nth_error_list_set_neq. lia.
Qed.

Lemma assign_up_first n d lim step old_bucket new_bucket d' :
  1 <= step ->
  T.assign_up d 0 lim step false old_bucket new_bucket n = Done d' ->
  0 < lim ->
  nth_error d' 0 = Some old_bucket.
Proof.
  intros Hs H Hl. destruct n as [|n]; simpl in H.
  - destruct (Z.ltb_spec 0 lim); [discriminate|lia].
  - destruct (Z.ltb_spec 0 lim); [|lia].
    bind_inv H. apply vec_set_Done in E. destruct E as (_ & Hlen & ->).
    apply assign_up_head in H; [|lia|lia]. rewrite H.
    apply nth_error_list_set_eq. exact Hlen.
Qed.

Lemma assign_down_below n d i step turn old_bucket new_bucket :
  i < 0 -> T.assign_down d i step turn old_bucket new_bucket n = Done d.
Proof.
  intros Hi. destruct n; simpl;
    destruct (Z.geb_spec i 0); try lia; reflexivity.
Qed.

Lemma assign_down_first n d step old_bucket new_bucket d' :
  1 <= step ->
  T.assign_down d 0 step false old_bucket new_bucket n = Done d' ->
  nth_error d' 0 = Some old_bucket.
Proof.
  intros Hs H. destruct n as [|n]; simpl in H; [discriminate|].
  bind_inv H. apply vec_set_Done in E. destruct E as (_ & Hlen & ->).
  rewrite assign_down_below in H by lia. inversion H; subst.
  apply nth_error_list_set_eq. exact Hlen.
Qed.


Ltac table_simpl :=
  unfold T.GetDepth, T.GetItems, T.IncrementDepth, T.assign in *;
  unfold T.set_dir, T.set_heap in *;
  cbn [T.dir_ T.heap_ T.global_depth_ T.bucket_size_ T.num_buckets_
       T.size_ T.depth_ T.list_] in *.

Lemma deref_Done h p b :
  T.deref Z Z h p = Done b <-> nth_error (T.heap_ Z Z h) p = Some b.
Proof.
  unfold T.deref. destruct (nth_error (T.heap_ Z Z h) p); split; intros H;
    try discriminate; inversion H; subst; reflexivity.
Qed.

(** Moving the entry of key 0 out of the old bucket and back: the slot
    of key 0 points to the old bucket, so the entry returns to it. *)
Lemma redistribute_zero h p b v h' :
  nth_error (T.dir_ Z Z h) 0 = Some p ->
  nth_error (T.heap_ Z Z h) p = Some b ->
  T.size_ Z Z b = 1 -> T.list_ Z Z b = [(0, v)] ->
  T.redistribute Z Z Z.eqb hash h p [(0, v)] = Done h' ->
  T.dir_ Z Z h' = T.dir_ Z Z h /\
  length (T.heap_ Z Z h') = length (T.heap_ Z Z h) /\
  (forall q, q <> p -> nth_error (T.heap_ Z Z h') q = nth_error (T.heap_ Z Z h) q) /\
  nth_error (T.heap_ Z Z h') p
  = Some (T.mkBucket Z Z 1 (T.depth_ Z Z b) [(0, v)]).
Proof.
  intros Hd Hh Hs Hl H. cbn [T.redistribute] in H.
  bind_inv H. apply deref_Done in E. rewrite Hh in E. inversion E; subst a; clear E.
  assert (Hp : (p < length (T.heap_ Z Z h))%nat)
    by (apply nth_error_Some; congruence).
  unfold T.Bucket_Remove in H. rewrite Hl in H.
  cbn [T.Bucket_Remove_list Z.eqb snd] in H.
  bind_inv H. apply IndexOf_zero in E. subst a. table_simpl.
  bind_inv H. apply vec_get_Done in E. destruct E as [_ E].
  change (Z.to_nat 0) with 0%nat in E. rewrite Hd in E. inversion E; subst a; clear E.
  bind_inv H. apply deref_Done in E. table_simpl.
  rewrite nth_error_list_set_eq in E by exact Hp. inversion E; subst a; clear E.
  unfold T.Bucket_Insert, T.IsFull in H. table_simpl. rewrite Hs in H.
  cbn [length Z.of_nat Z.eqb T.Bucket_update_list snd app] in H. table_simpl.
  inversion H; subst h'; clear H. table_simpl.
  rewrite !length_list_set.
  split; [reflexivity|]. split; [reflexivity|]. split.
  - intros q Hq. rewrite !nth_error_list_set_neq by congruence. reflexivity.
  - rewrite nth_error_list_set_eq by (rewrite length_list_set; exact Hp).
    reflexivity.
Qed.

(** A split of the bucket of key 0 leaves key 0 in a full bucket. *)
Lemma split_keeps_zero h h' :
  zero_in_full_bucket h -> split h 0 = Done h' -> zero_in_full_bucket h'.
Proof.
  intros (p & b & v & Hd & Hh & Hs & Hl) H.
  unfold split, T.split in H.
  bind_inv H. apply vec_get_Done in E. destruct E as [_ E].
  change (Z.to_nat 0) with 0%nat in E. rewrite Hd in E. inversion E; subst a; clear E.
  bind_inv H. apply deref_Done in E. rewrite Hh in E. inversion E; subst a; clear E.
  cbv zeta in H.
  match type of H with
  | context [if ?c then ?x else ?y] => set (h1 := if c then x else y) in H
  end.
  assert (D1 : nth_error (T.dir_ Z Z h1) 0 = Some p).
  { subst h1. destruct (T.GetDepth Z Z b =? T.global_depth_ Z Z h); [|exact Hd].
    table_simpl. rewrite nth_error_app1; [exact Hd|].
    apply nth_error_Some. congruence. }
  assert (P1 : T.heap_ Z Z h1 = T.heap_ Z Z h).
  { subst h1. destruct (T.GetDepth Z Z b =? T.global_depth_ Z Z h); reflexivity. }
  clearbody h1.
  assert (Hp : (p < length (T.heap_ Z Z h))%nat)
    by (apply nth_error_Some; congruence).
  bind_inv H. apply vec_get_Done in E. destruct E as [_ E].
  change (Z.to_nat 0) with 0%nat in E. rewrite D1 in E. inversion E; subst a; clear E.
  bind_inv H. apply deref_Done in E. rewrite P1, Hh in E.
  inversion E; subst a; clear E.
  bind_inv H. apply shl1_Done in E. destruct E as (_ & _ & Hstep).
  bind_inv H. apply shl1_Done in E. destruct E as (_ & _ & Hlim).
  bind_inv H. table_simpl.
  apply assign_up_first in E; [|lia|lia].
  bind_inv H. apply assign_down_first in E0; [|lia].
  bind_inv H. table_simpl. apply vec_get_Done in E1. destruct E1 as [_ E1].
  change (Z.to_nat 0) with 0%nat in E1. rewrite E0 in E1.
  inversion E1; subst a3; clear E1.
  bind_inv H. apply deref_Done in E1. table_simpl.
  rewrite nth_error_app1 in E1 by (rewrite P1; exact Hp).
  rewrite P1, Hh in E1. inversion E1; subst a3; clear E1.
  bind_inv H. table_simpl. rewrite Hl in E1.
  apply (redistribute_zero _ p b v) in E1; table_simpl; auto;
    [|rewrite nth_error_app1 by (rewrite P1; exact Hp); rewrite P1; exact Hh].
  destruct E1 as (R1 & R2 & R3 & R4).
  bind_inv H. apply deref_Done in E1. rewrite R4 in E1.
  inversion E1; subst a4; clear E1.
  bind_inv H. inversion H; subst h'; clear H. table_simpl.
  rewrite R1.
  exists p, (T.mkBucket Z Z 1 (T.depth_ Z Z b + 1) [(0, v)]), v.
  split; [exact E0|]. split; [|split; reflexivity].
  cbn [T.heap_].
  rewrite nth_error_list_set_neq by (rewrite P1; lia).
  apply nth_error_list_set_eq.
  rewrite R2, length_app, P1. simpl. lia.
Qed.

(** With key 0 in a full bucket of capacity 1, [InsertInternal] of key 0
    never returns: every round finds the bucket full, splits it, and
    finds key 0 in a full bucket again (or the directory depth leaves
    the range of the shift). *)
Lemma InsertInternal_zero_never_returns fuel :
  forall h value,
    zero_in_full_bucket h ->
    returned (InsertInternal fuel h 0 value true) = false.
Proof.
  induction fuel as [|fuel IH]; intros h value Hz; [reflexivity|].
  unfold InsertInternal in *. cbn [T.InsertInternal].
  destruct (T.IndexOf Z Z hash h 0) as [x| | |] eqn:EI; try reflexivity.
  apply IndexOf_zero in EI. subst x. cbn [bind].
  pose proof Hz as (p & b & v & Hd & Hh & Hs & Hl).
  assert (G : vec_get (T.dir_ Z Z h) 0 = Done p)
    by (apply vec_get_Done; split; [lia|exact Hd]).
  rewrite G. cbn [bind].
  apply deref_Done in Hh. rewrite Hh. cbn [bind].
  unfold T.Bucket_Insert, T.IsFull. rewrite Hl, Hs. cbn [length Z.of_nat Z.eqb].
  cbn [negb].
  destruct (T.split Z Z Z.eqb hash h 0) as [h1| | |] eqn:ES; try reflexivity.
  cbn [bind]. apply IH. eapply split_keeps_zero; eauto.
Qed.

End HashFacts.

(** C7 (code_bug).  The claim: after [Insert(k, v1)], a later
    [Insert(k, v2)] overwrites the mapping, so that [Find(k)] yields [v2].
    [Bucket::Insert] tests [IsFull()] before it looks for the key, so an
    update of a key that sits in a full bucket is answered by a split.  With
    buckets of one entry, [Insert(0, 10)] succeeds and [Find(0)] yields 10,
    but [Insert(0, 20)] never returns, whatever the budget: each split puts
    key 0 back into a full bucket. *)
Theorem C7_upsert_into_full_bucket_never_returns :
  IntTable.Insert 1 (IntTable.init 1) 0 10 = Done IntTable.holding_zero /\
  IntTable.Find IntTable.holding_zero 0 = Done (Some 10) /\
  forall fuel, returned (IntTable.Insert fuel IntTable.holding_zero 0 20) = false.
Proof.
  split; [reflexivity|]. split; [reflexivity|].
  intros fuel. unfold IntTable.Insert, ExtendibleHashTable.Insert.
  destruct fuel as [|fuel]; [reflexivity|].
  change (ExtendibleHashTable.InsertInternal Z Z Z.eqb IntTable.hash (S fuel)
            IntTable.holding_zero 0 20 false)
    with (Done (false, IntTable.holding_zero) : outcome (bool * IntTable.t)).
  cbn [bind negb].
  pose proof (HashFacts.InsertInternal_zero_never_returns (S fuel)
                IntTable.holding_zero 20) as H.
  unfold IntTable.InsertInternal in H.
  destruct (ExtendibleHashTable.InsertInternal Z Z Z.eqb IntTable.hash (S fuel)
              IntTable.holding_zero 0 20 true) as [[ok h]| | |]; try reflexivity.
  simpl in H. discriminate H.
  exists 0%nat, (ExtendibleHashTable.mkBucket Z Z 1 0 [(0, 10)]), 10.
  repeat split.
Qed.

(* ================================================================== *)
(** ** LRU-K replacer (ordered maps): invariant and eviction policy    *)
(* ================================================================== *)

Module OrderedMapFacts.

Import LRUKReplacerOrdered LRUKOrderedSpec.

Lemma sorted_from_weaken lo lo' m : lo' <= lo -> sorted_from lo m -> sorted_from lo' m.
Proof.
destruct m as [|[k v] rest]; simpl; [auto|]. intros H [H1 H2]. split; [lia|exact H2].
Qed.

Lemma find_above lo m key : sorted_from lo m -> key <= lo -> find m key = None.
Proof.
destruct m as [|[k v] rest]; simpl; [auto|]. intros [H1 _] H2.
destruct (Z.eqb_spec k key); [lia|].
destruct (Z.ltb_spec key k); [reflexivity|lia].
Qed.

Lemma find_assign m key value key' :
find (assign m key value) key' = if key =? key' then Some value else find m key'.
Proof.
induction m as [|[k v] rest IH]; simpl.
- destruct (Z.eqb_spec key key'); [reflexivity|].
  destruct (key' <? key); reflexivity.
- destruct (Z.eqb_spec k key) as [->|Nk]; simpl.
  + destruct (Z.eqb_spec key key'); reflexivity.
  + destruct (Z.ltb_spec key k) as [L|L]; simpl.
    * destruct (Z.eqb_spec key key') as [Ek|N]; [reflexivity|].
      destruct (Z.ltb_spec key' key) as [L'|L']; [|reflexivity].
      destruct (Z.eqb_spec k key'); [lia|].
      destruct (Z.ltb_spec key' k); [reflexivity|lia].
    * rewrite IH.
      destruct (Z.eqb_spec key key') as [Ek|N]; [subst key'|reflexivity].
      destruct (Z.eqb_spec k key); [contradiction|].
      destruct (Z.ltb_spec key k); [lia|reflexivity].
Qed.

Lemma find_erase lo m key key' :
sorted_from lo m ->
find (erase m key) key' = if key =? key' then None else find m key'.
Proof.
revert lo; induction m as [|[k v] rest IH]; intros lo S; simpl.
- destruct (key =? key'); reflexivity.
- destruct S as [S1 S2].
  destruct (Z.eqb_spec k key) as [->|Nk]; simpl.
  + destruct (Z.eqb_spec key key') as [Ek|N]; [subst key'|].
    * apply (find_above key rest key S2). lia.
    * destruct (Z.ltb_spec key' key) as [L|L]; [|reflexivity].
      apply (find_above key rest key' S2). lia.
  + destruct (Z.ltb_spec key k) as [L|L]; simpl.
    * destruct (Z.eqb_spec key key') as [Ek|N]; [subst key'|reflexivity].
      destruct (Z.eqb_spec k key); [contradiction|].
      destruct (Z.ltb_spec key k); [reflexivity|lia].
    * rewrite (IH k S2).
      destruct (Z.eqb_spec key key') as [Ek|N]; [subst key'|reflexivity].
      destruct (Z.eqb_spec k key); [contradiction|].
      destruct (Z.ltb_spec key k); [lia|reflexivity].
Qed.

Lemma sorted_assign lo m key value :
sorted_from lo m -> lo < key -> sorted_from lo (assign m key value).
Proof.
revert lo; induction m as [|[k v] rest IH]; intros lo S H; simpl.
- auto.
- destruct S as [S1 S2].
  destruct (Z.eqb_spec k key) as [->|Nk]; simpl; [auto|].
  destruct (Z.ltb_spec key k) as [L|L]; simpl; [auto|].
  split; [exact S1|]. apply IH; [exact S2|lia].
Qed.

Lemma sorted_erase lo m key : sorted_from lo m -> sorted_from lo (erase m key).
Proof.
revert lo; induction m as [|[k v] rest IH]; intros lo S; simpl; [auto|].
destruct S as [S1 S2].
destruct (Z.eqb_spec k key) as [->|Nk].
- apply sorted_from_weaken with (lo := key); [lia|exact S2].
- destruct (Z.ltb_spec key k); simpl; auto.
Qed.

Lemma erase_absent m key : find m key = None -> erase m key = m.
Proof.
induction m as [|[k v] rest IH]; simpl; [auto|].
destruct (Z.eqb_spec k key); [discriminate|].
destruct (Z.ltb_spec key k); [reflexivity|].
intros F. now rewrite IH.
Qed.

Lemma erase_if_found_erase m key : erase_if_found m key = erase m key.
Proof.
unfold erase_if_found. destruct (find m key) eqn:E; [reflexivity|].
symmetry. now apply erase_absent.
Qed.

Lemma find_head k v rest : find ((k, v) :: rest) k = Some v.
Proof. simpl. now rewrite Z.eqb_refl. Qed.

(** The first entry of a map has the least key. *)
Lemma head_least lo k v rest key z :
sorted_from lo ((k, v) :: rest) -> find ((k, v) :: rest) key = Some z -> k <= key.
Proof.
simpl. intros [_ S] H.
destruct (Z.eqb_spec k key); [lia|].
destruct (Z.ltb_spec key k); [discriminate|lia].
Qed.

(** *** How a map follows a change of one frame *)

Section Update.

Variables (E E' : nat -> Z -> Prop) (i : nat) (m m' : map_t).
Hypothesis elsewhere : forall f ts, f <> i -> (E' f ts <-> E f ts).
Hypothesis before : holds m E.

Lemma holds_untouched :
m' = m -> (forall ts, ~ E i ts) -> (forall ts, ~ E' i ts) -> holds m' E'.
Proof.
intros -> N N' ts z. rewrite (before ts z). split; intros (f & -> & H); exists f;
(split; [reflexivity|]);
destruct (Nat.eq_dec f i) as [->|D];
try (exfalso; eapply N; eassumption);
try (exfalso; eapply N'; eassumption);
now apply (elsewhere f ts D).
Qed.

Lemma holds_same :
m' = m -> (forall ts, E' i ts <-> E i ts) -> holds m' E'.
Proof.
intros -> Same ts z. rewrite (before ts z).
split; intros (f & -> & H); exists f; (split; [reflexivity|]);
destruct (Nat.eq_dec f i) as [->|D];
try (now apply Same); now apply (elsewhere f ts D).
Qed.

Lemma holds_dropped key :
(forall ts, find m' ts = if key =? ts then None else find m ts) ->
(forall ts, E i ts -> ts = key) ->
(forall ts, ~ E' i ts) ->
(forall f, f <> i -> ~ E f key) ->
holds m' E'.
Proof.
intros F O N' U ts z. rewrite F. split.
- destruct (Z.eqb_spec key ts) as [<-|D]; [discriminate|].
intros H. apply before in H. destruct H as (f & -> & H). exists f.
split; [reflexivity|].
destruct (Nat.eq_dec f i) as [->|Df]; [apply O in H; congruence|].
now apply (elsewhere f ts Df).
- intros (f & -> & H).
destruct (Nat.eq_dec f i) as [->|Df]; [exfalso; eapply N'; eassumption|].
apply (elsewhere f ts Df) in H.
destruct (Z.eqb_spec key ts) as [<-|D]; [exfalso; eapply U; eassumption|].
apply before. exists f. auto.
Qed.

Lemma holds_moved old new :
(forall ts, find m' ts = if new =? ts then Some (Z.of_nat i)
                       else if old =? ts then None else find m ts) ->
(forall ts, E i ts -> ts = old) ->
(forall ts, E' i ts <-> ts = new) ->
(forall f, f <> i -> ~ E f old /\ ~ E f new) ->
holds m' E'.
Proof.
intros F O N' U ts z. rewrite F. split.
- destruct (Z.eqb_spec new ts) as [<-|D].
+ intros H. inversion H; subst z. exists i. split; [reflexivity|].
  now apply N'.
+ destruct (Z.eqb_spec old ts) as [<-|D']; [discriminate|].
  intros H. apply before in H. destruct H as (f & -> & H). exists f.
  split; [reflexivity|].
  destruct (Nat.eq_dec f i) as [->|Df]; [apply O in H; congruence|].
  now apply (elsewhere f ts Df).
- intros (f & -> & H).
destruct (Nat.eq_dec f i) as [->|Df].
+ apply N' in H. subst ts. now rewrite Z.eqb_refl.
+ apply (elsewhere f ts Df) in H.
  destruct (U f Df) as [U1 U2].
  destruct (Z.eqb_spec new ts) as [<-|D]; [contradiction|].
  destruct (Z.eqb_spec old ts) as [<-|D']; [contradiction|].
  apply before. exists f. auto.
Qed.

End Update.

End OrderedMapFacts.

Module OrderedFacts.

Module S := LRUKReplacer.
Module O := LRUKReplacerOrdered.
Module OS := LRUKOrderedSpec.
Import LRUKSpec LRUKFacts OrderedMapFacts.
Import OS (forget, sorted_from, entry, holds).

Local Arguments Z.of_nat : simpl never.
Local Arguments removelast : simpl never.
Local Arguments last : simpl never.

(** *** Entries of the maps *)

Lemma entry_key r c f ts : entry r c f ts -> ts = earliest r f.
Proof. intros (_ & _ & H). now symmetry. Qed.

Lemma candidate_earliest r f :
wf r -> candidate r f ->
In (earliest r f) (frame_history r f) /\ 0 <= earliest r f < S.current_timestamp_ r.
Proof.
intros W [_ He]. apply (wf_evictable_allocated W) in He.
destruct (wf_used W f He) as (Hne & _ & Hin).
assert (I : In (earliest r f) (frame_history r f)) by (now apply last_In).
split; [exact I|]. now apply Hin.
Qed.

Lemma entry_elsewhere r r' i :
S.k_ r' = S.k_ r -> S.replacer_size_ r' = S.replacer_size_ r ->
(forall g, g <> i -> frame_history r' g = frame_history r g /\
                     frame_evictable r' g = frame_evictable r g) ->
forall c g ts, g <> i -> (entry r' c g ts <-> entry r c g ts).
Proof.
intros Hk Hn Hl c g ts D. destruct (Hl g D) as [Hh He].
unfold entry, candidate, accesses, earliest, num_frames.
rewrite Hk, Hn, Hh, He. tauto.
Qed.

(** A timestamp recorded for frame [i] is the key of no other frame. *)
Lemma entry_other r c i f key :
OS.wf r -> In key (frame_history (forget r) i) -> f <> i ->
~ entry (forget r) c f key.
Proof.
intros W Hin D E. pose proof (entry_key _ _ _ _ E) as ->.
destruct E as (C & _).
destruct (candidate_earliest _ _ (OS.wf_scan W) C) as [I _].
apply D. exact (OS.wf_distinct W _ _ _ I Hin).
Qed.

(** The time of the next access is not yet the key of any frame. *)
Lemma entry_not_now r c f : wf r -> ~ entry r c f (S.current_timestamp_ r).
Proof.
intros W E. pose proof (entry_key _ _ _ _ E) as K.
destruct E as (C & _).
destruct (candidate_earliest _ _ W C) as [_ B]. lia.
Qed.

(** The invariant after a change of frame [i] alone. *)
Lemma wf_step r r' i :
OS.wf r -> wf (forget r') ->
O.k_ r' = O.k_ r -> O.replacer_size_ r' = O.replacer_size_ r ->
(forall g, g <> i -> frame_history (forget r') g = frame_history (forget r) g /\
                     frame_evictable (forget r') g = frame_evictable (forget r) g) ->
(forall x, In x (frame_history (forget r') i) ->
           In x (frame_history (forget r) i) \/ x = O.current_timestamp_ r) ->
sorted_from (-1) (O.complete_histories_ r') ->
sorted_from (-1) (O.incomplete_histories_ r') ->
holds (O.complete_histories_ r') (entry (forget r') true) ->
holds (O.incomplete_histories_ r') (entry (forget r') false) ->
OS.wf r'.
Proof.
intros W W' Hk Hn Hl Hin SC SI HC HI.
constructor; auto.
intros f g ts If Ig.
assert (Old : forall a, In ts (frame_history (forget r) a) ->
                        ts <> O.current_timestamp_ r).
{ intros a Ia.
  destruct (frame_allocated (forget r) a) eqn:Ea.
  - destruct (wf_used (OS.wf_scan W) a Ea) as (_ & _ & B).
    specialize (B ts Ia). cbn in B. lia.
  - rewrite (wf_free (OS.wf_scan W) a Ea) in Ia. destruct Ia. }
destruct (Nat.eq_dec f i) as [->|Df], (Nat.eq_dec g i) as [->|Dg]; auto.
- rewrite (proj1 (Hl g Dg)) in Ig.
  destruct (Hin ts If) as [If'|E].
  + exact (OS.wf_distinct W _ _ _ If' Ig).
  + exfalso. exact (Old g Ig E).
- rewrite (proj1 (Hl f Df)) in If.
  destruct (Hin ts Ig) as [Ig'|E].
  + exact (OS.wf_distinct W _ _ _ If Ig').
  + exfalso. exact (Old f If E).
- rewrite (proj1 (Hl f Df)) in If. rewrite (proj1 (Hl g Dg)) in Ig.
  exact (OS.wf_distinct W _ _ _ If Ig).
Qed.

Lemma wf_init_ordered num k :
0 <= num <= INT_MAX -> 1 <= k -> OS.wf (O.init num k).
Proof.
intros Hn Hk.
assert (N : forall c f ts, ~ entry (forget (O.init num k)) c f ts).
{ intros c f ts ((_ & E) & _). unfold frame_evictable in E. cbn in E.
  rewrite nth_repeat_default in E. discriminate. }
constructor; cbn; auto.
- exact (wf_init num k Hn Hk).
- intros ts z. split; [discriminate|]. intros (f & _ & E). exfalso. exact (N _ _ _ E).
- intros ts z. split; [discriminate|]. intros (f & _ & E). exfalso. exact (N _ _ _ E).
- intros f g ts If. unfold frame_history in If. cbn in If.
  rewrite nth_repeat_default in If. destruct If.
Qed.

(** *** [RecordAccess] *)

Lemma last_cons_nonempty {A : Type} (a : A) l d : l <> [] -> last (a :: l) d = last l d.
Proof. destruct l as [|b l]; [congruence|reflexivity]. Qed.

Lemma removelast_cons_nonempty {A : Type} (a : A) l : l <> [] -> removelast (a :: l) <> [].
Proof.
intros H E. apply (f_equal (@length A)) in E.
rewrite length_removelast_cons in E. destruct l; [congruence|discriminate].
Qed.

Lemma length_nonempty {A : Type} (l : list A) : l <> [] -> 1 <= Z.of_nat (length l).
Proof. destruct l; [congruence|]. intros _. cbn [length]. lia. Qed.

Ltac fields :=
cbn [forget S.history_ S.allocated_ S.evictable_ S.k_ S.replacer_size_
     S.current_timestamp_ S.curr_size_
     O.history_ O.allocated_ O.evictable_ O.k_ O.replacer_size_
     O.current_timestamp_ O.curr_size_ O.complete_histories_
     O.incomplete_histories_] in *.

Ltac at_frame :=
unfold entry, candidate, accesses, earliest, num_frames, frame_evictable,
  frame_allocated, frame_history in *; fields.

(** Frames other than [i] are as before. *)
Ltac frames_elsewhere :=
let g := fresh "g" in
let Dg := fresh "Dg" in
intros g Dg; unfold frame_history, frame_evictable; fields;
rewrite ?nth_list_set_neq by (apply not_eq_sym; exact Dg);
split; reflexivity.

Ltac elsewhere r i :=
match goal with
| |- OS.wf ?s =>
    assert (Fr : forall g, g <> i ->
               frame_history (forget s) g = frame_history (forget r) g /\
               frame_evictable (forget s) g = frame_evictable (forget r) g)
      by frames_elsewhere;
    pose proof (entry_elsewhere (forget r) (forget s) i eq_refl eq_refl Fr) as El
end.

Lemma scan_RecordAccess r i :
wf r -> (i < num_frames r)%nat ->
S.RecordAccess r (Z.of_nat i) =
Done (S.mk (S.replacer_size_ r) (S.k_ r)
        (wrap_size_t (S.current_timestamp_ r + 1)) (S.curr_size_ r)
        (list_set (S.history_ r) i
           (if Z.of_nat (length (S.current_timestamp_ r :: nth i (S.history_ r) []))
               >? S.k_ r
            then removelast (S.current_timestamp_ r :: nth i (S.history_ r) [])
            else S.current_timestamp_ r :: nth i (S.history_ r) []))
        (if nth i (S.allocated_ r) false then S.allocated_ r
         else list_set (S.allocated_ r) i true)
        (if nth i (S.allocated_ r) false then S.evictable_ r
         else list_set (S.evictable_ r) i false)).
Proof.
intros W Hi.
pose proof (wf_history W) as LH. pose proof (wf_allocated W) as LA.
pose proof (wf_evictable W) as LE. pose proof (wf_size W) as WS.
unfold S.RecordAccess.
assert (V : S.IsValidFrameId r (Z.of_nat i) = true).
{ unfold S.IsValidFrameId.
  rewrite wrap_int_small by (unfold INT_MAX in *; lia).
  apply Z.ltb_lt. unfold num_frames in Hi. lia. }
rewrite V. cbn [negb].
rewrite (vec_get_nat (S.allocated_ r) i false) by lia. cbn [bind].
destruct (nth i (S.allocated_ r) false); cbn [negb].
- cbn [bind]. rewrite (vec_get_nat (S.history_ r) i []) by lia. cbn [bind].
  cbn [S.set_current_timestamp S.history_ S.k_ S.current_timestamp_].
  rewrite vec_set_nat by lia. reflexivity.
- rewrite !vec_set_nat by lia. cbn [bind].
  cbn [S.set_evictable S.set_allocated S.history_].
  rewrite (vec_get_nat (S.history_ r) i []) by lia. cbn [bind].
  cbn [S.set_current_timestamp S.set_evictable S.set_allocated S.history_
       S.k_ S.current_timestamp_].
  rewrite vec_set_nat by lia. reflexivity.
Qed.

Lemma wf_RecordAccess_ordered r f r' :
OS.wf r -> O.current_timestamp_ r + 1 < size_t_modulus ->
O.RecordAccess r f = Done r' -> OS.wf r'.
Proof.
intros W Hts H. pose proof (OS.wf_scan W) as Ws.
assert (Hinv : (Z.to_nat f < num_frames (forget r))%nat /\ f = Z.of_nat (Z.to_nat f)).
{ unfold O.RecordAccess in H.
  destruct (O.IsValidFrameId r f) eqn:V; cbn [negb] in H; [|discriminate].
  apply bind_Done_inv in H. destruct H as (a & Ha & _).
  apply vec_get_nonneg in Ha. now apply (valid_frame_id (forget r)). }
destruct Hinv as (Hi & Ef).
set (i := Z.to_nat f) in *. rewrite Ef in H. clearbody i. clear Ef f.
pose proof (wf_history Ws) as LH. pose proof (wf_allocated Ws) as LA.
pose proof (wf_evictable Ws) as LE.
pose proof (wf_evictable_allocated Ws) as WEA.
pose proof (wf_free Ws) as WF. pose proof (wf_used Ws) as WU.
pose proof (wf_k Ws) as WK.
pose proof (scan_RecordAccess (forget r) i Ws Hi) as Sc.
unfold frame_evictable, frame_allocated, frame_history, accesses in *.
cbn [forget S.history_ S.allocated_ S.evictable_ S.k_ S.replacer_size_
     S.current_timestamp_ S.curr_size_] in *.
unfold O.RecordAccess in H.
destruct (O.IsValidFrameId r (Z.of_nat i)); cbn [negb] in H; [|discriminate].
rewrite (vec_get_nat (O.allocated_ r) i false) in H by lia. cbn [bind] in H.
set (ts := O.current_timestamp_ r) in *.
set (h := nth i (O.history_ r) []) in *.
assert (Hw : wrap_size_t (ts + 1) = ts + 1).
{ apply wrap_size_t_small. pose proof (wf_timestamp Ws) as B. cbn in B.
  fold ts in B. lia. }
assert (Hts0 : 0 <= ts) by (pose proof (wf_timestamp Ws) as B; cbn in B; fold ts in B; lia).
assert (Hlen : Z.of_nat (length h) <= O.k_ r).
{ destruct (nth i (O.allocated_ r) false) eqn:Ea.
  - apply (WU i Ea).
  - unfold h. rewrite (WF i Ea). cbn [length]. lia. }
pose proof (trimmed_history (O.k_ r) ts h WK Hlen) as T.
cbv zeta in T. destruct T as (T1 & T2 & T3).
destruct (nth i (O.allocated_ r) false) eqn:Ea; cbn [negb bind] in H.
- (* the frame is in use *)
  destruct (WU i Ea) as (Hne & _ & Hin). fold h in Hne, Hin.
  rewrite (vec_get_nat (O.history_ r) i []) in H by lia. cbn [bind] in H.
  rewrite (vec_get_nat (O.evictable_ r) i false) in H by lia. cbn [bind] in H.
  fold h in H.
  assert (Iold : In (last h 0) h) by (now apply last_In).
  destruct (nth i (O.evictable_ r) false) eqn:Ee.
  + (* and evictable: its entry in the maps follows the access *)
    destruct (Z.gtb_spec (Z.of_nat (length (ts :: h))) (O.k_ r)) as [G|G].
    * (* the oldest access is dropped *)
      rewrite (back_last (ts :: h) 0) in H by discriminate. cbn [bind] in H.
      rewrite (last_cons_nonempty ts h 0 Hne) in H.
      rewrite (back_last (removelast (ts :: h)) 0) in H
        by (now apply removelast_cons_nonempty).
      cbn [bind] in H.
      rewrite vec_set_nat in H by lia. cbn [bind] in H.
      inversion H; subst r'; clear H.
      set (new := last (removelast (ts :: h)) 0) in *.
      assert (Inew : new = ts \/ In new h).
      { assert (I : In new (ts :: h)).
        { apply In_removelast. apply last_In. now apply removelast_cons_nonempty. }
        destruct I as [I|I]; auto. }
      cbn [length] in G. rewrite Nat2Z.inj_succ in G.
      elsewhere r i.
      assert (U : forall f, f <> i ->
                ~ entry (forget r) true f (last h 0) /\ ~ entry (forget r) true f new).
      { intros f Df. split.
        - now apply (entry_other r true i f).
        - destruct Inew as [->|I].
          + apply (entry_not_now (forget r) true f Ws).
          + now apply (entry_other r true i f). }
      apply (wf_step r _ i W); try reflexivity; try exact Fr.
      -- apply (wf_RecordAccess (forget r) (Z.of_nat i) _ Ws Hts).
         rewrite Sc. reflexivity.
      -- intros x Hx. at_frame. rewrite nth_list_set_eq in Hx by lia.
         apply In_removelast in Hx. destruct Hx; auto.
      -- apply sorted_assign; [apply sorted_erase; exact (OS.wf_complete_sorted W)|].
         destruct Inew as [->|I]; [lia|]. specialize (Hin _ I). lia.
      -- exact (OS.wf_incomplete_sorted W).
      -- apply (holds_moved _ _ i _ _ (El true) (OS.wf_complete W) (last h 0) new).
         ++ intros t. fields. rewrite find_assign.
            rewrite (find_erase (-1)) by exact (OS.wf_complete_sorted W). reflexivity.
         ++ intros t E. apply entry_key in E. exact E.
         ++ intros t. at_frame. rewrite nth_list_set_eq by lia.
            rewrite length_removelast_cons. fold new.
            split; [intros (_ & _ & <-); reflexivity|].
            intros ->. repeat split; auto. lia.
         ++ exact U.
      -- apply (holds_untouched _ _ i _ _ (El false) (OS.wf_incomplete W) eq_refl).
         ++ intros t (_ & N & _). at_frame. fold h in N. lia.
         ++ intros t (_ & N & _). at_frame.
            rewrite nth_list_set_eq in N by lia.
            rewrite length_removelast_cons in N. lia.
    * rewrite (back_last (ts :: h) 0) in H by discriminate.
      rewrite (last_cons_nonempty ts h 0 Hne) in H.
      pose proof (length_nonempty h Hne) as L1.
      assert (U : forall c f, f <> i -> ~ entry (forget r) c f (last h 0)).
      { intros c f Df. now apply (entry_other r c i f). }
      assert (B0 : -1 < last h 0) by (specialize (Hin _ Iold); lia).
      cbn [length] in G, H. rewrite Nat2Z.inj_succ in G, H.
      destruct (Z.eqb_spec (Z.succ (Z.of_nat (length h))) (O.k_ r)) as [K|K].
      -- (* the history becomes complete *)
         destruct (Z.gtb_spec (Z.succ (Z.of_nat (length h))) 1); [|lia].
         cbn [bind] in H.
         rewrite vec_set_nat in H by lia. cbn [bind] in H.
         inversion H; subst r'; clear H.
         elsewhere r i.
         apply (wf_step r _ i W); try reflexivity; try exact Fr.
         ++ apply (wf_RecordAccess (forget r) (Z.of_nat i) _ Ws Hts).
            rewrite Sc. reflexivity.
         ++ intros x Hx. at_frame. rewrite nth_list_set_eq in Hx by lia.
            destruct Hx; auto.
         ++ apply sorted_assign; [exact (OS.wf_complete_sorted W)|exact B0].
         ++ apply sorted_erase. exact (OS.wf_incomplete_sorted W).
         ++ apply (holds_moved _ _ i _ _ (El true) (OS.wf_complete W)
                     (last h 0) (last h 0)).
            ** intros t. fields. rewrite find_assign.
               destruct (last h 0 =? t); reflexivity.
            ** intros t E. apply entry_key in E. exact E.
            ** intros t. at_frame. rewrite nth_list_set_eq by lia.
               rewrite (last_cons_nonempty ts _ 0 Hne).
               split; [intros (_ & _ & <-); reflexivity|].
               intros ->. repeat split; auto.
               cbn [length]. rewrite Nat2Z.inj_succ. exact K.
            ** intros f Df. split; now apply U.
         ++ apply (holds_dropped _ _ i _ _ (El false) (OS.wf_incomplete W) (last h 0)).
            ** intros t. fields.
               now rewrite (find_erase (-1)) by exact (OS.wf_incomplete_sorted W).
            ** intros t E. apply entry_key in E. exact E.
            ** intros t (_ & N & _). at_frame.
               rewrite nth_list_set_eq in N by lia.
               cbn [length] in N. rewrite Nat2Z.inj_succ in N. lia.
            ** intros f Df. now apply U.
      -- (* the history stays incomplete *)
         cbn [bind] in H.
         rewrite vec_set_nat in H by lia. cbn [bind] in H.
         inversion H; subst r'; clear H.
         elsewhere r i.
         apply (wf_step r _ i W); try reflexivity; try exact Fr.
         ++ apply (wf_RecordAccess (forget r) (Z.of_nat i) _ Ws Hts).
            rewrite Sc. reflexivity.
         ++ intros x Hx. at_frame. rewrite nth_list_set_eq in Hx by lia.
            destruct Hx; auto.
         ++ exact (OS.wf_complete_sorted W).
         ++ apply sorted_assign; [exact (OS.wf_incomplete_sorted W)|exact B0].
         ++ apply (holds_untouched _ _ i _ _ (El true) (OS.wf_complete W) eq_refl).
            ** intros t (_ & N & _). at_frame. fold h in N. lia.
            ** intros t (_ & N & _). at_frame.
               rewrite nth_list_set_eq in N by lia.
               cbn [length] in N. rewrite Nat2Z.inj_succ in N. lia.
         ++ apply (holds_moved _ _ i _ _ (El false) (OS.wf_incomplete W)
                     (last h 0) (last h 0)).
            ** intros t. fields. rewrite find_assign.
               destruct (last h 0 =? t); reflexivity.
            ** intros t E. apply entry_key in E. exact E.
            ** intros t. at_frame. rewrite nth_list_set_eq by lia.
               rewrite (last_cons_nonempty ts _ 0 Hne).
               split; [intros (_ & _ & <-); reflexivity|].
               intros ->. repeat split; auto.
               cbn [length]. rewrite Nat2Z.inj_succ. exact K.
            ** intros f Df. split; now apply U.
  + (* and pinned: the maps do not list it *)
    cbn [bind] in H.
    rewrite vec_set_nat in H by lia. cbn [bind] in H.
    inversion H; subst r'; clear H.
    elsewhere r i.
    apply (wf_step r _ i W); try reflexivity; try exact Fr.
    * apply (wf_RecordAccess (forget r) (Z.of_nat i) _ Ws Hts).
      rewrite Sc. reflexivity.
    * intros x Hx. at_frame. rewrite nth_list_set_eq in Hx by lia.
      destruct (T3 x Hx); auto.
    * exact (OS.wf_complete_sorted W).
    * exact (OS.wf_incomplete_sorted W).
    * apply (holds_untouched _ _ i _ _ (El true) (OS.wf_complete W) eq_refl);
        intros t ((_ & N) & _); at_frame; congruence.
    * apply (holds_untouched _ _ i _ _ (El false) (OS.wf_incomplete W) eq_refl);
        intros t ((_ & N) & _); at_frame; congruence.
- (* the frame is allocated by this access *)
  assert (Ee : nth i (O.evictable_ r) false = false).
  { destruct (nth i (O.evictable_ r) false) eqn:E; auto.
    apply WEA in E. congruence. }
  rewrite !vec_set_nat in H by lia. cbn [bind] in H.
  rewrite (vec_get_nat (O.history_ r) i []) in H by lia. cbn [bind] in H.
  rewrite (vec_get_nat (list_set (O.evictable_ r) i false) i false) in H
    by (rewrite length_list_set; lia).
  rewrite nth_list_set_eq in H by lia. cbn [bind] in H.
  rewrite vec_set_nat in H by lia. cbn [bind] in H.
  inversion H; subst r'; clear H.
  elsewhere r i.
  apply (wf_step r _ i W); try reflexivity; try exact Fr.
  + apply (wf_RecordAccess (forget r) (Z.of_nat i) _ Ws Hts).
    rewrite Sc. reflexivity.
  + intros x Hx. at_frame. rewrite nth_list_set_eq in Hx by lia.
    destruct (T3 x Hx); auto.
  + exact (OS.wf_complete_sorted W).
  + exact (OS.wf_incomplete_sorted W).
  + apply (holds_untouched _ _ i _ _ (El true) (OS.wf_complete W) eq_refl);
      intros t ((_ & N) & _); at_frame;
      rewrite ?nth_list_set_eq in N by lia; congruence.
  + apply (holds_untouched _ _ i _ _ (El false) (OS.wf_incomplete W) eq_refl);
      intros t ((_ & N) & _); at_frame;
      rewrite ?nth_list_set_eq in N by lia; congruence.
Qed.

(** *** [SetEvictable] *)

Lemma valid_nat r i :
wf r -> (i < num_frames r)%nat -> S.IsValidFrameId r (Z.of_nat i) = true.
Proof.
intros W Hi. unfold S.IsValidFrameId. pose proof (wf_size W).
rewrite wrap_int_small by (unfold INT_MAX in *; lia).
apply Z.ltb_lt. unfold num_frames in Hi. lia.
Qed.

Lemma scan_SetEvictable r i b :
wf r -> (i < num_frames r)%nat -> nth i (S.allocated_ r) false = true ->
S.SetEvictable r (Z.of_nat i) b =
Done (S.mk (S.replacer_size_ r) (S.k_ r) (S.current_timestamp_ r)
        (if negb (nth i (S.evictable_ r) false) && b
         then wrap_size_t (S.curr_size_ r + 1)
         else if nth i (S.evictable_ r) false && negb b
              then wrap_size_t (S.curr_size_ r - 1)
              else S.curr_size_ r)
        (S.history_ r) (S.allocated_ r) (list_set (S.evictable_ r) i b)).
Proof.
intros W Hi Ea.
pose proof (wf_allocated W) as LA. pose proof (wf_evictable W) as LE.
unfold S.SetEvictable. rewrite (valid_nat r i W Hi). cbn [negb].
rewrite (vec_get_nat (S.allocated_ r) i false) by lia. cbn [bind].
rewrite Ea. cbn [negb].
rewrite (vec_get_nat (S.evictable_ r) i false) by lia. cbn [bind].
destruct (nth i (S.evictable_ r) false), b; cbn [negb andb];
  cbn [S.set_curr_size S.evictable_ S.curr_size_];
  rewrite vec_set_nat by lia; reflexivity.
Qed.

Lemma wf_SetEvictable_ordered r f b r' :
OS.wf r -> O.SetEvictable r f b = Done r' -> OS.wf r'.
Proof.
intros W H. pose proof (OS.wf_scan W) as Ws.
unfold O.SetEvictable in H.
destruct (O.IsValidFrameId r f) eqn:V; cbn [negb] in H; [|discriminate].
destruct (vec_get (O.allocated_ r) f) as [a| | |] eqn:Ga; cbn [bind] in H;
  try discriminate.
pose proof (vec_get_nonneg _ _ _ Ga) as H0.
destruct (valid_frame_id (forget r) f Ws V H0) as (Hi & Ef).
set (i := Z.to_nat f) in *. rewrite Ef in *. clearbody i. clear Ef H0 f V.
pose proof (wf_history Ws) as LH. pose proof (wf_allocated Ws) as LA.
pose proof (wf_evictable Ws) as LE.
pose proof (wf_used Ws) as WU.
unfold frame_evictable, frame_allocated, frame_history, accesses in *.
fields.
rewrite (vec_get_nat (O.allocated_ r) i false) in Ga by lia.
inversion Ga; subst a; clear Ga.
destruct (nth i (O.allocated_ r) false) eqn:Ea; cbn [negb] in H;
  [|inversion H; subst; exact W].
pose proof (scan_SetEvictable (forget r) i b Ws Hi Ea) as Sc. fields.
rewrite (vec_get_nat (O.evictable_ r) i false) in H by lia. cbn [bind] in H.
rewrite (vec_get_nat (O.history_ r) i []) in H by lia. cbn [bind] in H.
set (h := nth i (O.history_ r) []) in *.
destruct (WU i Ea) as (Hne & Hlen & Hin). fold h in Hne, Hlen, Hin.
assert (Iold : In (last h 0) h) by (now apply last_In).
assert (U : forall c f, f <> i -> ~ entry (forget r) c f (last h 0)).
{ intros c f Df. now apply (entry_other r c i f). }
assert (B0 : -1 < last h 0) by (specialize (Hin _ Iold); lia).
rewrite (back_last h 0 Hne) in H.
destruct (nth i (O.evictable_ r) false) eqn:Ee, b; cbn [negb andb bind] in H, Sc.
- (* evictable already *)
  rewrite vec_set_nat in H by lia. cbn [bind] in H.
  inversion H; subst r'; clear H.
  elsewhere r i.
  apply (wf_step r _ i W); try reflexivity; try exact Fr.
  + apply (wf_SetEvictable (forget r) (Z.of_nat i) true _ Ws).
    rewrite Sc. reflexivity.
  + intros x Hx. left. exact Hx.
  + exact (OS.wf_complete_sorted W).
  + exact (OS.wf_incomplete_sorted W).
  + apply (holds_same _ _ i _ _ (El true) (OS.wf_complete W) eq_refl).
    intros t. at_frame. rewrite nth_list_set_eq by lia. rewrite Ee. tauto.
  + apply (holds_same _ _ i _ _ (El false) (OS.wf_incomplete W) eq_refl).
    intros t. at_frame. rewrite nth_list_set_eq by lia. rewrite Ee. tauto.
- (* pinned: the entry leaves the maps *)
  rewrite vec_set_nat in H by lia. cbn [bind] in H.
  inversion H; subst r'; clear H.
  elsewhere r i.
  apply (wf_step r _ i W); try reflexivity; try exact Fr.
  + apply (wf_SetEvictable (forget r) (Z.of_nat i) false _ Ws).
    rewrite Sc. reflexivity.
  + intros x Hx. left. exact Hx.
  + fields. rewrite erase_if_found_erase. apply sorted_erase. exact (OS.wf_complete_sorted W).
  + fields. rewrite erase_if_found_erase. apply sorted_erase. exact (OS.wf_incomplete_sorted W).
  + apply (holds_dropped _ _ i _ _ (El true) (OS.wf_complete W) (last h 0)).
    * intros t. fields. rewrite erase_if_found_erase.
      now rewrite (find_erase (-1)) by exact (OS.wf_complete_sorted W).
    * intros t E. apply entry_key in E. exact E.
    * intros t ((_ & N) & _). at_frame.
      rewrite nth_list_set_eq in N by lia. discriminate.
    * intros f Df. now apply U.
  + apply (holds_dropped _ _ i _ _ (El false) (OS.wf_incomplete W) (last h 0)).
    * intros t. fields. rewrite erase_if_found_erase.
      now rewrite (find_erase (-1)) by exact (OS.wf_incomplete_sorted W).
    * intros t E. apply entry_key in E. exact E.
    * intros t ((_ & N) & _). at_frame.
      rewrite nth_list_set_eq in N by lia. discriminate.
    * intros f Df. now apply U.
- (* made evictable: the entry joins the map of its kind *)
  destruct (Z.eqb_spec (Z.of_nat (length h)) (O.k_ r)) as [K|K];
    cbn [bind] in H;
    rewrite vec_set_nat in H by lia; cbn [bind] in H;
    inversion H; subst r'; clear H;
    elsewhere r i;
    (apply (wf_step r _ i W); try reflexivity; try exact Fr;
     [ apply (wf_SetEvictable (forget r) (Z.of_nat i) true _ Ws);
       rewrite Sc; reflexivity
     | intros x Hx; left; exact Hx
     | ..]).
  + apply sorted_assign; [exact (OS.wf_complete_sorted W)|exact B0].
  + exact (OS.wf_incomplete_sorted W).
  + apply (holds_moved _ _ i _ _ (El true) (OS.wf_complete W)
             (last h 0) (last h 0)).
    * intros t. fields. rewrite find_assign.
      destruct (last h 0 =? t); reflexivity.
    * intros t E. apply entry_key in E. exact E.
    * intros t. at_frame. rewrite nth_list_set_eq by lia.
      split; [intros (_ & _ & <-); reflexivity|].
      intros ->. repeat split; auto.
    * intros f Df. split; now apply U.
  + apply (holds_untouched _ _ i _ _ (El false) (OS.wf_incomplete W) eq_refl).
    * intros t ((_ & N) & _). at_frame. congruence.
    * intros t (_ & N & _). at_frame. fold h in N. lia.
  + exact (OS.wf_complete_sorted W).
  + apply sorted_assign; [exact (OS.wf_incomplete_sorted W)|exact B0].
  + apply (holds_untouched _ _ i _ _ (El true) (OS.wf_complete W) eq_refl).
    * intros t ((_ & N) & _). at_frame. congruence.
    * intros t (_ & N & _). at_frame. fold h in N. lia.
  + apply (holds_moved _ _ i _ _ (El false) (OS.wf_incomplete W)
             (last h 0) (last h 0)).
    * intros t. fields. rewrite find_assign.
      destruct (last h 0 =? t); reflexivity.
    * intros t E. apply entry_key in E. exact E.
    * intros t. at_frame. rewrite nth_list_set_eq by lia.
      split; [intros (_ & _ & <-); reflexivity|].
      intros ->. repeat split; auto.
    * intros f Df. split; now apply U.
- (* pinned already *)
  rewrite vec_set_nat in H by lia. cbn [bind] in H.
  inversion H; subst r'; clear H.
  elsewhere r i.
  apply (wf_step r _ i W); try reflexivity; try exact Fr.
  + apply (wf_SetEvictable (forget r) (Z.of_nat i) false _ Ws).
    rewrite Sc. reflexivity.
  + intros x Hx. left. exact Hx.
  + exact (OS.wf_complete_sorted W).
  + exact (OS.wf_incomplete_sorted W).
  + apply (holds_same _ _ i _ _ (El true) (OS.wf_complete W) eq_refl).
    intros t. at_frame. rewrite nth_list_set_eq by lia. rewrite Ee. tauto.
  + apply (holds_same _ _ i _ _ (El false) (OS.wf_incomplete W) eq_refl).
    intros t. at_frame. rewrite nth_list_set_eq by lia. rewrite Ee. tauto.
Qed.

(** *** [Remove] and [Evict] *)

Lemma wf_RemoveInternal_ordered r (i : nat) :
OS.wf r -> (i < num_frames (forget r))%nat ->
frame_evictable (forget r) i = true ->
exists r', O.RemoveInternal r (Z.of_nat i) = Done r' /\ OS.wf r'.
Proof.
intros W Hi He. pose proof (OS.wf_scan W) as Ws.
destruct (wf_RemoveInternal (forget r) i Ws Hi He) as (r1 & E1 & W1 & _).
pose proof (wf_history Ws) as LH. pose proof (wf_allocated Ws) as LA.
pose proof (wf_evictable Ws) as LE.
pose proof (wf_evictable_allocated Ws i He) as Ea.
destruct (wf_used Ws i Ea) as (Hne & _ & Hin).
unfold frame_evictable, frame_allocated, frame_history in *. fields.
set (h := nth i (O.history_ r) []) in *.
assert (Iold : In (last h 0) h) by (now apply last_In).
assert (U : forall c f, f <> i -> ~ entry (forget r) c f (last h 0)).
{ intros c f Df. now apply (entry_other r c i f). }
unfold S.RemoveInternal in E1. fields.
rewrite !vec_set_nat in E1 by lia. cbn [bind] in E1.
inversion E1; subst r1; clear E1.
unfold O.RemoveInternal.
rewrite (vec_get_nat (O.history_ r) i []) by lia. cbn [bind]. fold h.
rewrite (back_last h 0 Hne). cbn [bind].
rewrite !vec_set_nat by lia. cbn [bind].
eexists. split; [reflexivity|].
elsewhere r i.
apply (wf_step r _ i W); try reflexivity; try exact Fr.
- exact W1.
- intros x Hx. at_frame. rewrite nth_list_set_eq in Hx by lia. destruct Hx.
- fields. rewrite erase_if_found_erase. apply sorted_erase.
  exact (OS.wf_complete_sorted W).
- fields. rewrite erase_if_found_erase. apply sorted_erase.
  exact (OS.wf_incomplete_sorted W).
- apply (holds_dropped _ _ i _ _ (El true) (OS.wf_complete W) (last h 0)).
  + intros t. fields. rewrite erase_if_found_erase.
    now rewrite (find_erase (-1)) by exact (OS.wf_complete_sorted W).
  + intros t E. apply entry_key in E. exact E.
  + intros t ((_ & N) & _). at_frame.
    rewrite nth_list_set_eq in N by lia. discriminate.
  + intros f Df. now apply U.
- apply (holds_dropped _ _ i _ _ (El false) (OS.wf_incomplete W) (last h 0)).
  + intros t. fields. rewrite erase_if_found_erase.
    now rewrite (find_erase (-1)) by exact (OS.wf_incomplete_sorted W).
  + intros t E. apply entry_key in E. exact E.
  + intros t ((_ & N) & _). at_frame.
    rewrite nth_list_set_eq in N by lia. discriminate.
  + intros f Df. now apply U.
Qed.

Lemma wf_Remove_ordered r f r' : OS.wf r -> O.Remove r f = Done r' -> OS.wf r'.
Proof.
intros W H. pose proof (OS.wf_scan W) as Ws. unfold O.Remove in H.
destruct (O.IsValidFrameId r f) eqn:V; cbn [negb] in H;
  [|inversion H; subst; exact W].
destruct (vec_get (O.allocated_ r) f) as [a| | |] eqn:Ga; cbn [bind] in H;
  try discriminate.
pose proof (vec_get_nonneg _ _ _ Ga) as H0.
destruct (valid_frame_id (forget r) f Ws V H0) as (Hi & Ef).
destruct a; cbn [negb] in H; [|inversion H; subst; exact W].
destruct (vec_get (O.evictable_ r) f) as [e| | |] eqn:Ge; cbn [bind] in H;
  try discriminate.
destruct e; cbn [negb] in H; [|discriminate].
rewrite Ef in Ge, H.
pose proof (wf_evictable Ws) as LE. cbn [forget S.evictable_] in LE.
rewrite (vec_get_nat (O.evictable_ r) (Z.to_nat f) false) in Ge by lia.
inversion Ge as [Ge'].
destruct (wf_RemoveInternal_ordered r (Z.to_nat f) W Hi Ge') as (r1 & E1 & W1).
rewrite E1 in H. inversion H; subst; exact W1.
Qed.

(** [Evict] on a state with an evictable frame: the victim is the first
  entry of the map of incomplete histories, or of that of complete
  histories when the former is empty; it is what the policy asks for. *)
Lemma Evict_victim_ordered r :
OS.wf r -> count_evictable (forget r) <> 0 ->
exists v r',
  O.Evict r = Done (Some (Z.of_nat v), r') /\
  policy_victim (forget r) v /\
  O.RemoveInternal r (Z.of_nat v) = Done r' /\
  OS.wf r'.
Proof.
intros W Hc. pose proof (OS.wf_scan W) as Ws.
destruct (candidate_exists (forget r) Ws Hc) as (c & Cc).
pose proof (wf_used Ws) as WU.
assert (Hlen : forall f, candidate (forget r) f ->
                         accesses (forget r) f <= S.k_ (forget r)).
{ intros f [_ He]. apply (wf_evictable_allocated Ws) in He.
  apply (WU f He). }
unfold O.Evict.
assert (Hz : (O.curr_size_ r =? 0) = false).
{ apply Z.eqb_neq. pose proof (wf_curr_size Ws) as C. cbn in C. lia. }
rewrite Hz.
destruct (O.incomplete_histories_ r) as [|[t z] rest] eqn:EI.
- (* no evictable frame has an incomplete history *)
  assert (All : forall f, candidate (forget r) f ->
                          accesses (forget r) f = S.k_ (forget r)).
  { intros f Cf.
    destruct (Z.eq_dec (accesses (forget r) f) (S.k_ (forget r))) as [|N]; auto.
    assert (E : entry (forget r) false f (earliest (forget r) f))
      by (repeat split; auto; apply Cf).
    assert (F : O.find (O.incomplete_histories_ r) (earliest (forget r) f)
                = Some (Z.of_nat f))
      by (apply (OS.wf_incomplete W); eauto).
    rewrite EI in F. discriminate. }
  assert (Listed : forall f, candidate (forget r) f ->
            O.find (O.complete_histories_ r) (earliest (forget r) f)
            = Some (Z.of_nat f)).
  { intros f Cf. apply (OS.wf_complete W). exists f. split; [reflexivity|].
    repeat split; auto; try apply Cf. }
  destruct (O.complete_histories_ r) as [|[t z] rest] eqn:EC.
  { specialize (Listed c Cc). discriminate. }
  cbn [O.begin_second bind].
  pose proof (OS.wf_complete W t z) as Hd. rewrite EC in Hd.
  destruct (proj1 Hd (find_head t z rest)) as (v & -> & Cv & Kv & Ev).
  destruct (wf_RemoveInternal_ordered r v W (proj1 Cv) (proj2 Cv)) as (r' & R & W').
  rewrite R. cbn [bind].
  exists v, r'. split; [reflexivity|]. split; [|auto].
  split; [exact Cv|]. split.
  + intros (f & Cf & Lf). specialize (All f Cf). lia.
  + intros _ f Cf. rewrite Ev.
    apply (head_least (-1) t (Z.of_nat v) rest _ (Z.of_nat f)).
    * pose proof (OS.wf_complete_sorted W) as S. now rewrite EC in S.
    * now apply Listed.
- (* the first entry of the map of incomplete histories *)
  cbn [O.begin_second bind].
  pose proof (OS.wf_incomplete W t z) as Hd. rewrite EI in Hd.
  destruct (proj1 Hd (find_head t z rest)) as (v & -> & Cv & Kv & Ev).
  destruct (wf_RemoveInternal_ordered r v W (proj1 Cv) (proj2 Cv)) as (r' & R & W').
  rewrite R. cbn [bind].
  exists v, r'. split; [reflexivity|]. split; [|auto].
  split; [exact Cv|]. split.
  + intros _. split; [specialize (Hlen v Cv); lia|].
    intros f Cf Lf. rewrite Ev.
    apply (head_least (-1) t (Z.of_nat v) rest _ (Z.of_nat f)).
    * pose proof (OS.wf_incomplete_sorted W) as S. now rewrite EI in S.
    * rewrite <- EI. apply (OS.wf_incomplete W). exists f.
      split; [reflexivity|]. repeat split; auto; try apply Cf. lia.
  + intros All. specialize (All v Cv). contradiction.
Qed.

Lemma Evict_none_ordered r :
OS.wf r -> count_evictable (forget r) = 0 -> O.Evict r = Done (None, r).
Proof.
intros W H. unfold O.Evict.
pose proof (wf_curr_size (OS.wf_scan W)) as C. cbn in C.
rewrite C, H. reflexivity.
Qed.

Lemma wf_Evict_ordered r v r' : OS.wf r -> O.Evict r = Done (v, r') -> OS.wf r'.
Proof.
intros W H. destruct (Z.eq_dec (count_evictable (forget r)) 0) as [E|E].
- rewrite (Evict_none_ordered r W E) in H. inversion H; subst; exact W.
- destruct (Evict_victim_ordered r W E) as (v1 & r1 & E1 & _ & _ & W1).
  rewrite E1 in H. inversion H; subst; exact W1.
Qed.

Lemma reachable_wf_ordered r : OS.reachable r -> OS.wf r.
Proof.
induction 1.
- now apply wf_init_ordered.
- eapply wf_RecordAccess_ordered; eauto.
- eapply wf_SetEvictable_ordered; eauto.
- eapply wf_Remove_ordered; eauto.
- eapply wf_Evict_ordered; eauto.
Qed.

Lemma Remove_candidate_ordered r v :
OS.wf r -> candidate (forget r) v ->
O.Remove r (Z.of_nat v) = O.RemoveInternal r (Z.of_nat v).
Proof.
intros W [Hv He]. pose proof (OS.wf_scan W) as Ws. unfold O.Remove.
pose proof (valid_nat (forget r) v Ws Hv) as V.
change (S.IsValidFrameId (forget r) (Z.of_nat v))
  with (O.IsValidFrameId r (Z.of_nat v)) in V.
rewrite V. cbn [negb].
pose proof (wf_evictable_allocated Ws v He) as Ea.
pose proof (wf_allocated Ws) as LA. pose proof (wf_evictable Ws) as LE.
unfold frame_evictable, frame_allocated in *. fields.
rewrite (vec_get_nat (O.allocated_ r) v false) by lia. cbn [bind].
rewrite Ea. cbn [negb].
rewrite (vec_get_nat (O.evictable_ r) v false) by lia. cbn [bind].
rewrite He. reflexivity.
Qed.

End OrderedFacts.




(* ================================================================== *)
(** ** Index pages: the entry array                                    *)
(* ================================================================== *)

Module PageFacts.

Import PageSpec.

Lemma slot_store a i j x :
  0 <= i -> 0 <= j -> slot (store a i x) j = if j =? i then x else slot a j.
Proof.
  intros Hi Hj. unfold slot, store.
  set (n := Z.to_nat i). set (m := Z.to_nat j).
  set (pad := repeat (0, 0) (n - length a)).
  assert (Lf : length (firstn n (a ++ pad)) = n).
  { rewrite length_firstn, length_app. unfold pad. rewrite repeat_length. lia. }
  destruct (Z.eqb_spec j i) as [->|D].
  - subst m. fold n. rewrite app_nth2 by lia. rewrite Lf, Nat.sub_diag. reflexivity.
  - assert (Dm : m <> n) by (unfold m, n; lia).
    destruct (Nat.lt_ge_cases m n) as [L|L].
    + rewrite app_nth1 by lia. rewrite nth_firstn.
      destruct (Nat.ltb_spec m n); [|lia].
      destruct (Nat.lt_ge_cases m (length a)) as [La|La].
      * now rewrite app_nth1 by lia.
      * rewrite app_nth2 by lia. rewrite (nth_overflow a) by lia.
        unfold pad. destruct (Nat.lt_ge_cases (m - length a) (n - length a)).
        -- apply nth_repeat_lt. lia.
        -- apply nth_overflow. rewrite repeat_length. lia.
    + rewrite app_nth2 by lia. rewrite Lf.
      destruct (m - n)%nat as [|d] eqn:E; [lia|].
      cbn [nth]. rewrite nth_skipn. f_equal. lia.
Qed.

Lemma slot_shift_right n : forall a i j,
  0 <= i - Z.of_nat n -> 0 <= j ->
  slot (shift_right a i n) j =
  if (i - Z.of_nat n <? j) && (j <=? i) then slot a (j - 1) else slot a j.
Proof.
  induction n as [|n IH]; intros a i j Hi Hj.
  - cbn [shift_right].
    destruct (Z.ltb_spec (i - Z.of_nat 0) j), (Z.leb_spec j i); cbn; try reflexivity. lia.
  - cbn [shift_right]. rewrite IH by lia.
    destruct (Z.ltb_spec (i - 1 - Z.of_nat n) j), (Z.leb_spec j (i - 1));
      destruct (Z.ltb_spec (i - Z.of_nat (S n)) j), (Z.leb_spec j i);
      cbn [andb]; try lia; rewrite slot_store by lia;
      match goal with |- context [?x =? ?y] => destruct (Z.eqb_spec x y) end;
      subst; try reflexivity; lia.
Qed.

Lemma slot_shift_left n : forall a i j,
  0 <= i -> 0 <= j ->
  slot (shift_left a i n) j =
  if (i <=? j) && (j <? i + Z.of_nat n) then slot a (j + 1) else slot a j.
Proof.
  induction n as [|n IH]; intros a i j Hi Hj.
  - cbn [shift_left].
    destruct (Z.leb_spec i j), (Z.ltb_spec j (i + Z.of_nat 0)); cbn; try reflexivity. lia.
  - cbn [shift_left]. rewrite IH by lia.
    destruct (Z.leb_spec (i + 1) j), (Z.ltb_spec j (i + 1 + Z.of_nat n));
      destruct (Z.leb_spec i j), (Z.ltb_spec j (i + Z.of_nat (S n)));
      cbn [andb]; try lia; rewrite slot_store by lia;
      match goal with |- context [?x =? ?y] => destruct (Z.eqb_spec x y) end;
      subst; try reflexivity; lia.
Qed.

(** *** The entries of a page *)

Lemma length_entries p : length (entries p) = Z.to_nat (size_ p).
Proof. unfold entries. now rewrite length_map, length_seq. Qed.

Lemma nth_entries p j d :
  (j < Z.to_nat (size_ p))%nat -> nth j (entries p) d = slot (array_ p) (Z.of_nat j).
Proof.
  intros H. unfold entries.
  rewrite (nth_indep _ d (slot (array_ p) (Z.of_nat 0)))
    by (now rewrite length_map, length_seq).
  rewrite (map_nth (fun i => slot (array_ p) (Z.of_nat i)) (seq 0 (Z.to_nat (size_ p))) 0%nat j).
  now rewrite seq_nth.
Qed.

Lemma slot_entries p j :
  0 <= j < size_ p -> slot (array_ p) j = nth (Z.to_nat j) (entries p) (0, 0).
Proof.
  intros H. rewrite nth_entries by lia. now rewrite Z2Nat.id by lia.
Qed.

(** Two pages with the same slots below their size hold the same entries. *)
Lemma entries_from_slots p (l : list MappingType) :
  Z.of_nat (length l) = size_ p ->
  (forall j, (j < length l)%nat -> slot (array_ p) (Z.of_nat j) = nth j l (0, 0)) ->
  entries p = l.
Proof.
  intros Hs Hn. apply (nth_ext _ _ (0, 0) (0, 0)).
  - rewrite length_entries, <- Hs, Nat2Z.id. reflexivity.
  - intros j Hj. rewrite length_entries in Hj.
    rewrite nth_entries by exact Hj. apply Hn.
    rewrite <- Hs, Nat2Z.id in Hj. exact Hj.
Qed.

Lemma nth_keys p j :
  (j < Z.to_nat (size_ p))%nat -> nth j (keys p) 0 = fst (slot (array_ p) (Z.of_nat j)).
Proof.
  intros H. unfold keys.
  change 0 with (fst ((0, 0) : MappingType)). rewrite map_nth.
  now rewrite nth_entries.
Qed.

Lemma length_keys p : length (keys p) = Z.to_nat (size_ p).
Proof. unfold keys. now rewrite length_map, length_entries. Qed.

(** *** Lists in key order *)

Lemma sorted_nth (l : list Z) :
  StronglySorted Z.lt l ->
  forall i j, (i < j)%nat -> (j < length l)%nat -> nth i l 0 < nth j l 0.
Proof.
  induction 1 as [|a l S IH F]; intros i j Hij Hj; cbn [length] in Hj; [lia|].
  destruct j as [|j]; [lia|]. destruct i as [|i]; cbn [nth].
  - rewrite Forall_forall in F. apply F. apply nth_In. lia.
  - apply IH; lia.
Qed.

Lemma nth_insert_nth n x l j :
  (n <= length l)%nat ->
  nth j (insert_nth n x l) (0, 0) =
  if (j <? n)%nat then nth j l (0, 0)
  else if (j =? n)%nat then x else nth (j - 1) l (0, 0).
Proof.
  intros Hn. unfold insert_nth.
  assert (Lf : length (firstn n l) = n) by (rewrite length_firstn; lia).
  destruct (Nat.ltb_spec j n).
  - rewrite app_nth1 by lia. rewrite nth_firstn.
    destruct (Nat.ltb_spec j n); [reflexivity|lia].
  - rewrite app_nth2 by lia. rewrite Lf.
    destruct (Nat.eqb_spec j n) as [->|D].
    + now rewrite Nat.sub_diag.
    + destruct (j - n)%nat as [|d] eqn:E; [lia|].
      cbn [nth]. rewrite nth_skipn. f_equal. lia.
Qed.

Lemma length_insert_nth n x l : length (insert_nth n x l) = S (length l).
Proof.
  unfold insert_nth. rewrite length_app. cbn [length].
  rewrite length_firstn, length_skipn. lia.
Qed.

Lemma nth_remove_nth n l j :
  (n < length l)%nat ->
  nth j (remove_nth n l) (0, 0) =
  if (j <? n)%nat then nth j l (0, 0) else nth (S j) l (0, 0).
Proof.
  intros Hn. unfold remove_nth.
  assert (Lf : length (firstn n l) = n) by (rewrite length_firstn; lia).
  destruct (Nat.ltb_spec j n).
  - rewrite app_nth1 by lia. rewrite nth_firstn.
    destruct (Nat.ltb_spec j n); [reflexivity|lia].
  - rewrite app_nth2 by lia. rewrite Lf, nth_skipn. f_equal. lia.
Qed.

Lemma length_remove_nth n l :
  (n < length l)%nat -> S (length (remove_nth n l)) = length l.
Proof.
  intros H. unfold remove_nth. rewrite length_app, length_firstn, length_skipn. lia.
Qed.

(** [insert_entry] puts the entry at the first position whose key is
    greater. *)
Lemma insert_entry_at key value : forall l n,
  (n <= length l)%nat ->
  (forall j, (j < n)%nat -> fst (nth j l (0, 0)) <= key) ->
  (n = length l \/ key < fst (nth n l (0, 0))) ->
  insert_entry key value l = insert_nth n (key, value) l.
Proof.
  induction l as [|[k v] l IH]; intros n Hn Hlt Hge.
  - cbn [length] in Hn. assert (n = 0)%nat as -> by lia. reflexivity.
  - cbn [insert_entry]. destruct n as [|n].
    + destruct Hge as [Hge|Hge]; [discriminate|]. cbn [nth fst] in Hge.
      destruct (Z.ltb_spec key k); [reflexivity|lia].
    + pose proof (Hlt 0%nat ltac:(lia)) as H0. cbn [nth fst] in H0.
      destruct (Z.ltb_spec key k); [lia|].
      unfold insert_nth. cbn [firstn skipn app]. f_equal.
      apply (IH n).
      * cbn [length] in Hn. lia.
      * intros j Hj. apply (Hlt (S j)). lia.
      * destruct Hge as [Hge|Hge]; [left; cbn [length] in Hge; lia|right; exact Hge].
Qed.

Lemma remove_key_at key : forall l n,
  (n < length l)%nat ->
  (forall j, (j < n)%nat -> fst (nth j l (0, 0)) <> key) ->
  fst (nth n l (0, 0)) = key ->
  remove_key key l = remove_nth n l.
Proof.
  induction l as [|[k v] l IH]; intros n Hn Hne He; cbn [length] in Hn; [lia|].
  cbn [remove_key]. destruct n as [|n].
  - cbn [nth fst] in He. subst k. rewrite Z.eqb_refl. reflexivity.
  - pose proof (Hne 0%nat ltac:(lia)) as H0. cbn [nth fst] in H0.
    destruct (Z.eqb_spec k key); [contradiction|].
    unfold remove_nth. cbn [firstn skipn app]. f_equal.
    apply (IH n); [lia| |exact He].
    intros j Hj. apply (Hne (S j)). lia.
Qed.

Lemma remove_key_absent key : forall l,
  ~ In key (map fst l) -> remove_key key l = l.
Proof.
  induction l as [|[k v] l IH]; intros H; [reflexivity|].
  cbn [remove_key]. cbn [map fst In] in H.
  destruct (Z.eqb_spec k key); [tauto|]. f_equal. apply IH. tauto.
Qed.

Lemma In_insert_entry key value x l :
  In x (map fst (insert_entry key value l)) -> x = key \/ In x (map fst l).
Proof.
  induction l as [|[k v] l IH]; cbn [insert_entry map fst In].
  - intuition auto.
  - destruct (key <? k); cbn [map fst In]; intuition auto.
Qed.

Lemma sorted_insert_entry key value : forall l,
  StronglySorted Z.lt (map fst l) -> ~ In key (map fst l) ->
  StronglySorted Z.lt (map fst (insert_entry key value l)).
Proof.
  induction l as [|[k v] l IH]; intros S N.
  - repeat constructor.
  - cbn [map fst] in S, N. inversion S as [|? ? S' F]; subst.
    cbn [insert_entry]. destruct (Z.ltb_spec key k).
    + cbn [map fst]. constructor; [exact S|].
      constructor; [assumption|].
      eapply Forall_impl; [|exact F]. cbn. intros; lia.
    + cbn [map fst]. assert (k < key) by (cbn [In] in N; lia).
      constructor.
      * apply IH; [exact S'|]. cbn [In] in N. tauto.
      * apply Forall_forall. intros x Hx.
        pose proof (In_insert_entry key value x l Hx) as Hx'.
        destruct Hx' as [->|Hx']; [assumption|].
        rewrite Forall_forall in F. now apply F.
Qed.

Lemma remove_insert_entry key value : forall l,
  ~ In key (map fst l) -> remove_key key (insert_entry key value l) = l.
Proof.
  induction l as [|[k v] l IH]; intros N; cbn [insert_entry remove_key].
  - now rewrite Z.eqb_refl.
  - cbn [map fst In] in N. destruct (Z.ltb_spec key k).
    + cbn [remove_key]. now rewrite Z.eqb_refl.
    + cbn [remove_key]. destruct (Z.eqb_spec k key); [tauto|].
      f_equal. apply IH. tauto.
Qed.

End PageFacts.

(* ================================================================== *)
(** ** Leaf pages: insertion, search and removal                       *)
(* ================================================================== *)

Module LeafFacts.

Import PageSpec PageFacts.

Lemma comparator_eq a b : (comparator a b =? 0) = (a =? b).
Proof.
  unfold comparator. destruct (Z.compare_spec a b), (Z.eqb_spec a b); cbn; auto; lia.
Qed.

Lemma comparator_lt a b : (comparator a b <? 0) = (a <? b).
Proof.
  unfold comparator. destruct (Z.compare_spec a b), (Z.ltb_spec a b); cbn; auto; lia.
Qed.

Lemma comparator_geb a b : (comparator a b >=? 0) = (b <=? a).
Proof.
  unfold comparator. destruct (Z.compare_spec a b), (Z.leb_spec b a); cbn; auto; lia.
Qed.

(** The helpers of the tree are the methods of the page. *)
Lemma InsertIntoLeaf_Insert p key value :
  BPlusTree.InsertIntoLeaf p key value = LeafPage.Insert p key value.
Proof. reflexivity. Qed.

Lemma LowerBoundLeaf_LowerBound p key :
  LeafPage.LowerBound p key =
  match BPlusTree.LowerBoundLeaf p key with Some i => i | None => -1 end.
Proof.
  unfold LeafPage.LowerBound, BPlusTree.LowerBoundLeaf.
  induction (Z.to_nat (GetSize p)) as [|n IH]; cbn; [reflexivity|].
  destruct (comparator key (fst (slot (array_ p) (Z.of_nat n))) >=? 0); auto.
Qed.

(** A key of the page sits in one of its slots. *)
Lemma In_keys p key :
  In key (keys p) <->
  exists j, 0 <= j < GetSize p /\ fst (slot (array_ p) j) = key.
Proof.
  unfold GetSize. split.
  - intros H. destruct (In_nth _ _ 0 H) as (n & Hn & E).
    rewrite length_keys in Hn. rewrite nth_keys in E by exact Hn.
    exists (Z.of_nat n). split; [lia|exact E].
  - intros (j & Hj & E).
    rewrite <- E, <- (Z2Nat.id j) by lia. rewrite <- nth_keys by lia.
    apply nth_In. rewrite length_keys. lia.
Qed.

Lemma increasing_slots p i j :
  increasing p -> 0 <= i -> i < j -> j < GetSize p ->
  fst (slot (array_ p) i) < fst (slot (array_ p) j).
Proof.
  intros S Hi Hij Hj. unfold GetSize in Hj.
  pose proof (sorted_nth (keys p) S (Z.to_nat i) (Z.to_nat j)) as H.
  rewrite length_keys, !nth_keys, !Z2Nat.id in H by lia. apply H; lia.
Qed.

(** *** The scans *)

Lemma Insert_scan_spec p key n : forall index,
  0 <= index ->
  match LeafPage.Insert_scan p key index n with
  | None =>
      exists j, index <= j < index + Z.of_nat n /\ fst (slot (array_ p) j) = key
  | Some r =>
      index <= r <= index + Z.of_nat n /\
      (forall i, index <= i < r -> fst (slot (array_ p) i) < key) /\
      (r = index + Z.of_nat n \/
       (r < index + Z.of_nat n /\ key < fst (slot (array_ p) r)))
  end.
Proof.
  induction n as [|n IH]; intros index Hi; cbn [LeafPage.Insert_scan].
  - split; [lia|]. split; [intros; lia|left; lia].
  - unfold LeafPage.KeyAt. rewrite comparator_eq, comparator_lt.
    destruct (Z.eqb_spec key (fst (slot (array_ p) index))) as [E|E].
    + exists index. split; [lia|auto].
    + destruct (Z.ltb_spec key (fst (slot (array_ p) index))) as [L|L].
      * split; [lia|]. split; [intros; lia|right; split; [lia|exact L]].
      * specialize (IH (index + 1) ltac:(lia)).
        destruct (LeafPage.Insert_scan p key (index + 1) n) as [r|].
        -- destruct IH as (R & B & A). split; [lia|].
           split; [|destruct A as [A|[A1 A2]]; [left; lia|right; split; [lia|exact A2]]].
           intros i Hr. destruct (Z.eq_dec i index) as [->|]; [lia|]. apply B. lia.
        -- destruct IH as (j & Hj & Ej). exists j. split; [lia|exact Ej].
Qed.

Lemma LowerBound_scan_spec p key n :
  let r := LeafPage.LowerBound_scan p key n in
  -1 <= r < Z.of_nat n /\
  (forall i, r < i < Z.of_nat n -> key < fst (slot (array_ p) i)) /\
  (0 <= r -> fst (slot (array_ p) r) <= key).
Proof.
  induction n as [|n IH]; cbn [LeafPage.LowerBound_scan]; cbv zeta.
  - split; [lia|]. split; intros; lia.
  - rewrite comparator_geb.
    destruct (Z.leb_spec (fst (slot (array_ p) (Z.of_nat n))) key) as [L|L].
    + split; [lia|]. split; [intros; lia|auto].
    + cbv zeta in IH. destruct IH as (R & A & B).
      split; [lia|]. split; [|exact B].
      intros i Hi. destruct (Z.eq_dec i (Z.of_nat n)) as [->|]; [exact L|].
      apply A. lia.
Qed.

Lemma RemoveFromLeaf_scan_spec p key n : forall index,
  0 <= index ->
  let r := BPlusTree.RemoveFromLeaf_scan p key index n in
  index <= r <= index + Z.of_nat n /\
  (forall i, index <= i < r -> fst (slot (array_ p) i) <> key) /\
  (r = index + Z.of_nat n \/ fst (slot (array_ p) r) = key).
Proof.
  induction n as [|n IH]; intros index Hi; cbn [BPlusTree.RemoveFromLeaf_scan]; cbv zeta.
  - split; [lia|]. split; [intros; lia|left; lia].
  - rewrite comparator_eq.
    destruct (Z.eqb_spec key (fst (slot (array_ p) index))) as [E|E].
    + split; [lia|]. split; [intros; lia|right; auto].
    + specialize (IH (index + 1) ltac:(lia)). cbv zeta in IH.
      destruct IH as (R & B & A). split; [lia|].
      split; [|destruct A; [left|right]; [lia|assumption]].
      intros i Hr. destruct (Z.eq_dec i index) as [->|]; [congruence|]. apply B. lia.
Qed.

(** *** What the operations do to the entries *)

(** Putting an entry in at slot [r] of a page of [size] entries. *)
Lemma entries_inserted p r x :
  0 <= r <= GetSize p ->
  entries (IncreaseSize
             (SetArray p (store (shift_right (array_ p) (GetSize p)
                                   (Z.to_nat (GetSize p - r))) r x)) 1)
  = insert_nth (Z.to_nat r) x (entries p).
Proof.
  intros Hr. unfold GetSize in *. apply entries_from_slots.
  - rewrite length_insert_nth, length_entries. cbn. lia.
  - intros j Hj. rewrite length_insert_nth, length_entries in Hj.
    cbn [array_ IncreaseSize SetSize SetArray].
    rewrite slot_store by lia.
    rewrite nth_insert_nth by (rewrite length_entries; lia).
    destruct (Z.eqb_spec (Z.of_nat j) r) as [E|E].
    + destruct (Nat.ltb_spec j (Z.to_nat r)); [lia|].
      destruct (Nat.eqb_spec j (Z.to_nat r)); [reflexivity|lia].
    + rewrite slot_shift_right by lia. rewrite Z2Nat.id by lia.
      destruct (Nat.ltb_spec j (Z.to_nat r)).
      * destruct (Z.ltb_spec (size_ p - (size_ p - r)) (Z.of_nat j)); [lia|].
        cbn [andb]. rewrite nth_entries by lia. reflexivity.
      * destruct (Nat.eqb_spec j (Z.to_nat r)); [lia|].
        destruct (Z.ltb_spec (size_ p - (size_ p - r)) (Z.of_nat j)); [|lia].
        destruct (Z.leb_spec (Z.of_nat j) (size_ p)); [|lia].
        cbn [andb]. rewrite nth_entries by lia. f_equal. lia.
Qed.

(** Taking the entry at slot [r] out of a page. *)
Lemma slots_removed p r j :
  0 <= r < GetSize p -> (j < Z.to_nat (GetSize p - 1))%nat ->
  slot (shift_left (array_ p) r (Z.to_nat (GetSize p - 1 - r))) (Z.of_nat j)
  = nth j (remove_nth (Z.to_nat r) (entries p)) (0, 0).
Proof.
  intros Hr Hj. unfold GetSize in *.
  rewrite slot_shift_left by lia. rewrite Z2Nat.id by lia.
  rewrite nth_remove_nth by (rewrite length_entries; lia).
  destruct (Nat.ltb_spec j (Z.to_nat r)).
  - destruct (Z.leb_spec r (Z.of_nat j)); [lia|]. cbn [andb].
    now rewrite nth_entries by lia.
  - destruct (Z.leb_spec r (Z.of_nat j)); [|lia].
    destruct (Z.ltb_spec (Z.of_nat j) (r + (size_ p - 1 - r))); [|lia].
    cbn [andb]. rewrite nth_entries by lia. f_equal. lia.
Qed.

Lemma length_removed p r :
  0 <= r < GetSize p ->
  Z.of_nat (length (remove_nth (Z.to_nat r) (entries p))) = GetSize p - 1.
Proof.
  intros Hr. unfold GetSize in *.
  pose proof (length_remove_nth (Z.to_nat r) (entries p)) as L.
  rewrite length_entries in L. specialize (L ltac:(lia)). lia.
Qed.

(** *** [Insert] *)

Lemma Insert_duplicate p key value :
  0 <= GetSize p -> increasing p -> In key (keys p) ->
  LeafPage.Insert p key value = (false, p).
Proof.
  intros Hs S H. apply In_keys in H. destruct H as (j & Hj & Ej).
  unfold LeafPage.Insert.
  pose proof (Insert_scan_spec p key (Z.to_nat (GetSize p)) 0 ltac:(lia)) as Sp.
  destruct (LeafPage.Insert_scan p key 0 (Z.to_nat (GetSize p))) as [r|]; [|reflexivity].
  exfalso. destruct Sp as (R & B & A). rewrite Z2Nat.id in * by lia.
  destruct (Z.lt_ge_cases j r) as [L|L].
  - specialize (B j ltac:(lia)). lia.
  - destruct A as [A|A]; [lia|].
    destruct (Z.eq_dec j r) as [->|]; [lia|].
    pose proof (increasing_slots p r j S ltac:(lia) ltac:(lia) ltac:(lia)). lia.
Qed.

Lemma Insert_new p key value :
  0 <= GetSize p -> increasing p -> ~ In key (keys p) ->
  exists p',
    LeafPage.Insert p key value = (true, p') /\
    entries p' = insert_entry key value (entries p) /\
    GetSize p' = GetSize p + 1 /\
    increasing p' /\
    same_header p' p.
Proof.
  intros Hs S N. unfold LeafPage.Insert.
  pose proof (Insert_scan_spec p key (Z.to_nat (GetSize p)) 0 ltac:(lia)) as Sp.
  destruct (LeafPage.Insert_scan p key 0 (Z.to_nat (GetSize p))) as [r|].
  - destruct Sp as (R & B & A). rewrite Z2Nat.id in * by lia.
    eexists. split; [reflexivity|].
    assert (E : entries (IncreaseSize
                 (SetArray p (store (shift_right (array_ p) (GetSize p)
                                       (Z.to_nat (GetSize p - r))) r (key, value))) 1)
                = insert_entry key value (entries p)).
    { rewrite entries_inserted by lia. symmetry.
      apply insert_entry_at.
      - rewrite length_entries. unfold GetSize in *. lia.
      - intros j Hj. rewrite nth_entries by (unfold GetSize in *; lia).
        apply Z.lt_le_incl, B. lia.
      - destruct A as [A|[A1 A]].
        + left. rewrite length_entries. unfold GetSize in *. lia.
        + right. rewrite nth_entries by (unfold GetSize in *; lia).
          now rewrite Z2Nat.id by lia. }
    split; [exact E|]. split; [reflexivity|]. split.
    + unfold increasing, keys. rewrite E.
      apply sorted_insert_entry; [exact S|exact N].
    + repeat split.
  - exfalso. apply N. apply In_keys.
    destruct Sp as (j & Hj & Ej). exists j. rewrite Z2Nat.id in Hj by lia.
    split; [lia|exact Ej].
Qed.

(** *** [LowerBound] on a page in key order *)

Lemma LowerBound_present p key j :
  0 <= GetSize p -> increasing p ->
  0 <= j < GetSize p -> fst (slot (array_ p) j) = key ->
  LeafPage.LowerBound p key = j.
Proof.
  intros Hs S Hj Ej. unfold LeafPage.LowerBound.
  pose proof (LowerBound_scan_spec p key (Z.to_nat (GetSize p))) as Sp.
  cbv zeta in Sp. destruct Sp as (R & A & B). rewrite Z2Nat.id in * by lia.
  set (r := LeafPage.LowerBound_scan p key (Z.to_nat (GetSize p))) in *.
  destruct (Z.lt_trichotomy r j) as [L|[E|L]]; [|exact E|].
  - specialize (A j ltac:(lia)). lia.
  - specialize (B ltac:(lia)).
    pose proof (increasing_slots p j r S ltac:(lia) ltac:(lia) ltac:(lia)). lia.
Qed.

(** *** [Remove] and [RemoveFromLeaf] *)

Lemma Remove_present p key :
  0 <= GetSize p -> increasing p -> In key (keys p) ->
  exists p',
    LeafPage.Remove p key = (true, p') /\
    entries p' = remove_key key (entries p) /\
    GetSize p' = GetSize p - 1 /\
    same_header p' p.
Proof.
  intros Hs S H. apply In_keys in H. destruct H as (j & Hj & Ej).
  unfold LeafPage.Remove. rewrite (LowerBound_present p key j Hs S Hj Ej).
  destruct (Z.eqb_spec j (-1)); [lia|].
  eexists. split; [reflexivity|]. split; [|split; [reflexivity|repeat split]].
  rewrite (remove_key_at key (entries p) (Z.to_nat j)).
  - apply entries_from_slots.
    + rewrite length_removed by lia. reflexivity.
    + intros i Hi. cbn [array_ IncreaseSize SetSize SetArray].
      apply slots_removed; [lia|].
      pose proof (length_removed p j ltac:(lia)). lia.
  - rewrite length_entries. unfold GetSize in *. lia.
  - intros i Hi. rewrite nth_entries by (unfold GetSize in *; lia).
    pose proof (increasing_slots p (Z.of_nat i) j S ltac:(lia) ltac:(lia) ltac:(lia)).
    unfold KeyType, ValueType, MappingType in *. lia.
  - rewrite nth_entries by (unfold GetSize in *; lia).
    now rewrite Z2Nat.id by lia.
Qed.

Lemma RemoveFromLeaf_present p key :
  0 <= GetSize p -> In key (keys p) ->
  exists p',
    BPlusTree.RemoveFromLeaf p key = (true, p') /\
    entries p' = remove_key key (entries p) /\
    GetSize p' = GetSize p - 1 /\
    same_header p' p.
Proof.
  intros Hs H. apply In_keys in H. destruct H as (j & Hj & Ej).
  unfold BPlusTree.RemoveFromLeaf.
  pose proof (RemoveFromLeaf_scan_spec p key (Z.to_nat (GetSize p)) 0 ltac:(lia)) as Sp.
  cbv zeta in Sp. destruct Sp as (R & B & A). rewrite Z2Nat.id in * by lia.
  set (r := BPlusTree.RemoveFromLeaf_scan p key 0 (Z.to_nat (GetSize p))) in *.
  assert (Hr : r < GetSize p).
  { destruct (Z.lt_ge_cases r (GetSize p)); [assumption|].
    specialize (B j ltac:(lia)). congruence. }
  destruct A as [A|A]; [lia|].
  destruct (Z.eqb_spec r (GetSize p)); [lia|].
  eexists. split; [reflexivity|]. split; [|split; [reflexivity|repeat split]].
  rewrite (remove_key_at key (entries p) (Z.to_nat r)).
  - apply entries_from_slots.
    + rewrite length_removed by lia. reflexivity.
    + intros i Hi. cbn [array_ SetSize SetArray].
      apply slots_removed; [lia|].
      pose proof (length_removed p r ltac:(lia)). lia.
  - rewrite length_entries. unfold GetSize in *. lia.
  - intros i Hi. rewrite nth_entries by (unfold GetSize in *; lia).
    apply B. lia.
  - rewrite nth_entries by (unfold GetSize in *; lia).
    now rewrite Z2Nat.id by lia.
Qed.

Lemma RemoveFromLeaf_absent p key :
  0 <= GetSize p -> ~ In key (keys p) ->
  BPlusTree.RemoveFromLeaf p key = (false, p).
Proof.
  intros Hs N. unfold BPlusTree.RemoveFromLeaf.
  pose proof (RemoveFromLeaf_scan_spec p key (Z.to_nat (GetSize p)) 0 ltac:(lia)) as Sp.
  cbv zeta in Sp. destruct Sp as (R & B & A). rewrite Z2Nat.id in * by lia.
  set (r := BPlusTree.RemoveFromLeaf_scan p key 0 (Z.to_nat (GetSize p))) in *.
  destruct (Z.eqb_spec r (GetSize p)); [reflexivity|].
  exfalso. apply N. apply In_keys. exists r.
  destruct A as [A|A]; [lia|]. split; [lia|exact A].
Qed.

End LeafFacts.

(* ================================================================== *)
(** ** Internal pages: search, insertion and removal                   *)
(* ================================================================== *)

Module InternalFacts.

Import PageSpec PageFacts LeafFacts.

(** The helpers of the tree are the methods of the page. *)
Lemma LowerBoundInternal_LowerBound p key :
  BPlusTree.LowerBoundInternal p key = InternalPage.LowerBound p key.
Proof. reflexivity. Qed.

Lemma InsertIntoInternal_Insert p key child :
  BPlusTree.InsertIntoInternal p key child = InternalPage.Insert p key child.
Proof. reflexivity. Qed.

Lemma LowerBound_scan_internal_spec p key n : forall index,
  let r := InternalPage.LowerBound_scan p key index n in
  index - Z.of_nat n <= r <= index /\
  (forall i, r < i <= index -> key < fst (slot (array_ p) i)) /\
  (r = index - Z.of_nat n \/
   (index - Z.of_nat n < r /\ fst (slot (array_ p) r) <= key)).
Proof.
  induction n as [|n IH]; intros index; cbn [InternalPage.LowerBound_scan]; cbv zeta.
  - split; [lia|]. split; [intros; lia|left; lia].
  - rewrite comparator_geb.
    destruct (Z.leb_spec (fst (slot (array_ p) index)) key) as [L|L].
    + split; [lia|]. split; [intros; lia|right; split; [lia|exact L]].
    + specialize (IH (index - 1)). cbv zeta in IH. destruct IH as (R & A & B).
      split; [lia|]. split.
      * intros i Hi. destruct (Z.eq_dec i index) as [->|]; [exact L|]. apply A. lia.
      * destruct B as [B|[B1 B2]]; [left; lia|right; split; [lia|exact B2]].
Qed.

(** On a page with at least one child, [LowerBound] answers a slot of the
    page: the last one whose key is at most [key], slot 0 when there is
    none among the slots from 1 on. *)
Lemma LowerBound_spec p key :
  1 <= GetSize p ->
  let r := InternalPage.LowerBound p key in
  0 <= r < GetSize p /\
  (forall i, r < i < GetSize p -> key < fst (slot (array_ p) i)) /\
  (1 <= r -> fst (slot (array_ p) r) <= key).
Proof.
  intros Hs. unfold InternalPage.LowerBound. cbv zeta.
  pose proof (LowerBound_scan_internal_spec p key (Z.to_nat (GetSize p - 1)) (GetSize p - 1)) as Sp.
  cbv zeta in Sp. rewrite Z2Nat.id in Sp by lia. destruct Sp as (R & A & B).
  split; [lia|]. split.
  - intros i Hi. apply A. lia.
  - intros H1. destruct B as [B|[_ B]]; [lia|exact B].
Qed.

Lemma Insert_entries p key value :
  1 <= GetSize p ->
  entries (InternalPage.Insert p key value)
  = insert_nth (Z.to_nat (InternalPage.LowerBound p key + 1)) (key, value) (entries p) /\
  GetSize (InternalPage.Insert p key value) = GetSize p + 1.
Proof.
  intros Hs. destruct (LowerBound_spec p key Hs) as (R & _).
  split; [|reflexivity].
  unfold InternalPage.Insert. apply entries_inserted. lia.
Qed.

Lemma Remove_entries p index :
  0 <= index < GetSize p ->
  entries (InternalPage.Remove p index) = remove_nth (Z.to_nat index) (entries p) /\
  GetSize (InternalPage.Remove p index) = GetSize p - 1.
Proof.
  intros Hi. split; [|reflexivity]. unfold InternalPage.Remove.
  apply entries_from_slots.
  - rewrite length_removed by lia. reflexivity.
  - intros i Hl. cbn [array_ IncreaseSize SetSize SetArray].
    apply slots_removed; [lia|].
    pose proof (length_removed p index ltac:(lia)). lia.
Qed.

End InternalFacts.

(* ================================================================== *)
(** ** Index pages: what their operations guarantee                    *)
(* ================================================================== *)

(** X1.  [Insert] of the leaf page, on a page whose keys increase
    strictly: a key the page holds is refused and the page is left as it
    is; a new key is put in at its place in key order, so the keys still
    increase, the size grows by one and the header is untouched. *)
Theorem X1_leaf_Insert_keeps_key_order :
  forall p key value,
    0 <= GetSize p -> PageSpec.increasing p ->
    (In key (keys p) -> LeafPage.Insert p key value = (false, p)) /\
    (~ In key (keys p) ->
     exists p',
       LeafPage.Insert p key value = (true, p') /\
       entries p' = PageSpec.insert_entry key value (entries p) /\
       GetSize p' = GetSize p + 1 /\
       PageSpec.increasing p' /\
       PageSpec.same_header p' p).
Proof.
  intros p key value Hs S. split.
  - now apply LeafFacts.Insert_duplicate.
  - now apply LeafFacts.Insert_new.
Qed.

Lemma X1_leaf_Insert_keeps_key_order_witness :
  0 <= GetSize PageSpec.example_leaf /\
  PageSpec.increasing PageSpec.example_leaf /\
  (In 2 (keys PageSpec.example_leaf) ->
   LeafPage.Insert PageSpec.example_leaf 2 20 = (false, PageSpec.example_leaf)) /\
  (~ In 2 (keys PageSpec.example_leaf) ->
   exists p',
     LeafPage.Insert PageSpec.example_leaf 2 20 = (true, p') /\
     entries p' = PageSpec.insert_entry 2 20 (entries PageSpec.example_leaf) /\
     GetSize p' = GetSize PageSpec.example_leaf + 1 /\
     PageSpec.increasing p' /\
     PageSpec.same_header p' PageSpec.example_leaf).
Proof.
  assert (S : PageSpec.increasing PageSpec.example_leaf).
  { unfold PageSpec.increasing. cbn. repeat constructor. }
  split; [cbn; lia|]. split; [exact S|].
  apply (X1_leaf_Insert_keeps_key_order PageSpec.example_leaf 2 20); [cbn; lia|exact S].
Defined.

(** X2.  [LowerBound] of the leaf page answers the last slot whose key is
    at most the key asked for, and -1 when every key of the page is
    greater; on a page in key order it answers the slot of the key itself
    when the page holds it. *)
Theorem X2_leaf_LowerBound_is_the_floor :
  forall p key,
    0 <= GetSize p ->
    let r := LeafPage.LowerBound p key in
    -1 <= r < GetSize p /\
    (forall i, r < i < GetSize p -> key < LeafPage.KeyAt p i) /\
    (0 <= r -> LeafPage.KeyAt p r <= key) /\
    (PageSpec.increasing p -> In key (keys p) -> LeafPage.KeyAt p r = key).
Proof.
  intros p key Hs. cbv zeta. unfold LeafPage.LowerBound, LeafPage.KeyAt.
  pose proof (LeafFacts.LowerBound_scan_spec p key (Z.to_nat (GetSize p))) as Sp.
  cbv zeta in Sp. rewrite Z2Nat.id in Sp by lia. destruct Sp as (R & A & B).
  split; [exact R|]. split; [exact A|]. split; [exact B|].
  intros S H. apply LeafFacts.In_keys in H. destruct H as (j & Hj & Ej).
  pose proof (LeafFacts.LowerBound_present p key j Hs S Hj Ej) as E.
  unfold LeafPage.LowerBound in E. rewrite E. exact Ej.
Qed.

Lemma X2_leaf_LowerBound_is_the_floor_witness :
  0 <= GetSize PageSpec.example_leaf /\
  (let r := LeafPage.LowerBound PageSpec.example_leaf 2 in
   -1 <= r < GetSize PageSpec.example_leaf /\
   (forall i, r < i < GetSize PageSpec.example_leaf ->
              2 < LeafPage.KeyAt PageSpec.example_leaf i) /\
   (0 <= r -> LeafPage.KeyAt PageSpec.example_leaf r <= 2) /\
   (PageSpec.increasing PageSpec.example_leaf -> In 2 (keys PageSpec.example_leaf) ->
    LeafPage.KeyAt PageSpec.example_leaf r = 2)).
Proof.
  split; [cbn; lia|].
  apply (X2_leaf_LowerBound_is_the_floor PageSpec.example_leaf 2). cbn. lia.
Defined.

(** X3.  [Remove] of the leaf page, on a page in key order that holds the
    key: the entry of the key, and no other, leaves the page; the size
    drops by one and the header is untouched. *)
Theorem X3_leaf_Remove_of_a_key_on_the_page :
  forall p key,
    0 <= GetSize p -> PageSpec.increasing p -> In key (keys p) ->
    exists p',
      LeafPage.Remove p key = (true, p') /\
      entries p' = PageSpec.remove_key key (entries p) /\
      GetSize p' = GetSize p - 1 /\
      PageSpec.same_header p' p.
Proof. intros p key. apply LeafFacts.Remove_present. Qed.

Lemma X3_leaf_Remove_of_a_key_on_the_page_witness :
  0 <= GetSize PageSpec.example_leaf /\
  PageSpec.increasing PageSpec.example_leaf /\
  In 3 (keys PageSpec.example_leaf) /\
  exists p',
    LeafPage.Remove PageSpec.example_leaf 3 = (true, p') /\
    entries p' = PageSpec.remove_key 3 (entries PageSpec.example_leaf) /\
    GetSize p' = GetSize PageSpec.example_leaf - 1 /\
    PageSpec.same_header p' PageSpec.example_leaf.
Proof.
  assert (S : PageSpec.increasing PageSpec.example_leaf).
  { unfold PageSpec.increasing. cbn. repeat constructor. }
  assert (I : In 3 (keys PageSpec.example_leaf)) by (cbn; right; left; reflexivity).
  split; [cbn; lia|]. split; [exact S|]. split; [exact I|].
  apply (X3_leaf_Remove_of_a_key_on_the_page PageSpec.example_leaf 3);
    [cbn; lia|exact S|exact I].
Defined.

(** X4.  On a leaf page in key order, [Insert] of a new key followed by
    [Remove] of that key gives back the entries and the size the page
    had. *)
Theorem X4_leaf_Insert_then_Remove_restores_the_page :
  forall p key value,
    0 <= GetSize p -> PageSpec.increasing p -> ~ In key (keys p) ->
    exists p' p'',
      LeafPage.Insert p key value = (true, p') /\
      LeafPage.Remove p' key = (true, p'') /\
      entries p'' = entries p /\
      GetSize p'' = GetSize p /\
      PageSpec.same_header p'' p.
Proof.
  intros p key value Hs S N.
  destruct (LeafFacts.Insert_new p key value Hs S N) as (p' & E1 & En & Sz & S' & Hd).
  assert (I : In key (keys p')).
  { unfold keys. rewrite En. clear. induction (entries p) as [|[k v] l IH]; cbn.
    - auto.
    - destruct (key <? k); cbn; auto. }
  destruct (LeafFacts.Remove_present p' key ltac:(lia) S' I) as (p'' & E2 & Er & Sz' & Hd').
  exists p', p''. split; [exact E1|]. split; [exact E2|]. split.
  - rewrite Er, En. now apply PageFacts.remove_insert_entry.
  - split; [lia|].
    unfold PageSpec.same_header in *. intuition congruence.
Qed.

Lemma X4_leaf_Insert_then_Remove_restores_the_page_witness :
  0 <= GetSize PageSpec.example_leaf /\
  PageSpec.increasing PageSpec.example_leaf /\
  ~ In 2 (keys PageSpec.example_leaf) /\
  exists p' p'',
    LeafPage.Insert PageSpec.example_leaf 2 20 = (true, p') /\
    LeafPage.Remove p' 2 = (true, p'') /\
    entries p'' = entries PageSpec.example_leaf /\
    GetSize p'' = GetSize PageSpec.example_leaf /\
    PageSpec.same_header p'' PageSpec.example_leaf.
Proof.
  assert (S : PageSpec.increasing PageSpec.example_leaf).
  { unfold PageSpec.increasing. cbn. repeat constructor. }
  assert (N : ~ In 2 (keys PageSpec.example_leaf)).
  { cbn. intros [H|[H|[]]]; discriminate. }
  split; [cbn; lia|]. split; [exact S|]. split; [exact N|].
  apply (X4_leaf_Insert_then_Remove_restores_the_page PageSpec.example_leaf 2 20);
    [cbn; lia|exact S|exact N].
Defined.

Module LeafLookupFacts.

Import PageSpec PageFacts LeafFacts.

Lemma LowerBoundLeaf_scan_nonneg p key n i :
  BPlusTree.LowerBoundLeaf_scan p key n = Some i -> 0 <= i.
Proof.
  induction n as [|n IH]; cbn [BPlusTree.LowerBoundLeaf_scan]; [discriminate|].
  destruct (comparator key (fst (slot (array_ p) (Z.of_nat n))) >=? 0); [|exact IH].
  intros H. inversion H. lia.
Qed.

Lemma In_entries p x :
  In x (entries p) <-> exists j, 0 <= j < GetSize p /\ slot (array_ p) j = x.
Proof.
  unfold GetSize. split.
  - intros H. destruct (In_nth _ _ (0, 0) H) as (n & Hn & E).
    rewrite length_entries in Hn. rewrite nth_entries in E by exact Hn.
    exists (Z.of_nat n). split; [lia|exact E].
  - intros (j & Hj & E).
    rewrite <- E, <- (Z2Nat.id j) by lia. rewrite <- (nth_entries p _ (0, 0)) by lia.
    apply nth_In. rewrite length_entries. lia.
Qed.

(** On a leaf in key order, the slot [LowerBoundLeaf] points to holds the
    key asked for exactly when the leaf holds the key. *)
Lemma LowerBoundLeaf_finds p key value :
  0 <= GetSize p -> increasing p ->
  ((exists i, BPlusTree.LowerBoundLeaf p key = Some i /\
              slot (array_ p) i = (key, value))
   <-> In (key, value) (entries p)).
Proof.
  intros Hs S. split.
  - intros (i & L & E). apply In_entries. exists i. split; [|exact E].
    pose proof (LowerBoundLeaf_LowerBound p key) as R. rewrite L in R.
    pose proof (LowerBound_scan_spec p key (Z.to_nat (GetSize p))) as Sp.
    cbv zeta in Sp. rewrite Z2Nat.id in Sp by lia.
    unfold LeafPage.LowerBound in R. rewrite R in Sp.
    apply LowerBoundLeaf_scan_nonneg in L. lia.
  - intros H. apply In_entries in H. destruct H as (j & Hj & E).
    exists j. split; [|exact E].
    assert (Ek : fst (slot (array_ p) j) = key) by (now rewrite E).
    pose proof (LowerBound_present p key j Hs S Hj Ek) as R.
    rewrite LowerBoundLeaf_LowerBound in R.
    destruct (BPlusTree.LowerBoundLeaf p key) as [i|]; [congruence|lia].
Qed.

Lemma In_insert_entry_iff key value x l :
  In x (insert_entry key value l) <-> x = (key, value) \/ In x l.
Proof.
  induction l as [|[k v] l IH]; cbn [insert_entry In].
  - intuition auto.
  - destruct (key <? k); cbn [In]; intuition auto.
Qed.

End LeafLookupFacts.

(** X5.  On a leaf in key order, the slot [LowerBoundLeaf] returns holds
    the entry [(key, value)] exactly when that entry is on the leaf: this
    is the test by which [GetValue] answers. *)
Theorem X5_LowerBoundLeaf_finds_the_entries_of_a_leaf :
  forall p key value,
    0 <= GetSize p -> PageSpec.increasing p ->
    ((exists i, BPlusTree.LowerBoundLeaf p key = Some i /\
                slot (array_ p) i = (key, value))
     <-> In (key, value) (entries p)).
Proof. intros p key value. apply LeafLookupFacts.LowerBoundLeaf_finds. Qed.

Lemma X5_LowerBoundLeaf_finds_the_entries_of_a_leaf_witness :
  0 <= GetSize PageSpec.example_leaf /\
  PageSpec.increasing PageSpec.example_leaf /\
  ((exists i, BPlusTree.LowerBoundLeaf PageSpec.example_leaf 3 = Some i /\
              slot (array_ PageSpec.example_leaf) i = (3, 30))
   <-> In (3, 30) (entries PageSpec.example_leaf)).
Proof.
  assert (S : PageSpec.increasing PageSpec.example_leaf).
  { unfold PageSpec.increasing. cbn. repeat constructor. }
  split; [cbn; lia|]. split; [exact S|].
  apply (X5_LowerBoundLeaf_finds_the_entries_of_a_leaf PageSpec.example_leaf 3 30);
    [cbn; lia|exact S].
Defined.

(** X6.  [RemoveFromLeaf] of the tree removes on an exact match only: the
    first entry with the key leaves the leaf and the size drops by one;
    when no entry has the key the leaf is left as it is and the answer is
    false.  The keys need not be in order. *)
Theorem X6_RemoveFromLeaf_removes_on_exact_match :
  forall p key,
    0 <= GetSize p ->
    (In key (keys p) ->
     exists p',
       BPlusTree.RemoveFromLeaf p key = (true, p') /\
       entries p' = PageSpec.remove_key key (entries p) /\
       GetSize p' = GetSize p - 1 /\
       PageSpec.same_header p' p) /\
    (~ In key (keys p) -> BPlusTree.RemoveFromLeaf p key = (false, p)).
Proof.
  intros p key Hs. split.
  - now apply LeafFacts.RemoveFromLeaf_present.
  - now apply LeafFacts.RemoveFromLeaf_absent.
Qed.

Lemma X6_RemoveFromLeaf_removes_on_exact_match_witness :
  0 <= GetSize PageSpec.example_leaf /\
  (In 2 (keys PageSpec.example_leaf) ->
   exists p',
     BPlusTree.RemoveFromLeaf PageSpec.example_leaf 2 = (true, p') /\
     entries p' = PageSpec.remove_key 2 (entries PageSpec.example_leaf) /\
     GetSize p' = GetSize PageSpec.example_leaf - 1 /\
     PageSpec.same_header p' PageSpec.example_leaf) /\
  (~ In 2 (keys PageSpec.example_leaf) ->
   BPlusTree.RemoveFromLeaf PageSpec.example_leaf 2 = (false, PageSpec.example_leaf)).
Proof.
  split; [cbn; lia|].
  apply (X6_RemoveFromLeaf_removes_on_exact_match PageSpec.example_leaf 2). cbn. lia.
Defined.

(** X7.  On a leaf in key order, after [InsertIntoLeaf] of a new key the
    search of the tree finds the new entry, and it still finds every
    entry the leaf held before. *)
Theorem X7_InsertIntoLeaf_then_LowerBoundLeaf :
  forall p key value,
    0 <= GetSize p -> PageSpec.increasing p -> ~ In key (keys p) ->
    exists p',
      BPlusTree.InsertIntoLeaf p key value = (true, p') /\
      (exists i, BPlusTree.LowerBoundLeaf p' key = Some i /\
                 slot (array_ p') i = (key, value)) /\
      (forall k v, In (k, v) (entries p) ->
                   exists i, BPlusTree.LowerBoundLeaf p' k = Some i /\
                             slot (array_ p') i = (k, v)).
Proof.
  intros p key value Hs S N.
  destruct (LeafFacts.Insert_new p key value Hs S N) as (p' & E1 & En & Sz & S' & _).
  exists p'. split; [exact E1|]. split.
  - apply (LeafLookupFacts.LowerBoundLeaf_finds p' key value); [lia|exact S'|].
    rewrite En. apply LeafLookupFacts.In_insert_entry_iff. now left.
  - intros k v H.
    apply (LeafLookupFacts.LowerBoundLeaf_finds p' k v); [lia|exact S'|].
    rewrite En. apply LeafLookupFacts.In_insert_entry_iff. now right.
Qed.

Lemma X7_InsertIntoLeaf_then_LowerBoundLeaf_witness :
  0 <= GetSize PageSpec.example_leaf /\
  PageSpec.increasing PageSpec.example_leaf /\
  ~ In 2 (keys PageSpec.example_leaf) /\
  exists p',
    BPlusTree.InsertIntoLeaf PageSpec.example_leaf 2 20 = (true, p') /\
    (exists i, BPlusTree.LowerBoundLeaf p' 2 = Some i /\
               slot (array_ p') i = (2, 20)) /\
    (forall k v, In (k, v) (entries PageSpec.example_leaf) ->
                 exists i, BPlusTree.LowerBoundLeaf p' k = Some i /\
                           slot (array_ p') i = (k, v)).
Proof.
  assert (S : PageSpec.increasing PageSpec.example_leaf).
  { unfold PageSpec.increasing. cbn. repeat constructor. }
  assert (N : ~ In 2 (keys PageSpec.example_leaf)).
  { cbn. intros [H|[H|[]]]; discriminate. }
  split; [cbn; lia|]. split; [exact S|]. split; [exact N|].
  apply (X7_InsertIntoLeaf_then_LowerBoundLeaf PageSpec.example_leaf 2 20);
    [cbn; lia|exact S|exact N].
Defined.

(** X8.  [Insert] of the internal page, on a page with at least one
    child: the new entry goes right behind the slot [LowerBound] answers,
    which is the last slot from 1 on whose key is at most the new key, or
    slot 0; the entries before keep their place, those behind move up by
    one, and the child of slot 0 is never displaced. *)
Theorem X8_internal_Insert_behind_LowerBound :
  forall p key child,
    1 <= GetSize p ->
    let r := InternalPage.LowerBound p key in
    0 <= r < GetSize p /\
    (forall i, r < i < GetSize p -> key < InternalPage.KeyAt p i) /\
    (1 <= r -> InternalPage.KeyAt p r <= key) /\
    entries (InternalPage.Insert p key child)
    = PageSpec.insert_nth (Z.to_nat (r + 1)) (key, child) (entries p) /\
    GetSize (InternalPage.Insert p key child) = GetSize p + 1 /\
    InternalPage.ValueAt (InternalPage.Insert p key child) 0 = InternalPage.ValueAt p 0.
Proof.
  intros p key child Hs. cbv zeta.
  destruct (InternalFacts.LowerBound_spec p key Hs) as (R & A & B).
  destruct (InternalFacts.Insert_entries p key child Hs) as (E & Sz).
  split; [exact R|]. split; [exact A|]. split; [exact B|].
  split; [exact E|]. split; [exact Sz|].
  unfold InternalPage.ValueAt.
  rewrite (PageFacts.slot_entries (InternalPage.Insert p key child) 0)
    by (unfold GetSize in *; lia).
  rewrite (PageFacts.slot_entries p 0) by (unfold GetSize in *; lia).
  rewrite E. rewrite PageFacts.nth_insert_nth
    by (rewrite PageFacts.length_entries; unfold GetSize in *; lia).
  destruct (Nat.ltb_spec (Z.to_nat 0) (Z.to_nat (InternalPage.LowerBound p key + 1)));
    [reflexivity|lia].
Qed.

Lemma X8_internal_Insert_behind_LowerBound_witness :
  1 <= GetSize PageSpec.example_internal /\
  (let r := InternalPage.LowerBound PageSpec.example_internal 6 in
   0 <= r < GetSize PageSpec.example_internal /\
   (forall i, r < i < GetSize PageSpec.example_internal ->
              6 < InternalPage.KeyAt PageSpec.example_internal i) /\
   (1 <= r -> InternalPage.KeyAt PageSpec.example_internal r <= 6) /\
   entries (InternalPage.Insert PageSpec.example_internal 6 9)
   = PageSpec.insert_nth (Z.to_nat (r + 1)) (6, 9) (entries PageSpec.example_internal) /\
   GetSize (InternalPage.Insert PageSpec.example_internal 6 9)
   = GetSize PageSpec.example_internal + 1 /\
   InternalPage.ValueAt (InternalPage.Insert PageSpec.example_internal 6 9) 0
   = InternalPage.ValueAt PageSpec.example_internal 0).
Proof.
  split; [cbn; lia|].
  apply (X8_internal_Insert_behind_LowerBound PageSpec.example_internal 6 9). cbn. lia.
Defined.

(** X9.  [Remove] of the internal page takes the entry at the given slot
    of the page out and closes the gap: the other entries keep their
    order and the size drops by one. *)
Theorem X9_internal_Remove_takes_out_one_slot :
  forall p index,
    0 <= index < GetSize p ->
    entries (InternalPage.Remove p index)
    = PageSpec.remove_nth (Z.to_nat index) (entries p) /\
    GetSize (InternalPage.Remove p index) = GetSize p - 1.
Proof. intros p index. apply InternalFacts.Remove_entries. Qed.

Lemma X9_internal_Remove_takes_out_one_slot_witness :
  0 <= 1 < GetSize PageSpec.example_internal /\
  entries (InternalPage.Remove PageSpec.example_internal 1)
  = PageSpec.remove_nth (Z.to_nat 1) (entries PageSpec.example_internal) /\
  GetSize (InternalPage.Remove PageSpec.example_internal 1)
  = GetSize PageSpec.example_internal - 1.
Proof.
  split; [cbn; lia|].
  apply (X9_internal_Remove_takes_out_one_slot PageSpec.example_internal 1). cbn. lia.
Defined.

(* ================================================================== *)
(** ** LRU-K replacer: what the calls do to a reachable state          *)
(* ================================================================== *)

Module ReplacerFacts.

Module S := LRUKReplacer.
Module O := LRUKReplacerOrdered.
Module OS := LRUKOrderedSpec.
Import LRUKSpec LRUKFacts OrderedMapFacts OrderedFacts.
Import OS (forget, entry).

Local Arguments Z.of_nat : simpl never.
Local Arguments removelast : simpl never.
Local Arguments last : simpl never.

(** *** The example states are reachable *)

Lemma example_reachable : reachable example_state.
Proof.
  assert (R0 : reachable example_start)
    by (apply reach_init; [unfold INT_MAX; lia|lia]).
  assert (R1 : reachable
                 (S.mk 7 2 1 0 [[]; [0]; []; []; []; []; []]
                    [false; true; false; false; false; false; false]
                    [false; false; false; false; false; false; false]))
    by (apply (reach_RecordAccess example_start 1 _ R0); vm_compute; reflexivity).
  assert (R2 : reachable
                 (S.mk 7 2 2 0 [[]; [0]; [1]; []; []; []; []]
                    [false; true; true; false; false; false; false]
                    [false; false; false; false; false; false; false]))
    by (apply (reach_RecordAccess _ 2 _ R1); vm_compute; reflexivity).
  assert (R3 : reachable
                 (S.mk 7 2 3 0 [[]; [2; 0]; [1]; []; []; []; []]
                    [false; true; true; false; false; false; false]
                    [false; false; false; false; false; false; false]))
    by (apply (reach_RecordAccess _ 1 _ R2); vm_compute; reflexivity).
  assert (R4 : reachable
                 (S.mk 7 2 3 1 [[]; [2; 0]; [1]; []; []; []; []]
                    [false; true; true; false; false; false; false]
                    [false; true; false; false; false; false; false]))
    by (apply (reach_SetEvictable _ 1 true _ R3); vm_compute; reflexivity).
  apply (reach_SetEvictable _ 2 true _ R4). vm_compute. reflexivity.
Qed.

Lemma example_reachable_ordered : OS.reachable OS.example_state.
Proof.
  assert (R0 : OS.reachable OS.example_start)
    by (apply OS.reach_init; [unfold INT_MAX; lia|lia]).
  assert (R1 : OS.reachable
                 (O.mk 7 2 1 0 [[]; [0]; []; []; []; []; []]
                    [false; true; false; false; false; false; false]
                    [false; false; false; false; false; false; false] [] []))
    by (apply (OS.reach_RecordAccess OS.example_start 1 _ R0); vm_compute; reflexivity).
  assert (R2 : OS.reachable
                 (O.mk 7 2 2 0 [[]; [0]; [1]; []; []; []; []]
                    [false; true; true; false; false; false; false]
                    [false; false; false; false; false; false; false] [] []))
    by (apply (OS.reach_RecordAccess _ 2 _ R1); vm_compute; reflexivity).
  assert (R3 : OS.reachable
                 (O.mk 7 2 3 0 [[]; [2; 0]; [1]; []; []; []; []]
                    [false; true; true; false; false; false; false]
                    [false; false; false; false; false; false; false] [] []))
    by (apply (OS.reach_RecordAccess _ 1 _ R2); vm_compute; reflexivity).
  assert (R4 : OS.reachable
                 (O.mk 7 2 3 1 [[]; [2; 0]; [1]; []; []; []; []]
                    [false; true; true; false; false; false; false]
                    [false; true; false; false; false; false; false]
                    [(0, 1)] []))
    by (apply (OS.reach_SetEvictable _ 1 true _ R3); vm_compute; reflexivity).
  apply (OS.reach_SetEvictable _ 2 true _ R4). vm_compute. reflexivity.
Qed.

(** *** [RecordAccess] *)

Lemma trimmed_firstn (k ts : Z) (h : list Z) :
  1 <= k -> Z.of_nat (length h) <= k ->
  (if Z.of_nat (length (ts :: h)) >? k then removelast (ts :: h) else ts :: h)
  = firstn (Z.to_nat k) (ts :: h).
Proof.
  intros Hk Hl. destruct (Z.gtb_spec (Z.of_nat (length (ts :: h))) k) as [G|G].
  - rewrite removelast_firstn_len. f_equal. cbn [length] in *. lia.
  - symmetry. apply firstn_all2. lia.
Qed.

Lemma RecordAccess_effect r i :
  wf r -> (i < num_frames r)%nat -> S.current_timestamp_ r + 1 < size_t_modulus ->
  exists r',
    S.RecordAccess r (Z.of_nat i) = Done r' /\
    frame_history r' i
    = firstn (Z.to_nat (S.k_ r)) (S.current_timestamp_ r :: frame_history r i) /\
    (forall g, g <> i -> frame_history r' g = frame_history r g) /\
    (forall g, frame_evictable r' g = frame_evictable r g) /\
    frame_allocated r' i = true /\
    S.Size r' = S.Size r /\
    S.current_timestamp_ r' = S.current_timestamp_ r + 1.
Proof.
  intros W Hi Hts.
  pose proof (wf_history W) as LH. pose proof (wf_allocated W) as LA.
  pose proof (wf_evictable W) as LE.
  eexists. split; [apply (scan_RecordAccess r i W Hi)|].
  unfold frame_history, frame_evictable, frame_allocated, S.Size.
  cbn [S.history_ S.evictable_ S.allocated_ S.curr_size_ S.current_timestamp_].
  assert (Hlen : Z.of_nat (length (nth i (S.history_ r) [])) <= S.k_ r).
  { destruct (nth i (S.allocated_ r) false) eqn:Ea.
    - apply (wf_used W i Ea).
    - pose proof (wf_free W i Ea) as F. unfold frame_history in F.
      rewrite F. cbn [length]. pose proof (wf_k W). lia. }
  split.
  - rewrite nth_list_set_eq by lia. apply trimmed_firstn; [apply (wf_k W)|exact Hlen].
  - split; [intros g Dg; apply nth_list_set_neq; auto|].
    split; [|split; [|split; [reflexivity|]]].
    + intros g. destruct (nth i (S.allocated_ r) false) eqn:Ea; [reflexivity|].
      destruct (Nat.eq_dec g i) as [->|D].
      * rewrite nth_list_set_eq by lia.
        destruct (nth i (S.evictable_ r) false) eqn:Ee; [|reflexivity].
        pose proof (wf_evictable_allocated W i Ee) as A.
        unfold frame_allocated in A. congruence.
      * apply nth_list_set_neq. auto.
    + destruct (nth i (S.allocated_ r) false) eqn:Ea; [exact Ea|].
      apply nth_list_set_eq. lia.
    + apply wrap_size_t_small. pose proof (wf_timestamp W). lia.
Qed.

(** *** [SetEvictable] *)

Lemma Size_bounds r : wf r -> 0 <= S.curr_size_ r <= S.replacer_size_ r.
Proof.
  intros W. rewrite (wf_curr_size W). unfold count_evictable.
  pose proof (count_occ_le_length (S.evictable_ r)) as L.
  rewrite (wf_evictable W) in L. unfold num_frames in L.
  pose proof (wf_size W). lia.
Qed.

Lemma SetEvictable_effect r i b :
  wf r -> (i < num_frames r)%nat ->
  exists r',
    S.SetEvictable r (Z.of_nat i) b = Done r' /\
    (frame_allocated r i = false -> r' = r) /\
    (frame_allocated r i = true ->
     frame_evictable r' i = b /\
     S.Size r' = S.Size r + (if b then 1 else 0)
                 - (if frame_evictable r i then 1 else 0) /\
     (forall g, g <> i -> frame_evictable r' g = frame_evictable r g) /\
     S.history_ r' = S.history_ r /\ S.allocated_ r' = S.allocated_ r).
Proof.
  intros W Hi.
  pose proof (wf_allocated W) as LA. pose proof (wf_evictable W) as LE.
  pose proof (Size_bounds r W) as SB. pose proof (wf_size W) as WS.
  unfold frame_allocated, frame_evictable, S.Size.
  destruct (nth i (S.allocated_ r) false) eqn:Ea.
  - rewrite (scan_SetEvictable r i b W Hi Ea).
    eexists. split; [reflexivity|]. split; [discriminate|]. intros _.
    cbn [S.evictable_ S.curr_size_ S.history_ S.allocated_].
    split; [apply nth_list_set_eq; lia|].
    split; [|split; [intros g Dg; apply nth_list_set_neq; auto|split; reflexivity]].
    destruct (nth i (S.evictable_ r) false) eqn:Ee, b; cbn [negb andb]; try lia.
    + apply count_occ_true_pos in Ee.
      pose proof (wf_curr_size W) as C. unfold count_evictable in C.
      rewrite wrap_size_t_small; unfold size_t_modulus, INT_MAX in *; lia.
    + rewrite wrap_size_t_small; unfold size_t_modulus, INT_MAX in *; lia.
  - exists r. split; [|split; [reflexivity|discriminate]].
    unfold S.SetEvictable. rewrite (valid_nat r i W Hi). cbn [negb].
    rewrite (vec_get_nat (S.allocated_ r) i false) by lia. cbn [bind].
    rewrite Ea. reflexivity.
Qed.

(** *** [Evict] *)

Lemma Evict_effect r v r' :
  wf r -> S.Evict r = Done (Some v, r') ->
  exists i,
    v = Z.of_nat i /\ candidate r i /\
    frame_history r' i = [] /\
    frame_evictable r' i = false /\
    frame_allocated r' i = false /\
    S.Size r' = S.Size r - 1 /\
    (forall g, g <> i ->
       frame_history r' g = frame_history r g /\
       frame_evictable r' g = frame_evictable r g /\
       frame_allocated r' g = frame_allocated r g).
Proof.
  intros W H.
  destruct (Z.eq_dec (count_evictable r) 0) as [E|E].
  { rewrite (Evict_none r W E) in H. discriminate. }
  destruct (Evict_victim r W E) as (i & r1 & E1 & P & RI & _).
  rewrite E1 in H. inversion H; subst v r1; clear H.
  destruct P as ([Hi He] & _).
  destruct (wf_RemoveInternal r i W Hi He) as (r2 & E2 & _ & Hh & Ha & Hev & Hs).
  rewrite RI in E2. inversion E2; subst r2; clear E2.
  pose proof (wf_history W) as LH. pose proof (wf_allocated W) as LA.
  pose proof (wf_evictable W) as LE.
  exists i. split; [reflexivity|]. split; [split; assumption|].
  unfold frame_history, frame_evictable, frame_allocated, S.Size.
  rewrite Hh, Ha, Hev, Hs.
  rewrite !nth_list_set_eq by lia.
  repeat split; try reflexivity; apply nth_list_set_neq; auto.
Qed.

(** *** The histories in a reachable state *)

Lemma history_bounds r f :
  wf r ->
  accesses r f <= S.k_ r /\
  (forall ts, In ts (frame_history r f) -> 0 <= ts < S.current_timestamp_ r) /\
  (frame_evictable r f = true -> 1 <= accesses r f).
Proof.
  intros W. destruct (frame_allocated r f) eqn:Ea.
  - destruct (wf_used W f Ea) as (Hne & Hl & Hin).
    split; [exact Hl|]. split; [exact Hin|].
    intros _. unfold accesses. destruct (frame_history r f); [congruence|].
    cbn [length]. lia.
  - pose proof (wf_free W f Ea) as F. unfold accesses. rewrite F.
    split; [cbn [length]; pose proof (wf_k W); lia|].
    split; [intros ts []|].
    intros Ee. apply (wf_evictable_allocated W) in Ee. congruence.
Qed.

End ReplacerFacts.

(* ================================================================== *)
(** ** LRU-K replacer: the two implementations agree                   *)
(* ================================================================== *)

Module ReplacerAgreement.

Module S := LRUKReplacer.
Module O := LRUKReplacerOrdered.
Module OS := LRUKOrderedSpec.
Import LRUKSpec LRUKFacts OrderedMapFacts OrderedFacts.
Import OS (forget, entry).

Local Arguments Z.of_nat : simpl never.
Local Arguments removelast : simpl never.
Local Arguments last : simpl never.

(** Going through the binds of a call that returned. *)
Ltac invert_binds :=
  repeat match goal with
         | H : bind ?m ?f = Done _ |- _ =>
             apply bind_Done_inv in H;
             let a := fresh "a" in
             let E := fresh "E" in
             destruct H as (a & E & H)
         | H : (let '(_, _) := ?p in _) = Done _ |- _ => destruct p
         | H : (if ?c then _ else _) = Done _ |- _ => destruct c eqn:?
         | H : Done _ = Done _ |- _ => inversion H; subst; clear H
         end.

Lemma RecordAccess_forget r f r' :
  OS.wf r -> O.RecordAccess r f = Done r' ->
  S.RecordAccess (forget r) f = Done (forget r').
Proof.
  intros W H. pose proof (OS.wf_scan W) as Ws.
  assert (Hinv : (Z.to_nat f < num_frames (forget r))%nat /\ f = Z.of_nat (Z.to_nat f)).
  { unfold O.RecordAccess in H.
    destruct (O.IsValidFrameId r f) eqn:V; cbn [negb] in H; [|discriminate].
    apply bind_Done_inv in H. destruct H as (a & Ha & _).
    apply vec_get_nonneg in Ha. now apply (valid_frame_id (forget r)). }
  destruct Hinv as (Hi & Ef).
  set (i := Z.to_nat f) in *. rewrite Ef in *. clearbody i. clear Ef f.
  pose proof (wf_history Ws) as LH. pose proof (wf_allocated Ws) as LA.
  pose proof (wf_evictable Ws) as LE.
  rewrite (scan_RecordAccess (forget r) i Ws Hi).
  fields.
  unfold O.RecordAccess in H.
  destruct (O.IsValidFrameId r (Z.of_nat i)); cbn [negb] in H; [|discriminate].
  rewrite (vec_get_nat (O.allocated_ r) i false) in H by lia. cbn [bind] in H.
  destruct (nth i (O.allocated_ r) false) eqn:Ea; cbn [negb bind] in H.
  - rewrite (vec_get_nat (O.history_ r) i []) in H by lia. cbn [bind] in H.
    rewrite (vec_get_nat (O.evictable_ r) i false) in H by lia. cbn [bind] in H.
    destruct (nth i (O.evictable_ r) false) eqn:Ee.
    + destruct (Z.of_nat (length (O.current_timestamp_ r :: nth i (O.history_ r) []))
                >? O.k_ r) eqn:G.
      * invert_binds.
        match goal with
        | V : vec_set _ _ _ = Done _ |- _ => rewrite vec_set_nat in V by lia; inversion V
        end. reflexivity.
      * destruct (Z.of_nat (length (O.current_timestamp_ r :: nth i (O.history_ r) []))
                  =? O.k_ r) eqn:K; invert_binds;
          match goal with
          | V : vec_set _ _ _ = Done _ |- _ => rewrite vec_set_nat in V by lia; inversion V
          end; reflexivity.
    + cbn [bind] in H. rewrite vec_set_nat in H by lia. cbn [bind] in H.
      inversion H; subst. reflexivity.
  - rewrite !vec_set_nat in H by lia. cbn [bind] in H.
    rewrite (vec_get_nat (O.history_ r) i []) in H by lia. cbn [bind] in H.
    rewrite (vec_get_nat (list_set (O.evictable_ r) i false) i false) in H
      by (rewrite length_list_set; lia).
    rewrite nth_list_set_eq in H by lia. cbn [bind] in H.
    rewrite vec_set_nat in H by lia. cbn [bind] in H.
    inversion H; subst. reflexivity.
Qed.

Lemma SetEvictable_forget r f b r' :
  OS.wf r -> O.SetEvictable r f b = Done r' ->
  S.SetEvictable (forget r) f b = Done (forget r').
Proof.
  intros W H. pose proof (OS.wf_scan W) as Ws.
  unfold O.SetEvictable in H.
  destruct (O.IsValidFrameId r f) eqn:V; cbn [negb] in H; [|discriminate].
  destruct (vec_get (O.allocated_ r) f) as [a| | |] eqn:Ga; cbn [bind] in H;
    try discriminate.
  pose proof (vec_get_nonneg _ _ _ Ga) as H0.
  destruct (valid_frame_id (forget r) f Ws V H0) as (Hi & Ef).
  set (i := Z.to_nat f) in *. rewrite Ef in *. clearbody i. clear Ef H0 f.
  pose proof (wf_history Ws) as LH. pose proof (wf_allocated Ws) as LA.
  pose proof (wf_evictable Ws) as LE. fields.
  rewrite (vec_get_nat (O.allocated_ r) i false) in Ga by lia.
  inversion Ga; subst a; clear Ga.
  destruct (nth i (O.allocated_ r) false) eqn:Ea; cbn [negb] in H.
  - rewrite (scan_SetEvictable (forget r) i b Ws Hi Ea). fields.
    rewrite (vec_get_nat (O.evictable_ r) i false) in H by lia. cbn [bind] in H.
    rewrite (vec_get_nat (O.history_ r) i []) in H by lia. cbn [bind] in H.
    destruct (nth i (O.evictable_ r) false) eqn:Ee, b; cbn [negb andb] in *;
      invert_binds;
      match goal with
      | V : vec_set _ _ _ = Done _ |- _ => rewrite vec_set_nat in V by lia; inversion V
      end; reflexivity.
  - inversion H; subst r'. unfold S.SetEvictable.
    change (S.IsValidFrameId (forget r) (Z.of_nat i))
      with (O.IsValidFrameId r (Z.of_nat i)).
    rewrite V. cbn [negb]. fields.
    rewrite (vec_get_nat (O.allocated_ r) i false) by lia. cbn [bind].
    rewrite Ea. reflexivity.
Qed.

Lemma RemoveInternal_forget r f r' :
  O.RemoveInternal r f = Done r' ->
  S.RemoveInternal (forget r) f = Done (forget r').
Proof.
  intros H. unfold O.RemoveInternal in H. invert_binds.
  unfold S.RemoveInternal. fields.
  repeat match goal with
         | V : vec_set _ _ _ = Done _ |- _ => rewrite V; clear V
         end.
  reflexivity.
Qed.

Lemma Remove_forget r f r' :
  O.Remove r f = Done r' -> S.Remove (forget r) f = Done (forget r').
Proof.
  intros H. unfold O.Remove in H. unfold S.Remove.
  change (S.IsValidFrameId (forget r) f) with (O.IsValidFrameId r f).
  fields.
  destruct (O.IsValidFrameId r f); cbn [negb] in *;
    [|inversion H; reflexivity].
  destruct (vec_get (O.allocated_ r) f) as [a| | |]; cbn [bind] in *;
    try discriminate.
  destruct a; cbn [negb] in *; [|inversion H; reflexivity].
  destruct (vec_get (O.evictable_ r) f) as [e| | |]; cbn [bind] in *;
    try discriminate.
  destruct e; cbn [negb] in *; [|discriminate].
  now apply RemoveInternal_forget.
Qed.

(** *** The victim *)

(** No two frames meet what the policy asks of a victim. *)
Lemma policy_victim_unique r v v' :
  OS.wf r -> policy_victim (forget r) v -> policy_victim (forget r) v' -> v = v'.
Proof.
  intros W (C & P1 & P2) (C' & P1' & P2'). pose proof (OS.wf_scan W) as Ws.
  destruct (candidate_earliest _ _ Ws C) as [I _].
  destruct (candidate_earliest _ _ Ws C') as [I' _].
  assert (E : earliest (forget r) v = earliest (forget r) v').
  { destruct (Z.eq_dec (accesses (forget r) v) (S.k_ (forget r))) as [K|K];
      destruct (Z.eq_dec (accesses (forget r) v') (S.k_ (forget r))) as [K'|K'].
    - assert (All : forall f, candidate (forget r) f ->
                              accesses (forget r) f = S.k_ (forget r)).
      { intros f Cf.
        destruct (Z.eq_dec (accesses (forget r) f) (S.k_ (forget r))) as [|N]; auto.
        assert (L : accesses (forget r) f < S.k_ (forget r)).
        { destruct Cf as [_ Ef]. apply (wf_evictable_allocated Ws) in Ef.
          destruct (wf_used Ws f Ef) as (_ & Hl & _). lia. }
        destruct (P1 (ex_intro _ f (conj Cf L))) as [L' _]. lia. }
      pose proof (P2 All v' C'). pose proof (P2' All v C). lia.
    - assert (L : accesses (forget r) v' < S.k_ (forget r)).
      { destruct C' as [_ Ef]. apply (wf_evictable_allocated Ws) in Ef.
        destruct (wf_used Ws v' Ef) as (_ & Hl & _). lia. }
      destruct (P1 (ex_intro _ v' (conj C' L))) as [L' _]. lia.
    - assert (L : accesses (forget r) v < S.k_ (forget r)).
      { destruct C as [_ Ef]. apply (wf_evictable_allocated Ws) in Ef.
        destruct (wf_used Ws v Ef) as (_ & Hl & _). lia. }
      destruct (P1' (ex_intro _ v (conj C L))) as [L' _]. lia.
    - assert (L : accesses (forget r) v < S.k_ (forget r)).
      { destruct C as [_ Ef]. apply (wf_evictable_allocated Ws) in Ef.
        destruct (wf_used Ws v Ef) as (_ & Hl & _). lia. }
      assert (L' : accesses (forget r) v' < S.k_ (forget r)).
      { destruct C' as [_ Ef]. apply (wf_evictable_allocated Ws) in Ef.
        destruct (wf_used Ws v' Ef) as (_ & Hl & _). lia. }
      destruct (P1 (ex_intro _ v (conj C L))) as [_ M].
      destruct (P1' (ex_intro _ v (conj C L))) as [_ M'].
      pose proof (M v' C' L'). pose proof (M' v C L). lia. }
  rewrite <- E in I'. exact (OS.wf_distinct W _ _ _ I I').
Qed.

Lemma Evict_forget r v r' :
  OS.wf r -> O.Evict r = Done (v, r') ->
  S.Evict (forget r) = Done (v, forget r').
Proof.
  intros W H. pose proof (OS.wf_scan W) as Ws.
  destruct (Z.eq_dec (count_evictable (forget r)) 0) as [E|E].
  - rewrite (Evict_none_ordered r W E) in H. inversion H; subst.
    now apply Evict_none.
  - destruct (Evict_victim_ordered r W E) as (vo & r1 & E1 & P1 & R1 & _).
    destruct (Evict_victim (forget r) Ws E) as (vs & r2 & E2 & P2 & R2 & _).
    rewrite E1 in H. inversion H; subst v r1; clear H.
    pose proof (policy_victim_unique r vo vs W P1 P2) as ->.
    apply RemoveInternal_forget in R1. rewrite R1 in R2. inversion R2; subst r2.
    exact E2.
Qed.

End ReplacerAgreement.

(* ================================================================== *)
(** ** [Evict]: the victim and what is left of it                      *)
(* ================================================================== *)

Module EvictFacts.

Module S := LRUKReplacer.
Module O := LRUKReplacerOrdered.
Module OS := LRUKOrderedSpec.
Import LRUKSpec.

Lemma RemoveInternal_fields r f r' :
  S.RemoveInternal r f = Done r' ->
  S.replacer_size_ r' = S.replacer_size_ r /\ S.k_ r' = S.k_ r /\
  S.current_timestamp_ r' = S.current_timestamp_ r.
Proof.
  unfold S.RemoveInternal. intros H.
  apply bind_Done_inv in H. destruct H as (h & _ & H).
  apply bind_Done_inv in H. destruct H as (e & _ & H).
  apply bind_Done_inv in H. destruct H as (a & _ & H).
  inversion H; subst r'. repeat split.
Qed.

Lemma Evict_cleared r :
  wf r -> count_evictable r <> 0 ->
  exists v r',
    S.Evict r = Done (Some (Z.of_nat v), r') /\
    policy_victim r v /\
    S.Remove r (Z.of_nat v) = Done r' /\
    EvictSpec.cleared r v r'.
Proof.
  intros W N.
  destruct (LRUKFacts.Evict_victim r W N) as (v & r' & E & P & RI & _).
  exists v, r'. split; [exact E|]. split; [exact P|]. split.
  - rewrite LRUKFacts.Remove_candidate; [exact RI|exact W|apply P].
  - destruct (ReplacerFacts.Evict_effect r (Z.of_nat v) r' W E)
      as (i & Ei & _ & Hh & He & Ha & Hs & Ho).
    apply Nat2Z.inj in Ei. subst i.
    destruct (RemoveInternal_fields r _ r' RI) as (Fs & Fk & Ft).
    unfold EvictSpec.cleared. repeat (split; [assumption|]). exact Ho.
Qed.

(** The entries that belong into a map once the victim is forgotten. *)
Lemma entry_cleared r v r' c f ts :
  EvictSpec.cleared r v r' ->
  (OS.entry r' c f ts <-> OS.entry r c f ts /\ f <> v).
Proof.
  intros (Hh & He & Ha & Hs & Fs & Fk & Ft & Ho).
  unfold OS.entry, candidate, accesses, earliest, num_frames.
  destruct (Nat.eq_dec f v) as [->|Nf].
  - rewrite He. split; [intros ((_ & D) & _); discriminate|tauto].
  - destruct (Ho f Nf) as (H1 & H2 & H3). rewrite H1, H2, Fs, Fk. tauto.
Qed.

Lemma holds_without m m' r v r' c :
  OS.holds m (OS.entry r c) -> OS.holds m' (OS.entry r' c) ->
  EvictSpec.cleared r v r' ->
  EvictSpec.without m v m'.
Proof.
  intros H H' C ts z. rewrite (H' ts z), (H ts z). split.
  - intros (f & -> & E). apply (entry_cleared r v r' c f ts C) in E.
    destruct E as (E & Nf). split; [now exists f|]. intros D.
    apply Nat2Z.inj in D. contradiction.
  - intros ((f & -> & E) & Nz). exists f. split; [reflexivity|].
    apply (entry_cleared r v r' c f ts C). split; [exact E|]. congruence.
Qed.

Lemma Evict_cleared_ordered ro :
  OS.wf ro -> count_evictable (OS.forget ro) <> 0 ->
  exists v r',
    O.Evict ro = Done (Some (Z.of_nat v), r') /\
    policy_victim (OS.forget ro) v /\
    O.Remove ro (Z.of_nat v) = Done r' /\
    EvictSpec.cleared (OS.forget ro) v (OS.forget r') /\
    EvictSpec.without (O.complete_histories_ ro) v (O.complete_histories_ r') /\
    EvictSpec.without (O.incomplete_histories_ ro) v (O.incomplete_histories_ r').
Proof.
  intros W N. pose proof (OS.wf_scan W) as Ws.
  destruct (OrderedFacts.Evict_victim_ordered ro W N) as (v & r' & E & P & RI & W').
  exists v, r'. split; [exact E|]. split; [exact P|]. split.
  { rewrite OrderedFacts.Remove_candidate_ordered; [exact RI|exact W|apply P]. }
  assert (C : EvictSpec.cleared (OS.forget ro) v (OS.forget r')).
  { pose proof (ReplacerAgreement.Evict_forget ro _ r' W E) as Es.
    pose proof (ReplacerAgreement.RemoveInternal_forget ro _ r' RI) as Rs.
    destruct (ReplacerFacts.Evict_effect (OS.forget ro) (Z.of_nat v) (OS.forget r') Ws Es)
      as (i & Ei & _ & Hh & He & Ha & Hs & Ho).
    apply Nat2Z.inj in Ei. subst i.
    destruct (RemoveInternal_fields _ _ _ Rs) as (Fs & Fk & Ft).
    unfold EvictSpec.cleared. repeat (split; [assumption|]). exact Ho. }
  split; [exact C|]. split.
  - exact (holds_without _ _ _ v _ true (OS.wf_complete W) (OS.wf_complete W') C).
  - exact (holds_without _ _ _ v _ false (OS.wf_incomplete W) (OS.wf_incomplete W') C).
Qed.

End EvictFacts.

(** C6 (confirmed).  In every state a replacer reaches, be it the one
    that scans the frames ([r]) or the one that keeps the evictable frames
    in two maps ordered by timestamp ([ro]), [Evict] returns false exactly
    when no frame is evictable; otherwise it returns a victim among the
    evictable frames: if some evictable frame has fewer than K recorded
    accesses, the victim is such a frame and no other such frame has an
    earlier first recorded access; if every evictable frame has K recorded
    accesses, no evictable frame has an earlier Kth most recent access
    than the victim.  The victim is what [Evict] writes out, and its state
    is cleared as by [Remove]: the state after [Evict] is the one [Remove]
    of the victim gives, and in it the victim has no recorded access, is
    not evictable and not tracked, [Size] is one less, and the history and
    the flags of every other frame, the number of frames, K and the
    timestamp counter are as before; in the replacer with two maps, the
    maps afterwards hold what they held except the entries of the
    victim. *)
Theorem C6_Evict_follows_the_policy :
  forall r ro,
    LRUKSpec.reachable r ->
    LRUKOrderedSpec.reachable ro ->
    ((LRUKReplacer.Evict r = Done (None, r) <-> LRUKSpec.count_evictable r = 0) /\
     (LRUKSpec.count_evictable r <> 0 ->
      exists v r',
        LRUKReplacer.Evict r = Done (Some (Z.of_nat v), r') /\
        LRUKSpec.policy_victim r v /\
        LRUKReplacer.Remove r (Z.of_nat v) = Done r' /\
        EvictSpec.cleared r v r')) /\
    ((LRUKReplacerOrdered.Evict ro = Done (None, ro) <->
      LRUKSpec.count_evictable (LRUKOrderedSpec.forget ro) = 0) /\
     (LRUKSpec.count_evictable (LRUKOrderedSpec.forget ro) <> 0 ->
      exists v r',
        LRUKReplacerOrdered.Evict ro = Done (Some (Z.of_nat v), r') /\
        LRUKSpec.policy_victim (LRUKOrderedSpec.forget ro) v /\
        LRUKReplacerOrdered.Remove ro (Z.of_nat v) = Done r' /\
        EvictSpec.cleared (LRUKOrderedSpec.forget ro) v (LRUKOrderedSpec.forget r') /\
        EvictSpec.without (LRUKReplacerOrdered.complete_histories_ ro) v
          (LRUKReplacerOrdered.complete_histories_ r') /\
        EvictSpec.without (LRUKReplacerOrdered.incomplete_histories_ ro) v
          (LRUKReplacerOrdered.incomplete_histories_ r'))).
Proof.
  intros r ro R RO. split.
  - apply LRUKFacts.reachable_wf in R.
    pose proof (EvictFacts.Evict_cleared r R) as V.
    split; [|exact V].
    split.
    + intros E. destruct (Z.eq_dec (LRUKSpec.count_evictable r) 0) as [|N]; [assumption|].
      destruct (V N) as (v & r' & E' & _). rewrite E in E'. discriminate.
    + apply LRUKFacts.Evict_none. exact R.
  - apply OrderedFacts.reachable_wf_ordered in RO.
    pose proof (EvictFacts.Evict_cleared_ordered ro RO) as V.
    split; [|exact V].
    split.
    + intros E.
      destruct (Z.eq_dec (LRUKSpec.count_evictable (LRUKOrderedSpec.forget ro)) 0)
        as [|N]; [assumption|].
      destruct (V N) as (v & r' & E' & _). rewrite E in E'. discriminate.
    + apply OrderedFacts.Evict_none_ordered. exact RO.
Qed.

(** C6 on a state with seven frames and K = 2: frame 1 has two recorded
    accesses, frame 2 one, both are evictable; once for each replacer. *)
Lemma C6_Evict_follows_the_policy_witness :
  ((LRUKReplacer.Evict LRUKSpec.example_state = Done (None, LRUKSpec.example_state)
    <-> LRUKSpec.count_evictable LRUKSpec.example_state = 0) /\
   (LRUKSpec.count_evictable LRUKSpec.example_state <> 0 ->
    exists v r',
      LRUKReplacer.Evict LRUKSpec.example_state = Done (Some (Z.of_nat v), r') /\
      LRUKSpec.policy_victim LRUKSpec.example_state v /\
      LRUKReplacer.Remove LRUKSpec.example_state (Z.of_nat v) = Done r' /\
      EvictSpec.cleared LRUKSpec.example_state v r')) /\
  ((LRUKReplacerOrdered.Evict LRUKOrderedSpec.example_state
    = Done (None, LRUKOrderedSpec.example_state) <->
    LRUKSpec.count_evictable
      (LRUKOrderedSpec.forget LRUKOrderedSpec.example_state) = 0) /\
   (LRUKSpec.count_evictable
      (LRUKOrderedSpec.forget LRUKOrderedSpec.example_state) <> 0 ->
    exists v r',
      LRUKReplacerOrdered.Evict LRUKOrderedSpec.example_state
      = Done (Some (Z.of_nat v), r') /\
      LRUKSpec.policy_victim
        (LRUKOrderedSpec.forget LRUKOrderedSpec.example_state) v /\
      LRUKReplacerOrdered.Remove LRUKOrderedSpec.example_state (Z.of_nat v)
      = Done r' /\
      EvictSpec.cleared (LRUKOrderedSpec.forget LRUKOrderedSpec.example_state) v
        (LRUKOrderedSpec.forget r') /\
      EvictSpec.without
        (LRUKReplacerOrdered.complete_histories_ LRUKOrderedSpec.example_state) v
        (LRUKReplacerOrdered.complete_histories_ r') /\
      EvictSpec.without
        (LRUKReplacerOrdered.incomplete_histories_ LRUKOrderedSpec.example_state) v
        (LRUKReplacerOrdered.incomplete_histories_ r'))).
Proof.
  apply (C6_Evict_follows_the_policy LRUKSpec.example_state
           LRUKOrderedSpec.example_state).
  - exact ReplacerFacts.example_reachable.
  - exact ReplacerFacts.example_reachable_ordered.
Defined.

(** X10.  In every state a replacer reaches, [Size] is the number of
    frames that are evictable; this holds for the scanning replacer and
    for the one with ordered maps. *)
Theorem X10_Size_counts_the_evictable_frames :
  forall r ro,
    LRUKSpec.reachable r -> LRUKOrderedSpec.reachable ro ->
    LRUKReplacer.Size r = LRUKSpec.count_evictable r /\
    LRUKReplacerOrdered.Size ro
    = LRUKSpec.count_evictable (LRUKOrderedSpec.forget ro).
Proof.
  intros r ro R RO. split.
  - apply LRUKFacts.reachable_wf in R. exact (LRUKSpec.wf_curr_size R).
  - apply OrderedFacts.reachable_wf_ordered in RO.
    exact (LRUKSpec.wf_curr_size (LRUKOrderedSpec.wf_scan RO)).
Qed.

Lemma X10_Size_counts_the_evictable_frames_witness :
  LRUKSpec.reachable LRUKSpec.example_state /\
  LRUKOrderedSpec.reachable LRUKOrderedSpec.example_state /\
  LRUKReplacer.Size LRUKSpec.example_state
  = LRUKSpec.count_evictable LRUKSpec.example_state /\
  LRUKReplacerOrdered.Size LRUKOrderedSpec.example_state
  = LRUKSpec.count_evictable (LRUKOrderedSpec.forget LRUKOrderedSpec.example_state).
Proof.
  split; [exact ReplacerFacts.example_reachable|].
  split; [exact ReplacerFacts.example_reachable_ordered|].
  apply (X10_Size_counts_the_evictable_frames LRUKSpec.example_state
           LRUKOrderedSpec.example_state).
  - exact ReplacerFacts.example_reachable.
  - exact ReplacerFacts.example_reachable_ordered.
Defined.

(** X11.  [RecordAccess] on a frame of the replacer, the clock not
    running over: the call returns; the history of the frame is the
    current timestamp followed by the former history, cut to the K most
    recent accesses; the frame is tracked afterwards; no other history, no
    evictable flag and not [Size] changes; the clock advances by one. *)
Theorem X11_RecordAccess_keeps_the_K_most_recent_accesses :
  forall r i,
    LRUKSpec.reachable r ->
    (i < LRUKSpec.num_frames r)%nat ->
    LRUKReplacer.current_timestamp_ r + 1 < size_t_modulus ->
    exists r',
      LRUKReplacer.RecordAccess r (Z.of_nat i) = Done r' /\
      LRUKSpec.frame_history r' i
      = firstn (Z.to_nat (LRUKReplacer.k_ r))
          (LRUKReplacer.current_timestamp_ r :: LRUKSpec.frame_history r i) /\
      (forall g, g <> i -> LRUKSpec.frame_history r' g = LRUKSpec.frame_history r g) /\
      (forall g, LRUKSpec.frame_evictable r' g = LRUKSpec.frame_evictable r g) /\
      LRUKSpec.frame_allocated r' i = true /\
      LRUKReplacer.Size r' = LRUKReplacer.Size r /\
      LRUKReplacer.current_timestamp_ r' = LRUKReplacer.current_timestamp_ r + 1.
Proof.
  intros r i R. apply ReplacerFacts.RecordAccess_effect.
  now apply LRUKFacts.reachable_wf.
Qed.

Lemma X11_RecordAccess_keeps_the_K_most_recent_accesses_witness :
  LRUKSpec.reachable LRUKSpec.example_state /\
  (1 < LRUKSpec.num_frames LRUKSpec.example_state)%nat /\
  LRUKReplacer.current_timestamp_ LRUKSpec.example_state + 1 < size_t_modulus /\
  exists r',
    LRUKReplacer.RecordAccess LRUKSpec.example_state (Z.of_nat 1) = Done r' /\
    LRUKSpec.frame_history r' 1
    = firstn (Z.to_nat (LRUKReplacer.k_ LRUKSpec.example_state))
        (LRUKReplacer.current_timestamp_ LRUKSpec.example_state
         :: LRUKSpec.frame_history LRUKSpec.example_state 1) /\
    (forall g, g <> 1%nat ->
               LRUKSpec.frame_history r' g
               = LRUKSpec.frame_history LRUKSpec.example_state g) /\
    (forall g, LRUKSpec.frame_evictable r' g
               = LRUKSpec.frame_evictable LRUKSpec.example_state g) /\
    LRUKSpec.frame_allocated r' 1 = true /\
    LRUKReplacer.Size r' = LRUKReplacer.Size LRUKSpec.example_state /\
    LRUKReplacer.current_timestamp_ r'
    = LRUKReplacer.current_timestamp_ LRUKSpec.example_state + 1.
Proof.
  assert (N : (1 < LRUKSpec.num_frames LRUKSpec.example_state)%nat)
    by (vm_compute; lia).
  assert (T : LRUKReplacer.current_timestamp_ LRUKSpec.example_state + 1
              < size_t_modulus) by (vm_compute; reflexivity).
  split; [exact ReplacerFacts.example_reachable|]. split; [exact N|]. split; [exact T|].
  exact (X11_RecordAccess_keeps_the_K_most_recent_accesses LRUKSpec.example_state 1
           ReplacerFacts.example_reachable N T).
Defined.

(** X12.  [SetEvictable] on a frame of the replacer returns.  A frame
    that is not tracked is left alone, and so is the whole state.  On a
    tracked frame the flag takes the value asked for and [Size] moves by
    exactly the difference: up by one when a pinned frame becomes
    evictable, down by one the other way round, not at all when the flag
    already has the value; histories and the other flags stay. *)
Theorem X12_SetEvictable_moves_Size_by_the_difference :
  forall r i b,
    LRUKSpec.reachable r ->
    (i < LRUKSpec.num_frames r)%nat ->
    exists r',
      LRUKReplacer.SetEvictable r (Z.of_nat i) b = Done r' /\
      (LRUKSpec.frame_allocated r i = false -> r' = r) /\
      (LRUKSpec.frame_allocated r i = true ->
       LRUKSpec.frame_evictable r' i = b /\
       LRUKReplacer.Size r'
       = LRUKReplacer.Size r + (if b then 1 else 0)
         - (if LRUKSpec.frame_evictable r i then 1 else 0) /\
       (forall g, g <> i ->
                  LRUKSpec.frame_evictable r' g = LRUKSpec.frame_evictable r g) /\
       LRUKReplacer.history_ r' = LRUKReplacer.history_ r /\
       LRUKReplacer.allocated_ r' = LRUKReplacer.allocated_ r).
Proof.
  intros r i b R. apply ReplacerFacts.SetEvictable_effect.
  now apply LRUKFacts.reachable_wf.
Qed.

Lemma X12_SetEvictable_moves_Size_by_the_difference_witness :
  LRUKSpec.reachable LRUKSpec.example_state /\
  (1 < LRUKSpec.num_frames LRUKSpec.example_state)%nat /\
  exists r',
    LRUKReplacer.SetEvictable LRUKSpec.example_state (Z.of_nat 1) false = Done r' /\
    (LRUKSpec.frame_allocated LRUKSpec.example_state 1 = false ->
     r' = LRUKSpec.example_state) /\
    (LRUKSpec.frame_allocated LRUKSpec.example_state 1 = true ->
     LRUKSpec.frame_evictable r' 1 = false /\
     LRUKReplacer.Size r'
     = LRUKReplacer.Size LRUKSpec.example_state + (if false then 1 else 0)
       - (if LRUKSpec.frame_evictable LRUKSpec.example_state 1 then 1 else 0) /\
     (forall g, g <> 1%nat ->
                LRUKSpec.frame_evictable r' g
                = LRUKSpec.frame_evictable LRUKSpec.example_state g) /\
     LRUKReplacer.history_ r' = LRUKReplacer.history_ LRUKSpec.example_state /\
     LRUKReplacer.allocated_ r' = LRUKReplacer.allocated_ LRUKSpec.example_state).
Proof.
  assert (N : (1 < LRUKSpec.num_frames LRUKSpec.example_state)%nat)
    by (vm_compute; lia).
  split; [exact ReplacerFacts.example_reachable|]. split; [exact N|].
  exact (X12_SetEvictable_moves_Size_by_the_difference LRUKSpec.example_state 1 false
           ReplacerFacts.example_reachable N).
Defined.

(** X13.  The replacer with ordered maps does to the fields it shares
    with the scanning replacer what the scanning replacer does: in a
    reachable state, whenever [RecordAccess], [SetEvictable] or [Remove]
    returns, the scanning replacer returns from the same call on the same
    fields, with the same fields after it. *)
Theorem X13_ordered_replacer_follows_the_scanning_one :
  forall ro,
    LRUKOrderedSpec.reachable ro ->
    (forall f ro',
       LRUKReplacerOrdered.RecordAccess ro f = Done ro' ->
       LRUKReplacer.RecordAccess (LRUKOrderedSpec.forget ro) f
       = Done (LRUKOrderedSpec.forget ro')) /\
    (forall f b ro',
       LRUKReplacerOrdered.SetEvictable ro f b = Done ro' ->
       LRUKReplacer.SetEvictable (LRUKOrderedSpec.forget ro) f b
       = Done (LRUKOrderedSpec.forget ro')) /\
    (forall f ro',
       LRUKReplacerOrdered.Remove ro f = Done ro' ->
       LRUKReplacer.Remove (LRUKOrderedSpec.forget ro) f
       = Done (LRUKOrderedSpec.forget ro')).
Proof.
  intros ro RO. apply OrderedFacts.reachable_wf_ordered in RO.
  split; [|split].
  - intros f ro'. now apply ReplacerAgreement.RecordAccess_forget.
  - intros f b ro'. now apply ReplacerAgreement.SetEvictable_forget.
  - intros f ro'. apply ReplacerAgreement.Remove_forget.
Qed.

Lemma X13_ordered_replacer_follows_the_scanning_one_witness :
  LRUKOrderedSpec.reachable LRUKOrderedSpec.example_state /\
  (forall f ro',
     LRUKReplacerOrdered.RecordAccess LRUKOrderedSpec.example_state f = Done ro' ->
     LRUKReplacer.RecordAccess (LRUKOrderedSpec.forget LRUKOrderedSpec.example_state) f
     = Done (LRUKOrderedSpec.forget ro')) /\
  (forall f b ro',
     LRUKReplacerOrdered.SetEvictable LRUKOrderedSpec.example_state f b = Done ro' ->
     LRUKReplacer.SetEvictable (LRUKOrderedSpec.forget LRUKOrderedSpec.example_state) f b
     = Done (LRUKOrderedSpec.forget ro')) /\
  (forall f ro',
     LRUKReplacerOrdered.Remove LRUKOrderedSpec.example_state f = Done ro' ->
     LRUKReplacer.Remove (LRUKOrderedSpec.forget LRUKOrderedSpec.example_state) f
     = Done (LRUKOrderedSpec.forget ro')).
Proof.
  split; [exact ReplacerFacts.example_reachable_ordered|].
  exact (X13_ordered_replacer_follows_the_scanning_one LRUKOrderedSpec.example_state
           ReplacerFacts.example_reachable_ordered).
Defined.

(** X14.  The two replacers evict the same frame: in a reachable state of
    the replacer with ordered maps, whatever [Evict] answers, the
    scanning replacer answers on the shared fields, and the fields after
    it are the same.  No two frames ever have a timestamp in common, so
    the policy leaves one choice. *)
Theorem X14_both_replacers_evict_the_same_frame :
  forall ro v ro',
    LRUKOrderedSpec.reachable ro ->
    LRUKReplacerOrdered.Evict ro = Done (v, ro') ->
    LRUKReplacer.Evict (LRUKOrderedSpec.forget ro)
    = Done (v, LRUKOrderedSpec.forget ro').
Proof.
  intros ro v ro' RO. apply ReplacerAgreement.Evict_forget.
  now apply OrderedFacts.reachable_wf_ordered.
Qed.

Lemma X14_both_replacers_evict_the_same_frame_witness :
  LRUKOrderedSpec.reachable LRUKOrderedSpec.example_state /\
  LRUKReplacerOrdered.Evict LRUKOrderedSpec.example_state
  = Done (Some 2,
          LRUKReplacerOrdered.mk 7 2 3 1 [[]; [2; 0]; []; []; []; []; []]
            [false; true; false; false; false; false; false]
            [false; true; false; false; false; false; false] [(0, 1)] []) /\
  LRUKReplacer.Evict (LRUKOrderedSpec.forget LRUKOrderedSpec.example_state)
  = Done (Some 2,
          LRUKOrderedSpec.forget
            (LRUKReplacerOrdered.mk 7 2 3 1 [[]; [2; 0]; []; []; []; []; []]
               [false; true; false; false; false; false; false]
               [false; true; false; false; false; false; false] [(0, 1)] [])).
Proof.
  assert (E : LRUKReplacerOrdered.Evict LRUKOrderedSpec.example_state
              = Done (Some 2,
                      LRUKReplacerOrdered.mk 7 2 3 1 [[]; [2; 0]; []; []; []; []; []]
                        [false; true; false; false; false; false; false]
                        [false; true; false; false; false; false; false] [(0, 1)] []))
    by (vm_compute; reflexivity).
  split; [exact ReplacerFacts.example_reachable_ordered|]. split; [exact E|].
  exact (X14_both_replacers_evict_the_same_frame _ _ _
           ReplacerFacts.example_reachable_ordered E).
Defined.

(** X15.  When [Evict] answers a victim, the victim was evictable; after
    the call it is not tracked any more, its history is empty and it is
    not evictable; [Size] is one less; every other frame is as it was. *)
Theorem X15_Evict_forgets_the_victim :
  forall r v r',
    LRUKSpec.reachable r ->
    LRUKReplacer.Evict r = Done (Some v, r') ->
    exists i,
      v = Z.of_nat i /\ LRUKSpec.candidate r i /\
      LRUKSpec.frame_history r' i = [] /\
      LRUKSpec.frame_evictable r' i = false /\
      LRUKSpec.frame_allocated r' i = false /\
      LRUKReplacer.Size r' = LRUKReplacer.Size r - 1 /\
      (forall g, g <> i ->
         LRUKSpec.frame_history r' g = LRUKSpec.frame_history r g /\
         LRUKSpec.frame_evictable r' g = LRUKSpec.frame_evictable r g /\
         LRUKSpec.frame_allocated r' g = LRUKSpec.frame_allocated r g).
Proof.
  intros r v r' R. apply ReplacerFacts.Evict_effect.
  now apply LRUKFacts.reachable_wf.
Qed.

Lemma X15_Evict_forgets_the_victim_witness :
  LRUKSpec.reachable LRUKSpec.example_state /\
  LRUKReplacer.Evict LRUKSpec.example_state
  = Done (Some 2,
          LRUKReplacer.mk 7 2 3 1 [[]; [2; 0]; []; []; []; []; []]
            [false; true; false; false; false; false; false]
            [false; true; false; false; false; false; false]) /\
  exists i,
    2 = Z.of_nat i /\ LRUKSpec.candidate LRUKSpec.example_state i /\
    LRUKSpec.frame_history
      (LRUKReplacer.mk 7 2 3 1 [[]; [2; 0]; []; []; []; []; []]
         [false; true; false; false; false; false; false]
         [false; true; false; false; false; false; false]) i = [] /\
    LRUKSpec.frame_evictable
      (LRUKReplacer.mk 7 2 3 1 [[]; [2; 0]; []; []; []; []; []]
         [false; true; false; false; false; false; false]
         [false; true; false; false; false; false; false]) i = false /\
    LRUKSpec.frame_allocated
      (LRUKReplacer.mk 7 2 3 1 [[]; [2; 0]; []; []; []; []; []]
         [false; true; false; false; false; false; false]
         [false; true; false; false; false; false; false]) i = false /\
    LRUKReplacer.Size
      (LRUKReplacer.mk 7 2 3 1 [[]; [2; 0]; []; []; []; []; []]
         [false; true; false; false; false; false; false]
         [false; true; false; false; false; false; false])
    = LRUKReplacer.Size LRUKSpec.example_state - 1 /\
    (forall g, g <> i ->
       LRUKSpec.frame_history
         (LRUKReplacer.mk 7 2 3 1 [[]; [2; 0]; []; []; []; []; []]
            [false; true; false; false; false; false; false]
            [false; true; false; false; false; false; false]) g
       = LRUKSpec.frame_history LRUKSpec.example_state g /\
       LRUKSpec.frame_evictable
         (LRUKReplacer.mk 7 2 3 1 [[]; [2; 0]; []; []; []; []; []]
            [false; true; false; false; false; false; false]
            [false; true; false; false; false; false; false]) g
       = LRUKSpec.frame_evictable LRUKSpec.example_state g /\
       LRUKSpec.frame_allocated
         (LRUKReplacer.mk 7 2 3 1 [[]; [2; 0]; []; []; []; []; []]
            [false; true; false; false; false; false; false]
            [false; true; false; false; false; false; false]) g
       = LRUKSpec.frame_allocated LRUKSpec.example_state g).
Proof.
  assert (E : LRUKReplacer.Evict LRUKSpec.example_state
              = Done (Some 2,
                      LRUKReplacer.mk 7 2 3 1 [[]; [2; 0]; []; []; []; []; []]
                        [false; true; false; false; false; false; false]
                        [false; true; false; false; false; false; false]))
    by (vm_compute; reflexivity).
  split; [exact ReplacerFacts.example_reachable|]. split; [exact E|].
  exact (X15_Evict_forgets_the_victim _ _ _ ReplacerFacts.example_reachable E).
Defined.

(** X16.  In every state the replacer reaches, no frame has more than K
    accesses recorded, every recorded timestamp lies below the clock, and
    an evictable frame has at least one access recorded. *)
Theorem X16_histories_hold_at_most_K_timestamps :
  forall r f,
    LRUKSpec.reachable r ->
    LRUKSpec.accesses r f <= LRUKReplacer.k_ r /\
    (forall ts, In ts (LRUKSpec.frame_history r f) ->
                0 <= ts < LRUKReplacer.current_timestamp_ r) /\
    (LRUKSpec.frame_evictable r f = true -> 1 <= LRUKSpec.accesses r f).
Proof.
  intros r f R. apply ReplacerFacts.history_bounds.
  now apply LRUKFacts.reachable_wf.
Qed.

Lemma X16_histories_hold_at_most_K_timestamps_witness :
  LRUKSpec.reachable LRUKSpec.example_state /\
  LRUKSpec.accesses LRUKSpec.example_state 1
  <= LRUKReplacer.k_ LRUKSpec.example_state /\
  (forall ts, In ts (LRUKSpec.frame_history LRUKSpec.example_state 1) ->
              0 <= ts < LRUKReplacer.current_timestamp_ LRUKSpec.example_state) /\
  (LRUKSpec.frame_evictable LRUKSpec.example_state 1 = true ->
   1 <= LRUKSpec.accesses LRUKSpec.example_state 1).
Proof.
  split; [exact ReplacerFacts.example_reachable|].
  exact (X16_histories_hold_at_most_K_timestamps LRUKSpec.example_state 1
           ReplacerFacts.example_reachable).
Defined.

(* ================================================================== *)
(** ** Extendible hash table: the directory                            *)
(* ================================================================== *)

Module DirectoryFacts.

Module T := ExtendibleHashTable.

(** *** Low bits *)

Lemma pow2_pos d : 0 <= d -> 0 < 2 ^ d.
Proof. intros. apply Z.pow_pos_nonneg; lia. Qed.

Lemma pow2_succ d : 0 <= d -> 2 ^ (d + 1) = 2 * 2 ^ d.
Proof. intros. rewrite Z.pow_add_r by lia. lia. Qed.

Lemma pow2_divide d g : 0 <= d <= g -> (2 ^ d | 2 ^ g).
Proof.
  intros H. exists (2 ^ (g - d)). rewrite <- Z.pow_add_r by lia. f_equal. lia.
Qed.

Lemma low_low d g x : 0 <= d <= g -> (x mod 2 ^ g) mod 2 ^ d = x mod 2 ^ d.
Proof. intros H. apply Z.mod_mod_divide. now apply pow2_divide. Qed.

Lemma low_agree d g x y :
  0 <= d <= g -> x mod 2 ^ g = y mod 2 ^ g -> x mod 2 ^ d = y mod 2 ^ d.
Proof.
  intros H E. rewrite <- (low_low d g x H), <- (low_low d g y H). now rewrite E.
Qed.

Lemma cong_sub m x y : 0 < m -> (x mod m = y mod m <-> (x - y) mod m = 0).
Proof.
  intros Hm. split; intros H.
  - rewrite Zminus_mod, H, Z.sub_diag. apply Z.mod_0_l. lia.
  - rewrite <- (Z.sub_add y x) at 1. rewrite Zplus_mod, H.
    rewrite Z.add_0_l. now rewrite Z.mod_mod by lia.
Qed.

(** A multiple of [step] is an even one exactly when it is a multiple of
    [2 * step]. *)
Lemma even_multiple step x :
  0 < step -> x mod step = 0 ->
  Z.even (x / step) = (x mod (2 * step) =? 0).
Proof.
  intros Hs Hx.
  assert (E : x = step * (x / step)).
  { pose proof (Z.div_mod x step ltac:(lia)). lia. }
  set (q := x / step) in *.
  destruct (Z.even q) eqn:Ev.
  - apply Z.even_spec in Ev. destruct Ev as (c & Hc).
    symmetry. apply Z.eqb_eq. rewrite E, Hc.
    replace (step * (2 * c)) with (c * (2 * step)) by lia.
    apply Z.mod_mul. lia.
  - symmetry. apply Z.eqb_neq. intros H.
    apply Z.mod_divide in H; [|lia]. destruct H as (c & Hc).
    assert (q = 2 * c) by nia.
    assert (Z.even q = true) by (apply Z.even_spec; now exists c).
    congruence.
Qed.

(** *** The two loops that hand the slots out *)

Lemma nth_list_set_same {A : Type} (v : list A) n a d :
  (n < length v)%nat -> nth n (list_set v n a) d = a.
Proof.
  revert n; induction v as [|h t IH]; intros [|n] H; cbn in *; try lia; auto.
  apply IH. lia.
Qed.

Lemma nth_list_set_other {A : Type} (v : list A) n m a d :
  n <> m -> nth m (list_set v n a) d = nth m v d.
Proof.
  revert n m; induction v as [|h t IH]; intros [|n] [|m] H; cbn;
    try congruence; auto.
Qed.

(** [assign_up] from slot [i]: the slots [i], [i + step], ... below [lim]
    take the old and the new bucket in turn. *)
Lemma assign_up_spec n : forall d i lim step turn old new,
  0 < step -> 0 <= i -> lim <= Z.of_nat (length d) ->
  lim - i <= Z.of_nat n * step ->
  exists d',
    T.assign_up d i lim step turn old new n = Done d' /\
    length d' = length d /\
    forall j,
      nth j d' 0%nat =
      if (i <=? Z.of_nat j) && (Z.of_nat j <? lim)
         && ((Z.of_nat j - i) mod step =? 0)
      then (if xorb turn (Z.even ((Z.of_nat j - i) / step)) then old else new)
      else nth j d 0%nat.
Proof.
  induction n as [|n IH]; intros d i lim step turn old new Hs Hi Hl Hf.
  - cbn [T.assign_up]. destruct (Z.ltb_spec i lim); [lia|].
    exists d. split; [reflexivity|]. split; [reflexivity|].
    intros j. destruct (Z.leb_spec i (Z.of_nat j)), (Z.ltb_spec (Z.of_nat j) lim);
      cbn [andb]; try reflexivity. lia.
  - cbn [T.assign_up]. destruct (Z.ltb_spec i lim) as [L|L].
    + unfold vec_set. destruct (Z.ltb_spec i 0); [lia|].
      destruct (Nat.ltb_spec (Z.to_nat i) (length d)); [|lia]. cbn [bind].
      destruct (IH (list_set d (Z.to_nat i) (if turn then new else old))
                  (i + step) lim step (negb turn) old new Hs ltac:(lia)
                  ltac:(rewrite length_list_set; lia) ltac:(nia))
        as (d' & E & Len & Sp).
      exists d'. split; [exact E|]. split; [now rewrite Len, length_list_set|].
      intros j. rewrite Sp.
      destruct (Z.eq_dec (Z.of_nat j) i) as [Ej|Dj].
      * (* the slot set in this turn *)
        destruct (Z.leb_spec (i + step) (Z.of_nat j)); [lia|]. cbn [andb].
        assert (j = Z.to_nat i) as -> by lia.
        rewrite nth_list_set_same by lia.
        rewrite Z2Nat.id by lia. rewrite Z.sub_diag.
        destruct (Z.leb_spec i i); [|lia]. destruct (Z.ltb_spec i lim); [|lia].
        rewrite Z.mod_0_l, Z.div_0_l by lia. cbn.
        now destruct turn.
      * rewrite nth_list_set_other by lia.
        replace (Z.of_nat j - i) with ((Z.of_nat j - (i + step)) + 1 * step) by lia.
        rewrite Z.mod_add, Z.div_add by lia.
        destruct (Z.eqb_spec ((Z.of_nat j - (i + step)) mod step) 0) as [M|M];
          [|now rewrite !andb_false_r].
        rewrite !andb_true_r.
        destruct (Z.leb_spec (i + step) (Z.of_nat j)) as [G|G];
          destruct (Z.leb_spec i (Z.of_nat j)) as [G'|G']; try lia;
          destruct (Z.ltb_spec (Z.of_nat j) lim) as [U|U]; cbn [andb];
          try reflexivity.
        -- rewrite Z.even_add. cbn. now destruct turn, (Z.even _).
        -- exfalso.
           replace ((Z.of_nat j - (i + step))) with ((Z.of_nat j - i) + (-1) * step)
             in M by lia.
           rewrite Z.mod_add in M by lia.
           rewrite Z.mod_small in M by lia. lia.
    + exists d. split; [reflexivity|]. split; [reflexivity|].
      intros j. destruct (Z.leb_spec i (Z.of_nat j)), (Z.ltb_spec (Z.of_nat j) lim);
        cbn [andb]; try reflexivity. lia.
Qed.

(** [assign_down] from slot [i]: the slots [i], [i - step], ... down to 0
    take the old and the new bucket in turn. *)
Lemma assign_down_spec n : forall d i step turn old new,
  0 < step -> i < Z.of_nat (length d) ->
  i < Z.of_nat n * step ->
  exists d',
    T.assign_down d i step turn old new n = Done d' /\
    length d' = length d /\
    forall j,
      nth j d' 0%nat =
      if (Z.of_nat j <=? i) && ((i - Z.of_nat j) mod step =? 0)
      then (if xorb turn (Z.even ((i - Z.of_nat j) / step)) then old else new)
      else nth j d 0%nat.
Proof.
  induction n as [|n IH]; intros d i step turn old new Hs Hl Hf.
  - cbn [T.assign_down]. destruct (Z.geb_spec i 0); [lia|].
    exists d. split; [reflexivity|]. split; [reflexivity|].
    intros j. destruct (Z.leb_spec (Z.of_nat j) i); [lia|reflexivity].
  - cbn [T.assign_down]. destruct (Z.geb_spec i 0) as [L|L].
    + unfold vec_set. destruct (Z.ltb_spec i 0); [lia|].
      destruct (Nat.ltb_spec (Z.to_nat i) (length d)); [|lia]. cbn [bind].
      destruct (IH (list_set d (Z.to_nat i) (if turn then new else old))
                  (i - step) step (negb turn) old new Hs
                  ltac:(rewrite length_list_set; lia) ltac:(nia))
        as (d' & E & Len & Sp).
      exists d'. split; [exact E|]. split; [now rewrite Len, length_list_set|].
      intros j. rewrite Sp.
      destruct (Z.eq_dec (Z.of_nat j) i) as [Ej|Dj].
      * destruct (Z.leb_spec (Z.of_nat j) (i - step)); [lia|]. cbn [andb].
        assert (j = Z.to_nat i) as -> by lia.
        rewrite nth_list_set_same by lia.
        rewrite Z2Nat.id by lia. rewrite Z.sub_diag.
        destruct (Z.leb_spec i i); [|lia].
        rewrite Z.mod_0_l, Z.div_0_l by lia. cbn.
        now destruct turn.
      * rewrite nth_list_set_other by lia.
        replace (i - Z.of_nat j) with ((i - step - Z.of_nat j) + 1 * step) by lia.
        rewrite Z.mod_add, Z.div_add by lia.
        destruct (Z.eqb_spec ((i - step - Z.of_nat j) mod step) 0) as [M|M];
          [|now rewrite !andb_false_r].
        rewrite !andb_true_r.
        destruct (Z.leb_spec (Z.of_nat j) (i - step)) as [G|G];
          destruct (Z.leb_spec (Z.of_nat j) i) as [G'|G']; try lia;
          try reflexivity.
        -- rewrite Z.even_add. cbn. now destruct turn, (Z.even _).
        -- exfalso.
           replace (i - step - Z.of_nat j) with ((i - Z.of_nat j) + (-1) * step)
             in M by lia.
           rewrite Z.mod_add in M by lia.
           rewrite Z.mod_small in M by lia. lia.
    + exists d. split; [reflexivity|]. split; [reflexivity|].
      intros j. destruct (Z.leb_spec (Z.of_nat j) i); [lia|reflexivity].
Qed.

(** The two loops of a split, from the slot [index]: among the slots that
    agree with [index] modulo [step], those that agree modulo [2 * step]
    take the old bucket and the others the new one; no other slot
    changes. *)
Lemma assign_slots d index step old new :
  0 < step -> 0 <= index < Z.of_nat (length d) ->
  exists d1 d',
    T.assign_up d index (Z.of_nat (length d)) step false old new
      (S (length d)) = Done d1 /\
    T.assign_down d1 index step false old new (S (length d)) = Done d' /\
    length d' = length d /\
    forall j,
      (j < length d)%nat ->
      nth j d' 0%nat =
      if Z.of_nat j mod step =? index mod step
      then (if Z.of_nat j mod (2 * step) =? index mod (2 * step) then old else new)
      else nth j d 0%nat.
Proof.
  intros Hs Hi.
  destruct (assign_up_spec (S (length d)) d index (Z.of_nat (length d)) step false
              old new Hs ltac:(lia) ltac:(lia) ltac:(nia))
    as (d1 & E1 & L1 & S1).
  destruct (assign_down_spec (S (length d)) d1 index step false old new Hs
              ltac:(lia) ltac:(nia))
    as (d' & E2 & L2 & S2).
  exists d1, d'. split; [exact E1|]. split; [exact E2|].
  split; [congruence|].
  intros j Hj. rewrite S2, S1. cbn [xorb].
  assert (C1 : (Z.of_nat j mod step =? index mod step)
               = ((index - Z.of_nat j) mod step =? 0)).
  { destruct (Z.eqb_spec (Z.of_nat j mod step) (index mod step)) as [E|E];
      symmetry; [apply Z.eqb_eq|apply Z.eqb_neq].
    - apply (cong_sub step index (Z.of_nat j) Hs). congruence.
    - intros H. apply E. symmetry. now apply (cong_sub step index (Z.of_nat j) Hs). }
  assert (C2 : (Z.of_nat j mod step =? index mod step)
               = ((Z.of_nat j - index) mod step =? 0)).
  { destruct (Z.eqb_spec (Z.of_nat j mod step) (index mod step)) as [E|E];
      symmetry; [apply Z.eqb_eq|apply Z.eqb_neq].
    - now apply (cong_sub step (Z.of_nat j) index Hs).
    - intros H. apply E. now apply (cong_sub step (Z.of_nat j) index Hs). }
  assert (D1 : (Z.of_nat j mod (2 * step) =? index mod (2 * step))
               = ((index - Z.of_nat j) mod (2 * step) =? 0)).
  { destruct (Z.eqb_spec (Z.of_nat j mod (2 * step)) (index mod (2 * step))) as [E|E];
      symmetry; [apply Z.eqb_eq|apply Z.eqb_neq].
    - apply (cong_sub (2 * step) index (Z.of_nat j) ltac:(lia)). congruence.
    - intros H. apply E. symmetry.
      now apply (cong_sub (2 * step) index (Z.of_nat j) ltac:(lia)). }
  assert (D2 : (Z.of_nat j mod (2 * step) =? index mod (2 * step))
               = ((Z.of_nat j - index) mod (2 * step) =? 0)).
  { destruct (Z.eqb_spec (Z.of_nat j mod (2 * step)) (index mod (2 * step))) as [E|E];
      symmetry; [apply Z.eqb_eq|apply Z.eqb_neq].
    - now apply (cong_sub (2 * step) (Z.of_nat j) index ltac:(lia)).
    - intros H. apply E.
      now apply (cong_sub (2 * step) (Z.of_nat j) index ltac:(lia)). }
  destruct (Z.leb_spec (Z.of_nat j) index) as [L|L]; cbn [andb].
  - rewrite C1, D1.
    destruct (Z.eqb_spec ((index - Z.of_nat j) mod step) 0) as [M|M].
    + now rewrite (even_multiple step _ Hs M).
    + destruct (Z.leb_spec index (Z.of_nat j)); cbn [andb]; [|reflexivity].
      assert (Z.of_nat j = index) by lia.
      exfalso. apply M. replace (index - Z.of_nat j) with 0 by lia.
      apply Z.mod_0_l. lia.
  - destruct (Z.leb_spec index (Z.of_nat j)); [|lia].
    destruct (Z.ltb_spec (Z.of_nat j) (Z.of_nat (length d))); [|lia]. cbn [andb].
    rewrite C2, D2.
    destruct (Z.eqb_spec ((Z.of_nat j - index) mod step) 0) as [M|M];
      [|reflexivity].
    now rewrite (even_multiple step _ Hs M).
Qed.

End DirectoryFacts.

(* ================================================================== *)
(** ** Extendible hash table: buckets                                  *)
(* ================================================================== *)

Module TableFacts.

Module T := ExtendibleHashTable.
Import DirectoryFacts.

Lemma vec_get_nth {A : Type} (v : list A) (i : Z) d :
  0 <= i < Z.of_nat (length v) -> vec_get v i = Done (nth (Z.to_nat i) v d).
Proof.
  intros H. unfold vec_get. destruct (Z.ltb_spec i 0); [lia|].
  rewrite (nth_error_nth' v d) by lia. reflexivity.
Qed.

Lemma nth_error_list_set_same {A : Type} (v : list A) n a :
  (n < length v)%nat -> nth_error (list_set v n a) n = Some a.
Proof.
  revert n; induction v as [|h t IH]; intros [|n] H; cbn in *; try lia; auto.
  apply IH. lia.
Qed.

Lemma nth_error_list_set_other {A : Type} (v : list A) n m a :
  n <> m -> nth_error (list_set v n a) m = nth_error v m.
Proof.
  revert n m; induction v as [|h t IH]; intros [|n] [|m] H; cbn;
    try congruence; auto.
Qed.

Section Table.

Variables K V : Type.
Variable K_eqb : K -> K -> bool.
Variable hash : K -> Z.
Hypothesis K_eqb_spec : forall a b, K_eqb a b = true <-> a = b.

Local Notation "'find_list'" := (T.Bucket_Find_list K V K_eqb).
Local Notation "'remove_list'" := (T.Bucket_Remove_list K V K_eqb).
Local Notation "'update_list'" := (T.Bucket_update_list K V K_eqb).

Lemma K_eqb_refl a : K_eqb a a = true.
Proof. now apply K_eqb_spec. Qed.

Lemma K_eqb_neq a b : a <> b -> K_eqb a b = false.
Proof.
  intros H. destruct (K_eqb a b) eqn:E; [|reflexivity].
  apply K_eqb_spec in E. contradiction.
Qed.

(** *** Lists of entries *)

Lemma find_list_None l k : find_list l k = None <-> ~ In k (map fst l).
Proof.
  induction l as [|[k' v'] l IH]; cbn [T.Bucket_Find_list map fst In].
  - tauto.
  - destruct (K_eqb k' k) eqn:E.
    + apply K_eqb_spec in E. split; [discriminate|tauto].
    + assert (k' <> k) by (intros ->; rewrite K_eqb_refl in E; discriminate).
      tauto.
Qed.

Lemma find_list_Some l k v :
  NoDup (map fst l) -> (find_list l k = Some v <-> In (k, v) l).
Proof.
  induction l as [|[k' v'] l IH]; intros N; cbn [T.Bucket_Find_list In].
  - split; [discriminate|tauto].
  - cbn [map fst] in N. inversion N as [|? ? Hn N']; subst.
    destruct (K_eqb k' k) eqn:E.
    + apply K_eqb_spec in E. subst k'. split.
      * intros H. inversion H. now left.
      * intros [H|H]; [congruence|].
        exfalso. apply Hn. apply (in_map fst) in H. exact H.
    + assert (k' <> k) by (intros ->; rewrite K_eqb_refl in E; discriminate).
      rewrite (IH N'). split; [tauto|]. intros [H0|H0]; [congruence|exact H0].
Qed.

Lemma find_list_app l k v k' :
  ~ In k (map fst l) ->
  find_list (l ++ [(k, v)]) k' = if K_eqb k k' then Some v else find_list l k'.
Proof.
  induction l as [|[k0 v0] l IH]; intros N; cbn [T.Bucket_Find_list app].
  - destruct (K_eqb k k'); reflexivity.
  - cbn [map fst In] in N. rewrite IH by tauto.
    destruct (K_eqb k0 k') eqn:E0; [|reflexivity].
    apply K_eqb_spec in E0. subst k0.
    rewrite K_eqb_neq by (intros ->; tauto). reflexivity.
Qed.

Lemma update_list_None l k v : update_list l k v = None <-> ~ In k (map fst l).
Proof.
  induction l as [|[k' v'] l IH]; cbn [T.Bucket_update_list map fst In].
  - tauto.
  - destruct (K_eqb k' k) eqn:E.
    + apply K_eqb_spec in E. split; [discriminate|tauto].
    + assert (k' <> k) by (intros ->; rewrite K_eqb_refl in E; discriminate).
      destruct (update_list l k v) eqn:U.
      * split; [discriminate|]. intros Hn.
        assert (N : ~ In k (map fst l)) by tauto. apply IH in N. discriminate.
      * split; [|reflexivity]. intros _ [H1|H1]; [contradiction|].
        now apply (proj1 IH).
Qed.

Lemma update_list_Some l k v l' :
  update_list l k v = Some l' ->
  map fst l' = map fst l /\ length l' = length l /\
  forall k', find_list l' k' = if K_eqb k k' then Some v else find_list l k'.
Proof.
  revert l'; induction l as [|[k0 v0] l IH]; intros l'; cbn [T.Bucket_update_list];
    [discriminate|].
  destruct (K_eqb k0 k) eqn:E.
  - apply K_eqb_spec in E. subst k0. intros H. inversion H; subst l'.
    repeat split. intros k'. cbn [T.Bucket_Find_list].
    destruct (K_eqb k k'); reflexivity.
  - destruct (update_list l k v) as [r|]; [|discriminate].
    intros H. inversion H; subst l'. destruct (IH r eq_refl) as (M & L & F).
    cbn [map fst length]. split; [congruence|]. split; [congruence|].
    intros k'. cbn [T.Bucket_Find_list]. rewrite F.
    destruct (K_eqb k0 k') eqn:E0; [|reflexivity].
    apply K_eqb_spec in E0. subst k0.
    rewrite K_eqb_neq; [reflexivity|].
    intros ->. rewrite K_eqb_refl in E. discriminate.
Qed.

Lemma remove_list_None l k : remove_list l k = None <-> ~ In k (map fst l).
Proof.
  induction l as [|[k' v'] l IH]; cbn [T.Bucket_Remove_list map fst In].
  - tauto.
  - destruct (K_eqb k' k) eqn:E.
    + apply K_eqb_spec in E. split; [discriminate|tauto].
    + assert (k' <> k) by (intros ->; rewrite K_eqb_refl in E; discriminate).
      destruct (remove_list l k) eqn:U.
      * split; [discriminate|]. intros Hn.
        assert (N : ~ In k (map fst l)) by tauto. apply IH in N. discriminate.
      * split; [|reflexivity]. intros _ [H1|H1]; [contradiction|].
        now apply (proj1 IH).
Qed.

Lemma remove_list_Some l k l' :
  NoDup (map fst l) -> remove_list l k = Some l' ->
  NoDup (map fst l') /\ S (length l') = length l /\
  (forall x, In x l' <-> In x l /\ fst x <> k).
Proof.
  revert l'; induction l as [|[k0 v0] l IH]; intros l' N; cbn [T.Bucket_Remove_list];
    [discriminate|].
  cbn [map fst] in N. inversion N as [|? ? Hn N']; subst.
  destruct (K_eqb k0 k) eqn:E.
  - apply K_eqb_spec in E. subst k0. intros H. inversion H; subst l'.
    split; [exact N'|]. split; [reflexivity|].
    intros x. cbn [In]. split.
    + intros Hx. split; [now right|]. intros <-. apply Hn. now apply in_map.
    + intros [[<-|Hx] D]; [cbn in D; congruence|exact Hx].
  - assert (k0 <> k) by (intros ->; rewrite K_eqb_refl in E; discriminate).
    destruct (remove_list l k) as [r|]; [|discriminate].
    intros H0. inversion H0; subst l'. destruct (IH r N' eq_refl) as (N1 & L & I).
    split.
    + cbn [map fst]. constructor; [|exact N1].
      intros Hin. apply in_map_iff in Hin. destruct Hin as (x & Ex & Hx).
      apply I in Hx. apply Hn. rewrite <- Ex. apply in_map. tauto.
    + split; [cbn [length]; lia|].
      intros x. cbn [In]. rewrite I. split.
      * intros [<-|[Hx D]]; [split; [now left|exact H]|tauto].
      * intros [[<-|Hx] D]; [now left|tauto].
Qed.

(** Filtering by a test on the key. *)
Lemma NoDup_filter_keys (f : K * V -> bool) l :
  NoDup (map fst l) -> NoDup (map fst (filter f l)).
Proof.
  induction l as [|x l IH]; intros N; cbn [filter map]; [constructor|].
  cbn [map] in N. inversion N as [|? ? Hn N']; subst.
  destruct (f x); [|now apply IH].
  cbn [map]. constructor; [|now apply IH].
  intros Hin. apply Hn. apply in_map_iff in Hin. destruct Hin as (y & Ey & Hy).
  apply filter_In in Hy. rewrite <- Ey. apply in_map. tauto.
Qed.

Lemma length_filter_le (f : K * V -> bool) l : (length (filter f l) <= length l)%nat.
Proof.
  induction l as [|x l IH]; cbn [filter length]; [lia|].
  destruct (f x); cbn [length]; lia.
Qed.

Lemma find_list_filter (f : K * V -> bool) l k :
  (forall v, f (k, v) = true) -> find_list (filter f l) k = find_list l k.
Proof.
  intros Hf. induction l as [|[k0 v0] l IH]; cbn [filter T.Bucket_Find_list];
    [reflexivity|].
  destruct (f (k0, v0)) eqn:E; cbn [T.Bucket_Find_list].
  - now rewrite IH.
  - rewrite IH. destruct (K_eqb k0 k) eqn:E0; [|reflexivity].
    apply K_eqb_spec in E0. subst k0. rewrite Hf in E. discriminate.
Qed.

(** *** Looking a key up *)

Local Notation "'gd'" := (T.global_depth_ K V).
Local Notation "'dir'" := (T.dir_ K V).
Local Notation "'heap'" := (T.heap_ K V).
Local Notation "'wf'" := (TableSpec.wf K V hash).
Local Notation "'bucket_ok'" := (TableSpec.bucket_ok K V hash).
Local Notation "'Find'" := (T.Find K V K_eqb hash).
Local Notation "'IndexOf'" := (T.IndexOf K V hash).

Ltac tsimpl :=
  cbn [T.global_depth_ T.bucket_size_ T.num_buckets_ T.dir_ T.heap_ T.assign
       T.set_heap T.set_dir T.size_ T.depth_ T.list_ T.GetDepth T.GetItems
       T.IncrementDepth] in *.

Lemma IndexOf_Done h k :
  0 <= gd h < 31 -> IndexOf h k = Done (hash k mod 2 ^ gd h).
Proof.
  intros H. unfold T.IndexOf, T.shl1.
  destruct (Z.leb_spec 0 (gd h)); [|lia]. destruct (Z.ltb_spec (gd h) 31); [|lia].
  cbn [andb bind]. rewrite Z.shiftl_1_l.
  replace (2 ^ gd h - 1) with (Z.ones (gd h)) by (rewrite Z.ones_equiv; lia).
  now rewrite Z.land_ones by lia.
Qed.

Local Notation "'slot_of'" := (TableSpec.slot_of K V hash).

Lemma slot_of_range h k :
  wf h ->
  (slot_of h k < length (dir h))%nat /\ Z.of_nat (slot_of h k) = hash k mod 2 ^ gd h.
Proof.
  intros W. unfold TableSpec.slot_of.
  pose proof (TableSpec.wf_depth _ _ _ _ W) as D.
  pose proof (TableSpec.wf_dir _ _ _ _ W) as L.
  pose proof (Z.mod_pos_bound (hash k) (2 ^ gd h) (pow2_pos (gd h) ltac:(lia))).
  split; lia.
Qed.

Lemma Find_wf h k :
  wf h ->
  exists b,
    nth_error (heap h) (nth (slot_of h k) (dir h) 0%nat) = Some b /\
    bucket_ok h (slot_of h k) (nth (slot_of h k) (dir h) 0%nat) b /\
    Find h k = Done (T.Bucket_Find K V K_eqb b k).
Proof.
  intros W. destruct (slot_of_range h k W) as (Hj & Ej).
  destruct (TableSpec.wf_buckets _ _ _ _ W _ Hj) as (b & Hb & Ok).
  exists b. split; [exact Hb|]. split; [exact Ok|].
  unfold T.Find. rewrite (IndexOf_Done h k (TableSpec.wf_depth _ _ _ _ W)).
  cbn [bind]. rewrite (vec_get_nth (dir h) _ 0%nat) by lia. cbn [bind].
  unfold T.deref. fold (slot_of h k). rewrite Hb. reflexivity.
Qed.

(** Every slot that points to a bucket sees the same bucket. *)
Lemma bucket_ok_slots h i j p b :
  bucket_ok h i p b -> (j < length (dir h))%nat -> nth j (dir h) 0%nat = p ->
  bucket_ok h j p b.
Proof.
  intros Ok Hj Ej. pose proof (proj1 (TableSpec.shared _ _ _ _ _ _ _ Ok j Hj) Ej) as C.
  destruct Ok as [D Cp F N Sh Pl].
  constructor; auto.
  - intros j' Hj'. rewrite (Sh j' Hj'). rewrite C. tauto.
  - intros k v Hin. rewrite (Pl k v Hin). now rewrite C.
Qed.

(** *** Putting another list into a bucket *)

Lemma wf_replace h p b l' :
  wf h -> nth_error (heap h) p = Some b ->
  Z.of_nat (length l') <= T.size_ K V b ->
  NoDup (map fst l') ->
  (forall i k v, (i < length (dir h))%nat -> nth i (dir h) 0%nat = p ->
     In (k, v) l' ->
     hash k mod 2 ^ T.depth_ K V b = Z.of_nat i mod 2 ^ T.depth_ K V b) ->
  wf (T.assign K V h p (T.mkBucket K V (T.size_ K V b) (T.depth_ K V b) l')).
Proof.
  intros W Hb Hl Hn Hp.
  assert (Lp : (p < length (heap h))%nat) by (apply nth_error_Some; congruence).
  destruct W as [D L Nm B]. constructor; tsimpl; auto.
  - now rewrite length_list_set.
  - intros i Hi. destruct (B i Hi) as (bi & Hbi & Ok).
    destruct (Nat.eq_dec (nth i (dir h) 0%nat) p) as [E|E].
    + rewrite E in Hbi, Ok |- *. rewrite Hb in Hbi. inversion Hbi; subst bi.
      eexists. split; [apply nth_error_list_set_same; exact Lp|].
      destruct Ok as [Dr Cp F N Sh Pl]. constructor; tsimpl; auto.
      intros k v Hin. exact (Hp i k v Hi E Hin).
    + exists bi. split; [rewrite nth_error_list_set_other by auto; exact Hbi|].
      destruct Ok as [Dr Cp F N Sh Pl]. constructor; tsimpl; auto.
Qed.

Lemma Find_assign h p b' k :
  wf h -> (p < length (heap h))%nat ->
  Find (T.assign K V h p b') k =
  if Nat.eqb (nth (slot_of h k) (dir h) 0%nat) p
  then Done (T.Bucket_Find K V K_eqb b' k)
  else Find h k.
Proof.
  intros W Lp. destruct (slot_of_range h k W) as (Hj & Ej).
  destruct (Find_wf h k W) as (b & Hb & _ & F). rewrite F.
  unfold T.Find. tsimpl.
  rewrite (IndexOf_Done _ k) by (tsimpl; exact (TableSpec.wf_depth _ _ _ _ W)).
  tsimpl. cbn [bind]. rewrite (vec_get_nth (dir h) _ 0%nat) by lia. cbn [bind].
  unfold T.deref. tsimpl. fold (slot_of h k).
  destruct (Nat.eqb_spec (nth (slot_of h k) (dir h) 0%nat) p) as [E|E].
  - rewrite E. rewrite nth_error_list_set_same by exact Lp. reflexivity.
  - rewrite nth_error_list_set_other by auto. rewrite Hb. reflexivity.
Qed.

(** *** [Bucket::Insert] into the bucket of the key *)

Lemma insert_in_place h k v b b' :
  wf h ->
  nth_error (heap h) (nth (slot_of h k) (dir h) 0%nat) = Some b ->
  T.Bucket_Insert K V K_eqb b k v = (true, b') ->
  let h' := T.assign K V h (nth (slot_of h k) (dir h) 0%nat) b' in
  wf h' /\
  Find h' k = Done (Some v) /\
  (forall k', k' <> k -> Find h' k' = Find h k').
Proof.
  intros W Hb HI. cbv zeta.
  set (j := slot_of h k) in *. set (p := nth j (dir h) 0%nat) in *.
  destruct (slot_of_range h k W) as (Hj & Ej). fold j in Hj, Ej.
  assert (Lp : (p < length (heap h))%nat) by (apply nth_error_Some; congruence).
  destruct (TableSpec.wf_buckets _ _ _ _ W _ Hj) as (b0 & Hb0 & Ok).
  fold p in Hb0, Ok. rewrite Hb in Hb0. inversion Hb0; subst b0; clear Hb0.
  pose proof (TableSpec.fits _ _ _ _ _ _ _ Ok) as Fit.
  pose proof (TableSpec.distinct_keys _ _ _ _ _ _ _ Ok) as Nd.
  pose proof (TableSpec.depth_range _ _ _ _ _ _ _ Ok) as Dr.
  assert (Pk : forall i, (i < length (dir h))%nat -> nth i (dir h) 0%nat = p ->
                 hash k mod 2 ^ T.depth_ K V b = Z.of_nat i mod 2 ^ T.depth_ K V b).
  { intros i Hi Ei.
    rewrite (proj1 (TableSpec.shared _ _ _ _ _ _ _ Ok i Hi) Ei).
    rewrite Ej. symmetry. apply low_low. lia. }
  unfold T.Bucket_Insert, T.IsFull in HI.
  destruct (Z.eqb_spec (Z.of_nat (length (T.list_ K V b))) (T.size_ K V b)) as [Full|NF];
    [discriminate|].
  destruct (T.Bucket_update_list K V K_eqb (T.list_ K V b) k v) as [l'|] eqn:U;
    inversion HI; subst b'; clear HI.
  - (* the key is in the bucket: its value is overwritten *)
    destruct (update_list_Some _ _ _ _ U) as (M & Len & Fl).
    split; [|split].
    + apply (wf_replace h p b l' W Hb); [lia|now rewrite M|].
      intros i k0 v0 Hi Ei Hin.
      assert (Hk : In k0 (map fst (T.list_ K V b))).
      { rewrite <- M. apply (in_map fst) in Hin. exact Hin. }
      apply in_map_iff in Hk. destruct Hk as ([k1 v1] & E1 & H1). cbn in E1. subst k1.
      apply (TableSpec.placed _ _ _ _ _ _ _ (bucket_ok_slots h j i p b Ok Hi Ei) k0 v1 H1).
    + rewrite Find_assign by assumption. fold j p. rewrite Nat.eqb_refl.
      unfold T.Bucket_Find. tsimpl. rewrite Fl, K_eqb_refl. reflexivity.
    + intros k' Dk. rewrite Find_assign by assumption.
      destruct (Nat.eqb_spec (nth (slot_of h k') (dir h) 0%nat) p) as [E|E];
        [|reflexivity].
      destruct (Find_wf h k' W) as (b1 & Hb1 & _ & F1). rewrite F1.
      rewrite E, Hb in Hb1. inversion Hb1; subst b1.
      unfold T.Bucket_Find. tsimpl. rewrite Fl.
      rewrite K_eqb_neq by auto. reflexivity.
  - (* a new key: the entry goes to the end of the list *)
    apply update_list_None in U.
    split; [|split].
    + apply (wf_replace h p b _ W Hb).
      * rewrite length_app. cbn [length]. lia.
      * rewrite map_app. cbn [map fst].
        apply NoDup_app; [exact Nd|constructor; [intros []|constructor]|].
        intros x Hx [<-|[]]. contradiction.
      * intros i k0 v0 Hi Ei Hin. apply in_app_or in Hin.
        destruct Hin as [Hin|[Hin|[]]].
        -- apply (TableSpec.placed _ _ _ _ _ _ _
                    (bucket_ok_slots h j i p b Ok Hi Ei) k0 v0 Hin).
        -- inversion Hin; subst. now apply Pk.
    + rewrite Find_assign by assumption. fold j p. rewrite Nat.eqb_refl.
      unfold T.Bucket_Find. tsimpl. rewrite find_list_app by exact U.
      rewrite K_eqb_refl. reflexivity.
    + intros k' Dk. rewrite Find_assign by assumption.
      destruct (Nat.eqb_spec (nth (slot_of h k') (dir h) 0%nat) p) as [E|E];
        [|reflexivity].
      destruct (Find_wf h k' W) as (b1 & Hb1 & _ & F1). rewrite F1.
      rewrite E, Hb in Hb1. inversion Hb1; subst b1.
      unfold T.Bucket_Find. tsimpl. rewrite find_list_app by exact U.
      rewrite K_eqb_neq by auto. reflexivity.
Qed.

(** *** Moving the entries of a split bucket *)

Lemma In_keys_filter (f : K * V -> bool) l k :
  In k (map fst (filter f l)) -> In k (map fst l).
Proof.
  intros H. apply in_map_iff in H. destruct H as (x & E & Hx).
  apply filter_In in Hx. rewrite <- E. apply in_map. tauto.
Qed.

Lemma Bucket_Remove_head size d k v l :
  T.Bucket_Remove K V K_eqb (T.mkBucket K V size d ((k, v) :: l)) k
  = (true, T.mkBucket K V size d l).
Proof.
  unfold T.Bucket_Remove. cbn [T.list_ T.size_ T.depth_ T.Bucket_Remove_list].
  now rewrite K_eqb_refl.
Qed.

Lemma Bucket_Insert_fresh size d l k v :
  Z.of_nat (length l) < size -> ~ In k (map fst l) ->
  T.Bucket_Insert K V K_eqb (T.mkBucket K V size d l) k v
  = (true, T.mkBucket K V size d (l ++ [(k, v)])).
Proof.
  intros L N. unfold T.Bucket_Insert, T.IsFull. cbn [T.list_ T.size_ T.depth_].
  destruct (Z.eqb_spec (Z.of_nat (length l)) size); [lia|].
  now rewrite (proj2 (update_list_None l k v) N).
Qed.

Section Redistribute.

Variables old new : nat.
Variable stay : K * V -> bool.
Hypothesis old_new : old <> new.

Local Notation "'go'" := (fun x : K * V => negb (stay x)).

Lemma redistribute_spec size d dn : forall R P h,
  0 <= gd h < 31 ->
  NoDup (map fst (P ++ R)) ->
  Z.of_nat (length (P ++ R)) <= size ->
  nth_error (heap h) old = Some (T.mkBucket K V size d (R ++ filter stay P)) ->
  nth_error (heap h) new = Some (T.mkBucket K V size dn (filter go P)) ->
  (forall k v, In (k, v) R ->
     0 <= hash k mod 2 ^ gd h < Z.of_nat (length (dir h)) /\
     nth (Z.to_nat (hash k mod 2 ^ gd h)) (dir h) 0%nat
     = if stay (k, v) then old else new) ->
  exists h',
    T.redistribute K V K_eqb hash h old R = Done h' /\
    gd h' = gd h /\ dir h' = dir h /\
    T.bucket_size_ K V h' = T.bucket_size_ K V h /\
    T.num_buckets_ K V h' = T.num_buckets_ K V h /\
    length (heap h') = length (heap h) /\
    nth_error (heap h') old = Some (T.mkBucket K V size d (filter stay (P ++ R))) /\
    nth_error (heap h') new = Some (T.mkBucket K V size dn (filter go (P ++ R))) /\
    (forall q, q <> old -> q <> new -> nth_error (heap h') q = nth_error (heap h) q).
Proof.
  induction R as [|[k v] R IH]; intros P h Hg Nd Len Ho Hn Route.
  - exists h. cbn [T.redistribute]. rewrite app_nil_r in *. cbn [app] in Ho.
    repeat split; auto.
  - assert (Lo : (old < length (heap h))%nat) by (apply nth_error_Some; congruence).
    assert (Ln : (new < length (heap h))%nat) by (apply nth_error_Some; congruence).
    assert (Nk : ~ In k (map fst P) /\ ~ In k (map fst R)).
    { rewrite map_app in Nd. cbn [map fst] in Nd.
      apply NoDup_remove_2 in Nd. rewrite in_app_iff in Nd. tauto. }
    assert (Lt : Z.of_nat (length P) + Z.of_nat (length R) < size).
    { rewrite length_app in Len. cbn [length] in Len. lia. }
    destruct (Route k v (or_introl eq_refl)) as (Rj & Rt).
    cbn [T.redistribute]. unfold T.deref at 1. rewrite Ho. cbn [bind].
    cbn [app]. rewrite Bucket_Remove_head. cbn [snd].
    rewrite (IndexOf_Done _ k) by (tsimpl; exact Hg).
    tsimpl. cbn [bind]. rewrite (vec_get_nth (dir h) _ 0%nat) by exact Rj.
    cbn [bind]. rewrite Rt.
    assert (App : P ++ (k, v) :: R = (P ++ [(k, v)]) ++ R)
      by (now rewrite <- app_assoc).
    destruct (stay (k, v)) eqn:St.
    + (* the entry stays in the old bucket *)
      unfold T.deref at 1. tsimpl.
      rewrite nth_error_list_set_same by exact Lo. cbn [bind].
      rewrite Bucket_Insert_fresh; cycle 1.
      { rewrite length_app. pose proof (length_filter_le stay P). lia. }
      { rewrite map_app, in_app_iff.
        intros [H|H]; [tauto|]. apply In_keys_filter in H. tauto. }
      cbn [snd].
      destruct (IH (P ++ [(k, v)])
                  (T.assign K V
                     (T.assign K V h old
                        (T.mkBucket K V size d (R ++ filter stay P)))
                     old
                     (T.mkBucket K V size d ((R ++ filter stay P) ++ [(k, v)]))))
        as (h' & E & G & D & Bs & Nb & Lh & Eo & En & Eq).
      * tsimpl. exact Hg.
      * now rewrite <- App.
      * now rewrite <- App.
      * tsimpl. rewrite nth_error_list_set_same by (rewrite length_list_set; exact Lo).
        rewrite filter_app. cbn [filter]. rewrite St. now rewrite app_assoc.
      * tsimpl. rewrite !nth_error_list_set_other by exact old_new.
        rewrite Hn. rewrite filter_app. cbn [filter].
        rewrite St. cbn [negb]. now rewrite app_nil_r.
      * tsimpl. intros k0 v0 H0. apply Route. now right.
      * exists h'. tsimpl. rewrite !length_list_set in Lh.
        split; [exact E|]. rewrite App.
        repeat split; auto.
        intros q Q1 Q2. rewrite (Eq q Q1 Q2).
        now rewrite !nth_error_list_set_other by auto.
    + (* the entry moves to the new bucket *)
      unfold T.deref at 1. tsimpl.
      rewrite nth_error_list_set_other by exact old_new. rewrite Hn. cbn [bind].
      rewrite Bucket_Insert_fresh; cycle 1.
      { pose proof (length_filter_le go P). lia. }
      { intros H. apply In_keys_filter in H. tauto. }
      cbn [snd].
      destruct (IH (P ++ [(k, v)])
                  (T.assign K V
                     (T.assign K V h old
                        (T.mkBucket K V size d (R ++ filter stay P)))
                     new
                     (T.mkBucket K V size dn (filter go P ++ [(k, v)]))))
        as (h' & E & G & D & Bs & Nb & Lh & Eo & En & Eq).
      * tsimpl. exact Hg.
      * now rewrite <- App.
      * now rewrite <- App.
      * tsimpl. rewrite nth_error_list_set_other by auto.
        rewrite nth_error_list_set_same by exact Lo.
        rewrite filter_app. cbn [filter]. rewrite St. now rewrite app_nil_r.
      * tsimpl. rewrite nth_error_list_set_same by (rewrite length_list_set; exact Ln).
        rewrite filter_app. cbn [filter].
        rewrite St. reflexivity.
      * tsimpl. intros k0 v0 H0. apply Route. now right.
      * exists h'. tsimpl. rewrite !length_list_set in Lh.
        split; [exact E|]. rewrite App.
        repeat split; auto.
        intros q Q1 Q2. rewrite (Eq q Q1 Q2).
        now rewrite !nth_error_list_set_other by auto.
Qed.

End Redistribute.

(** *** Splitting a bucket *)

Lemma shl1_pow d : 0 <= d < 31 -> T.shl1 d = Done (2 ^ d).
Proof.
  intros H. unfold T.shl1.
  destruct (Z.leb_spec 0 d); [|lia]. destruct (Z.ltb_spec d 31); [|lia].
  cbn [andb]. now rewrite Z.shiftl_1_l.
Qed.

(** Two numbers that agree with [c] on the low [d] bits and differ from it
    on bit [d] agree on the low [d + 1] bits. *)
Lemma other_half d c x y :
  0 <= d ->
  x mod 2 ^ d = c mod 2 ^ d -> y mod 2 ^ d = c mod 2 ^ d ->
  x mod 2 ^ (d + 1) <> c mod 2 ^ (d + 1) ->
  y mod 2 ^ (d + 1) <> c mod 2 ^ (d + 1) ->
  x mod 2 ^ (d + 1) = y mod 2 ^ (d + 1).
Proof.
  intros Hd Ex Ey Nx Ny.
  pose proof (pow2_pos d Hd) as Hm.
  replace (2 ^ (d + 1)) with (2 ^ d * 2) in * by (rewrite pow2_succ; lia).
  rewrite !Z.rem_mul_r in * by lia.
  rewrite Ex, Ey in *.
  pose proof (Z.mod_pos_bound (x / 2 ^ d) 2 ltac:(lia)).
  pose proof (Z.mod_pos_bound (y / 2 ^ d) 2 ltac:(lia)).
  pose proof (Z.mod_pos_bound (c / 2 ^ d) 2 ltac:(lia)).
  assert ((x / 2 ^ d) mod 2 <> (c / 2 ^ d) mod 2)
    by (intros E; apply Nx; now rewrite E).
  assert ((y / 2 ^ d) mod 2 <> (c / 2 ^ d) mod 2)
    by (intros E; apply Ny; now rewrite E).
  assert (E : (x / 2 ^ d) mod 2 = (y / 2 ^ d) mod 2) by lia.
  now rewrite E.
Qed.

(** What a split leaves behind, read off the table [h5] it produces: the
    slots that pointed to the bucket at [p] are shared out between [p] and
    the new bucket by bit [d] of their number, the entries of the bucket
    by bit [d] of their hash, and nothing else has changed. *)
Lemma split_result h index size d l h5 (stay : K * V -> bool) :
  let p := nth (Z.to_nat index) (dir h) 0%nat in
  let q := length (heap h) in
  wf h -> 0 <= index < 2 ^ gd h ->
  nth_error (heap h) p = Some (T.mkBucket K V size d l) ->
  d < gd h ->
  (forall k v, stay (k, v) = (hash k mod 2 ^ (d + 1) =? index mod 2 ^ (d + 1))) ->
  gd h5 = gd h ->
  T.bucket_size_ K V h5 = T.bucket_size_ K V h ->
  T.num_buckets_ K V h5 = T.num_buckets_ K V h + 1 ->
  length (dir h5) = length (dir h) ->
  (forall j, (j < length (dir h))%nat ->
     nth j (dir h5) 0%nat =
     if Z.of_nat j mod 2 ^ d =? index mod 2 ^ d
     then (if Z.of_nat j mod 2 ^ (d + 1) =? index mod 2 ^ (d + 1) then p else q)
     else nth j (dir h) 0%nat) ->
  length (heap h5) = S q ->
  nth_error (heap h5) p = Some (T.mkBucket K V size (d + 1) (filter stay l)) ->
  nth_error (heap h5) q
  = Some (T.mkBucket K V size (d + 1) (filter (fun x => negb (stay x)) l)) ->
  (forall t, t <> p -> t <> q -> nth_error (heap h5) t = nth_error (heap h) t) ->
  wf h5 /\ forall k, Find h5 k = Find h k.
Proof.
  intros p q W Hi Hb Hd Hstay G Bs Nb Ld Nth Lh Hp Hq Ho.
  pose proof (TableSpec.wf_depth _ _ _ _ W) as D.
  pose proof (TableSpec.wf_dir _ _ _ _ W) as L.
  pose proof (TableSpec.wf_num _ _ _ _ W) as Nm.
  pose proof (TableSpec.wf_buckets _ _ _ _ W) as B.
  assert (Hi0 : (Z.to_nat index < length (dir h))%nat) by lia.
  destruct (B _ Hi0) as (b0 & Hb0 & Ok). fold p in Hb0, Ok.
  rewrite Hb in Hb0. inversion Hb0; subst b0; clear Hb0.
  destruct Ok as [Dr Cp Ft Nd Sh Pl]. tsimpl.
  rewrite Z2Nat.id in Sh, Pl by lia.
  assert (Lp : (p < q)%nat) by (apply nth_error_Some; congruence).
  assert (Below : forall j, (j < length (dir h))%nat -> (nth j (dir h) 0 < q)%nat).
  { intros j Hj. destruct (B j Hj) as (bj & Hbj & _).
    apply nth_error_Some. congruence. }
  assert (Dle : 0 <= d <= d + 1) by lia.
  split.
  - constructor.
    + rewrite G. exact D.
    + rewrite Ld, G. exact L.
    + rewrite Nb, Nm, Lh. fold q. lia.
    + intros i Hi'. rewrite Ld in Hi'. rewrite (Nth i Hi').
      destruct (Z.eqb_spec (Z.of_nat i mod 2 ^ d) (index mod 2 ^ d)) as [Ed|Ed].
      * destruct (Z.eqb_spec (Z.of_nat i mod 2 ^ (d + 1)) (index mod 2 ^ (d + 1)))
          as [Ed1|Ed1].
        -- eexists. split; [exact Hp|]. constructor; tsimpl.
           ++ rewrite G. lia.
           ++ rewrite Bs. exact Cp.
           ++ pose proof (length_filter_le stay l). lia.
           ++ apply NoDup_filter_keys, Nd.
           ++ intros j Hj. rewrite Ld in Hj. rewrite (Nth j Hj).
              destruct (Z.eqb_spec (Z.of_nat j mod 2 ^ d) (index mod 2 ^ d)) as [Ej|Ej].
              ** destruct (Z.eqb_spec (Z.of_nat j mod 2 ^ (d + 1))
                             (index mod 2 ^ (d + 1))) as [Ej1|Ej1].
                 --- split; [congruence|reflexivity].
                 --- split; [lia|congruence].
              ** split; intros H.
                 --- apply (Sh j Hj) in H. contradiction.
                 --- exfalso. apply Ej. rewrite <- Ed.
                     apply (low_agree d (d + 1) _ _ Dle H).
           ++ intros k v Hin. apply filter_In in Hin. destruct Hin as [_ St].
              rewrite Hstay in St. apply Z.eqb_eq in St. congruence.
        -- eexists. split; [exact Hq|]. constructor; tsimpl.
           ++ rewrite G. lia.
           ++ rewrite Bs. exact Cp.
           ++ pose proof (length_filter_le (fun x => negb (stay x)) l). lia.
           ++ apply NoDup_filter_keys, Nd.
           ++ intros j Hj. rewrite Ld in Hj. rewrite (Nth j Hj).
              destruct (Z.eqb_spec (Z.of_nat j mod 2 ^ d) (index mod 2 ^ d)) as [Ej|Ej].
              ** destruct (Z.eqb_spec (Z.of_nat j mod 2 ^ (d + 1))
                             (index mod 2 ^ (d + 1))) as [Ej1|Ej1].
                 --- split; [lia|congruence].
                 --- split; [intros _|reflexivity].
                     apply (other_half d index); auto; lia.
              ** split; intros H.
                 --- pose proof (Below j Hj). lia.
                 --- exfalso. apply Ej. rewrite <- Ed.
                     apply (low_agree d (d + 1) _ _ Dle H).
           ++ intros k v Hin. apply filter_In in Hin. destruct Hin as [Hin St].
              rewrite Hstay in St. apply negb_true_iff, Z.eqb_neq in St.
              apply (other_half d index); auto; try lia.
              exact (Pl k v Hin).
      * destruct (B i Hi') as (bi & Hbi & Oki).
        assert (Np : nth i (dir h) 0%nat <> p)
          by (intros E; apply (Sh i Hi') in E; contradiction).
        assert (Nq : nth i (dir h) 0%nat <> q) by (pose proof (Below i Hi'); lia).
        exists bi. split; [rewrite (Ho _ Np Nq); exact Hbi|].
        destruct Oki as [Dri Cpi Fti Ndi Shi Pli].
        constructor; tsimpl; rewrite ?G, ?Bs; auto.
        intros j Hj. rewrite Ld in Hj. rewrite (Nth j Hj).
        rewrite <- (Shi j Hj).
        destruct (Z.eqb_spec (Z.of_nat j mod 2 ^ d) (index mod 2 ^ d)) as [Ej|Ej];
          [|tauto].
        rewrite (proj2 (Sh j Hj) Ej).
        destruct (Z.of_nat j mod 2 ^ (d + 1) =? index mod 2 ^ (d + 1)).
        -- tauto.
        -- split; intros H; exfalso; [apply Nq|apply Np]; congruence.
  - intros k. unfold T.Find.
    rewrite (IndexOf_Done h5 k) by (rewrite G; exact D).
    rewrite (IndexOf_Done h k) by exact D. rewrite G.
    pose proof (Z.mod_pos_bound (hash k) (2 ^ gd h) (pow2_pos (gd h) ltac:(lia))) as Hj.
    set (j := hash k mod 2 ^ gd h) in *.
    cbn [bind]. rewrite (vec_get_nth (dir h5) j 0%nat) by lia.
    rewrite (vec_get_nth (dir h) j 0%nat) by lia. cbn [bind].
    assert (Hjn : (Z.to_nat j < length (dir h))%nat) by lia.
    rewrite (Nth _ Hjn). rewrite Z2Nat.id by lia.
    assert (E1 : j mod 2 ^ (d + 1) = hash k mod 2 ^ (d + 1))
      by (apply low_low; lia).
    unfold T.deref.
    destruct (Z.eqb_spec (j mod 2 ^ d) (index mod 2 ^ d)) as [Ej|Ej].
    + pose proof (proj2 (Sh _ Hjn)) as Pj. rewrite Z2Nat.id in Pj by lia.
      rewrite (Pj Ej). rewrite Hb.
      destruct (Z.eqb_spec (j mod 2 ^ (d + 1)) (index mod 2 ^ (d + 1))) as [Ej1|Ej1].
      * rewrite Hp. cbn [bind]. unfold T.Bucket_Find. tsimpl. f_equal.
        apply find_list_filter. intros v. rewrite Hstay. apply Z.eqb_eq. congruence.
      * rewrite Hq. cbn [bind]. unfold T.Bucket_Find. tsimpl. f_equal.
        apply find_list_filter. intros v. rewrite Hstay.
        apply negb_true_iff, Z.eqb_neq. congruence.
    + assert (Np : nth (Z.to_nat j) (dir h) 0%nat <> p).
      { intros E. apply (Sh _ Hjn) in E. rewrite Z2Nat.id in E by lia. contradiction. }
      assert (Nq : nth (Z.to_nat j) (dir h) 0%nat <> q)
        by (pose proof (Below _ Hjn); lia).
      now rewrite (Ho _ Np Nq).
Qed.

(** The split of a bucket whose local depth is below the global depth:
    the directory keeps its size. *)
Lemma split_below h index b :
  wf h -> 0 <= index < 2 ^ gd h ->
  nth_error (heap h) (nth (Z.to_nat index) (dir h) 0%nat) = Some b ->
  T.depth_ K V b < gd h ->
  exists h',
    T.split K V K_eqb hash h index = Done h' /\
    wf h' /\ (forall k, Find h' k = Find h k) /\
    gd h' = gd h /\
    T.bucket_size_ K V h' = T.bucket_size_ K V h /\
    T.num_buckets_ K V h' = T.num_buckets_ K V h + 1.
Proof.
  intros W Hi Hb Hd.
  pose proof (TableSpec.wf_depth _ _ _ _ W) as D.
  pose proof (TableSpec.wf_dir _ _ _ _ W) as L.
  pose proof (TableSpec.wf_buckets _ _ _ _ W) as B.
  assert (Hi0 : (Z.to_nat index < length (dir h))%nat) by lia.
  set (p := nth (Z.to_nat index) (dir h) 0%nat) in *.
  set (q := length (heap h)).
  destruct (B _ Hi0) as (b0 & Hb0 & Ok). fold p in Hb0, Ok.
  rewrite Hb in Hb0. inversion Hb0; subst b0; clear Hb0.
  destruct b as [size d l]. destruct Ok as [Dr Cp Ft Nd Sh Pl]. tsimpl.
  rewrite Z2Nat.id in Sh, Pl by lia.
  assert (Lp : (p < q)%nat) by (apply nth_error_Some; congruence).
  set (stay := fun x : K * V => hash (fst x) mod 2 ^ (d + 1) =? index mod 2 ^ (d + 1)).
  destruct (assign_slots (dir h) index (2 ^ d) p q (pow2_pos d ltac:(lia)) ltac:(lia))
    as (d1 & d' & Eu & Ed & Ld & Nth).
  rewrite <- pow2_succ in Nth by lia.
  assert (Ip : nth (Z.to_nat index) d' 0%nat = p).
  { rewrite (Nth _ Hi0). rewrite Z2Nat.id by lia. now rewrite !Z.eqb_refl. }
  set (m := heap h ++ [T.mkBucket K V (T.bucket_size_ K V h) d []]).
  set (h3 := T.mk K V (gd h) (T.bucket_size_ K V h) (T.num_buckets_ K V h) d' m).
  assert (M3p : nth_error m p = Some (T.mkBucket K V size d l)).
  { unfold m. rewrite nth_error_app1 by exact Lp. exact Hb. }
  assert (M3q : nth_error m q = Some (T.mkBucket K V size d [])).
  { unfold m, q. rewrite nth_error_app2 by lia. rewrite Nat.sub_diag, Cp. reflexivity. }
  destruct (redistribute_spec p q stay ltac:(lia) size d d l [] h3)
    as (h4 & E4 & G4 & D4 & Bs4 & Nb4 & Lh4 & Eo & En & Eq).
  { exact D. }
  { exact Nd. }
  { cbn [app]. exact Ft. }
  { cbn [filter]. rewrite app_nil_r. exact M3p. }
  { cbn [filter]. exact M3q. }
  { unfold h3. tsimpl. intros k v Hin. split.
    - rewrite Ld, L. apply Z.mod_pos_bound, pow2_pos. lia.
    - pose proof (Z.mod_pos_bound (hash k) (2 ^ gd h) (pow2_pos (gd h) ltac:(lia))).
      rewrite Nth by lia. rewrite Z2Nat.id by lia.
      rewrite (low_low d (gd h)) by lia. rewrite (low_low (d + 1) (gd h)) by lia.
      rewrite (Pl k v Hin), Z.eqb_refl. reflexivity. }
  cbn [app] in Eo, En. unfold h3 in G4, D4, Bs4, Nb4, Lh4, Eq. tsimpl.
  set (h5 := T.mk K V (gd h4) (T.bucket_size_ K V h4) (T.num_buckets_ K V h4 + 1)
               (dir h4)
               (list_set
                  (list_set (heap h4) p (T.mkBucket K V size (d + 1) (filter stay l)))
                  q
                  (T.mkBucket K V size (d + 1) (filter (fun x => negb (stay x)) l)))).
  assert (Lm : length m = S q) by (unfold m, q; rewrite length_app; cbn; lia).
  exists h5. split.
  - unfold T.split. rewrite (vec_get_nth (dir h) index 0%nat) by lia. fold p.
    cbn [bind]. unfold T.deref at 1. rewrite Hb. cbn [bind]. tsimpl.
    destruct (Z.eqb_spec d (gd h)) as [E|_]; [lia|].
    rewrite (vec_get_nth (dir h) index 0%nat) by lia. fold p.
    cbn [bind]. unfold T.deref at 1. rewrite Hb. cbn [bind]. tsimpl.
    rewrite (shl1_pow d) by lia. cbn [bind]. rewrite (shl1_pow (gd h)) by lia.
    cbn [bind]. rewrite <- L. rewrite Nat2Z.id. fold q. rewrite Eu. cbn [bind].
    rewrite Ed. cbn [bind]. rewrite (vec_get_nth d' index 0%nat) by lia.
    rewrite Ip. cbn [bind]. unfold T.deref at 1. tsimpl. fold m. rewrite M3p.
    cbn [bind]. tsimpl. fold q. change (T.set_dir K V (T.set_heap K V h m) d') with h3. rewrite E4. cbn [bind].
    unfold T.deref at 1. rewrite Eo. cbn [bind]. tsimpl.
    unfold T.deref at 1. tsimpl.
    rewrite nth_error_list_set_other by lia. rewrite En. cbn [bind]. tsimpl.
    reflexivity.
  - assert (R : wf h5 /\ forall k, Find h5 k = Find h k).
    { apply (split_result h index size d l h5 stay); fold p q;
        [exact W|exact Hi|exact Hb|exact Hd|intros k v; reflexivity|..].
      - unfold h5. tsimpl. exact G4.
      - unfold h5. tsimpl. exact Bs4.
      - unfold h5. tsimpl. lia.
      - unfold h5. tsimpl. rewrite D4. exact Ld.
      - unfold h5. tsimpl. rewrite D4. exact Nth.
      - unfold h5. tsimpl. rewrite !length_list_set. lia.
      - unfold h5. tsimpl. rewrite nth_error_list_set_other by lia.
        apply nth_error_list_set_same. lia.
      - unfold h5. tsimpl. apply nth_error_list_set_same.
        rewrite length_list_set. lia.
      - intros t T1 T2. unfold h5. tsimpl.
        rewrite !nth_error_list_set_other by auto. rewrite (Eq t T1 T2).
        unfold m. destruct (Nat.lt_ge_cases t q) as [Lt|Ge].
        + now rewrite nth_error_app1.
        + assert (nth_error (heap h) t = None) as -> by (apply nth_error_None; exact Ge).
          apply nth_error_None. rewrite length_app. cbn [length]. fold q. lia. }
    destruct R as (W5 & F5).
    split; [exact W5|]. split; [exact F5|].
    unfold h5. tsimpl. split; [exact G4|]. split; [exact Bs4|]. lia.
Qed.

(** *** Doubling the directory *)

Local Notation "'double'" :=
  (fun h => T.mk K V (gd h + 1) (T.bucket_size_ K V h) (T.num_buckets_ K V h)
              (dir h ++ dir h) (heap h)).

Lemma nth_double (l : list nat) j :
  (j < 2 * length l)%nat -> nth j (l ++ l) 0%nat = nth (j mod length l) l 0%nat.
Proof.
  intros H. destruct (Nat.lt_ge_cases j (length l)) as [Lt|Ge].
  - rewrite app_nth1 by exact Lt. now rewrite Nat.mod_small.
  - rewrite app_nth2 by exact Ge. f_equal.
    apply (Nat.mod_unique j (length l) 1); lia.
Qed.

Lemma wf_double h : wf h -> gd h < 30 -> wf (double h).
Proof.
  intros W Hg.
  pose proof (TableSpec.wf_depth _ _ _ _ W) as D.
  pose proof (TableSpec.wf_dir _ _ _ _ W) as L.
  pose proof (TableSpec.wf_buckets _ _ _ _ W) as B.
  pose proof (pow2_pos (gd h) ltac:(lia)) as Pg.
  assert (Md : forall i, (i mod length (dir h) < length (dir h))%nat)
    by (intros i; apply Nat.mod_upper_bound; lia).
  constructor; tsimpl.
  - lia.
  - rewrite length_app, pow2_succ by lia. lia.
  - exact (TableSpec.wf_num _ _ _ _ W).
  - intros i Hi. rewrite length_app in Hi. rewrite nth_double by lia.
    destruct (B _ (Md i)) as (b & Hb & Ok). exists b. split; [exact Hb|].
    destruct Ok as [Dr Cp Ft Nd Sh Pl]. constructor; tsimpl; auto.
    + lia.
    + intros j Hj. rewrite length_app in Hj. rewrite nth_double by lia.
      rewrite (Sh _ (Md j)). rewrite !Nat2Z.inj_mod, L.
      rewrite !low_low by lia. tauto.
    + intros k v Hin. rewrite (Pl k v Hin). rewrite Nat2Z.inj_mod, L.
      now rewrite low_low by lia.
Qed.

Lemma Find_double h k : wf h -> gd h < 30 -> Find (double h) k = Find h k.
Proof.
  intros W Hg.
  pose proof (TableSpec.wf_depth _ _ _ _ W) as D.
  pose proof (TableSpec.wf_dir _ _ _ _ W) as L.
  pose proof (pow2_pos (gd h) ltac:(lia)) as Pg.
  pose proof (pow2_pos (gd h + 1) ltac:(lia)) as Pg1.
  pose proof (pow2_succ (gd h) ltac:(lia)) as Ps.
  pose proof (Z.mod_pos_bound (hash k) _ Pg).
  pose proof (Z.mod_pos_bound (hash k) _ Pg1).
  unfold T.Find. rewrite (IndexOf_Done _ k) by (tsimpl; lia).
  rewrite (IndexOf_Done h k) by exact D. tsimpl. cbn [bind].
  rewrite (vec_get_nth (dir h ++ dir h) _ 0%nat) by (rewrite length_app; lia).
  rewrite (vec_get_nth (dir h) _ 0%nat) by lia. cbn [bind].
  rewrite nth_double by lia.
  replace (Z.to_nat (hash k mod 2 ^ (gd h + 1)) mod length (dir h))%nat
    with (Z.to_nat (hash k mod 2 ^ gd h)).
  - reflexivity.
  - apply Nat2Z.inj. rewrite Nat2Z.inj_mod, !Z2Nat.id, L by lia.
    symmetry. apply low_low. lia.
Qed.

(** The split of a bucket at the global depth is the split, in the doubled
    directory, of a bucket below the global depth. *)
Lemma split_double h index b :
  wf h -> 0 <= index < 2 ^ gd h ->
  nth_error (heap h) (nth (Z.to_nat index) (dir h) 0%nat) = Some b ->
  T.depth_ K V b = gd h ->
  T.split K V K_eqb hash h index = T.split K V K_eqb hash (double h) index.
Proof.
  intros W Hi Hb Hd.
  pose proof (TableSpec.wf_dir _ _ _ _ W) as L.
  unfold T.split at 1 2. tsimpl.
  rewrite (vec_get_nth (dir h) index 0%nat) by lia.
  rewrite (vec_get_nth (dir h ++ dir h) index 0%nat) by (rewrite length_app; lia).
  rewrite app_nth1 by lia. cbn [bind].
  unfold T.deref at 1. rewrite Hb. cbn [bind].
  unfold T.deref at 5. tsimpl. rewrite Hb. cbn [bind]. tsimpl.
  unfold T.GetDepth. rewrite Hd, Z.eqb_refl.
  destruct (Z.eqb_spec (gd h) (gd h + 1)) as [E|_]; [lia|].
  reflexivity.
Qed.

(** [1 << 31] is not defined on an [int]: a table of global depth 30 cannot
    double its directory. *)
Lemma split_overflow h index b :
  wf h -> 0 <= index < 2 ^ gd h ->
  nth_error (heap h) (nth (Z.to_nat index) (dir h) 0%nat) = Some b ->
  T.depth_ K V b = gd h -> gd h = 30 ->
  T.split K V K_eqb hash h index = Undefined.
Proof.
  intros W Hi Hb Hd Hg.
  pose proof (TableSpec.wf_dir _ _ _ _ W) as L.
  unfold T.split. tsimpl.
  rewrite (vec_get_nth (dir h) index 0%nat) by lia. cbn [bind].
  unfold T.deref at 1. rewrite Hb. cbn [bind]. tsimpl.
  unfold T.GetDepth. rewrite Hd, Z.eqb_refl. tsimpl.
  rewrite (vec_get_nth (dir h ++ dir h) index 0%nat) by (rewrite length_app; lia).
  rewrite app_nth1 by lia. cbn [bind].
  unfold T.deref at 1. tsimpl. rewrite Hb. cbn [bind]. tsimpl.
  unfold T.GetDepth. rewrite Hd, (shl1_pow (gd h)) by lia. cbn [bind].
  rewrite Hg. reflexivity.
Qed.

(** A split that returns keeps the invariant and every binding, and adds
    one bucket; it returns unless the directory would pass [2 ^ 30]
    slots. *)
Lemma split_spec h index :
  wf h -> 0 <= index < 2 ^ gd h ->
  (exists h',
     T.split K V K_eqb hash h index = Done h' /\
     wf h' /\ (forall k, Find h' k = Find h k) /\
     gd h <= gd h' <= gd h + 1 /\
     T.bucket_size_ K V h' = T.bucket_size_ K V h /\
     T.num_buckets_ K V h' = T.num_buckets_ K V h + 1) \/
  (gd h = 30 /\ T.split K V K_eqb hash h index = Undefined).
Proof.
  intros W Hi.
  pose proof (TableSpec.wf_depth _ _ _ _ W) as D.
  pose proof (TableSpec.wf_dir _ _ _ _ W) as L.
  pose proof (TableSpec.wf_buckets _ _ _ _ W) as B.
  assert (Hi0 : (Z.to_nat index < length (dir h))%nat) by lia.
  destruct (B _ Hi0) as (b & Hb & Ok).
  pose proof (TableSpec.depth_range _ _ _ _ _ _ _ Ok) as Dr.
  destruct (Z.eq_dec (T.depth_ K V b) (gd h)) as [E|E].
  - destruct (Z.eq_dec (gd h) 30) as [E30|N30].
    + right. split; [exact E30|]. exact (split_overflow h index b W Hi Hb E E30).
    + left. rewrite (split_double h index b W Hi Hb E).
      assert (Hg : gd h < 30) by lia.
      pose proof (wf_double h W Hg) as Wd.
      destruct (split_below (double h) index b Wd) as (h' & S & W' & F & G & Bs & Nb).
      * tsimpl. rewrite pow2_succ by lia. lia.
      * tsimpl. rewrite app_nth1 by lia. exact Hb.
      * tsimpl. lia.
      * exists h'. tsimpl. split; [exact S|]. split; [exact W'|].
        split; [intros k; rewrite F; now apply Find_double|].
        split; [lia|]. split; [exact Bs|exact Nb].
  - left. destruct (split_below h index b W Hi Hb ltac:(lia))
      as (h' & S & W' & F & G & Bs & Nb).
    exists h'. split; [exact S|]. split; [exact W'|]. split; [exact F|].
    split; [lia|]. split; [exact Bs|exact Nb].
Qed.

(** *** [InsertInternal] and [Insert] *)

Lemma InsertInternal_spec fuel : forall h k v resizable ok h',
  wf h ->
  T.InsertInternal K V K_eqb hash fuel h k v resizable = Done (ok, h') ->
  wf h' /\
  T.bucket_size_ K V h' = T.bucket_size_ K V h /\
  gd h <= gd h' /\
  T.num_buckets_ K V h <= T.num_buckets_ K V h' /\
  (ok = true ->
     Find h' k = Done (Some v) /\ forall k', k' <> k -> Find h' k' = Find h k') /\
  (ok = false -> resizable = false /\ h' = h).
Proof.
  induction fuel as [|fuel IH]; intros h k v resizable ok h' W H;
    cbn [T.InsertInternal] in H; [discriminate|].
  pose proof (TableSpec.wf_depth _ _ _ _ W) as D.
  destruct (slot_of_range h k W) as (Hj & Ej).
  destruct (Find_wf h k W) as (b & Hb & Ok & _).
  rewrite (IndexOf_Done h k D) in H. cbn [bind] in H.
  rewrite (vec_get_nth (dir h) _ 0%nat) in H by lia. cbn [bind] in H.
  fold (slot_of h k) in H. unfold T.deref in H at 1. rewrite Hb in H.
  cbn [bind] in H.
  destruct (T.Bucket_Insert K V K_eqb b k v) as [ok1 b'] eqn:BI.
  destruct ok1.
  - inversion H; subst ok h'; clear H.
    destruct (insert_in_place h k v b b' W Hb BI) as (W' & F1 & F2).
    split; [exact W'|]. tsimpl.
    split; [reflexivity|]. split; [lia|]. split; [lia|].
    split; [intros _; split; assumption|discriminate].
  - destruct resizable; cbn [negb] in H.
    + pose proof (Z.mod_pos_bound (hash k) (2 ^ gd h) (pow2_pos (gd h) ltac:(lia))) as R.
      destruct (split_spec h (hash k mod 2 ^ gd h) W R)
        as [(h1 & S & W1 & F1 & G1 & Bs1 & Nb1)|(_ & S)];
        rewrite S in H; cbn [bind] in H; [|discriminate].
      destruct (IH h1 k v true ok h' W1 H) as (W' & Bs' & G' & Nb' & T' & F').
      split; [exact W'|]. split; [congruence|]. split; [lia|]. split; [lia|].
      split.
      * intros E. destruct (T' E) as (A1 & A2). split; [exact A1|].
        intros k' Dk. rewrite (A2 k' Dk). apply F1.
      * intros E. destruct (F' E). discriminate.
    + inversion H; subst ok h'; clear H.
      split; [exact W|]. split; [reflexivity|]. split; [lia|]. split; [lia|].
      split; [discriminate|auto].
Qed.

Lemma Insert_spec fuel h k v h' :
  wf h -> T.Insert K V K_eqb hash fuel h k v = Done h' ->
  wf h' /\
  T.bucket_size_ K V h' = T.bucket_size_ K V h /\
  gd h <= gd h' /\
  T.num_buckets_ K V h <= T.num_buckets_ K V h' /\
  Find h' k = Done (Some v) /\
  forall k', k' <> k -> Find h' k' = Find h k'.
Proof.
  intros W H. unfold T.Insert in H.
  apply bind_Done_inv in H. destruct H as ([ok h1] & E1 & H).
  destruct (InsertInternal_spec fuel h k v false ok h1 W E1)
    as (W1 & Bs1 & G1 & Nb1 & T1 & F1).
  destruct ok; cbn [negb] in H.
  - inversion H; subst h'. destruct (T1 eq_refl). tauto.
  - destruct (F1 eq_refl) as (_ & ->).
    apply bind_Done_inv in H. destruct H as ([ok2 h2] & E2 & H).
    inversion H; subst h'.
    destruct (InsertInternal_spec fuel h k v true ok2 h2 W E2)
      as (W2 & Bs2 & G2 & Nb2 & T2 & F2).
    destruct ok2; [|destruct (F2 eq_refl); discriminate].
    destruct (T2 eq_refl). tauto.
Qed.

(** With room in the bucket of the key, or the key in it, one call of
    [InsertInternal] does the work and the directory stays as it is. *)
Lemma Insert_room fuel h k v b :
  wf h ->
  nth_error (heap h) (nth (slot_of h k) (dir h) 0%nat) = Some b ->
  T.IsFull K V b = false ->
  T.Insert K V K_eqb hash (S fuel) h k v
  = Done (T.assign K V h (nth (slot_of h k) (dir h) 0%nat)
            (snd (T.Bucket_Insert K V K_eqb b k v))).
Proof.
  intros W Hb NF.
  pose proof (TableSpec.wf_depth _ _ _ _ W) as D.
  destruct (slot_of_range h k W) as (Hj & Ej).
  unfold T.Insert. cbn [T.InsertInternal].
  rewrite (IndexOf_Done h k D). cbn [bind].
  rewrite (vec_get_nth (dir h) _ 0%nat) by lia. cbn [bind].
  fold (slot_of h k). unfold T.deref at 1. rewrite Hb. cbn [bind].
  unfold T.Bucket_Insert. rewrite NF.
  destruct (T.Bucket_update_list K V K_eqb (T.list_ K V b) k v); reflexivity.
Qed.

(** *** [Remove] *)

Lemma remove_list_find l k l' :
  NoDup (map fst l) -> remove_list l k = Some l' ->
  forall k', find_list l' k' = if K_eqb k k' then None else find_list l k'.
Proof.
  revert l'; induction l as [|[k0 v0] l IH]; intros l' N; cbn [T.Bucket_Remove_list];
    [discriminate|].
  cbn [map fst] in N. inversion N as [|? ? Hn N']; subst.
  destruct (K_eqb k0 k) eqn:E.
  - apply K_eqb_spec in E. subst k0. intros H k'. inversion H; subst l'.
    cbn [T.Bucket_Find_list]. destruct (K_eqb k k') eqn:E'; [|reflexivity].
    apply K_eqb_spec in E'. subst k'. now apply find_list_None.
  - destruct (remove_list l k) as [r|]; [|discriminate].
    intros H k'. inversion H; subst l'. cbn [T.Bucket_Find_list].
    rewrite (IH r N' eq_refl).
    destruct (K_eqb k0 k') eqn:E0; [|reflexivity].
    apply K_eqb_spec in E0. subst k'.
    destruct (K_eqb k k0) eqn:E1; [|reflexivity].
    apply K_eqb_spec in E1. subst k0. rewrite K_eqb_refl in E. discriminate.
Qed.

Lemma list_set_same_value {A : Type} (l : list A) n a :
  nth_error l n = Some a -> list_set l n a = l.
Proof.
  revert n; induction l as [|x l IH]; intros [|n] H; cbn in *; try discriminate.
  - now inversion H.
  - now rewrite IH.
Qed.

Lemma Remove_spec h k :
  wf h ->
  exists r h',
    T.Remove K V K_eqb hash h k = Done (r, h') /\
    wf h' /\
    gd h' = gd h /\ dir h' = dir h /\
    T.bucket_size_ K V h' = T.bucket_size_ K V h /\
    T.num_buckets_ K V h' = T.num_buckets_ K V h /\
    Find h' k = Done None /\
    (forall k', k' <> k -> Find h' k' = Find h k') /\
    (r = true <-> exists v, Find h k = Done (Some v)) /\
    (r = false -> h' = h).
Proof.
  intros W.
  pose proof (TableSpec.wf_depth _ _ _ _ W) as D.
  destruct (slot_of_range h k W) as (Hj & Ej).
  destruct (Find_wf h k W) as (b & Hb & Ok & F).
  set (p := nth (slot_of h k) (dir h) 0%nat) in *.
  assert (Lp : (p < length (heap h))%nat) by (apply nth_error_Some; congruence).
  pose proof (TableSpec.distinct_keys _ _ _ _ _ _ _ Ok) as Nd.
  pose proof (TableSpec.fits _ _ _ _ _ _ _ Ok) as Ft.
  assert (E : T.Remove K V K_eqb hash h k
              = Done (fst (T.Bucket_Remove K V K_eqb b k),
                      T.assign K V h p (snd (T.Bucket_Remove K V K_eqb b k)))).
  { unfold T.Remove. rewrite (IndexOf_Done h k D). cbn [bind].
    rewrite (vec_get_nth (dir h) _ 0%nat) by lia. cbn [bind].
    fold (slot_of h k). fold p. unfold T.deref. rewrite Hb. cbn [bind].
    now destruct (T.Bucket_Remove K V K_eqb b k). }
  rewrite E. unfold T.Bucket_Remove.
  destruct (remove_list (T.list_ K V b) k) as [l'|] eqn:R; cbn [fst snd].
  - (* the key is in the bucket *)
    destruct (remove_list_Some _ _ _ Nd R) as (Nd' & Len & In').
    pose proof (remove_list_find _ _ _ Nd R) as Fl.
    assert (W' : wf (T.assign K V h p
                       (T.mkBucket K V (T.size_ K V b) (T.depth_ K V b) l'))).
    { apply (wf_replace h p b l' W Hb); [lia|exact Nd'|].
      intros i k0 v0 Hi Ei Hin. apply In' in Hin. destruct Hin as (Hin & _).
      apply (TableSpec.placed _ _ _ _ _ _ _
               (bucket_ok_slots h _ i p b Ok Hi Ei) k0 v0 Hin). }
    eexists. eexists. split; [reflexivity|]. split; [exact W'|]. tsimpl.
    do 4 (split; [reflexivity|]).
    split; [|split; [|split]].
    + rewrite Find_assign by assumption. fold p. rewrite Nat.eqb_refl.
      unfold T.Bucket_Find. tsimpl. rewrite Fl, K_eqb_refl. reflexivity.
    + intros k' Dk. rewrite Find_assign by assumption.
      destruct (Nat.eqb_spec (nth (slot_of h k') (dir h) 0%nat) p) as [E1|E1];
        [|reflexivity].
      destruct (Find_wf h k' W) as (b1 & Hb1 & _ & F1). rewrite F1.
      rewrite E1, Hb in Hb1. inversion Hb1; subst b1.
      unfold T.Bucket_Find. tsimpl. rewrite Fl.
      rewrite K_eqb_neq by auto. reflexivity.
    + split; [intros _|reflexivity]. rewrite F. unfold T.Bucket_Find.
      destruct (find_list (T.list_ K V b) k) as [v|] eqn:Fk; [now exists v|].
      apply find_list_None in Fk. apply remove_list_None in Fk. congruence.
    + discriminate.
  - (* the key is not in the table *)
    assert (Same : T.assign K V h p b = h).
    { unfold T.assign, T.set_heap. rewrite (list_set_same_value _ _ _ Hb).
      now destruct h. }
    rewrite Same.
    exists false, h. split; [reflexivity|]. split; [exact W|].
    do 4 (split; [reflexivity|]).
    assert (Fk : Find h k = Done None).
    { rewrite F. unfold T.Bucket_Find. f_equal.
      apply find_list_None. now apply remove_list_None. }
    split; [exact Fk|]. split; [reflexivity|]. split; [|reflexivity].
    split; [discriminate|]. intros (v & Hv). rewrite Fk in Hv. discriminate.
Qed.

(** *** The tables a program can build *)

Lemma wf_init_table bucket_size : 0 <= bucket_size -> wf (T.init K V bucket_size).
Proof.
  intros H. unfold T.init. constructor; tsimpl.
  - lia.
  - reflexivity.
  - reflexivity.
  - intros i Hi. cbn [length] in Hi. assert (i = 0%nat) by lia. subst i.
    cbn [nth nth_error]. eexists. split; [reflexivity|].
    constructor; tsimpl; try lia.
    + cbn [length]. lia.
    + constructor.
    + intros j Hj. cbn [length] in Hj. assert (j = 0%nat) by lia. subst j.
      cbn [nth]. tauto.
    + intros k v [].
Qed.

Lemma reachable_wf_table h : TableSpec.reachable K V K_eqb hash h -> wf h.
Proof.
  induction 1 as [bs Hbs|fuel h k v h' _ IH E|h k r h' _ IH E].
  - now apply wf_init_table.
  - now destruct (Insert_spec fuel h k v h' IH E).
  - destruct (Remove_spec h k IH) as (r0 & h0 & E0 & W0 & _).
    rewrite E in E0. inversion E0; subst. exact W0.
Qed.

(** Every entry held by a bucket is what [Find] gives for its key. *)
Lemma entries_found h i b k v :
  wf h -> (i < length (dir h))%nat ->
  nth_error (heap h) (nth i (dir h) 0%nat) = Some b ->
  In (k, v) (T.list_ K V b) -> Find h k = Done (Some v).
Proof.
  intros W Hi Hb Hin.
  pose proof (TableSpec.wf_depth _ _ _ _ W) as D.
  destruct (TableSpec.wf_buckets _ _ _ _ W i Hi) as (b0 & Hb0 & Ok).
  rewrite Hb in Hb0. inversion Hb0; subst b0; clear Hb0.
  destruct (slot_of_range h k W) as (Hj & Ej).
  destruct (Find_wf h k W) as (b1 & Hb1 & _ & F).
  pose proof (TableSpec.depth_range _ _ _ _ _ _ _ Ok) as Dr.
  assert (E : nth (slot_of h k) (dir h) 0%nat = nth i (dir h) 0%nat).
  { apply (TableSpec.shared _ _ _ _ _ _ _ Ok _ Hj).
    rewrite Ej, low_low by lia.
    exact (TableSpec.placed _ _ _ _ _ _ _ Ok k v Hin). }
  rewrite E, Hb in Hb1. inversion Hb1; subst b1.
  rewrite F. f_equal. unfold T.Bucket_Find.
  apply find_list_Some; [exact (TableSpec.distinct_keys _ _ _ _ _ _ _ Ok)|exact Hin].
Qed.

Lemma GetLocalDepth_wf h i :
  wf h -> 0 <= i < 2 ^ gd h ->
  exists b,
    nth_error (heap h) (nth (Z.to_nat i) (dir h) 0%nat) = Some b /\
    bucket_ok h (Z.to_nat i) (nth (Z.to_nat i) (dir h) 0%nat) b /\
    T.GetLocalDepth K V h i = Done (T.depth_ K V b).
Proof.
  intros W Hi.
  pose proof (TableSpec.wf_dir _ _ _ _ W) as L.
  assert (Hi0 : (Z.to_nat i < length (dir h))%nat) by lia.
  destruct (TableSpec.wf_buckets _ _ _ _ W _ Hi0) as (b & Hb & Ok).
  exists b. split; [exact Hb|]. split; [exact Ok|].
  unfold T.GetLocalDepth. rewrite (vec_get_nth (dir h) i 0%nat) by lia.
  cbn [bind]. unfold T.deref. rewrite Hb. reflexivity.
Qed.

End Table.
End TableFacts.

(** The example tables are built by [Insert]. *)
Lemma reachable_holding_zero :
  TableSpec.reachable Z Z Z.eqb IntTable.hash IntTable.holding_zero.
Proof.
  apply (TableSpec.reach_Insert Z Z Z.eqb IntTable.hash 1%nat (IntTable.init 1) 0 10).
  - apply TableSpec.reach_init. lia.
  - reflexivity.
Defined.

Lemma reachable_two_keys :
  TableSpec.reachable Z Z Z.eqb IntTable.hash TableExamples.two_keys.
Proof.
  apply (TableSpec.reach_Insert Z Z Z.eqb IntTable.hash 3%nat IntTable.holding_zero 1 11).
  - exact reachable_holding_zero.
  - reflexivity.
Defined.

Lemma reachable_three_keys :
  TableSpec.reachable Z Z Z.eqb IntTable.hash TableExamples.three_keys.
Proof.
  apply (TableSpec.reach_Insert Z Z Z.eqb IntTable.hash 3%nat TableExamples.two_keys 2 12).
  - exact reachable_two_keys.
  - reflexivity.
Defined.

(* ================================================================== *)
(** ** The hash table as a map                                         *)
(* ================================================================== *)

(** X17.  On a table built by the constructor, [Insert] and [Remove], with
    [operator==] on keys deciding equality: after an [Insert] that returns,
    [Find] gives the inserted value for the key, and what it gives for
    every other key is what it gave before, however many buckets were
    split on the way. *)
Theorem X17_Insert_binds_the_key_and_keeps_the_others
  (K V : Type) (K_eqb : K -> K -> bool) (hash : K -> Z)
  (K_eqb_spec : forall a b, K_eqb a b = true <-> a = b)
  (fuel : nat) (h : ExtendibleHashTable.t K V) (k : K) (v : V)
  (h' : ExtendibleHashTable.t K V) :
  TableSpec.reachable K V K_eqb hash h ->
  ExtendibleHashTable.Insert K V K_eqb hash fuel h k v = Done h' ->
  ExtendibleHashTable.Find K V K_eqb hash h' k = Done (Some v) /\
  forall k', k' <> k ->
    ExtendibleHashTable.Find K V K_eqb hash h' k'
    = ExtendibleHashTable.Find K V K_eqb hash h k'.
Proof.
  intros R E.
  pose proof (TableFacts.reachable_wf_table K V K_eqb hash K_eqb_spec h R) as W.
  destruct (TableFacts.Insert_spec K V K_eqb hash K_eqb_spec fuel h k v h' W E)
    as (_ & _ & _ & _ & F1 & F2).
  split; assumption.
Qed.

Lemma X17_Insert_binds_the_key_and_keeps_the_others_witness :
  exists h',
    IntTable.Insert 3 TableExamples.two_keys 2 12 = Done h' /\
    IntTable.Find h' 2 = Done (Some 12) /\
    forall k', k' <> 2 -> IntTable.Find h' k' = IntTable.Find TableExamples.two_keys k'.
Proof.
  eexists. split; [reflexivity|].
  apply (X17_Insert_binds_the_key_and_keeps_the_others
           Z Z Z.eqb IntTable.hash Z.eqb_eq 3 TableExamples.two_keys 2 12).
  - exact reachable_two_keys.
  - reflexivity.
Defined.

(** X18.  On such a table [Remove] always returns.  Afterwards [Find] gives
    nothing for the key and what it gave before for every other key; the
    result is [true] exactly when the key was in the table, and on [false]
    the table is as it was.  The directory, the global depth and the number
    of buckets are never changed by [Remove]. *)
Theorem X18_Remove_unbinds_the_key_only
  (K V : Type) (K_eqb : K -> K -> bool) (hash : K -> Z)
  (K_eqb_spec : forall a b, K_eqb a b = true <-> a = b)
  (h : ExtendibleHashTable.t K V) (k : K) :
  TableSpec.reachable K V K_eqb hash h ->
  exists r h',
    ExtendibleHashTable.Remove K V K_eqb hash h k = Done (r, h') /\
    ExtendibleHashTable.Find K V K_eqb hash h' k = Done None /\
    (forall k', k' <> k ->
       ExtendibleHashTable.Find K V K_eqb hash h' k'
       = ExtendibleHashTable.Find K V K_eqb hash h k') /\
    (r = true <-> exists v, ExtendibleHashTable.Find K V K_eqb hash h k = Done (Some v)) /\
    (r = false -> h' = h) /\
    ExtendibleHashTable.dir_ K V h' = ExtendibleHashTable.dir_ K V h /\
    ExtendibleHashTable.GetGlobalDepth K V h' = ExtendibleHashTable.GetGlobalDepth K V h /\
    ExtendibleHashTable.GetNumBuckets K V h' = ExtendibleHashTable.GetNumBuckets K V h.
Proof.
  intros R.
  pose proof (TableFacts.reachable_wf_table K V K_eqb hash K_eqb_spec h R) as W.
  destruct (TableFacts.Remove_spec K V K_eqb hash K_eqb_spec h k W)
    as (r & h' & E & _ & G & D & _ & Nb & F1 & F2 & Rt & Rf).
  exists r, h'. unfold ExtendibleHashTable.GetGlobalDepth, ExtendibleHashTable.GetNumBuckets.
  repeat (split; [assumption|]). assumption.
Qed.

Lemma X18_Remove_unbinds_the_key_only_witness :
  exists r h',
    ExtendibleHashTable.Remove Z Z Z.eqb IntTable.hash IntTable.holding_zero 0
    = Done (r, h') /\
    IntTable.Find h' 0 = Done None /\
    (forall k', k' <> 0 -> IntTable.Find h' k' = IntTable.Find IntTable.holding_zero k') /\
    (r = true <-> exists v, IntTable.Find IntTable.holding_zero 0 = Done (Some v)) /\
    (r = false -> h' = IntTable.holding_zero) /\
    ExtendibleHashTable.dir_ Z Z h' = ExtendibleHashTable.dir_ Z Z IntTable.holding_zero /\
    ExtendibleHashTable.GetGlobalDepth Z Z h'
    = ExtendibleHashTable.GetGlobalDepth Z Z IntTable.holding_zero /\
    ExtendibleHashTable.GetNumBuckets Z Z h'
    = ExtendibleHashTable.GetNumBuckets Z Z IntTable.holding_zero.
Proof.
  apply (X18_Remove_unbinds_the_key_only
           Z Z Z.eqb IntTable.hash Z.eqb_eq IntTable.holding_zero 0).
  exact reachable_holding_zero.
Defined.

(** X19.  On such a table no call reads outside the directory or shifts by
    31 bits or more: the global depth is in [0, 31), the directory has
    [2 ^ global depth] slots, [Find] returns for every key, and
    [GetLocalDepth] returns, for every slot of the directory, a depth
    between 0 and the global depth. *)
Theorem X19_the_directory_has_a_bucket_for_every_hash
  (K V : Type) (K_eqb : K -> K -> bool) (hash : K -> Z)
  (K_eqb_spec : forall a b, K_eqb a b = true <-> a = b)
  (h : ExtendibleHashTable.t K V) :
  TableSpec.reachable K V K_eqb hash h ->
  0 <= ExtendibleHashTable.GetGlobalDepth K V h < 31 /\
  Z.of_nat (length (ExtendibleHashTable.dir_ K V h))
  = 2 ^ ExtendibleHashTable.GetGlobalDepth K V h /\
  (forall k, exists r, ExtendibleHashTable.Find K V K_eqb hash h k = Done r) /\
  (forall i, 0 <= i < 2 ^ ExtendibleHashTable.GetGlobalDepth K V h ->
     exists d,
       ExtendibleHashTable.GetLocalDepth K V h i = Done d /\
       0 <= d <= ExtendibleHashTable.GetGlobalDepth K V h).
Proof.
  intros R.
  pose proof (TableFacts.reachable_wf_table K V K_eqb hash K_eqb_spec h R) as W.
  unfold ExtendibleHashTable.GetGlobalDepth.
  split; [exact (TableSpec.wf_depth _ _ _ _ W)|].
  split; [exact (TableSpec.wf_dir _ _ _ _ W)|].
  split.
  - intros k. destruct (TableFacts.Find_wf K V K_eqb hash h k W) as (b & _ & _ & F).
    eexists. exact F.
  - intros i Hi.
    destruct (TableFacts.GetLocalDepth_wf K V hash h i W Hi) as (b & _ & Ok & E).
    eexists. split; [exact E|].
    exact (TableSpec.depth_range _ _ _ _ _ _ _ Ok).
Qed.

Lemma X19_the_directory_has_a_bucket_for_every_hash_witness :
  0 <= ExtendibleHashTable.GetGlobalDepth Z Z IntTable.holding_zero < 31 /\
  Z.of_nat (length (ExtendibleHashTable.dir_ Z Z IntTable.holding_zero))
  = 2 ^ ExtendibleHashTable.GetGlobalDepth Z Z IntTable.holding_zero /\
  (forall k, exists r, IntTable.Find IntTable.holding_zero k = Done r) /\
  (forall i, 0 <= i < 2 ^ ExtendibleHashTable.GetGlobalDepth Z Z IntTable.holding_zero ->
     exists d,
       ExtendibleHashTable.GetLocalDepth Z Z IntTable.holding_zero i = Done d /\
       0 <= d <= ExtendibleHashTable.GetGlobalDepth Z Z IntTable.holding_zero).
Proof.
  apply (X19_the_directory_has_a_bucket_for_every_hash
           Z Z Z.eqb IntTable.hash Z.eqb_eq IntTable.holding_zero).
  exact reachable_holding_zero.
Defined.

(** X20.  On such a table a bucket never holds more entries than the bucket
    size given to the constructor, and every entry a bucket of the
    directory holds is the one [Find] gives for its key: no entry is out
    of reach of its hash. *)
Theorem X20_every_entry_is_found
  (K V : Type) (K_eqb : K -> K -> bool) (hash : K -> Z)
  (K_eqb_spec : forall a b, K_eqb a b = true <-> a = b)
  (h : ExtendibleHashTable.t K V) (i : Z) (p : nat)
  (b : ExtendibleHashTable.Bucket K V) :
  TableSpec.reachable K V K_eqb hash h ->
  vec_get (ExtendibleHashTable.dir_ K V h) i = Done p ->
  ExtendibleHashTable.deref K V h p = Done b ->
  Z.of_nat (length (ExtendibleHashTable.GetItems K V b))
  <= ExtendibleHashTable.bucket_size_ K V h /\
  forall k v, In (k, v) (ExtendibleHashTable.GetItems K V b) ->
    ExtendibleHashTable.Find K V K_eqb hash h k = Done (Some v).
Proof.
  intros R Hp Hb.
  pose proof (TableFacts.reachable_wf_table K V K_eqb hash K_eqb_spec h R) as W.
  unfold vec_get in Hp. destruct (Z.ltb_spec i 0) as [|Hi]; [discriminate|].
  destruct (nth_error (ExtendibleHashTable.dir_ K V h) (Z.to_nat i)) as [p0|] eqn:Ei;
    inversion Hp; subst p0; clear Hp.
  assert (Li : (Z.to_nat i < length (ExtendibleHashTable.dir_ K V h))%nat)
    by (apply nth_error_Some; congruence).
  assert (Ep : nth (Z.to_nat i) (ExtendibleHashTable.dir_ K V h) 0%nat = p)
    by (now apply nth_error_nth).
  unfold ExtendibleHashTable.deref in Hb.
  destruct (nth_error (ExtendibleHashTable.heap_ K V h) p) as [b0|] eqn:Eb;
    inversion Hb; subst b0; clear Hb.
  rewrite <- Ep in Eb.
  destruct (TableSpec.wf_buckets _ _ _ _ W _ Li) as (b1 & Hb1 & Ok).
  rewrite Eb in Hb1. inversion Hb1; subst b1; clear Hb1.
  unfold ExtendibleHashTable.GetItems. split.
  - rewrite <- (TableSpec.capacity _ _ _ _ _ _ _ Ok).
    exact (TableSpec.fits _ _ _ _ _ _ _ Ok).
  - intros k v Hin.
    exact (TableFacts.entries_found K V K_eqb hash K_eqb_spec h _ b k v W Li Eb Hin).
Qed.

Lemma X20_every_entry_is_found_witness :
  Z.of_nat (length (ExtendibleHashTable.GetItems Z Z
                      (ExtendibleHashTable.mkBucket Z Z 1 0 [(0, 10)])))
  <= ExtendibleHashTable.bucket_size_ Z Z IntTable.holding_zero /\
  forall k v,
    In (k, v) (ExtendibleHashTable.GetItems Z Z
                 (ExtendibleHashTable.mkBucket Z Z 1 0 [(0, 10)])) ->
    IntTable.Find IntTable.holding_zero k = Done (Some v).
Proof.
  apply (X20_every_entry_is_found
           Z Z Z.eqb IntTable.hash Z.eqb_eq IntTable.holding_zero 0 0%nat).
  - exact reachable_holding_zero.
  - reflexivity.
  - reflexivity.
Defined.

(** X21.  On such a table with a global depth below 30, the split that
    [InsertInternal] makes of the bucket of a slot returns; it changes what
    [Find] gives for no key, adds one bucket, and raises the global depth
    by at most one. *)
Theorem X21_a_split_changes_no_binding
  (K V : Type) (K_eqb : K -> K -> bool) (hash : K -> Z)
  (K_eqb_spec : forall a b, K_eqb a b = true <-> a = b)
  (h : ExtendibleHashTable.t K V) (index : Z) :
  TableSpec.reachable K V K_eqb hash h ->
  0 <= index < 2 ^ ExtendibleHashTable.GetGlobalDepth K V h ->
  ExtendibleHashTable.GetGlobalDepth K V h < 30 ->
  exists h',
    ExtendibleHashTable.split K V K_eqb hash h index = Done h' /\
    (forall k, ExtendibleHashTable.Find K V K_eqb hash h' k
               = ExtendibleHashTable.Find K V K_eqb hash h k) /\
    ExtendibleHashTable.GetNumBuckets K V h'
    = ExtendibleHashTable.GetNumBuckets K V h + 1 /\
    ExtendibleHashTable.GetGlobalDepth K V h
    <= ExtendibleHashTable.GetGlobalDepth K V h'
    <= ExtendibleHashTable.GetGlobalDepth K V h + 1.
Proof.
  unfold ExtendibleHashTable.GetGlobalDepth, ExtendibleHashTable.GetNumBuckets.
  intros R Hi Hg.
  pose proof (TableFacts.reachable_wf_table K V K_eqb hash K_eqb_spec h R) as W.
  destruct (TableFacts.split_spec K V K_eqb hash K_eqb_spec h index W Hi)
    as [(h' & S & _ & F & G & _ & Nb)|(G30 & _)]; [|lia].
  exists h'. repeat (split; [assumption|]). assumption.
Qed.

Lemma X21_a_split_changes_no_binding_witness :
  exists h',
    IntTable.split IntTable.holding_zero 0 = Done h' /\
    (forall k, IntTable.Find h' k = IntTable.Find IntTable.holding_zero k) /\
    ExtendibleHashTable.GetNumBuckets Z Z h'
    = ExtendibleHashTable.GetNumBuckets Z Z IntTable.holding_zero + 1 /\
    ExtendibleHashTable.GetGlobalDepth Z Z IntTable.holding_zero
    <= ExtendibleHashTable.GetGlobalDepth Z Z h'
    <= ExtendibleHashTable.GetGlobalDepth Z Z IntTable.holding_zero + 1.
Proof.
  apply (X21_a_split_changes_no_binding
           Z Z Z.eqb IntTable.hash Z.eqb_eq IntTable.holding_zero 0).
  - exact reachable_holding_zero.
  - cbn. lia.
  - cbn. lia.
Defined.

(** X22.  On such a table, when the bucket of the key is not full, [Insert]
    returns after one call of [InsertInternal] and leaves the directory,
    the global depth and the number of buckets as they were. *)
Theorem X22_Insert_with_room_splits_nothing
  (K V : Type) (K_eqb : K -> K -> bool) (hash : K -> Z)
  (K_eqb_spec : forall a b, K_eqb a b = true <-> a = b)
  (fuel : nat) (h : ExtendibleHashTable.t K V) (k : K) (v : V)
  (i : Z) (p : nat) (b : ExtendibleHashTable.Bucket K V) :
  TableSpec.reachable K V K_eqb hash h ->
  ExtendibleHashTable.IndexOf K V hash h k = Done i ->
  vec_get (ExtendibleHashTable.dir_ K V h) i = Done p ->
  ExtendibleHashTable.deref K V h p = Done b ->
  ExtendibleHashTable.IsFull K V b = false ->
  exists h',
    ExtendibleHashTable.Insert K V K_eqb hash (S fuel) h k v = Done h' /\
    ExtendibleHashTable.dir_ K V h' = ExtendibleHashTable.dir_ K V h /\
    ExtendibleHashTable.GetGlobalDepth K V h' = ExtendibleHashTable.GetGlobalDepth K V h /\
    ExtendibleHashTable.GetNumBuckets K V h' = ExtendibleHashTable.GetNumBuckets K V h.
Proof.
  intros R Ei Hp Hb NF.
  pose proof (TableFacts.reachable_wf_table K V K_eqb hash K_eqb_spec h R) as W.
  pose proof (TableSpec.wf_depth _ _ _ _ W) as D.
  destruct (TableFacts.slot_of_range K V hash h k W) as (Hj & Ej).
  rewrite (TableFacts.IndexOf_Done K V hash h k D) in Ei.
  inversion Ei; subst i; clear Ei.
  rewrite (TableFacts.vec_get_nth _ _ 0%nat) in Hp by lia.
  inversion Hp as [Ep]; clear Hp.
  unfold ExtendibleHashTable.deref in Hb.
  destruct (nth_error (ExtendibleHashTable.heap_ K V h) p) as [b0|] eqn:Eb;
    inversion Hb; subst b0; clear Hb.
  rewrite <- Ep in Eb.
  eexists. split.
  - exact (TableFacts.Insert_room K V K_eqb hash fuel h k v b W Eb NF).
  - repeat split.
Qed.

Lemma X22_Insert_with_room_splits_nothing_witness :
  exists h',
    IntTable.Insert 1 (IntTable.init 2) 5 50 = Done h' /\
    ExtendibleHashTable.dir_ Z Z h' = ExtendibleHashTable.dir_ Z Z (IntTable.init 2) /\
    ExtendibleHashTable.GetGlobalDepth Z Z h'
    = ExtendibleHashTable.GetGlobalDepth Z Z (IntTable.init 2) /\
    ExtendibleHashTable.GetNumBuckets Z Z h'
    = ExtendibleHashTable.GetNumBuckets Z Z (IntTable.init 2).
Proof.
  apply (X22_Insert_with_room_splits_nothing
           Z Z Z.eqb IntTable.hash Z.eqb_eq 0 (IntTable.init 2) 5 50 0 0%nat
           (ExtendibleHashTable.mkBucket Z Z 2 0 [])).
  - apply TableSpec.reach_init. lia.
  - reflexivity.
  - reflexivity.
  - reflexivity.
  - reflexivity.
Defined.

(** X23.  On such a table two slots of the directory point to the same
    bucket exactly when their numbers agree on the low bits counted by the
    local depth of that bucket. *)
Theorem X23_slots_share_a_bucket_by_their_low_bits
  (K V : Type) (K_eqb : K -> K -> bool) (hash : K -> Z)
  (K_eqb_spec : forall a b, K_eqb a b = true <-> a = b)
  (h : ExtendibleHashTable.t K V) (i j d : Z) (p q : nat) :
  TableSpec.reachable K V K_eqb hash h ->
  vec_get (ExtendibleHashTable.dir_ K V h) i = Done p ->
  vec_get (ExtendibleHashTable.dir_ K V h) j = Done q ->
  ExtendibleHashTable.GetLocalDepth K V h i = Done d ->
  (p = q <-> i mod 2 ^ d = j mod 2 ^ d).
Proof.
  intros R Hp Hq Hd.
  pose proof (TableFacts.reachable_wf_table K V K_eqb hash K_eqb_spec h R) as W.
  pose proof (TableSpec.wf_dir _ _ _ _ W) as L.
  assert (Ri : 0 <= i < Z.of_nat (length (ExtendibleHashTable.dir_ K V h))).
  { unfold vec_get in Hp. destruct (Z.ltb_spec i 0); [discriminate|].
    destruct (nth_error (ExtendibleHashTable.dir_ K V h) (Z.to_nat i)) eqn:E;
      [|discriminate].
    assert (Z.to_nat i < length (ExtendibleHashTable.dir_ K V h))%nat
      by (apply nth_error_Some; congruence). lia. }
  assert (Rj : 0 <= j < Z.of_nat (length (ExtendibleHashTable.dir_ K V h))).
  { unfold vec_get in Hq. destruct (Z.ltb_spec j 0); [discriminate|].
    destruct (nth_error (ExtendibleHashTable.dir_ K V h) (Z.to_nat j)) eqn:E;
      [|discriminate].
    assert (Z.to_nat j < length (ExtendibleHashTable.dir_ K V h))%nat
      by (apply nth_error_Some; congruence). lia. }
  rewrite (TableFacts.vec_get_nth _ i 0%nat) in Hp by assumption.
  rewrite (TableFacts.vec_get_nth _ j 0%nat) in Hq by assumption.
  inversion Hp as [Ep]; inversion Hq as [Eq]; clear Hp Hq.
  destruct (TableFacts.GetLocalDepth_wf K V hash h i W ltac:(lia)) as (b & _ & Ok & E).
  rewrite E in Hd. inversion Hd; subst d; clear Hd.
  pose proof (TableSpec.shared _ _ _ _ _ _ _ Ok (Z.to_nat j) ltac:(lia)) as S.
  rewrite !Z2Nat.id in S by lia.
  split; intros H.
  - symmetry. apply S. congruence.
  - symmetry in H. apply S in H. congruence.
Qed.

Lemma X23_slots_share_a_bucket_by_their_low_bits_witness :
  (1%nat = 1%nat <-> 1 mod 2 ^ 1 = 3 mod 2 ^ 1) /\
  (0%nat = 2%nat <-> 0 mod 2 ^ 2 = 2 mod 2 ^ 2).
Proof.
  split.
  - apply (X23_slots_share_a_bucket_by_their_low_bits
             Z Z Z.eqb IntTable.hash Z.eqb_eq TableExamples.three_keys 1 3 1 1%nat 1%nat).
    + exact reachable_three_keys.
    + reflexivity.
    + reflexivity.
    + reflexivity.
  - apply (X23_slots_share_a_bucket_by_their_low_bits
             Z Z Z.eqb IntTable.hash Z.eqb_eq TableExamples.three_keys 0 2 2 0%nat 2%nat).
    + exact reachable_three_keys.
    + reflexivity.
    + reflexivity.
    + reflexivity.
Defined.

(* ================================================================== *)
(** ** The invariant of the buffer pool                                *)
(* ================================================================== *)

Module PoolFacts.

Import BufferPoolManagerInstance.
Module R := LRUKReplacer.
Module RS := LRUKSpec.

Ltac bind_step H :=
  let a := fresh "a" in
  let E := fresh "E" in
  apply bind_Done_inv in H; destruct H as (a & E & H).

(** *** Reading a vector after a write *)

Lemma vec_get_set {A : Type} (v v' : list A) f a g :
  vec_set v f a = Done v' ->
  vec_get v' g = if g =? f then Done a else vec_get v g.
Proof.
  intros H. apply vec_set_Done in H. destruct H as (H0 & Hl & ->).
  unfold vec_get. destruct (Z.ltb_spec g 0).
  - destruct (Z.eqb_spec g f); [lia|reflexivity].
  - destruct (Z.eqb_spec g f) as [->|N].
    + now rewrite nth_error_list_set_eq.
    + rewrite nth_error_list_set_neq by lia. reflexivity.
Qed.

Lemma vec_set_length {A : Type} (v v' : list A) f a :
  vec_set v f a = Done v' -> length v' = length v.
Proof.
  intros H. apply vec_set_Done in H. destruct H as (_ & _ & ->).
  apply length_list_set.
Qed.

Lemma vec_get_range {A : Type} (v : list A) f a :
  vec_get v f = Done a -> 0 <= f < Z.of_nat (length v).
Proof.
  intros H. apply vec_get_Done in H. destruct H as (H0 & H).
  assert (Z.to_nat f < length v)%nat by (apply nth_error_Some; congruence). lia.
Qed.

(** *** What the pool needs of the replacer *)

Lemma RecordAccess_flags r f r' :
  RS.wf r -> R.current_timestamp_ r + 1 < size_t_modulus ->
  R.RecordAccess r f = Done r' ->
  RS.wf r' /\ 0 <= f /\
  (forall g, RS.frame_evictable r' g = RS.frame_evictable r g) /\
  RS.frame_allocated r' (Z.to_nat f) = true.
Proof.
  intros W C H.
  destruct (LRUKFacts.RecordAccess_Done_inv r f r' W H) as (Hi & Ef).
  split; [exact (LRUKFacts.wf_RecordAccess r f r' W C H)|]. split; [lia|].
  destruct (ReplacerFacts.RecordAccess_effect r (Z.to_nat f) W Hi C)
    as (r1 & E1 & _ & _ & Ev & Al & _).
  rewrite <- Ef, H in E1. inversion E1; subst r1. split; assumption.
Qed.

Lemma SetEvictable_Done_inv r f v r' :
  RS.wf r -> R.SetEvictable r f v = Done r' ->
  (Z.to_nat f < RS.num_frames r)%nat /\ f = Z.of_nat (Z.to_nat f).
Proof.
  intros W H. unfold R.SetEvictable in H.
  destruct (R.IsValidFrameId r f) eqn:V; cbn [negb] in H; [|discriminate].
  bind_step H. apply LRUKFacts.vec_get_nonneg in E.
  exact (LRUKFacts.valid_frame_id r f W V E).
Qed.

Lemma SetEvictable_flags r f v r' :
  RS.wf r -> R.SetEvictable r f v = Done r' ->
  RS.wf r' /\ 0 <= f /\
  R.current_timestamp_ r' = R.current_timestamp_ r /\
  (forall g, g <> Z.to_nat f -> RS.frame_evictable r' g = RS.frame_evictable r g) /\
  (RS.frame_allocated r (Z.to_nat f) = true ->
   RS.frame_evictable r' (Z.to_nat f) = v) /\
  (RS.frame_allocated r (Z.to_nat f) = false -> r' = r).
Proof.
  intros W H.
  destruct (SetEvictable_Done_inv r f v r' W H) as (Hi & Ef).
  split; [exact (LRUKFacts.wf_SetEvictable r f v r' W H)|]. split; [lia|].
  split.
  { unfold R.SetEvictable in H.
    destruct (R.IsValidFrameId r f); cbn [negb] in H; [|discriminate].
    bind_step H. destruct a; cbn [negb] in H; [|now inversion H].
    bind_step H. bind_step H. inversion H; subst r'.
    destruct a, v; reflexivity. }
  destruct (ReplacerFacts.SetEvictable_effect r (Z.to_nat f) v W Hi)
    as (r1 & E1 & Un & Al).
  rewrite <- Ef, H in E1. inversion E1; subst r1.
  split; [|split].
  - intros g Hg. destruct (RS.frame_allocated r (Z.to_nat f)) eqn:A.
    + destruct (Al eq_refl) as (_ & _ & Ot & _). now apply Ot.
    + now rewrite (Un eq_refl).
  - intros A. now destruct (Al A).
  - exact Un.
Qed.

Lemma RemoveInternal_flags r f r' :
  R.RemoveInternal r f = Done r' ->
  R.current_timestamp_ r' = R.current_timestamp_ r /\
  forall g, RS.frame_evictable r' g = true -> RS.frame_evictable r g = true.
Proof.
  unfold R.RemoveInternal. intros H. bind_step H. bind_step H. bind_step H.
  inversion H; subst r'. split; [reflexivity|].
  apply vec_set_Done in E0. destruct E0 as (H0 & Hl & ->).
  intros g. unfold RS.frame_evictable. cbn [R.evictable_].
  rewrite (LRUKFacts.nth_list_set _ _ _ _ _ Hl).
  destruct (Nat.eqb (Z.to_nat f) g); [discriminate|auto].
Qed.

Lemma Evict_flags r v r' :
  RS.wf r -> R.Evict r = Done (Some v, r') ->
  RS.wf r' /\ 0 <= v /\
  R.current_timestamp_ r' = R.current_timestamp_ r /\
  RS.frame_evictable r (Z.to_nat v) = true /\
  forall g, RS.frame_evictable r' g = true -> RS.frame_evictable r g = true.
Proof.
  intros W H.
  split; [exact (LRUKFacts.wf_Evict r (Some v) r' W H)|].
  destruct (Z.eq_dec (RS.count_evictable r) 0) as [E0|N0].
  - rewrite (LRUKFacts.Evict_none r W E0) in H. discriminate.
  - destruct (LRUKFacts.Evict_victim r W N0) as (i & r1 & E1 & Pv & Rm & _).
    rewrite H in E1. inversion E1; subst v r1.
    destruct Pv as ((_ & Ev) & _).
    destruct (RemoveInternal_flags r (Z.of_nat i) r' Rm) as (Ts & Mono).
    split; [lia|]. split; [exact Ts|]. rewrite Nat2Z.id. split; assumption.
Qed.

Lemma Remove_flags r f r' :
  RS.wf r -> R.Remove r f = Done r' ->
  RS.wf r' /\
  forall g, RS.frame_evictable r' g = true -> RS.frame_evictable r g = true.
Proof.
  intros W H. split; [exact (LRUKFacts.wf_Remove r f r' W H)|].
  unfold R.Remove in H.
  destruct (R.IsValidFrameId r f); cbn [negb] in H; [|inversion H; subst; auto].
  bind_step H. destruct a; cbn [negb] in H; [|inversion H; subst; auto].
  bind_step H. destruct a; cbn [negb] in H; [|discriminate].
  now apply (RemoveInternal_flags r f r').
Qed.


(** *** Changing the page of one frame *)

Ltac psimpl :=
  unfold Find in *;
  cbn [pool_size_ next_page_id_ pages_ page_table_ replacer_ free_list_
       disk_manager_ set_next_page_id set_pages set_page_table set_replacer
       set_free_list set_disk_manager DeallocatePage
       page_id_ pin_count_ data_ is_dirty_ GetPinCount IsDirty GetData] in *.

(** The page table and the free list stay; the frame [f0] gets a page with
    the same page id, and the replacer may change. *)
Lemma wf_update b f0 pg0 pg' ps r' :
  PoolSpec.wf b ->
  vec_get (pages_ b) f0 = Done pg0 ->
  vec_set (pages_ b) f0 pg' = Done ps ->
  page_id_ pg' = page_id_ pg0 -> 0 <= pin_count_ pg' ->
  RS.wf r' ->
  (forall g, g <> Z.to_nat f0 -> RS.frame_evictable r' g = true ->
             RS.frame_evictable (replacer_ b) g = true) ->
  (RS.frame_evictable r' (Z.to_nat f0) = true -> pin_count_ pg' = 0) ->
  (In f0 (free_list_ b) -> pin_count_ pg' = 0) ->
  PoolSpec.wf (set_pages (set_replacer b r') ps).
Proof.
  intros W G S Pid Pin Wr Mono Ev Fr.
  destruct W as [WT WR WL WM WF WFP WP WE].
  pose proof (vec_get_range _ _ _ G) as Rg.
  constructor; psimpl.
  - exact WT.
  - exact Wr.
  - rewrite (vec_set_length _ _ _ _ S). exact WL.
  - intros pid f Hf. destruct (WM pid f Hf) as (pg & Hg & Hp & Hn).
    rewrite (vec_get_set _ _ _ _ f S).
    destruct (Z.eqb_spec f f0) as [->|N].
    + exists pg'. rewrite G in Hg. inversion Hg; subst pg.
      split; [reflexivity|]. split; [congruence|exact Hn].
    + exists pg. auto.
  - exact WF.
  - intros f pg Hin Hg. rewrite (vec_get_set _ _ _ _ f S) in Hg.
    destruct (Z.eqb_spec f f0) as [->|N].
    + inversion Hg; subst pg. now apply Fr.
    + now apply (WFP f).
  - intros f pg Hg. rewrite (vec_get_set _ _ _ _ f S) in Hg.
    destruct (Z.eqb_spec f f0) as [->|N].
    + inversion Hg; subst pg. exact Pin.
    + now apply (WP f).
  - intros f pg Hg He. rewrite (vec_get_set _ _ _ _ f S) in Hg.
    destruct (Z.eqb_spec f f0) as [->|N].
    + inversion Hg; subst pg. now apply Ev.
    + pose proof (vec_get_range _ _ _ Hg). apply (WE f pg Hg).
      apply Mono; [lia|exact He].
Qed.

(** *** [acquire_frame] *)

Lemma acquire_frame_wf b frame b1 :
  PoolSpec.wf b -> acquire_frame b = Done (frame, b1) ->
  PoolSpec.wf b1 /\
  pages_ b1 = pages_ b /\ disk_manager_ b1 = disk_manager_ b /\
  R.current_timestamp_ (replacer_ b1) = R.current_timestamp_ (replacer_ b) /\
  match frame with
  | None => b1 = b
  | Some f0 =>
      (forall page_id, Find b1 page_id <> Done (Some f0)) /\
      ~ In f0 (free_list_ b1) /\
      (forall pg, vec_get (pages_ b) f0 = Done pg -> pin_count_ pg = 0)
  end.
Proof.
  intros W H. pose proof W as W0.
  destruct W as [WT WR WL WM WF WFP WP WE].
  unfold acquire_frame in H.
  destruct (free_list_ b) as [|f0 rest] eqn:FL.
  - destruct (R.Size (replacer_ b) >? 0); [|inversion H; subst; auto].
    bind_step H. destruct a as [victim r1].
    destruct victim as [f0|]; [|discriminate].
    psimpl. bind_step H. rename a into pg. bind_step H. destruct a as [ok pt].
    inversion H; subst frame b1; clear H. psimpl.
    destruct (Evict_flags _ _ _ WR E) as (Wr1 & H0 & Ts & Ev0 & Mono).
    destruct (TableFacts.Remove_spec Z Z Z.eqb hash_int Z.eqb_eq (page_table_ b)
                (page_id_ pg) WT)
      as (ok' & pt' & ER & WT' & _ & _ & _ & _ & Fn & Fo & _).
    rewrite E1 in ER. inversion ER; subst ok' pt'; clear ER.
    assert (NoMap : forall page_id,
               Table.Find Z Z Z.eqb hash_int pt page_id <> Done (Some f0)).
    { intros pid Hf. destruct (Z.eq_dec pid (page_id_ pg)) as [->|N].
      - rewrite Fn in Hf. discriminate.
      - rewrite (Fo pid N) in Hf. destruct (WM pid f0 Hf) as (pg1 & Hg1 & Hp1 & _).
        rewrite E0 in Hg1. inversion Hg1; subst pg1. congruence. }
    split; [|split; [reflexivity|split; [reflexivity|split; [exact Ts|]]]].
    + constructor; psimpl; rewrite ?FL; auto.
      * intros pid f Hf. destruct (Z.eq_dec pid (page_id_ pg)) as [->|N].
        -- rewrite Fn in Hf. discriminate.
        -- rewrite (Fo pid N) in Hf. exact (WM pid f Hf).
      * intros f pg1 Hg He. apply (WE f pg1 Hg). apply Mono. exact He.
    + rewrite FL. split; [exact NoMap|]. split; [intros []|].
      intros pg1 Hg1. exact (WE f0 pg1 Hg1 Ev0).
  - inversion H; subst frame b1; clear H. psimpl.
    split; [|split; [reflexivity|split; [reflexivity|split; [reflexivity|]]]].
    + constructor; psimpl; auto.
      * intros pid f Hf. destruct (WM pid f Hf) as (pg & Hg & Hp & Hn).
        exists pg. cbn [In] in Hn. tauto.
      * now inversion WF.
      * intros f pg Hin. apply WFP. now right.
    + split; [|split].
      * intros pid Hf. destruct (WM pid f0 Hf) as (pg & _ & _ & Hn).
        apply Hn. now left.
      * now inversion WF.
      * intros pg Hg. apply (WFP f0 pg); [now left|exact Hg].
Qed.

(** *** [install] *)

Lemma install_wf fuel b f0 page_id load b2 :
  PoolSpec.wf b -> PoolSpec.clock_ok b ->
  (forall pid, Find b pid <> Done (Some f0)) ->
  ~ In f0 (free_list_ b) ->
  install fuel b f0 page_id load = Done b2 ->
  PoolSpec.wf b2 /\
  Find b2 page_id = Done (Some f0) /\
  (forall pid, pid <> page_id -> Find b2 pid = Find b pid) /\
  (exists pg,
     vec_get (pages_ b) f0 = Done pg /\
     disk_manager_ b2
     = (if is_dirty_ pg
        then DiskManager.WritePage (disk_manager_ b) (page_id_ pg) (data_ pg)
        else disk_manager_ b)) /\
  vec_get (pages_ b2) f0
  = Done (mkPage (load (disk_manager_ b2)) page_id 1 false) /\
  (forall g, g <> f0 -> vec_get (pages_ b2) g = vec_get (pages_ b) g) /\
  free_list_ b2 = free_list_ b.
Proof.
  intros W C NoMap NotFree H.
  destruct W as [WT WR WL WM WF WFP WP WE].
  unfold install in H. bind_step H. rename a into r1. rename E into E1.
  bind_step H. rename a into r2. rename E into E2. psimpl.
  bind_step H. rename a into pt. rename E into E3. psimpl.
  bind_step H. rename a into pg. rename E into E4.
  bind_step H. rename a into ps. rename E into E5.
  inversion H; subst b2; clear H.
  destruct (RecordAccess_flags _ _ _ WR C E1) as (W1 & H0 & Ev1 & Al1).
  destruct (SetEvictable_flags _ _ _ _ W1 E2) as (W2 & _ & _ & Ev2 & Ev2' & _).
  destruct (TableFacts.Insert_spec Z Z Z.eqb hash_int Z.eqb_eq fuel _ _ _ _ WT E3)
    as (WT' & _ & _ & _ & Fk & Fo).
  unfold IsDirty, GetData in *.
  assert (Ok : forall b1 : t,
    page_table_ b1 = pt -> replacer_ b1 = r2 -> free_list_ b1 = free_list_ b ->
    pool_size_ b1 = pool_size_ b ->
    forall x, vec_set (pages_ b) f0 (mkPage x page_id 1 false) = Done ps ->
    PoolSpec.wf (set_pages b1 ps)).
  { intros b1 Ept Er Efl Eps x S. constructor; psimpl; rewrite ?Ept, ?Er, ?Efl, ?Eps.
    - exact WT'.
    - exact W2.
    - rewrite (vec_set_length _ _ _ _ S). exact WL.
    - intros pid f Hf. rewrite (vec_get_set _ _ _ _ f S).
      destruct (Z.eq_dec pid page_id) as [->|N].
      + rewrite Fk in Hf. inversion Hf; subst f. rewrite Z.eqb_refl.
        eexists. split; [reflexivity|]. split; [reflexivity|exact NotFree].
      + rewrite (Fo pid N) in Hf.
        destruct (Z.eqb_spec f f0) as [->|Nf]; [now destruct (NoMap pid)|].
        exact (WM pid f Hf).
    - exact WF.
    - intros f pg1 Hin Hg. rewrite (vec_get_set _ _ _ _ f S) in Hg.
      destruct (Z.eqb_spec f f0) as [->|Nf]; [contradiction|].
      exact (WFP f pg1 Hin Hg).
    - intros f pg1 Hg. rewrite (vec_get_set _ _ _ _ f S) in Hg.
      destruct (Z.eqb_spec f f0) as [->|Nf].
      + inversion Hg; subst pg1. cbn. lia.
      + exact (WP f pg1 Hg).
    - intros f pg1 Hg He. rewrite (vec_get_set _ _ _ _ f S) in Hg.
      destruct (Z.eqb_spec f f0) as [->|Nf].
      + rewrite (Ev2' Al1) in He. discriminate.
      + pose proof (vec_get_range _ _ _ Hg).
        rewrite Ev2 in He by lia. rewrite Ev1 in He. exact (WE f pg1 Hg He). }
  destruct (is_dirty_ pg) eqn:Dy; psimpl.
  - split; [eapply Ok; [| | | |exact E5]; reflexivity|].
    split; [exact Fk|]. split; [exact Fo|].
    split; [exists pg; rewrite Dy; split; [exact E4|reflexivity]|].
    split; [rewrite (vec_get_set _ _ _ _ f0 E5), Z.eqb_refl; reflexivity|].
    split; [|reflexivity].
    intros g Ng. rewrite (vec_get_set _ _ _ _ g E5).
    destruct (Z.eqb_spec g f0); [contradiction|reflexivity].
  - split; [eapply Ok; [| | | |exact E5]; reflexivity|].
    split; [exact Fk|]. split; [exact Fo|].
    split; [exists pg; rewrite Dy; split; [exact E4|reflexivity]|].
    split; [rewrite (vec_get_set _ _ _ _ f0 E5), Z.eqb_refl; reflexivity|].
    split; [|reflexivity].
    intros g Ng. rewrite (vec_get_set _ _ _ _ g E5).
    destruct (Z.eqb_spec g f0); [contradiction|reflexivity].
Qed.


(** *** The calls of the pool *)

Lemma wf_set_next_page_id b x : PoolSpec.wf b -> PoolSpec.wf (set_next_page_id b x).
Proof. intros [WT WR WL WM WF WFP WP WE]. constructor; psimpl; auto. Qed.

Lemma Find_returns b page_id :
  PoolSpec.wf b -> exists r, Find b page_id = Done r.
Proof.
  intros W.
  destruct (TableFacts.Find_wf Z Z Z.eqb hash_int (page_table_ b) page_id
              (PoolSpec.wf_page_table _ W)) as (bk & _ & _ & F).
  eexists. exact F.
Qed.

Lemma NewPgImp_spec fuel b page_id frame b' :
  PoolSpec.wf b -> PoolSpec.clock_ok b ->
  NewPgImp fuel b = Done (page_id, frame, b') ->
  PoolSpec.wf b' /\
  match frame with
  | None => free_list_ b = [] /\ pages_ b' = pages_ b
  | Some f =>
      Find b' page_id = Done (Some f) /\
      vec_get (pages_ b') f = Done (mkPage ZeroData page_id 1 false) /\
      (forall pg, vec_get (pages_ b) f = Done pg -> pin_count_ pg = 0) /\
      (forall g, g <> f -> vec_get (pages_ b') g = vec_get (pages_ b) g)
  end.
Proof.
  intros W C H. unfold NewPgImp, AllocatePage in H.
  bind_step H. destruct a as [fr b1].
  pose proof (wf_set_next_page_id b (wrap_int (next_page_id_ b + 1)) W) as W0.
  destruct (acquire_frame_wf _ _ _ W0 E) as (W1 & Pg1 & Dk1 & Ts1 & Post).
  psimpl. destruct fr as [f0|].
  - bind_step H. inversion H; subst page_id frame b'; clear H.
    destruct Post as (NoMap & NotFree & Pin0).
    assert (C1 : PoolSpec.clock_ok b1) by (unfold PoolSpec.clock_ok in *; now rewrite Ts1).
    destruct (install_wf fuel b1 f0 _ _ a W1 C1 NoMap NotFree E0)
      as (W2 & Fk & _ & _ & Hg & Ho & _).
    split; [exact W2|]. split; [exact Fk|]. split; [exact Hg|].
    split; [exact Pin0|]. intros g Ng. rewrite (Ho g Ng), Pg1. reflexivity.
  - inversion H; subst page_id frame b'; clear H. subst b1.
    split; [exact W0|]. split; [|reflexivity].
    unfold acquire_frame in E. psimpl.
    destruct (free_list_ b); [reflexivity|discriminate].
Qed.

Lemma FetchPgImp_hit fuel b page_id f frame b' :
  PoolSpec.wf b -> PoolSpec.clock_ok b ->
  Find b page_id = Done (Some f) ->
  FetchPgImp fuel b page_id = Done (frame, b') ->
  frame = Some f /\ PoolSpec.wf b' /\
  page_table_ b' = page_table_ b /\ disk_manager_ b' = disk_manager_ b /\
  free_list_ b' = free_list_ b /\
  exists pg,
    vec_get (pages_ b) f = Done pg /\
    vec_get (pages_ b') f
    = Done (mkPage (data_ pg) (page_id_ pg) (pin_count_ pg + 1) (is_dirty_ pg)) /\
    forall g, g <> f -> vec_get (pages_ b') g = vec_get (pages_ b) g.
Proof.
  intros W C Hf H. unfold FetchPgImp in H. rewrite Hf in H. cbn [bind] in H.
  bind_step H. rename a into r1. rename E into E1.
  bind_step H. rename a into pg. rename E into E2.
  bind_step H. rename a into r2. rename E into E3.
  bind_step H. rename a into ps. rename E into E4.
  inversion H; subst frame b'; clear H.
  pose proof (PoolSpec.wf_replacer _ W) as WR.
  destruct (RecordAccess_flags _ _ _ WR C E1) as (W1 & H0 & Ev1 & Al1).
  destruct (PoolSpec.wf_resident _ W _ _ Hf) as (pg0 & Hg0 & Hp0 & NotFree).
  rewrite E2 in Hg0. inversion Hg0; subst pg0; clear Hg0.
  pose proof (PoolSpec.wf_pin_count _ W _ _ E2) as Pin.
  split; [reflexivity|]. split.
  - apply (wf_update b f pg _ ps r2 W E2 E4); psimpl.
    + reflexivity.
    + lia.
    + destruct (pin_count_ pg =? 0).
      * now destruct (SetEvictable_flags _ _ _ _ W1 E3).
      * now inversion E3; subst r2.
    + intros g Ng He. rewrite <- Ev1. destruct (pin_count_ pg =? 0).
      * destruct (SetEvictable_flags _ _ _ _ W1 E3) as (_ & _ & _ & Ot & _).
        now rewrite <- Ot.
      * now inversion E3; subst r2.
    + intros He. exfalso. destruct (Z.eqb_spec (pin_count_ pg) 0) as [P0|P0].
      * destruct (SetEvictable_flags _ _ _ _ W1 E3) as (_ & _ & _ & _ & At & _).
        rewrite (At Al1) in He. discriminate.
      * inversion E3; subst r2. rewrite Ev1 in He.
        apply P0. exact (PoolSpec.wf_evictable_frames _ W _ _ E2 He).
    + intros Hin. contradiction.
  - psimpl. do 3 (split; [reflexivity|]). exists pg.
    split; [exact E2|]. split.
    + rewrite (vec_get_set _ _ _ _ f E4), Z.eqb_refl. reflexivity.
    + intros g Ng. rewrite (vec_get_set _ _ _ _ g E4).
      destruct (Z.eqb_spec g f); [contradiction|reflexivity].
Qed.

Lemma FetchPgImp_miss fuel b page_id frame b' :
  PoolSpec.wf b -> PoolSpec.clock_ok b ->
  Find b page_id = Done None ->
  FetchPgImp fuel b page_id = Done (frame, b') ->
  PoolSpec.wf b' /\
  match frame with
  | None => free_list_ b = [] /\ b' = b
  | Some f =>
      Find b' page_id = Done (Some f) /\
      vec_get (pages_ b') f
      = Done (mkPage (DiskManager.ReadPage (disk_manager_ b') page_id) page_id 1 false) /\
      (exists pg,
         vec_get (pages_ b) f = Done pg /\
         pin_count_ pg = 0 /\
         disk_manager_ b'
         = (if is_dirty_ pg
            then DiskManager.WritePage (disk_manager_ b) (page_id_ pg) (data_ pg)
            else disk_manager_ b)) /\
      (forall g, g <> f -> vec_get (pages_ b') g = vec_get (pages_ b) g)
  end.
Proof.
  intros W C Hf H. unfold FetchPgImp in H. rewrite Hf in H. cbn [bind] in H.
  bind_step H. destruct a as [fr b1].
  destruct (acquire_frame_wf _ _ _ W E) as (W1 & Pg1 & Dk1 & Ts1 & Post).
  destruct fr as [f0|].
  - bind_step H. inversion H; subst frame b'; clear H.
    destruct Post as (NoMap & NotFree & Pin0).
    assert (C1 : PoolSpec.clock_ok b1) by (unfold PoolSpec.clock_ok in *; now rewrite Ts1).
    destruct (install_wf fuel b1 f0 _ _ a W1 C1 NoMap NotFree E0)
      as (W2 & Fk & _ & (pg & Hpg & Dk) & Hg & Ho & _).
    split; [exact W2|]. split; [exact Fk|]. split; [exact Hg|]. split.
    + exists pg. rewrite Pg1 in Hpg. split; [exact Hpg|].
      split; [exact (Pin0 pg Hpg)|]. rewrite Dk, Dk1. reflexivity.
    + intros g Ng. rewrite (Ho g Ng), Pg1. reflexivity.
  - inversion H; subst frame b'; clear H. subst b1.
    split; [exact W|]. split; [|reflexivity].
    unfold acquire_frame in E.
    destruct (free_list_ b); [reflexivity|discriminate].
Qed.

Lemma UnpinPgImp_wf b page_id is_dirty ok b' :
  PoolSpec.wf b -> UnpinPgImp b page_id is_dirty = Done (ok, b') -> PoolSpec.wf b'.
Proof.
  intros W H. unfold UnpinPgImp in H. bind_step H.
  destruct a as [f|]; [|inversion H; subst; exact W].
  bind_step H. rename a into pg. unfold GetPinCount in H.
  destruct (Z.eqb_spec (pin_count_ pg) 0) as [P0|P0]; [inversion H; subst; exact W|].
  psimpl. bind_step H. rename a into r1. bind_step H. rename a into ps.
  inversion H; subst ok b'; clear H.
  pose proof (PoolSpec.wf_replacer _ W) as WR.
  pose proof (PoolSpec.wf_pin_count _ W _ _ E0) as Pin.
  destruct (PoolSpec.wf_resident _ W _ _ E) as (pg0 & Hg0 & Hp0 & NotFree).
  apply (wf_update b f pg _ ps r1 W E0 E2).
  - destruct (is_dirty_ pg); reflexivity.
  - destruct (is_dirty_ pg); cbn [negb]; psimpl; lia.
  - destruct (pin_count_ pg - 1 =? 0).
    + now destruct (SetEvictable_flags _ _ _ _ WR E1).
    + now inversion E1; subst r1.
  - intros g Ng He. destruct (pin_count_ pg - 1 =? 0).
    + destruct (SetEvictable_flags _ _ _ _ WR E1) as (_ & _ & _ & Ot & _).
      now rewrite <- Ot.
    + now inversion E1; subst r1.
  - intros He. destruct (Z.eqb_spec (pin_count_ pg - 1) 0) as [P1|P1].
    + destruct (is_dirty_ pg); cbn [negb]; psimpl; exact P1.
    + inversion E1; subst r1. exfalso. apply P0.
      exact (PoolSpec.wf_evictable_frames _ W _ _ E0 He).
  - intros Hin. contradiction.
Qed.

Lemma wf_set_disk_manager b d : PoolSpec.wf b -> PoolSpec.wf (set_disk_manager b d).
Proof. intros [WT WR WL WM WF WFP WP WE]. constructor; psimpl; auto. Qed.

(** Marking the page of a frame clean. *)
Lemma wf_clean b f pg ps :
  PoolSpec.wf b -> vec_get (pages_ b) f = Done pg ->
  vec_set (pages_ b) f (mkPage (data_ pg) (page_id_ pg) (pin_count_ pg) false) = Done ps ->
  PoolSpec.wf (set_pages b ps).
Proof.
  intros W G S.
  assert (E : set_pages b ps = set_pages (set_replacer b (replacer_ b)) ps)
    by (now destruct b).
  rewrite E. apply (wf_update b f pg _ ps (replacer_ b) W G S); psimpl.
  - reflexivity.
  - exact (PoolSpec.wf_pin_count _ W _ _ G).
  - exact (PoolSpec.wf_replacer _ W).
  - auto.
  - exact (PoolSpec.wf_evictable_frames _ W _ _ G).
  - intros Hin. exact (PoolSpec.wf_free_frames _ W _ _ Hin G).
Qed.

Lemma FlushPgImp_spec b page_id ok b' :
  PoolSpec.wf b -> FlushPgImp b page_id = Done (ok, b') ->
  PoolSpec.wf b' /\
  page_table_ b' = page_table_ b /\ replacer_ b' = replacer_ b /\
  free_list_ b' = free_list_ b /\
  match Find b page_id with
  | Done (Some f) =>
      ok = true /\
      exists pg,
        vec_get (pages_ b) f = Done pg /\
        disk_manager_ b' = DiskManager.WritePage (disk_manager_ b) page_id (data_ pg) /\
        vec_get (pages_ b') f
        = Done (mkPage (data_ pg) (page_id_ pg) (pin_count_ pg) false) /\
        forall g, g <> f -> vec_get (pages_ b') g = vec_get (pages_ b) g
  | _ => ok = false /\ b' = b
  end.
Proof.
  intros W H. unfold FlushPgImp in H. bind_step H. rewrite E.
  destruct a as [f|]; [|inversion H; subst; split; [exact W|repeat split]].
  bind_step H. rename a into pg. psimpl. bind_step H. rename a into ps.
  inversion H; subst ok b'; clear H. unfold GetData in *.
  split.
  - apply (wf_clean _ f pg ps); psimpl; auto. now apply wf_set_disk_manager.
  - psimpl. do 3 (split; [reflexivity|]). split; [reflexivity|].
    exists pg. split; [exact E0|]. split; [reflexivity|]. split.
    + rewrite (vec_get_set _ _ _ _ f E1), Z.eqb_refl. reflexivity.
    + intros g Ng. rewrite (vec_get_set _ _ _ _ g E1).
      destruct (Z.eqb_spec g f); [contradiction|reflexivity].
Qed.

Lemma DeletePgImp_spec b page_id ok b' :
  PoolSpec.wf b -> DeletePgImp b page_id = Done (ok, b') ->
  PoolSpec.wf b' /\ disk_manager_ b' = disk_manager_ b /\
  match Find b page_id with
  | Done (Some f) =>
      exists pg,
        vec_get (pages_ b) f = Done pg /\
        if pin_count_ pg =? 0
        then ok = true /\
             Find b' page_id = Done None /\
             (forall pid, pid <> page_id -> Find b' pid = Find b pid) /\
             free_list_ b' = free_list_ b ++ [f] /\
             vec_get (pages_ b') f = Done fresh_page /\
             (forall g, g <> f -> vec_get (pages_ b') g = vec_get (pages_ b) g)
        else ok = false /\ b' = b
  | _ => ok = true /\ b' = b
  end.
Proof.
  intros W H. unfold DeletePgImp in H. bind_step H. rewrite E.
  destruct a as [f|]; [|inversion H; subst; split; [exact W|repeat split]].
  bind_step H. rename a into pg. unfold GetPinCount in H.
  destruct (Z.eqb_spec (pin_count_ pg) 0) as [P0|P0]; cbn [negb] in H.
  2:{ inversion H; subst ok b'. split; [exact W|]. split; [reflexivity|].
      exists pg. split; [exact E0|].
      destruct (Z.eqb_spec (pin_count_ pg) 0); [contradiction|auto]. }
  bind_step H. destruct a as [rm pt]. bind_step H. rename a into r1.
  psimpl. bind_step H. rename a into ps. inversion H; subst ok b'; clear H.
  destruct W as [WT WR WL WM WF WFP WP WE].
  destruct (TableFacts.Remove_spec Z Z Z.eqb hash_int Z.eqb_eq (page_table_ b)
              page_id WT)
    as (ok' & pt' & ER & WT' & _ & _ & _ & _ & Fn & Fo & _).
  rewrite E1 in ER. inversion ER; subst ok' pt'; clear ER.
  destruct (Remove_flags _ _ _ WR E2) as (W1 & Mono).
  destruct (WM _ _ E) as (pg0 & Hg0 & Hp0 & NotFree).
  rewrite E0 in Hg0. inversion Hg0; subst pg0; clear Hg0.
  split; [|split; [reflexivity|]].
  - constructor; psimpl.
    + exact WT'.
    + exact W1.
    + rewrite (vec_set_length _ _ _ _ E3). exact WL.
    + intros pid g Hf. destruct (Z.eq_dec pid page_id) as [->|N].
      * rewrite Fn in Hf. discriminate.
      * rewrite (Fo pid N) in Hf. destruct (WM pid g Hf) as (pg1 & Hg1 & Hp1 & Hn1).
        assert (Ng : g <> f).
        { intros ->. rewrite E0 in Hg1. inversion Hg1; subst pg1. congruence. }
        exists pg1. rewrite (vec_get_set _ _ _ _ g E3).
        destruct (Z.eqb_spec g f); [contradiction|].
        split; [exact Hg1|]. split; [exact Hp1|].
        rewrite in_app_iff. cbn [In]. intros [?|[?|[]]]; [contradiction|congruence].
    + apply NoDup_app; [exact WF|constructor; [intros []|constructor]|].
      intros x Hx [<-|[]]. contradiction.
    + intros g pg1 Hin Hg. rewrite (vec_get_set _ _ _ _ g E3) in Hg.
      destruct (Z.eqb_spec g f) as [->|Ng].
      * inversion Hg; subst pg1. reflexivity.
      * apply in_app_or in Hin. destruct Hin as [Hin|[<-|[]]]; [|contradiction].
        exact (WFP g pg1 Hin Hg).
    + intros g pg1 Hg. rewrite (vec_get_set _ _ _ _ g E3) in Hg.
      destruct (Z.eqb_spec g f) as [->|Ng].
      * inversion Hg; subst pg1. cbn. lia.
      * exact (WP g pg1 Hg).
    + intros g pg1 Hg He. rewrite (vec_get_set _ _ _ _ g E3) in Hg.
      destruct (Z.eqb_spec g f) as [->|Ng].
      * inversion Hg; subst pg1. reflexivity.
      * exact (WE g pg1 Hg (Mono _ He)).
  - exists pg. split; [exact E0|]. psimpl.
    destruct (Z.eqb_spec (pin_count_ pg) 0); [|contradiction].
    split; [reflexivity|]. split; [exact Fn|]. split; [exact Fo|].
    split; [reflexivity|]. split.
    + rewrite (vec_get_set _ _ _ _ f E3), Z.eqb_refl. reflexivity.
    + intros g Ng. rewrite (vec_get_set _ _ _ _ g E3).
      destruct (Z.eqb_spec g f); [contradiction|reflexivity].
Qed.


(** *** [FlushAllPgsImp] *)

Local Notation "'clean' pg" :=
  (mkPage (data_ pg) (page_id_ pg) (pin_count_ pg) false) (at level 10).

Ltac range_cases :=
  repeat match goal with
         | |- context [(?a <=? ?b)%nat] => destruct (Nat.leb_spec a b)
         | |- context [(?a <? ?b)%nat] => destruct (Nat.ltb_spec a b)
         end;
  cbn [andb negb]; try lia; try reflexivity; try assumption.

Lemma FlushAllPgs_loop_spec k : forall s b,
  PoolSpec.wf b -> (s + k <= length (pages_ b))%nat ->
  exists b',
    FlushAllPgs_loop b (seq s k) = Done b' /\
    PoolSpec.wf b' /\
    page_table_ b' = page_table_ b /\ replacer_ b' = replacer_ b /\
    free_list_ b' = free_list_ b /\ next_page_id_ b' = next_page_id_ b /\
    (forall i pg, nth_error (pages_ b) i = Some pg ->
       nth_error (pages_ b') i
       = Some (if (s <=? i)%nat && (i <? s + k)%nat
                  && negb (page_id_ pg =? INVALID_PAGE_ID)
               then clean pg else pg)) /\
    (forall page_id f pg,
       (s <= f < s + k)%nat -> nth_error (pages_ b) f = Some pg ->
       page_id_ pg = page_id -> page_id <> INVALID_PAGE_ID ->
       (forall g pg', (f < g < s + k)%nat -> nth_error (pages_ b) g = Some pg' ->
                      page_id_ pg' <> page_id) ->
       DiskManager.ReadPage (disk_manager_ b') page_id = data_ pg) /\
    (forall page_id,
       (forall g pg', (s <= g < s + k)%nat -> nth_error (pages_ b) g = Some pg' ->
                      page_id_ pg' <> page_id \/ page_id = INVALID_PAGE_ID) ->
       DiskManager.ReadPage (disk_manager_ b') page_id
       = DiskManager.ReadPage (disk_manager_ b) page_id).
Proof.
  induction k as [|k IH]; intros s b W Hk.
  - exists b. cbn [seq FlushAllPgs_loop]. split; [reflexivity|]. split; [exact W|].
    do 4 (split; [reflexivity|]). split; [|split].
    + intros i pg Hi. range_cases.
    + intros; lia.
    + reflexivity.
  - cbn [seq FlushAllPgs_loop].
    destruct (nth_error (pages_ b) s) as [pg0|] eqn:E0;
      [|apply nth_error_None in E0; lia].
    assert (G0 : vec_get (pages_ b) (Z.of_nat s) = Done pg0)
      by (apply vec_get_Done; rewrite Nat2Z.id; split; [lia|exact E0]).
    rewrite G0. cbn [bind].
    destruct (Z.eqb_spec (page_id_ pg0) INVALID_PAGE_ID) as [Inv|Val]; cbn [negb].
    + (* the frame holds no page *)
      destruct (IH (S s) b W ltac:(lia))
        as (b' & E & W' & Pt & Rp & Fl & Np & Pg & Dk1 & Dk2).
      exists b'. split; [exact E|]. split; [exact W'|].
      do 4 (split; [assumption|]). split; [|split].
      * intros i pg Hi. rewrite (Pg i pg Hi).
        destruct (Nat.eq_dec i s) as [->|Ni].
        -- rewrite E0 in Hi. inversion Hi; subst pg.
           destruct (Z.eqb_spec (page_id_ pg0) INVALID_PAGE_ID); [|contradiction].
           range_cases.
        -- destruct (page_id_ pg =? INVALID_PAGE_ID); range_cases.
      * intros pid f pg Hf Hg Hp Hv Last.
        assert (f <> s) by (intros ->; rewrite E0 in Hg; inversion Hg; congruence).
        apply (Dk1 pid f pg); auto; [lia|].
        intros g pg' Hg'. apply Last. lia.
      * intros pid No. apply Dk2. intros g pg' Hg'. apply No. lia.
    + (* the frame is written and marked clean *)
      unfold GetData. cbv zeta. psimpl.
      destruct (vec_set (pages_ b) (Z.of_nat s) (clean pg0)) as [ps| | |] eqn:S0;
        try (rewrite LRUKFacts.vec_set_nat in S0 by lia; discriminate).
      cbn [bind].
      set (b1 := set_pages
                   (set_disk_manager b
                      (DiskManager.WritePage (disk_manager_ b) (page_id_ pg0)
                         (data_ pg0))) ps).
      assert (W1 : PoolSpec.wf b1).
      { apply (wf_clean _ (Z.of_nat s) pg0 ps); psimpl; auto.
        now apply wf_set_disk_manager. }
      assert (P1 : forall i, nth_error (pages_ b1) i
                             = if Nat.eqb i s then Some (clean pg0)
                               else nth_error (pages_ b) i).
      { intros i. unfold b1. psimpl. apply vec_set_Done in S0.
        destruct S0 as (_ & Hl & ->). rewrite Nat2Z.id in *.
        destruct (Nat.eqb_spec i s) as [->|Ni].
        - now apply nth_error_list_set_eq.
        - now apply nth_error_list_set_neq. }
      assert (L1 : length (pages_ b1) = length (pages_ b)).
      { unfold b1. psimpl. exact (vec_set_length _ _ _ _ S0). }
      destruct (IH (S s) b1 W1 ltac:(lia))
        as (b' & E & W' & Pt & Rp & Fl & Np & Pg & Dk1 & Dk2).
      exists b'. split; [exact E|]. split; [exact W'|].
      do 4 (split; [assumption|]). split; [|split].
      * intros i pg Hi. destruct (Nat.eq_dec i s) as [->|Ni].
        -- rewrite E0 in Hi. inversion Hi; subst pg.
           rewrite (Pg s (clean pg0)) by (rewrite P1, Nat.eqb_refl; reflexivity).
           psimpl. destruct (Z.eqb_spec (page_id_ pg0) INVALID_PAGE_ID);
             [contradiction|]. range_cases.
        -- rewrite (Pg i pg)
             by (rewrite P1; destruct (Nat.eqb_spec i s); [contradiction|exact Hi]).
           destruct (page_id_ pg =? INVALID_PAGE_ID); range_cases.
      * intros pid f pg Hf Hg Hp Hv Last.
        destruct (Nat.eq_dec f s) as [->|Nf].
        -- rewrite E0 in Hg. inversion Hg; subst pg.
           rewrite (Dk2 pid).
           ++ unfold b1. psimpl. unfold DiskManager.WritePage.
              cbn [DiskManager.ReadPage]. rewrite Hp, Z.eqb_refl. reflexivity.
           ++ intros g pg' Hg' Hgp. left. rewrite P1 in Hgp.
              destruct (Nat.eqb_spec g s); [lia|].
              apply (Last g pg'); [lia|exact Hgp].
        -- apply (Dk1 pid f pg); auto; [lia| |].
           ++ rewrite P1. destruct (Nat.eqb_spec f s); [contradiction|exact Hg].
           ++ intros g pg' Hg' Hgp. rewrite P1 in Hgp.
              destruct (Nat.eqb_spec g s); [lia|].
              apply (Last g pg'); [lia|exact Hgp].
      * intros pid No. rewrite (Dk2 pid).
        -- unfold b1. psimpl. unfold DiskManager.WritePage.
           cbn [DiskManager.ReadPage].
           destruct (Z.eqb_spec (page_id_ pg0) pid) as [Ep|]; [|reflexivity].
           destruct (No s pg0 ltac:(lia) E0); congruence.
        -- intros g pg' Hg' Hgp. rewrite P1 in Hgp.
           destruct (Nat.eqb_spec g s); [lia|].
           apply (No g pg'); [lia|exact Hgp].
Qed.

(** *** The constructor, and the states a program reaches *)

Lemma Find_init bucket_size page_id :
  Table.Find Z Z Z.eqb hash_int (Table.init Z Z bucket_size) page_id = Done None.
Proof.
  unfold Table.Find, Table.IndexOf, Table.shl1, Table.init.
  cbn [Table.global_depth_ Z.leb Z.ltb Z.compare andb bind Z.shiftl Pos.iter Z.sub
       Z.add Z.opp Z.pos_sub].
  rewrite Z.land_0_r. reflexivity.
Qed.

Lemma NoDup_frames n s : NoDup (map Z.of_nat (seq s n)).
Proof.
  revert s; induction n as [|n IH]; intros s; cbn [seq map]; constructor.
  - intros H. apply in_map_iff in H. destruct H as (x & Ex & Hx).
    apply in_seq in Hx. lia.
  - apply IH.
Qed.

Lemma wf_init_pool pool_size replacer_k bucket_size disk :
  0 <= pool_size <= INT_MAX -> 1 <= replacer_k -> 0 <= bucket_size ->
  PoolSpec.wf (init pool_size replacer_k bucket_size disk).
Proof.
  intros Hp Hk Hb. unfold init.
  assert (Fresh : forall f pg,
             vec_get (repeat fresh_page (Z.to_nat pool_size)) f = Done pg ->
             pg = fresh_page).
  { intros f pg H. apply vec_get_Done in H. destruct H as (_ & H).
    apply nth_error_In in H. now apply repeat_spec in H. }
  constructor; psimpl.
  - now apply TableFacts.wf_init_table.
  - now apply LRUKFacts.wf_init.
  - rewrite repeat_length. lia.
  - intros pid f H. rewrite Find_init in H. discriminate.
  - apply NoDup_frames.
  - intros f pg _ H. now rewrite (Fresh f pg H).
  - intros f pg H. rewrite (Fresh f pg H). cbn. lia.
  - intros f pg H _. now rewrite (Fresh f pg H).
Qed.

Lemma reachable_wf_pool b : PoolSpec.reachable b -> PoolSpec.wf b.
Proof.
  induction 1 as [ps k bs disk Hp Hk Hb
                 |fuel b pid fr b' _ IH C E
                 |fuel b pid fr b' _ IH C E
                 |b pid d ok b' _ IH E
                 |b pid ok b' _ IH E
                 |b b' _ IH E
                 |b pid ok b' _ IH E].
  - now apply wf_init_pool.
  - now destruct (NewPgImp_spec fuel b pid fr b' IH C E).
  - destruct (Find_returns b pid IH) as ([f|] & F).
    + now destruct (FetchPgImp_hit fuel b pid f fr b' IH C F E) as (_ & W & _).
    + now destruct (FetchPgImp_miss fuel b pid fr b' IH C F E).
  - exact (UnpinPgImp_wf b pid d ok b' IH E).
  - now destruct (FlushPgImp_spec b pid ok b' IH E).
  - unfold FlushAllPgsImp in E.
    destruct (FlushAllPgs_loop_spec (Z.to_nat (pool_size_ b)) 0 b IH) as (b1 & E1 & W1 & _).
    + pose proof (PoolSpec.wf_pool_size _ IH). lia.
    + rewrite E in E1. inversion E1; subst. exact W1.
  - now destruct (DeletePgImp_spec b pid ok b' IH E).
Qed.


Lemma FlushPgImp_returns b page_id :
  PoolSpec.wf b -> exists ok b', FlushPgImp b page_id = Done (ok, b').
Proof.
  intros W. unfold FlushPgImp.
  destruct (Find_returns b page_id W) as ([f|] & F); rewrite F; cbn [bind];
    [|eexists; eexists; reflexivity].
  destruct (PoolSpec.wf_resident _ W _ _ F) as (pg & Hg & _).
  rewrite Hg. cbn [bind]. cbv zeta. psimpl.
  pose proof (vec_get_range _ _ _ Hg) as Rg.
  assert (Hl : (Z.to_nat f < length (pages_ b))%nat) by lia.
  rewrite (proj2 (vec_set_Done (pages_ b) f _ _) (conj (proj1 Rg) (conj Hl eq_refl))).
  eexists. eexists. reflexivity.
Qed.

Lemma FlushAllPgsImp_spec b :
  PoolSpec.wf b ->
  exists b',
    FlushAllPgsImp b = Done b' /\
    PoolSpec.wf b' /\
    page_table_ b' = page_table_ b /\ replacer_ b' = replacer_ b /\
    free_list_ b' = free_list_ b /\ next_page_id_ b' = next_page_id_ b /\
    (forall i pg, nth_error (pages_ b) i = Some pg ->
       nth_error (pages_ b') i
       = Some (if page_id_ pg =? INVALID_PAGE_ID then pg else clean pg)) /\
    (forall page_id f pg,
       page_id <> INVALID_PAGE_ID -> PoolSpec.last_holder b page_id f pg ->
       DiskManager.ReadPage (disk_manager_ b') page_id = data_ pg) /\
    (forall page_id,
       (forall f pg, nth_error (pages_ b) f = Some pg -> page_id_ pg <> page_id) ->
       DiskManager.ReadPage (disk_manager_ b') page_id
       = DiskManager.ReadPage (disk_manager_ b) page_id).
Proof.
  intros W. pose proof (PoolSpec.wf_pool_size _ W) as L.
  unfold FlushAllPgsImp.
  destruct (FlushAllPgs_loop_spec (Z.to_nat (pool_size_ b)) 0 b W ltac:(lia))
    as (b' & E & W' & Pt & Rp & Fl & Np & Pg & Dk1 & Dk2).
  exists b'. split; [exact E|]. split; [exact W'|].
  do 4 (split; [assumption|]). split; [|split].
  - intros i pg Hi. rewrite (Pg i pg Hi).
    assert (i < length (pages_ b))%nat by (apply nth_error_Some; congruence).
    destruct (page_id_ pg =? INVALID_PAGE_ID); range_cases.
  - intros pid f pg Hv (Hg & Hp & Last).
    assert (f < length (pages_ b))%nat by (apply nth_error_Some; congruence).
    apply (Dk1 pid f pg); auto; [lia|].
    intros g pg' Hg'. apply Last. lia.
  - intros pid No. apply Dk2. intros g pg' _ Hg'. left. exact (No g pg' Hg').
Qed.

End PoolFacts.

(** The example pools are states of a run. *)
Lemma reachable_pool1 : PoolSpec.reachable PoolStates.pool1.
Proof.
  apply PoolSpec.reach_init; [vm_compute; split; discriminate|lia|lia].
Defined.

Lemma reachable_pool1_new : PoolSpec.reachable PoolStates.pool1_new.
Proof.
  apply (PoolSpec.reach_NewPgImp 10 PoolStates.pool1 0 (Some 0)).
  - exact reachable_pool1.
  - vm_compute; reflexivity.
  - vm_compute; reflexivity.
Defined.

Lemma reachable_pool1_full : PoolSpec.reachable PoolStates.pool1_full.
Proof.
  apply (PoolSpec.reach_NewPgImp 10 PoolStates.pool1_new 1 None).
  - exact reachable_pool1_new.
  - vm_compute; reflexivity.
  - vm_compute; reflexivity.
Defined.

Lemma reachable_pool1_unpinned : PoolSpec.reachable PoolStates.pool1_unpinned.
Proof.
  apply (PoolSpec.reach_UnpinPgImp PoolStates.pool1_full 0 true true).
  - exact reachable_pool1_full.
  - vm_compute; reflexivity.
Defined.

(* ================================================================== *)
(** ** The buffer pool and its page table, replacer and free list      *)
(* ================================================================== *)

(** X24.  In every state the pool reaches from its constructor, the lookup
    of a page id in the page table returns, and a page id that the page
    table knows is mapped to a frame of the pool that holds the page with
    this id and that is not on the free list. *)
Theorem X24_the_page_table_points_at_the_frame_of_the_page
  (b : BufferPoolManagerInstance.t) (page_id : Z) :
  PoolSpec.reachable b ->
  (exists r, BufferPoolManagerInstance.Find b page_id = Done r) /\
  forall f, BufferPoolManagerInstance.Find b page_id = Done (Some f) ->
    exists pg,
      vec_get (BufferPoolManagerInstance.pages_ b) f = Done pg /\
      BufferPoolManagerInstance.page_id_ pg = page_id /\
      ~ In f (BufferPoolManagerInstance.free_list_ b).
Proof.
  intros R. pose proof (PoolFacts.reachable_wf_pool b R) as W.
  split; [exact (PoolFacts.Find_returns b page_id W)|].
  intros f. exact (PoolSpec.wf_resident _ W page_id f).
Qed.

Lemma X24_the_page_table_points_at_the_frame_of_the_page_witness :
  (exists r, BufferPoolManagerInstance.Find PoolStates.pool1_unpinned 0 = Done r) /\
  forall f, BufferPoolManagerInstance.Find PoolStates.pool1_unpinned 0 = Done (Some f) ->
    exists pg,
      vec_get (BufferPoolManagerInstance.pages_ PoolStates.pool1_unpinned) f = Done pg /\
      BufferPoolManagerInstance.page_id_ pg = 0 /\
      ~ In f (BufferPoolManagerInstance.free_list_ PoolStates.pool1_unpinned).
Proof.
  apply (X24_the_page_table_points_at_the_frame_of_the_page PoolStates.pool1_unpinned 0).
  exact reachable_pool1_unpinned.
Defined.

(** X25.  In every state the pool reaches, a frame on the free list and a
    frame the replacer may evict have pin count 0, and no pin count is
    negative.  So the frame [NewPgImp] hands out, and the frame
    [FetchPgImp] hands out for a page that is not resident, held a page
    that nobody had pinned. *)
Theorem X25_only_unpinned_frames_are_reused (b : BufferPoolManagerInstance.t) :
  PoolSpec.reachable b ->
  (forall f pg,
     vec_get (BufferPoolManagerInstance.pages_ b) f = Done pg ->
     0 <= BufferPoolManagerInstance.pin_count_ pg /\
     (In f (BufferPoolManagerInstance.free_list_ b) \/
      LRUKSpec.frame_evictable (BufferPoolManagerInstance.replacer_ b) (Z.to_nat f) = true ->
      BufferPoolManagerInstance.pin_count_ pg = 0)) /\
  (forall fuel page_id f b' pg,
     PoolSpec.clock_ok b ->
     BufferPoolManagerInstance.NewPgImp fuel b = Done (page_id, Some f, b') ->
     vec_get (BufferPoolManagerInstance.pages_ b) f = Done pg ->
     BufferPoolManagerInstance.pin_count_ pg = 0) /\
  (forall fuel page_id f b' pg,
     PoolSpec.clock_ok b ->
     BufferPoolManagerInstance.Find b page_id = Done None ->
     BufferPoolManagerInstance.FetchPgImp fuel b page_id = Done (Some f, b') ->
     vec_get (BufferPoolManagerInstance.pages_ b) f = Done pg ->
     BufferPoolManagerInstance.pin_count_ pg = 0).
Proof.
  intros R. pose proof (PoolFacts.reachable_wf_pool b R) as W.
  split; [|split].
  - intros f pg Hg. split; [exact (PoolSpec.wf_pin_count _ W f pg Hg)|].
    intros [Hin|He].
    + exact (PoolSpec.wf_free_frames _ W f pg Hin Hg).
    + exact (PoolSpec.wf_evictable_frames _ W f pg Hg He).
  - intros fuel pid f b' pg C E Hg.
    destruct (PoolFacts.NewPgImp_spec fuel b pid (Some f) b' W C E)
      as (_ & _ & _ & P0 & _).
    exact (P0 pg Hg).
  - intros fuel pid f b' pg C F E Hg.
    destruct (PoolFacts.FetchPgImp_miss fuel b pid (Some f) b' W C F E)
      as (_ & _ & _ & (old & Ho & P0 & _) & _).
    rewrite Hg in Ho. inversion Ho; subst old. exact P0.
Qed.

Lemma X25_only_unpinned_frames_are_reused_witness :
  BufferPoolManagerInstance.NewPgImp 10 PoolStates.pool1_unpinned
  = Done (2, Some 0, PoolStates.pool1_again) /\
  forall pg,
    vec_get (BufferPoolManagerInstance.pages_ PoolStates.pool1_unpinned) 0 = Done pg ->
    BufferPoolManagerInstance.pin_count_ pg = 0.
Proof.
  split; [vm_compute; reflexivity|]. intros pg.
  apply (proj1 (proj2 (X25_only_unpinned_frames_are_reused PoolStates.pool1_unpinned
                         reachable_pool1_unpinned))
           10%nat 2 0 PoolStates.pool1_again pg).
  - vm_compute; reflexivity.
  - vm_compute; reflexivity.
Defined.

(** X26.  When [NewPgImp] returns a frame in a state the pool reaches, the
    page id it hands out is the value of the counter, the page table maps
    this id to the frame, the frame holds a zeroed page with this id that
    is pinned once and clean, and the page of no other frame has
    changed. *)
Theorem X26_NewPgImp_installs_a_zeroed_pinned_page
  (fuel : nat) (b : BufferPoolManagerInstance.t) (page_id f : Z)
  (b' : BufferPoolManagerInstance.t) :
  PoolSpec.reachable b -> PoolSpec.clock_ok b ->
  BufferPoolManagerInstance.NewPgImp fuel b = Done (page_id, Some f, b') ->
  page_id = BufferPoolManagerInstance.next_page_id_ b /\
  BufferPoolManagerInstance.Find b' page_id = Done (Some f) /\
  vec_get (BufferPoolManagerInstance.pages_ b') f
  = Done (BufferPoolManagerInstance.mkPage ZeroData page_id 1 false) /\
  forall g, g <> f ->
    vec_get (BufferPoolManagerInstance.pages_ b') g
    = vec_get (BufferPoolManagerInstance.pages_ b) g.
Proof.
  intros R C E. pose proof (PoolFacts.reachable_wf_pool b R) as W.
  destruct (PoolFacts.NewPgImp_spec fuel b page_id (Some f) b' W C E)
    as (_ & F & Hg & _ & Ho).
  destruct (BufferPoolFacts.NewPgImp_advances fuel b page_id (Some f) b' E) as (Ep & _).
  split; [exact Ep|]. split; [exact F|]. split; [exact Hg|exact Ho].
Qed.

Lemma X26_NewPgImp_installs_a_zeroed_pinned_page_witness :
  2 = BufferPoolManagerInstance.next_page_id_ PoolStates.pool1_unpinned /\
  BufferPoolManagerInstance.Find PoolStates.pool1_again 2 = Done (Some 0) /\
  vec_get (BufferPoolManagerInstance.pages_ PoolStates.pool1_again) 0
  = Done (BufferPoolManagerInstance.mkPage ZeroData 2 1 false) /\
  forall g, g <> 0 ->
    vec_get (BufferPoolManagerInstance.pages_ PoolStates.pool1_again) g
    = vec_get (BufferPoolManagerInstance.pages_ PoolStates.pool1_unpinned) g.
Proof.
  apply (X26_NewPgImp_installs_a_zeroed_pinned_page 10 PoolStates.pool1_unpinned 2 0
           PoolStates.pool1_again).
  - exact reachable_pool1_unpinned.
  - vm_compute; reflexivity.
  - vm_compute; reflexivity.
Defined.

(** X27.  When [FetchPgImp] returns a frame in a state the pool reaches,
    the page table maps the page id to that frame and the frame holds a
    page with this id that is pinned.  For a resident page it is the frame
    the page was in, with the same bytes and dirty flag and one pin more,
    and the disk is not touched; for a page that was not resident the
    frame holds the bytes the disk has for the page, pinned once and
    clean, and the bytes of a dirty page that was in the frame have been
    written to the disk first. *)
Theorem X27_FetchPgImp_returns_the_page_pinned
  (fuel : nat) (b : BufferPoolManagerInstance.t) (page_id f : Z)
  (b' : BufferPoolManagerInstance.t) :
  PoolSpec.reachable b -> PoolSpec.clock_ok b ->
  BufferPoolManagerInstance.FetchPgImp fuel b page_id = Done (Some f, b') ->
  BufferPoolManagerInstance.Find b' page_id = Done (Some f) /\
  exists old new,
    vec_get (BufferPoolManagerInstance.pages_ b) f = Done old /\
    vec_get (BufferPoolManagerInstance.pages_ b') f = Done new /\
    BufferPoolManagerInstance.page_id_ new = page_id /\
    1 <= BufferPoolManagerInstance.pin_count_ new /\
    (forall f0, BufferPoolManagerInstance.Find b page_id = Done (Some f0) ->
       f = f0 /\
       BufferPoolManagerInstance.disk_manager_ b'
       = BufferPoolManagerInstance.disk_manager_ b /\
       new = BufferPoolManagerInstance.mkPage
               (BufferPoolManagerInstance.data_ old) page_id
               (BufferPoolManagerInstance.pin_count_ old + 1)
               (BufferPoolManagerInstance.is_dirty_ old)) /\
    (BufferPoolManagerInstance.Find b page_id = Done None ->
       BufferPoolManagerInstance.disk_manager_ b'
       = (if BufferPoolManagerInstance.is_dirty_ old
          then DiskManager.WritePage (BufferPoolManagerInstance.disk_manager_ b)
                 (BufferPoolManagerInstance.page_id_ old)
                 (BufferPoolManagerInstance.data_ old)
          else BufferPoolManagerInstance.disk_manager_ b) /\
       new = BufferPoolManagerInstance.mkPage
               (DiskManager.ReadPage (BufferPoolManagerInstance.disk_manager_ b') page_id)
               page_id 1 false).
Proof.
  intros R C E. pose proof (PoolFacts.reachable_wf_pool b R) as W.
  destruct (PoolFacts.Find_returns b page_id W) as ([f0|] & F).
  - destruct (PoolFacts.FetchPgImp_hit fuel b page_id f0 (Some f) b' W C F E)
      as (Ef & W' & Pt & Dk & _ & pg & Hg & Hg' & _).
    inversion Ef; subst f0; clear Ef.
    destruct (PoolSpec.wf_resident _ W _ _ F) as (pg0 & Hg0 & Hp0 & _).
    rewrite Hg in Hg0. inversion Hg0; subst pg0; clear Hg0.
    pose proof (PoolSpec.wf_pin_count _ W _ _ Hg) as Pin.
    split.
    + unfold BufferPoolManagerInstance.Find in *. rewrite Pt. exact F.
    + eexists. eexists. split; [exact Hg|]. split; [exact Hg'|].
      cbn [BufferPoolManagerInstance.page_id_ BufferPoolManagerInstance.pin_count_].
      split; [exact Hp0|]. split; [lia|]. split.
      * intros f1 F1. rewrite F in F1. inversion F1; subst f1.
        split; [reflexivity|]. split; [exact Dk|]. now rewrite Hp0.
      * intros F1. rewrite F in F1. discriminate.
  - destruct (PoolFacts.FetchPgImp_miss fuel b page_id (Some f) b' W C F E)
      as (W' & F' & Hg' & (old & Hg & _ & Dk) & _).
    split; [exact F'|].
    eexists. eexists. split; [exact Hg|]. split; [exact Hg'|].
    cbn [BufferPoolManagerInstance.page_id_ BufferPoolManagerInstance.pin_count_].
    split; [reflexivity|]. split; [lia|]. split.
    + intros f1 F1. rewrite F in F1. discriminate.
    + intros _. split; [exact Dk|reflexivity].
Qed.

Lemma X27_FetchPgImp_returns_the_page_pinned_witness :
  BufferPoolManagerInstance.Find
    (PoolStates.state_of (BufferPoolManagerInstance.FetchPgImp 10 PoolStates.pool1_unpinned 7)
       PoolStates.pool1) 7 = Done (Some 0) /\
  exists old new,
    vec_get (BufferPoolManagerInstance.pages_ PoolStates.pool1_unpinned) 0 = Done old /\
    vec_get (BufferPoolManagerInstance.pages_
               (PoolStates.state_of
                  (BufferPoolManagerInstance.FetchPgImp 10 PoolStates.pool1_unpinned 7)
                  PoolStates.pool1)) 0 = Done new /\
    BufferPoolManagerInstance.page_id_ new = 7 /\
    1 <= BufferPoolManagerInstance.pin_count_ new /\
    (forall f0, BufferPoolManagerInstance.Find PoolStates.pool1_unpinned 7 = Done (Some f0) ->
       0 = f0 /\
       BufferPoolManagerInstance.disk_manager_
         (PoolStates.state_of
            (BufferPoolManagerInstance.FetchPgImp 10 PoolStates.pool1_unpinned 7)
            PoolStates.pool1)
       = BufferPoolManagerInstance.disk_manager_ PoolStates.pool1_unpinned /\
       new = BufferPoolManagerInstance.mkPage
               (BufferPoolManagerInstance.data_ old) 7
               (BufferPoolManagerInstance.pin_count_ old + 1)
               (BufferPoolManagerInstance.is_dirty_ old)) /\
    (BufferPoolManagerInstance.Find PoolStates.pool1_unpinned 7 = Done None ->
       BufferPoolManagerInstance.disk_manager_
         (PoolStates.state_of
            (BufferPoolManagerInstance.FetchPgImp 10 PoolStates.pool1_unpinned 7)
            PoolStates.pool1)
       = (if BufferPoolManagerInstance.is_dirty_ old
          then DiskManager.WritePage
                 (BufferPoolManagerInstance.disk_manager_ PoolStates.pool1_unpinned)
                 (BufferPoolManagerInstance.page_id_ old)
                 (BufferPoolManagerInstance.data_ old)
          else BufferPoolManagerInstance.disk_manager_ PoolStates.pool1_unpinned) /\
       new = BufferPoolManagerInstance.mkPage
               (DiskManager.ReadPage
                  (BufferPoolManagerInstance.disk_manager_
                     (PoolStates.state_of
                        (BufferPoolManagerInstance.FetchPgImp 10 PoolStates.pool1_unpinned 7)
                        PoolStates.pool1)) 7)
               7 1 false).
Proof.
  apply (X27_FetchPgImp_returns_the_page_pinned 10 PoolStates.pool1_unpinned 7 0).
  - exact reachable_pool1_unpinned.
  - vm_compute; reflexivity.
  - vm_compute; reflexivity.
Defined.

(** X28.  [DeletePgImp] never writes to the disk, whether or not the page
    is dirty.  In a state the pool reaches, a call that returns gives
    [true] and changes nothing for a page that is not resident, gives
    [false] and changes nothing for a pinned page, and for a resident page
    that is not pinned gives [true]: afterwards the page table no longer
    knows the page and maps every other page id as before, the frame is
    reset and is the last element of the free list. *)
Theorem X28_DeletePgImp_frees_the_frame_of_an_unpinned_page
  (b : BufferPoolManagerInstance.t) (page_id : Z) (ok : bool)
  (b' : BufferPoolManagerInstance.t) :
  PoolSpec.reachable b ->
  BufferPoolManagerInstance.DeletePgImp b page_id = Done (ok, b') ->
  BufferPoolManagerInstance.disk_manager_ b' = BufferPoolManagerInstance.disk_manager_ b /\
  (BufferPoolManagerInstance.Find b page_id = Done None -> ok = true /\ b' = b) /\
  (forall f, BufferPoolManagerInstance.Find b page_id = Done (Some f) ->
     exists pg,
       vec_get (BufferPoolManagerInstance.pages_ b) f = Done pg /\
       (BufferPoolManagerInstance.pin_count_ pg <> 0 -> ok = false /\ b' = b) /\
       (BufferPoolManagerInstance.pin_count_ pg = 0 ->
          ok = true /\
          BufferPoolManagerInstance.Find b' page_id = Done None /\
          (forall pid, pid <> page_id ->
             BufferPoolManagerInstance.Find b' pid = BufferPoolManagerInstance.Find b pid) /\
          BufferPoolManagerInstance.free_list_ b'
          = BufferPoolManagerInstance.free_list_ b ++ [f] /\
          vec_get (BufferPoolManagerInstance.pages_ b') f
          = Done BufferPoolManagerInstance.fresh_page /\
          forall g, g <> f ->
            vec_get (BufferPoolManagerInstance.pages_ b') g
            = vec_get (BufferPoolManagerInstance.pages_ b) g)).
Proof.
  intros R E. pose proof (PoolFacts.reachable_wf_pool b R) as W.
  destruct (PoolFacts.DeletePgImp_spec b page_id ok b' W E) as (_ & Dk & M).
  split; [exact Dk|]. split.
  - intros F. rewrite F in M. exact M.
  - intros f F. rewrite F in M. destruct M as (pg & Hg & M).
    exists pg. split; [exact Hg|].
    destruct (Z.eqb_spec (BufferPoolManagerInstance.pin_count_ pg) 0) as [P0|P0].
    + split; [contradiction|]. intros _. exact M.
    + split; [intros _; exact M|contradiction].
Qed.

Lemma X28_DeletePgImp_frees_the_frame_of_an_unpinned_page_witness :
  BufferPoolManagerInstance.disk_manager_
    (PoolStates.state_of
       (BufferPoolManagerInstance.DeletePgImp PoolStates.pool1_unpinned 0) PoolStates.pool1)
  = BufferPoolManagerInstance.disk_manager_ PoolStates.pool1_unpinned /\
  (BufferPoolManagerInstance.Find PoolStates.pool1_unpinned 0 = Done None ->
   true = true /\
   PoolStates.state_of
     (BufferPoolManagerInstance.DeletePgImp PoolStates.pool1_unpinned 0) PoolStates.pool1
   = PoolStates.pool1_unpinned) /\
  (forall f, BufferPoolManagerInstance.Find PoolStates.pool1_unpinned 0 = Done (Some f) ->
     exists pg,
       vec_get (BufferPoolManagerInstance.pages_ PoolStates.pool1_unpinned) f = Done pg /\
       (BufferPoolManagerInstance.pin_count_ pg <> 0 ->
        true = false /\
        PoolStates.state_of
          (BufferPoolManagerInstance.DeletePgImp PoolStates.pool1_unpinned 0)
          PoolStates.pool1
        = PoolStates.pool1_unpinned) /\
       (BufferPoolManagerInstance.pin_count_ pg = 0 ->
          true = true /\
          BufferPoolManagerInstance.Find
            (PoolStates.state_of
               (BufferPoolManagerInstance.DeletePgImp PoolStates.pool1_unpinned 0)
               PoolStates.pool1) 0 = Done None /\
          (forall pid, pid <> 0 ->
             BufferPoolManagerInstance.Find
               (PoolStates.state_of
                  (BufferPoolManagerInstance.DeletePgImp PoolStates.pool1_unpinned 0)
                  PoolStates.pool1) pid
             = BufferPoolManagerInstance.Find PoolStates.pool1_unpinned pid) /\
          BufferPoolManagerInstance.free_list_
            (PoolStates.state_of
               (BufferPoolManagerInstance.DeletePgImp PoolStates.pool1_unpinned 0)
               PoolStates.pool1)
          = BufferPoolManagerInstance.free_list_ PoolStates.pool1_unpinned ++ [f] /\
          vec_get (BufferPoolManagerInstance.pages_
                     (PoolStates.state_of
                        (BufferPoolManagerInstance.DeletePgImp PoolStates.pool1_unpinned 0)
                        PoolStates.pool1)) f
          = Done BufferPoolManagerInstance.fresh_page /\
          forall g, g <> f ->
            vec_get (BufferPoolManagerInstance.pages_
                       (PoolStates.state_of
                          (BufferPoolManagerInstance.DeletePgImp PoolStates.pool1_unpinned 0)
                          PoolStates.pool1)) g
            = vec_get (BufferPoolManagerInstance.pages_ PoolStates.pool1_unpinned) g)).
Proof.
  apply (X28_DeletePgImp_frees_the_frame_of_an_unpinned_page
           PoolStates.pool1_unpinned 0 true).
  - exact reachable_pool1_unpinned.
  - vm_compute; reflexivity.
Defined.

(** X29.  In every state the pool reaches [FlushPgImp] returns.  For a
    page that is not resident it gives [false] and changes nothing.  For a
    resident page it gives [true]: the disk then reads, for this page id,
    the bytes of the frame; the frame keeps its bytes, page id and pin
    count and is clean; the page table, the replacer, the free list and
    the pages of the other frames are as before. *)
Theorem X29_FlushPgImp_writes_the_frame_to_the_disk
  (b : BufferPoolManagerInstance.t) (page_id : Z) :
  PoolSpec.reachable b ->
  exists ok b',
    BufferPoolManagerInstance.FlushPgImp b page_id = Done (ok, b') /\
    BufferPoolManagerInstance.page_table_ b' = BufferPoolManagerInstance.page_table_ b /\
    BufferPoolManagerInstance.replacer_ b' = BufferPoolManagerInstance.replacer_ b /\
    BufferPoolManagerInstance.free_list_ b' = BufferPoolManagerInstance.free_list_ b /\
    (BufferPoolManagerInstance.Find b page_id = Done None -> ok = false /\ b' = b) /\
    (forall f, BufferPoolManagerInstance.Find b page_id = Done (Some f) ->
       ok = true /\
       exists pg,
         vec_get (BufferPoolManagerInstance.pages_ b) f = Done pg /\
         DiskManager.ReadPage (BufferPoolManagerInstance.disk_manager_ b') page_id
         = BufferPoolManagerInstance.data_ pg /\
         vec_get (BufferPoolManagerInstance.pages_ b') f
         = Done (BufferPoolManagerInstance.mkPage
                   (BufferPoolManagerInstance.data_ pg) page_id
                   (BufferPoolManagerInstance.pin_count_ pg) false) /\
         forall g, g <> f ->
           vec_get (BufferPoolManagerInstance.pages_ b') g
           = vec_get (BufferPoolManagerInstance.pages_ b) g).
Proof.
  intros R. pose proof (PoolFacts.reachable_wf_pool b R) as W.
  destruct (PoolFacts.FlushPgImp_returns b page_id W) as (ok & b' & E).
  exists ok, b'. split; [exact E|].
  destruct (PoolFacts.FlushPgImp_spec b page_id ok b' W E) as (_ & Pt & Rp & Fl & M).
  do 3 (split; [assumption|]). split.
  - intros F. rewrite F in M. exact M.
  - intros f F. rewrite F in M. destruct M as (Ok & pg & Hg & Dk & Hg' & Ho).
    split; [exact Ok|]. exists pg. split; [exact Hg|].
    destruct (PoolSpec.wf_resident _ W _ _ F) as (pg0 & Hg0 & Hp0 & _).
    rewrite Hg in Hg0. inversion Hg0; subst pg0; clear Hg0.
    split; [|split; [rewrite <- Hp0; exact Hg'|exact Ho]].
    rewrite Dk. unfold DiskManager.WritePage. cbn [DiskManager.ReadPage].
    now rewrite Z.eqb_refl.
Qed.

Lemma X29_FlushPgImp_writes_the_frame_to_the_disk_witness :
  exists ok b',
    BufferPoolManagerInstance.FlushPgImp PoolStates.pool1_unpinned 0 = Done (ok, b') /\
    BufferPoolManagerInstance.page_table_ b'
    = BufferPoolManagerInstance.page_table_ PoolStates.pool1_unpinned /\
    BufferPoolManagerInstance.replacer_ b'
    = BufferPoolManagerInstance.replacer_ PoolStates.pool1_unpinned /\
    BufferPoolManagerInstance.free_list_ b'
    = BufferPoolManagerInstance.free_list_ PoolStates.pool1_unpinned /\
    (BufferPoolManagerInstance.Find PoolStates.pool1_unpinned 0 = Done None ->
     ok = false /\ b' = PoolStates.pool1_unpinned) /\
    (forall f, BufferPoolManagerInstance.Find PoolStates.pool1_unpinned 0 = Done (Some f) ->
       ok = true /\
       exists pg,
         vec_get (BufferPoolManagerInstance.pages_ PoolStates.pool1_unpinned) f = Done pg /\
         DiskManager.ReadPage (BufferPoolManagerInstance.disk_manager_ b') 0
         = BufferPoolManagerInstance.data_ pg /\
         vec_get (BufferPoolManagerInstance.pages_ b') f
         = Done (BufferPoolManagerInstance.mkPage
                   (BufferPoolManagerInstance.data_ pg) 0
                   (BufferPoolManagerInstance.pin_count_ pg) false) /\
         forall g, g <> f ->
           vec_get (BufferPoolManagerInstance.pages_ b') g
           = vec_get (BufferPoolManagerInstance.pages_ PoolStates.pool1_unpinned) g).
Proof.
  apply (X29_FlushPgImp_writes_the_frame_to_the_disk PoolStates.pool1_unpinned 0).
  exact reachable_pool1_unpinned.
Defined.

(** X30.  In every state the pool reaches [FlushAllPgsImp] returns.  It
    leaves the page table, the replacer and the free list alone; every
    frame whose page id is not [INVALID_PAGE_ID] keeps its bytes, page id
    and pin count and is clean, the other frames are untouched.  For a
    page id other than [INVALID_PAGE_ID] the disk then reads the bytes of
    the last frame that holds a page with this id, and for a page id that
    no frame holds it reads what it read before. *)
Theorem X30_FlushAllPgsImp_writes_every_page_in_a_frame
  (b : BufferPoolManagerInstance.t) :
  PoolSpec.reachable b ->
  exists b',
    BufferPoolManagerInstance.FlushAllPgsImp b = Done b' /\
    BufferPoolManagerInstance.page_table_ b' = BufferPoolManagerInstance.page_table_ b /\
    BufferPoolManagerInstance.replacer_ b' = BufferPoolManagerInstance.replacer_ b /\
    BufferPoolManagerInstance.free_list_ b' = BufferPoolManagerInstance.free_list_ b /\
    (forall i pg, nth_error (BufferPoolManagerInstance.pages_ b) i = Some pg ->
       nth_error (BufferPoolManagerInstance.pages_ b') i
       = Some (if BufferPoolManagerInstance.page_id_ pg =? INVALID_PAGE_ID then pg
               else BufferPoolManagerInstance.mkPage
                      (BufferPoolManagerInstance.data_ pg)
                      (BufferPoolManagerInstance.page_id_ pg)
                      (BufferPoolManagerInstance.pin_count_ pg) false)) /\
    (forall page_id f pg,
       page_id <> INVALID_PAGE_ID -> PoolSpec.last_holder b page_id f pg ->
       DiskManager.ReadPage (BufferPoolManagerInstance.disk_manager_ b') page_id
       = BufferPoolManagerInstance.data_ pg) /\
    (forall page_id,
       (forall f pg, nth_error (BufferPoolManagerInstance.pages_ b) f = Some pg ->
                     BufferPoolManagerInstance.page_id_ pg <> page_id) ->
       DiskManager.ReadPage (BufferPoolManagerInstance.disk_manager_ b') page_id
       = DiskManager.ReadPage (BufferPoolManagerInstance.disk_manager_ b) page_id).
Proof.
  intros R. pose proof (PoolFacts.reachable_wf_pool b R) as W.
  destruct (PoolFacts.FlushAllPgsImp_spec b W)
    as (b' & E & _ & Pt & Rp & Fl & _ & Pg & Dk1 & Dk2).
  exists b'. split; [exact E|]. do 3 (split; [assumption|]).
  split; [exact Pg|]. split; [exact Dk1|exact Dk2].
Qed.

Lemma X30_FlushAllPgsImp_writes_every_page_in_a_frame_witness :
  exists b',
    BufferPoolManagerInstance.FlushAllPgsImp PoolStates.pool1_unpinned = Done b' /\
    BufferPoolManagerInstance.page_table_ b'
    = BufferPoolManagerInstance.page_table_ PoolStates.pool1_unpinned /\
    BufferPoolManagerInstance.replacer_ b'
    = BufferPoolManagerInstance.replacer_ PoolStates.pool1_unpinned /\
    BufferPoolManagerInstance.free_list_ b'
    = BufferPoolManagerInstance.free_list_ PoolStates.pool1_unpinned /\
    (forall i pg,
       nth_error (BufferPoolManagerInstance.pages_ PoolStates.pool1_unpinned) i = Some pg ->
       nth_error (BufferPoolManagerInstance.pages_ b') i
       = Some (if BufferPoolManagerInstance.page_id_ pg =? INVALID_PAGE_ID then pg
               else BufferPoolManagerInstance.mkPage
                      (BufferPoolManagerInstance.data_ pg)
                      (BufferPoolManagerInstance.page_id_ pg)
                      (BufferPoolManagerInstance.pin_count_ pg) false)) /\
    (forall page_id f pg,
       page_id <> INVALID_PAGE_ID ->
       PoolSpec.last_holder PoolStates.pool1_unpinned page_id f pg ->
       DiskManager.ReadPage (BufferPoolManagerInstance.disk_manager_ b') page_id
       = BufferPoolManagerInstance.data_ pg) /\
    (forall page_id,
       (forall f pg,
          nth_error (BufferPoolManagerInstance.pages_ PoolStates.pool1_unpinned) f = Some pg ->
          BufferPoolManagerInstance.page_id_ pg <> page_id) ->
       DiskManager.ReadPage (BufferPoolManagerInstance.disk_manager_ b') page_id
       = DiskManager.ReadPage
           (BufferPoolManagerInstance.disk_manager_ PoolStates.pool1_unpinned) page_id).
Proof.
  apply (X30_FlushAllPgsImp_writes_every_page_in_a_frame PoolStates.pool1_unpinned).
  exact reachable_pool1_unpinned.
Defined.
